(** * The HTTP rule engine of godoxy: parser helpers, validator and executor

    A shallow embedding of [internal/route/rules]: the Go functions are
    transcribed as Rocq functions over byte strings, the per-request
    mutable objects (request, response modifier) are passed explicitly,
    and run-time panics are an outcome of their own.

    Go strings are byte sequences: [string] with one [ascii] per byte.
    Where the source ranges over a string by rune, or trims by
    [unicode.IsSpace], the UTF-8 decoding of the Go run time is modelled
    (section "Go run time"). *)

From Stdlib Require Import ZArith Lia Bool List Ascii Permutation.
From stdpp Require Import gmap strings.

Local Open Scope Z_scope.

(* ===================================================================== *)
(** * Go run time: bytes, runes, UTF-8 *)
(* ===================================================================== *)

Module Go.

(** The numeric value of a byte. *)
Definition byteZ (c : ascii) : Z := Z.of_N (N_of_ascii c).
Definition byte_of (z : Z) : ascii := ascii_of_N (Z.to_N z).

(** A rune is an [int32]; every rune the code below handles is a decoded
    code point or a literal, so it is kept as an unbounded [Z]. *)
Definition rune := Z.

Definition RuneError : rune := 65533.   (* U+FFFD *)
Definition RuneSelf : Z := 128.
Definition MaxRune : rune := 1114111.   (* U+10FFFF *)

(** [len(s)], an [int]. *)
Definition len (s : string) : Z := Z.of_nat (String.length s).

(** [s[i:]] and [s[:i]] for an index already known to be in range. *)
Fixpoint drop_bytes (n : nat) (s : string) : string :=
  match n, s with
  | O, _ => s
  | S n', String _ s' => drop_bytes n' s'
  | S _, EmptyString => EmptyString
  end.

Fixpoint take_bytes (n : nat) (s : string) : string :=
  match n, s with
  | O, _ => EmptyString
  | S n', String c s' => String c (take_bytes n' s')
  | S _, EmptyString => EmptyString
  end.

(** ** [utf8.DecodeRuneInString]

    The table [first] of [unicode/utf8] classifies the lead byte; the
    accept range bounds the second byte.  [x&mask<<k | y] over disjoint
    bit ranges is written arithmetically ([64*x + y]). *)
Definition in_range (lo hi x : Z) : bool := (lo <=? x) && (x <=? hi).
Definition is_cont (c : ascii) : bool := in_range 128 191 (byteZ c).

Definition DecodeRuneInString (s : string) : rune * nat :=
  match s with
  | EmptyString => (RuneError, 0%nat)
  | String c0 t =>
    let s0 := byteZ c0 in
    if s0 <? 128 then (s0, 1%nat)
    else if in_range 194 223 s0 then
      match t with
      | String c1 _ =>
        if is_cont c1 then ((s0 - 192) * 64 + (byteZ c1 - 128), 2%nat)
        else (RuneError, 1%nat)
      | _ => (RuneError, 1%nat)
      end
    else if in_range 224 239 s0 then
      match t with
      | String c1 (String c2 _) =>
        let lo := if s0 =? 224 then 160 else 128 in
        let hi := if s0 =? 237 then 159 else 191 in
        if in_range lo hi (byteZ c1) && is_cont c2
        then ((s0 - 224) * 4096 + (byteZ c1 - 128) * 64 + (byteZ c2 - 128), 3%nat)
        else (RuneError, 1%nat)
      | _ => (RuneError, 1%nat)
      end
    else if in_range 240 244 s0 then
      match t with
      | String c1 (String c2 (String c3 _)) =>
        let lo := if s0 =? 240 then 144 else 128 in
        let hi := if s0 =? 244 then 143 else 191 in
        if in_range lo hi (byteZ c1) && is_cont c2 && is_cont c3
        then ((s0 - 240) * 262144 + (byteZ c1 - 128) * 4096
              + (byteZ c2 - 128) * 64 + (byteZ c3 - 128), 4%nat)
        else (RuneError, 1%nat)
      | _ => (RuneError, 1%nat)
      end
    else (RuneError, 1%nat)
  end.

(** ** [utf8.AppendRune], as used by [strings.Builder.WriteRune] *)
Definition str1 (a : Z) : string := String (byte_of a) EmptyString.
Definition str2 (a b : Z) : string := String (byte_of a) (str1 b).
Definition str3 (a b c : Z) : string := String (byte_of a) (str2 b c).
Definition str4 (a b c d : Z) : string := String (byte_of a) (str3 b c d).

Definition EncodeRune (r : rune) : string :=
  if in_range 0 127 r then str1 r
  else if in_range 128 2047 r then str2 (192 + r / 64) (128 + r mod 64)
  else if in_range 2048 55295 r || in_range 57344 65535 r then
    str3 (224 + r / 4096) (128 + (r / 64) mod 64) (128 + r mod 64)
  else if in_range 65536 MaxRune r then
    str4 (240 + r / 262144) (128 + (r / 4096) mod 64)
         (128 + (r / 64) mod 64) (128 + r mod 64)
  else str3 239 191 189.

(** ** [for i, r := range s]: the runes of [s] with their byte offsets.

    The loop decodes at the current offset and advances by the width; an
    invalid byte yields [RuneError] and width 1.  [skip] counts the bytes
    of the current rune still to be stepped over. *)
Fixpoint range_from (off : nat) (skip : nat) (s : string) : list (nat * rune) :=
  match s with
  | EmptyString => []
  | String _ t =>
    match skip with
    | S k => range_from (S off) k t
    | O => let '(r, w) := DecodeRuneInString s in
           (off, r) :: range_from (S off) (Nat.pred w) t
    end
  end.

Definition range_string (s : string) : list (nat * rune) := range_from 0 0 s.
Definition runes (s : string) : list rune := map snd (range_string s).

(** ** [unicode.IsSpace] *)
Definition IsSpace (r : rune) : bool :=
  in_range 9 13 r || (r =? 32) || (r =? 133) || (r =? 160)
  || (r =? 5760) || in_range 8192 8202 r || (r =? 8232) || (r =? 8233)
  || (r =? 8239) || (r =? 8287) || (r =? 12288).

(** The ASCII white space table of package [strings] (and of [on.go]). *)
Definition asciiSpace (c : ascii) : bool :=
  let b := byteZ c in in_range 9 13 b || (b =? 32).

(** ** [utf8.DecodeLastRuneInString] *)
Definition RuneStart (c : ascii) : bool := negb (is_cont c).

Definition byte_at (s : string) (i : Z) : ascii :=
  match String.get (Z.to_nat i) s with Some c => c | None => Ascii.zero end.

(** [for start--; start >= lim; start-- { if RuneStart(s[start]) { break } }];
    at most [UTFMax - 1] bytes are inspected. *)
Fixpoint scan_start (k : nat) (s : string) (start lim : Z) : Z :=
  match k with
  | O => start
  | S k' =>
    if start <? lim then start
    else if RuneStart (byte_at s start) then start
    else scan_start k' s (start - 1) lim
  end.

Definition DecodeLastRuneInString (s : string) : rune * nat :=
  let e := len s in
  if e =? 0 then (RuneError, 0%nat)
  else
    let r := byteZ (byte_at s (e - 1)) in
    if r <? RuneSelf then (r, 1%nat)
    else
      let lim := Z.max (e - 4) 0 in
      let start := scan_start 4 s (e - 2) lim in
      let start := if start <? 0 then 0 else start in
      let '(r, size) := DecodeRuneInString (drop_bytes (Z.to_nat start) s) in
      if start + Z.of_nat size =? e then (r, size) else (RuneError, 1%nat).

(** ** [strings.TrimLeftFunc], [strings.TrimRightFunc], [strings.TrimSpace] *)

(** [indexFunc(s, f, false)]: offset of the first rune not satisfying [f]. *)
Fixpoint indexNot (f : rune -> bool) (l : list (nat * rune)) : option nat :=
  match l with
  | [] => None
  | (i, r) :: l' => if f r then indexNot f l' else Some i
  end.

Definition TrimLeftFunc (f : rune -> bool) (s : string) : string :=
  match indexNot f (range_string s) with
  | None => EmptyString
  | Some i => drop_bytes i s
  end.

(** [lastIndexFunc] walks backwards rune by rune; [n] bounds the number of
    runes by the number of bytes. *)
Fixpoint trimRight_loop (f : rune -> bool) (n : nat) (s : string) : string :=
  match n with
  | O => s
  | S n' =>
    match s with
    | EmptyString => s
    | _ =>
      let '(r, size) := DecodeLastRuneInString s in
      if f r then trimRight_loop f n' (take_bytes (String.length s - size) s)
      else s
    end
  end.

Definition TrimRightFunc (f : rune -> bool) (s : string) : string :=
  trimRight_loop f (String.length s) s.

(** [strings.TrimSpace]; its ASCII fast path computes the same result as
    [TrimFunc(s, unicode.IsSpace)]. *)
Definition TrimSpace (s : string) : string :=
  TrimRightFunc IsSpace (TrimLeftFunc IsSpace s).

(** ** [strings.HasPrefix], [strings.Join] *)
Fixpoint HasPrefix (s p : string) : bool :=
  match p, s with
  | EmptyString, _ => true
  | String a p', String b s' => Ascii.eqb a b && HasPrefix s' p'
  | String _ _, EmptyString => false
  end.

Fixpoint Join (l : list string) (sep : string) : string :=
  match l with
  | [] => EmptyString
  | [x] => x
  | x :: l' => x +:+ sep +:+ Join l' sep
  end.

(** [strings.Contains] *)
Fixpoint Contains (s sub : string) : bool :=
  HasPrefix s sub
  || match s with
     | EmptyString => false
     | String _ s' => Contains s' sub
     end.

(** [utf8.ValidString]: no position decodes to the error rune of width 1. *)
Fixpoint valid_from (skip : nat) (s : string) : bool :=
  match s with
  | EmptyString => true
  | String _ t =>
    match skip with
    | S k => valid_from k t
    | O => let '(r, w) := DecodeRuneInString s in
           negb ((r =? RuneError) && (w =? 1)%nat) && valid_from (Nat.pred w) t
    end
  end.

Definition ValidString (s : string) : bool := valid_from 0 s.

(** ** String order ([<] on Go strings is bytewise lexicographic),
    [slices.Sort] and [slices.Compact] *)
Fixpoint str_ltb (a b : string) : bool :=
  match a, b with
  | _, EmptyString => false
  | EmptyString, String _ _ => true
  | String x a', String y b' =>
    if byteZ x <? byteZ y then true
    else if byteZ y <? byteZ x then false
    else str_ltb a' b'
  end.

Fixpoint insert_sorted (x : string) (l : list string) : list string :=
  match l with
  | [] => [x]
  | y :: l' => if str_ltb y x then y :: insert_sorted x l' else x :: l
  end.

(** The sorted arrangement of a list of strings is unique (equal keys are
    equal strings), so any sorting algorithm stands for [slices.Sort]. *)
Definition Sort (l : list string) : list string :=
  fold_right insert_sorted [] l.

Fixpoint Compact (l : list string) : list string :=
  match l with
  | x :: ((y :: _) as l') =>
    if String.eqb x y then Compact l' else x :: Compact l'
  | _ => l
  end.

(** ** [strconv.Atoi] on a 64-bit platform, and [%d] *)
Definition is_digit (c : ascii) : bool := in_range 48 57 (byteZ c).

Fixpoint parse_digits (acc : Z) (s : string) : option Z :=
  match s with
  | EmptyString => Some acc
  | String c s' =>
    if is_digit c then parse_digits (acc * 10 + (byteZ c - 48)) s' else None
  end.

Definition minInt : Z := - 2 ^ 63.
Definition maxInt : Z := 2 ^ 63 - 1.

(** [None] stands for the [*NumError] (syntax or range). *)
Definition Atoi (s : string) : option Z :=
  let '(neg, digits) :=
    match s with
    | String c s' =>
      if Ascii.eqb c "-" then (true, s')
      else if Ascii.eqb c "+" then (false, s')
      else (false, s)
    | EmptyString => (false, s)
    end in
  match digits with
  | EmptyString => None
  | _ =>
    match parse_digits 0 digits with
    | None => None
    | Some n =>
      let v := if neg then - n else n in
      if in_range minInt maxInt v then Some v else None
    end
  end.

Definition digit_char (d : nat) : ascii := ascii_of_nat (48 + d).

Fixpoint itoa_loop (fuel : nat) (n : nat) (acc : string) : string :=
  match fuel with
  | O => acc
  | S f =>
    let acc' := String (digit_char (n mod 10)) acc in
    if (n <? 10)%nat then acc' else itoa_loop f (n / 10) acc'
  end.

(** [fmt.Sprintf("%d", n)] for a non-negative [n]. *)
Definition itoa (n : nat) : string := itoa_loop (S n) n EmptyString.

End Go.

(* ===================================================================== *)
(** * Outcomes of Go code that may panic *)
(* ===================================================================== *)

Inductive outcome (A : Type) : Type :=
| Ret (a : A)
| Panic.
Arguments Ret {A} a.
Arguments Panic {A}.

#[global] Instance outcome_ret : MRet outcome := fun A a => Ret a.
#[global] Instance outcome_bind : MBind outcome :=
  fun A B f m => match m with Ret a => f a | Panic => Panic end.

(* ===================================================================== *)
(** * Character constants *)
(* ===================================================================== *)

Module Ch.
Definition tab : ascii := "009".
Definition lf : ascii := "010".
Definition cr : ascii := "013".
Definition space : ascii := " ".
Definition dquote : ascii := "034".
Definition dollar : ascii := "$".
Definition amp : ascii := "&".
Definition squote : ascii := "'".
Definition lparen : ascii := "(".
Definition rparen : ascii := ")".
Definition slash : ascii := "/".
Definition backslash : ascii := "\".
Definition backtick : ascii := "`".
Definition lbrace : ascii := "{".
Definition pipe : ascii := "|".
Definition rbrace : ascii := "}".
End Ch.

(** The same characters as runes. *)
Module Rn.
Definition space : Go.rune := 32.
Definition dquote : Go.rune := 34.
Definition dollar : Go.rune := 36.
Definition squote : Go.rune := 39.
Definition lparen : Go.rune := 40.
Definition rparen : Go.rune := 41.
Definition backslash : Go.rune := 92.
Definition backtick : Go.rune := 96.
Definition lbrace : Go.rune := 123.
Definition rbrace : Go.rune := 125.
End Rn.

Definition is_empty (s : string) : bool :=
  match s with EmptyString => true | _ => false end.

Definition is_nil_list {A} (l : list A) : bool :=
  match l with [] => true | _ => false end.

(* ===================================================================== *)
(** * on.go: splitting an [on] expression *)
(* ===================================================================== *)

(** [andSeps = [256]uint8{'&': 1, '\n': 1}] *)
Definition andSeps (c : ascii) : bool := Ascii.eqb c Ch.amp || Ascii.eqb c Ch.lf.

(** [indexAnd]: [None] is the Go result [-1]. *)
Fixpoint indexAnd (s : string) : option nat :=
  match s with
  | EmptyString => None
  | String c s' =>
    if andSeps c then Some O
    else match indexAnd s' with Some i => Some (S i) | None => None end
  end.

Fixpoint countAnd (s : string) : nat :=
  match s with
  | EmptyString => O
  | String c s' => if andSeps c then S (countAnd s') else countAnd s'
  end.

(** [for beg < end && asciiSpace[s[beg]] != 0 { beg++ }] on [s[:end]]:
    what is left is [s[beg:end]]. *)
Fixpoint trim_beg (seg : string) : string :=
  match seg with
  | String c seg' => if Go.asciiSpace c then trim_beg seg' else seg
  | EmptyString => EmptyString
  end.

(** Removal of every trailing ASCII space. *)
Fixpoint trim_end_all (seg : string) : string :=
  match seg with
  | EmptyString => EmptyString
  | String c seg' =>
    match trim_end_all seg' with
    | EmptyString => if Go.asciiSpace c then EmptyString else String c EmptyString
    | r => String c r
    end
  end.

(** [for end-1 > beg && asciiSpace[s[end-1]] != 0 { end-- }] on [s[beg:end]]:
    the byte at [beg] is never removed. *)
Definition trim_end (seg : string) : string :=
  match seg with
  | EmptyString => EmptyString
  | String c seg' => String c (trim_end_all seg')
  end.

(** The loop [for i < n { ... }] of [splitAnd].  [a] is [a[:i]], the
    segments stored so far, so [i] is its length; [k] bounds the number of
    iterations (every iteration consumes at least the separator). *)
Fixpoint splitAnd_loop (k : nat) (n : nat) (s : string) (a : list string)
  : list string * string :=
  match k with
  | O => (a, s)
  | S k' =>
    if (length a <? n)%nat then
      match indexAnd s with
      | None => (a, s)                                 (* break *)
      | Some e =>
        let seg := trim_end (trim_beg (Go.take_bytes e s)) in
        let a' := if is_empty seg then a else a ++ [seg] in
        splitAnd_loop k' n (Go.drop_bytes (S e) s) a'
      end
    else (a, s)
  end.

(** [splitAnd] splits by "&" and newline; empty segments are dropped. *)
Definition splitAnd (s : string) : list string :=
  if is_empty s then []
  else
    let n := countAnd s in
    let '(a, rest) := splitAnd_loop (String.length s) n s [] in
    let last := Go.TrimSpace rest in
    if is_empty last then a else a ++ [last].

(** [forEachAndPart], collecting the parts handed to [fn]. *)
Fixpoint forEachAndPart_loop (s : string) (cur : string) : list string :=
  let emit (l : list string) :=
    let part := Go.TrimSpace cur in
    if is_empty part then l else part :: l in
  match s with
  | EmptyString => emit []
  | String c s' =>
    if andSeps c then emit (forEachAndPart_loop s' EmptyString)
    else forEachAndPart_loop s' (cur +:+ String c EmptyString)
  end.

Definition forEachAndPart (s : string) : list string :=
  forEachAndPart_loop s EmptyString.

Definition is_quote_byte (c : ascii) : bool :=
  Ascii.eqb c Ch.dquote || Ascii.eqb c Ch.squote || Ascii.eqb c Ch.backtick.

(** [forEachPipePart]: [cur] is [s[start:i]], [skip] is set when the
    previous byte was a backslash (the loop then steps over this byte). *)
Fixpoint forEachPipePart_loop (s : string) (quote : option ascii)
    (brackets : nat) (cur : string) (skip : bool) : list string :=
  let emit (l : list string) :=
    let part := Go.TrimSpace cur in
    if is_empty part then l else part :: l in
  match s with
  | EmptyString => emit []
  | String c s' =>
    let cur' := cur +:+ String c EmptyString in
    if skip then forEachPipePart_loop s' quote brackets cur' false
    else if Ascii.eqb c Ch.backslash then
      forEachPipePart_loop s' quote brackets cur' true
    else if is_quote_byte c then
      match quote, brackets with
      | None, O => forEachPipePart_loop s' (Some c) brackets cur' false
      | _, _ =>
        if match quote with Some q => Ascii.eqb c q | None => false end
        then forEachPipePart_loop s' None brackets cur' false
        else forEachPipePart_loop s' quote brackets cur' false
      end
    else if Ascii.eqb c Ch.lparen then
      forEachPipePart_loop s' quote (S brackets) cur' false
    else if Ascii.eqb c Ch.rparen then
      forEachPipePart_loop s' quote (Nat.pred brackets) cur' false
    else if Ascii.eqb c Ch.pipe then
      match quote, brackets with
      | None, O => emit (forEachPipePart_loop s' quote brackets EmptyString false)
      | _, _ => forEachPipePart_loop s' quote brackets cur' false
      end
    else forEachPipePart_loop s' quote brackets cur' false
  end.

Definition forEachPipePart (s : string) : list string :=
  forEachPipePart_loop s None O EmptyString false.

Definition splitPipe (s : string) : list string :=
  if is_empty s then [] else forEachPipePart s.

(* ===================================================================== *)
(** * parser.go and block_parser.go: line parser and env expansion *)
(* ===================================================================== *)

Inductive SyntaxError :=
| ErrUnterminatedQuotes
| ErrUnterminatedBrackets
| ErrUnterminatedEnvVar.

(** The [error] returned by [parse] and [expandEnvVarsRaw]: an optional
    syntax error joined with the list of missing environment variables
    ([gperr.Join(err, ErrEnvVarNotFound...)]).  [nil] is [no_error]. *)
Record ParseError := {
  syntax : option SyntaxError;
  missingEnvVars : list string
}.

Definition no_error : ParseError := {| syntax := None; missingEnvVars := [] |}.

Definition is_nil (e : ParseError) : bool :=
  match syntax e, missingEnvVars e with
  | None, [] => true
  | _, _ => false
  end.

(** ** [parseSimple] *)

Definition is_special_byte (c : ascii) : bool :=
  Ascii.eqb c Ch.backslash || Ascii.eqb c Ch.dollar || Ascii.eqb c Ch.dquote
  || Ascii.eqb c Ch.squote || Ascii.eqb c Ch.backtick || Ascii.eqb c Ch.tab
  || Ascii.eqb c Ch.cr || Ascii.eqb c Ch.lf.

Inductive SimpleScan := ScanNotSimple | ScanUnterminated | ScanOk.

(** The first loop of [parseSimple]: it gives up on the first special
    byte and fails on the first unbalanced closing bracket. *)
Fixpoint parseSimple_scan (v : string) (brackets : nat) : SimpleScan :=
  match v with
  | EmptyString => match brackets with O => ScanOk | _ => ScanUnterminated end
  | String c v' =>
    if is_special_byte c then ScanNotSimple
    else if Ascii.eqb c Ch.lparen then parseSimple_scan v' (S brackets)
    else if Ascii.eqb c Ch.rparen then
      match brackets with
      | O => ScanUnterminated
      | S b => parseSimple_scan v' b
      end
    else parseSimple_scan v' brackets
  end.

(** The maximal runs of bytes other than [' '], in order: the index loops
    of [parseSimple] cut [v] into its subject and arguments this way. *)
Fixpoint fields_loop (v : string) (cur : string) : list string :=
  let emit (l : list string) := if is_empty cur then l else cur :: l in
  match v with
  | EmptyString => emit []
  | String c v' =>
    if Ascii.eqb c Ch.space then emit (fields_loop v' EmptyString)
    else fields_loop v' (cur +:+ String c EmptyString)
  end.

Definition space_fields (v : string) : list string := fields_loop v EmptyString.

(** [None] is the result [ok == false]. *)
Definition parseSimple (v : string) : option (string * list string * ParseError) :=
  match parseSimple_scan v O with
  | ScanNotSimple => None
  | ScanUnterminated =>
    Some (EmptyString, [],
          {| syntax := Some ErrUnterminatedBrackets; missingEnvVars := [] |})
  | ScanOk =>
    match space_fields v with
    | [] => Some (EmptyString, [], no_error)
    | subject :: args => Some (subject, args, no_error)
    end
  end.

Section Env.

(** [env.LookupEnv] of goutils (prefix-aware environment lookup). *)
Variable LookupEnv : string -> option string.

(** ** [expandEnvVarsRaw] *)

Record ExpandState := {
  x_buf : string;
  x_envVar : string;
  x_missing : list string;
  x_inEnvVar : bool;
  x_expectingBrace : bool
}.

Definition x_write (st : ExpandState) (t : string) : ExpandState :=
  {| x_buf := x_buf st +:+ t; x_envVar := x_envVar st;
     x_missing := x_missing st; x_inEnvVar := x_inEnvVar st;
     x_expectingBrace := x_expectingBrace st |}.

Definition x_setExpecting (st : ExpandState) (b : bool) : ExpandState :=
  {| x_buf := x_buf st; x_envVar := x_envVar st;
     x_missing := x_missing st; x_inEnvVar := x_inEnvVar st;
     x_expectingBrace := b |}.

(** The body of [for _, r := range v]. *)
Definition expand_step (st : ExpandState) (r : Go.rune) : ExpandState :=
  let st :=
    if x_expectingBrace st && negb (r =? Rn.lbrace) && negb (r =? Rn.dollar)
    then x_setExpecting (x_write st "$") false
    else st in
  if r =? Rn.dollar then
    if x_expectingBrace st then x_setExpecting (x_write st "$") false
    else x_setExpecting st true
  else if r =? Rn.lbrace then
    if x_expectingBrace st then
      {| x_buf := x_buf st; x_envVar := EmptyString;
         x_missing := x_missing st; x_inEnvVar := true;
         x_expectingBrace := false |}
    else x_write st (Go.EncodeRune r)
  else if r =? Rn.rbrace then
    if x_inEnvVar st then
      match LookupEnv (x_envVar st) with
      | None =>
        {| x_buf := x_buf st; x_envVar := x_envVar st;
           x_missing := x_missing st ++ [x_envVar st]; x_inEnvVar := false;
           x_expectingBrace := x_expectingBrace st |}
      | Some envValue =>
        {| x_buf := x_buf st +:+ envValue; x_envVar := x_envVar st;
           x_missing := x_missing st; x_inEnvVar := false;
           x_expectingBrace := x_expectingBrace st |}
      end
    else x_write st (Go.EncodeRune r)
  else
    let st :=
      if x_expectingBrace st then x_setExpecting (x_write st "$") false
      else st in
    if x_inEnvVar st then
      {| x_buf := x_buf st; x_envVar := x_envVar st +:+ Go.EncodeRune r;
         x_missing := x_missing st; x_inEnvVar := true;
         x_expectingBrace := x_expectingBrace st |}
    else x_write st (Go.EncodeRune r).

Definition expand_init : ExpandState :=
  {| x_buf := EmptyString; x_envVar := EmptyString; x_missing := [];
     x_inEnvVar := false; x_expectingBrace := false |}.

Definition expand_finish (st : ExpandState) : string * ParseError :=
  let st := if x_expectingBrace st then x_write st "$" else st in
  let '(out, err) :=
    if x_inEnvVar st
    then (x_buf st +:+ "${" +:+ x_envVar st, Some ErrUnterminatedEnvVar)
    else (x_buf st, None) in
  (out, {| syntax := err; missingEnvVars := x_missing st |}).

Definition expandEnvVarsRaw (v : string) : string * ParseError :=
  expand_finish (fold_left expand_step (Go.runes v) expand_init).

(** ** [parse] *)

(** [escapedChars] *)
Definition escapedChars (r : Go.rune) : option Go.rune :=
  if r =? 110 then Some 10            (* 'n' *)
  else if r =? 116 then Some 9        (* 't' *)
  else if r =? 114 then Some 13       (* 'r' *)
  else if r =? Rn.squote then Some Rn.squote
  else if r =? Rn.dquote then Some Rn.dquote
  else if r =? Rn.backslash then Some Rn.backslash
  else if r =? Rn.space then Some Rn.space
  else None.

(** [quoteChars[r]] indexes a [[256]bool] with the rune: a rune outside
    the array panics (index out of range). *)
Definition quoteChars (r : Go.rune) : outcome bool :=
  if Go.in_range 0 255 r
  then Ret ((r =? Rn.dquote) || (r =? Rn.squote) || (r =? Rn.backtick))
  else Panic.

Record ParseState := {
  buf : string;
  subject : string;
  args : list string;
  escaped : bool;
  quote : Go.rune;                    (* 0 when no quote is open *)
  brackets : nat;
  envVar : string;
  missing : list string;
  inEnvVar : bool;
  expectingBrace : bool
}.

Definition parse_init : ParseState :=
  {| buf := EmptyString; subject := EmptyString; args := []; escaped := false;
     quote := 0; brackets := O; envVar := EmptyString; missing := [];
     inEnvVar := false; expectingBrace := false |}.

Definition set_buf (st : ParseState) (b : string) : ParseState :=
  {| buf := b; subject := subject st; args := args st; escaped := escaped st;
     quote := quote st; brackets := brackets st; envVar := envVar st;
     missing := missing st; inEnvVar := inEnvVar st;
     expectingBrace := expectingBrace st |}.

Definition write (st : ParseState) (t : string) : ParseState :=
  set_buf st (buf st +:+ t).

Definition set_escaped (st : ParseState) (b : bool) : ParseState :=
  {| buf := buf st; subject := subject st; args := args st; escaped := b;
     quote := quote st; brackets := brackets st; envVar := envVar st;
     missing := missing st; inEnvVar := inEnvVar st;
     expectingBrace := expectingBrace st |}.

Definition set_quote (st : ParseState) (q : Go.rune) : ParseState :=
  {| buf := buf st; subject := subject st; args := args st;
     escaped := escaped st; quote := q; brackets := brackets st;
     envVar := envVar st; missing := missing st; inEnvVar := inEnvVar st;
     expectingBrace := expectingBrace st |}.

Definition set_brackets (st : ParseState) (n : nat) : ParseState :=
  {| buf := buf st; subject := subject st; args := args st;
     escaped := escaped st; quote := quote st; brackets := n;
     envVar := envVar st; missing := missing st; inEnvVar := inEnvVar st;
     expectingBrace := expectingBrace st |}.

Definition set_expecting (st : ParseState) (b : bool) : ParseState :=
  {| buf := buf st; subject := subject st; args := args st;
     escaped := escaped st; quote := quote st; brackets := brackets st;
     envVar := envVar st; missing := missing st; inEnvVar := inEnvVar st;
     expectingBrace := b |}.

Definition set_env (st : ParseState) (inEnv : bool) (name : string)
    (miss : list string) : ParseState :=
  {| buf := buf st; subject := subject st; args := args st;
     escaped := escaped st; quote := quote st; brackets := brackets st;
     envVar := name; missing := miss; inEnvVar := inEnv;
     expectingBrace := expectingBrace st |}.

(** [for i, r := range part { if unicode.IsSpace(r) { beg = i + 1 } else
    { break } }] *)
Fixpoint flush_beg (l : list (nat * Go.rune)) (beg : nat) : nat :=
  match l with
  | [] => beg
  | (i, r) :: l' => if Go.IsSpace r then flush_beg l' (S i) else beg
  end.

(** The closure [flush].  When the unquoted part is all spaces it returns
    before [buf.Reset()]. *)
Definition flush (quoted : bool) (st : ParseState) : ParseState :=
  let part := buf st in
  let commit (part : string) : ParseState :=
    if is_empty (subject st)
    then {| buf := EmptyString; subject := part; args := args st;
            escaped := escaped st; quote := quote st;
            brackets := brackets st; envVar := envVar st;
            missing := missing st; inEnvVar := inEnvVar st;
            expectingBrace := expectingBrace st |}
    else {| buf := EmptyString; subject := subject st;
            args := args st ++ [part];
            escaped := escaped st; quote := quote st;
            brackets := brackets st; envVar := envVar st;
            missing := missing st; inEnvVar := inEnvVar st;
            expectingBrace := expectingBrace st |} in
  if quoted then commit part
  else
    let beg := flush_beg (Go.range_string part) O in
    if (beg =? String.length part)%nat then st
    else commit (Go.drop_bytes beg part).

(** One iteration of [for _, r := range v]: the next state, or the early
    [return subject, args, err] of an unbalanced [')']. *)
Inductive ParseStep :=
| Continue (st : ParseState)
| Return (subject : string) (args : list string) (err : ParseError).

Definition parse_step (st : ParseState) (r : Go.rune) : outcome ParseStep :=
  if escaped st then
    let st :=
      match escapedChars r with
      | Some ch => write st (Go.EncodeRune ch)
      | None => write (write st "\") (Go.EncodeRune r)
      end in
    Ret (Continue (set_escaped st false))
  else
    let st :=
      if expectingBrace st && negb (r =? Rn.lbrace) && negb (r =? Rn.dollar)
      then set_expecting (write st "$") false
      else st in
    isq ← quoteChars r;
    if isq : bool then
      if (quote st =? 0) && (brackets st =? 0)%nat then
        Ret (Continue (flush false (set_quote st r)))
      else if r =? quote st then
        Ret (Continue (flush true (set_quote st 0)))
      else Ret (Continue (write st (Go.EncodeRune r)))
    else if r =? Rn.backslash then Ret (Continue (set_escaped st true))
    else if r =? Rn.dollar then
      if expectingBrace st
      then Ret (Continue (set_expecting (write st "$") false))
      else Ret (Continue (set_expecting st true))
    else if r =? Rn.lbrace then
      if expectingBrace st
      then Ret (Continue (set_expecting (set_env st true EmptyString (missing st)) false))
      else Ret (Continue (write st (Go.EncodeRune r)))
    else if r =? Rn.rbrace then
      if inEnvVar st then
        match LookupEnv (envVar st) with
        | None =>
          Ret (Continue (set_env st false (envVar st) (missing st ++ [envVar st])))
        | Some envValue =>
          Ret (Continue (set_env (write st envValue) false (envVar st) (missing st)))
        end
      else Ret (Continue (write st (Go.EncodeRune r)))
    else if r =? Rn.lparen then
      Ret (Continue (write (set_brackets st (S (brackets st))) (Go.EncodeRune r)))
    else if r =? Rn.rparen then
      match brackets st with
      | O =>
        Ret (Return (subject st) (args st)
               {| syntax := Some ErrUnterminatedBrackets; missingEnvVars := [] |})
      | S b => Ret (Continue (write (set_brackets st b) (Go.EncodeRune r)))
      end
    else if r =? Rn.space then
      if quote st =? 0 then Ret (Continue (flush false st))
      else Ret (Continue (write st (Go.EncodeRune r)))
    else
      let st :=
        if expectingBrace st then set_expecting (write st "$") false else st in
      if inEnvVar st
      then Ret (Continue (set_env st true (envVar st +:+ Go.EncodeRune r) (missing st)))
      else Ret (Continue (write st (Go.EncodeRune r))).

Fixpoint parse_loop (l : list Go.rune) (st : ParseState) : outcome ParseStep :=
  match l with
  | [] => Ret (Continue st)
  | r :: l' =>
    step ← parse_step st r;
    match step with
    | Continue st' => parse_loop l' st'
    | Return _ _ _ => Ret step
    end
  end.

Definition parse_finish (st : ParseState) : string * list string * ParseError :=
  let st := if expectingBrace st then write st "$" else st in
  let '(st, err) :=
    if negb (quote st =? 0) then (st, Some ErrUnterminatedQuotes)
    else if negb (brackets st =? 0)%nat then (st, Some ErrUnterminatedBrackets)
    else if inEnvVar st then (st, Some ErrUnterminatedEnvVar)
    else (flush false st, None) in
  (subject st, args st, {| syntax := err; missingEnvVars := missing st |}).

(** [parse]: expression to subject and arguments, with quotes, escapes
    and env substitution. *)
Definition parse (v : string) : outcome (string * list string * ParseError) :=
  match parseSimple v with
  | Some res => Ret res
  | None =>
    step ← parse_loop (Go.runes v) parse_init;
    match step with
    | Continue st => Ret (parse_finish st)
    | Return subject args err => Ret (subject, args, err)
    end
  end.

(** ** [matcherSignature] (rules.go) *)

(** The inner loop over the OR atoms of one AND part: [None] is the early
    [return] of the empty signature with [ok = false]. *)
Fixpoint canonOr_loop (atoms : list string) (canonOr : list string)
  : outcome (option (list string)) :=
  match atoms with
  | [] => Ret (Some canonOr)
  | atom :: atoms' =>
    '(subject, args, err) ← parse (Go.TrimSpace atom);
    if negb (is_nil err) || is_empty subject then Ret None
    else canonOr_loop atoms'
           (canonOr ++ [subject +:+ " " +:+ Go.Join args (String Ascii.zero EmptyString)])
  end.

Fixpoint canonAnd_loop (andParts : list string) (canonAnd : list string)
  : outcome (option (list string)) :=
  match andParts with
  | [] => Ret (Some canonAnd)
  | andPart :: andParts' =>
    match splitPipe andPart with
    | [] => canonAnd_loop andParts' canonAnd          (* continue *)
    | orParts =>
      r ← canonOr_loop orParts [];
      match r with
      | None => Ret None
      | Some canonOr =>
        let canonOr := Go.Compact (Go.Sort canonOr) in
        canonAnd_loop andParts'
          (canonAnd ++ ["(" +:+ Go.Join canonOr "|" +:+ ")"])
      end
    end
  end.

(** The pair [(signature, ok)]. *)
Definition matcherSignature (raw : string) : outcome (string * bool) :=
  let raw := Go.TrimSpace raw in
  if is_empty raw then Ret ("(any)", true)
  else
    match splitAnd raw with
    | [] => Ret (EmptyString, false)
    | andParts =>
      r ← canonAnd_loop andParts [];
      match r with
      | None => Ret (EmptyString, false)
      | Some canonAnd =>
        match Go.Compact (Go.Sort canonAnd) with
        | [] => Ret (EmptyString, false)
        | canonAnd => Ret (Go.Join canonAnd "&", true)
        end
      end
    end.

End Env.

(* ===================================================================== *)
(** * phase.go, command handlers, rules *)
(* ===================================================================== *)

(** [type PhaseFlag uint8]; the flags are combined with [|] only, which
    never leaves the range of a [uint8]. *)
Definition PhaseFlag := Z.
Definition PhaseNone : PhaseFlag := 0.
Definition PhasePre : PhaseFlag := Z.shiftl 1 0.
Definition PhasePost : PhaseFlag := Z.shiftl 1 1.

Definition IsPostRule (phase : PhaseFlag) : bool :=
  negb (Z.land phase PhasePost =? 0).

(** The errors a command can return: the termination signal, the
    transport cancellations that [isUnexpectedError] ignores, and
    everything else. *)
Inductive error :=
| errTerminateRule
| errStreamClosed
| errOther (msg : string).

Definition is_errTerminateRule (e : error) : bool :=
  match e with errTerminateRule => true | _ => false end.

Definition isUnexpectedError (e : error) : bool :=
  match e with errStreamClosed => false | _ => true end.

Definition OnDefault : string := "default".
Definition CommandUpstream : string := "upstream".

Section Engine.

(** The mutable objects of one request, as a value: the request [r] and
    the response modifier [rm] with its shared data. *)
Context {World : Type}.

Definition upstream_t := World -> World.
Definition HandlerFunc := upstream_t -> World -> World * option error.
Definition Checker := World -> bool.

Record RuleOn := {
  raw : string;
  checker : option Checker;           (* [None] is the nil interface *)
  phase : PhaseFlag
}.

(** [RuleOn.Check] *)
Definition Check (on : RuleOn) (w : World) : bool :=
  match checker on with
  | None => true
  | Some c => c w
  end.

Record Handler := {
  fn : HandlerFunc;
  h_phase : PhaseFlag;
  terminate : bool
}.

(** The implementations of [CommandHandler] the parser builds.  A branch
    of an if-else chain is an [IfBlockCommand], kept as the pair of its
    [On] and [Do]; a nil [Do] is the empty list (both run no command). *)
#[local] Unset Elimination Schemes.
Inductive CommandHandler :=
| CmdHandler (h : Handler)
| IfBlockCommand (On : RuleOn) (Do : list CommandHandler)
| IfElseBlockCommand (Ifs : list (RuleOn * list CommandHandler))
                     (Else : list CommandHandler).
#[local] Set Elimination Schemes.

Definition Commands := list CommandHandler.

(** [Phase()] of each handler and [Commands.Phase]. *)
Fixpoint Phase (c : CommandHandler) : PhaseFlag :=
  match c with
  | CmdHandler h => h_phase h
  | IfBlockCommand on do =>
    fold_left (fun ph cmd => Z.lor ph (Phase cmd)) do (phase on)
  | IfElseBlockCommand ifs els =>
    let ph :=
      fold_left
        (fun ph br =>
           Z.lor ph (fold_left (fun ph cmd => Z.lor ph (Phase cmd))
                               (snd br) (phase (fst br))))
        ifs PhaseNone in
    match els with
    | [] => ph
    | _ => Z.lor ph (fold_left (fun ph cmd => Z.lor ph (Phase cmd)) els PhaseNone)
    end
  end.

Definition Commands_Phase (c : Commands) : PhaseFlag :=
  fold_left (fun req cmd => Z.lor req (Phase cmd)) c PhaseNone.

(** [ServeHTTP] of each handler; [serve_list] is [Commands.ServeHTTP],
    which stops at the first error. *)
Fixpoint ServeHTTP (c : CommandHandler) (up : upstream_t) (w : World)
  : World * option error :=
  let serve_list :=
    fix serve_list (l : list CommandHandler) (w : World) : World * option error :=
      match l with
      | [] => (w, None)
      | cmd :: l' =>
        match ServeHTTP cmd up w with
        | (w', Some err) => (w', Some err)
        | (w', None) => serve_list l' w'
        end
      end in
  match c with
  | CmdHandler h => fn h up w
  | IfBlockCommand on do =>
    match checker on with
    | None => serve_list do w
    | Some chk => if chk w then serve_list do w else (w, None)
    end
  | IfElseBlockCommand ifs els =>
    (fix branches (ifs : list (RuleOn * list CommandHandler)) : World * option error :=
       match ifs with
       | [] => serve_list els w
       | (on, do) :: ifs' =>
         match checker on with
         | None => serve_list do w
         | Some chk => if chk w then serve_list do w else branches ifs'
         end
       end) ifs
  end.

Fixpoint Commands_ServeHTTP (c : Commands) (up : upstream_t) (w : World)
  : World * option error :=
  match c with
  | [] => (w, None)
  | cmd :: c' =>
    match ServeHTTP cmd up w with
    | (w', Some err) => (w', Some err)
    | (w', None) => Commands_ServeHTTP c' up w'
    end
  end.

Record Command := {
  c_raw : string;
  pre : Commands;                     (* runs before w.WriteHeader *)
  post : Commands
}.

Record Rule := {
  Name : string;
  On : RuleOn;
  Do : Command
}.

Definition Rules := list Rule.

(** ** [Command.Parse] *)

Section CommandParse.

(** [parseDoWithBlocks]: the do-body parser, with the error it reports. *)
Context {E : Type}.
Variable parseDoWithBlocks : string -> E + list CommandHandler.

(** The loop [for _, executor := range executors]. *)
Fixpoint place (executors : list CommandHandler) (pre post : Commands)
  : Commands * Commands :=
  match executors with
  | [] => (pre, post)
  | executor :: rest =>
    if IsPostRule (Phase executor)
    then place rest pre (post ++ [executor])
    else place rest (pre ++ [executor]) post
  end.

(** [cmd.Parse(v)]: the error, or the receiver after the call. *)
Definition Command_Parse (cmd : Command) (v : string) : E + Command :=
  match parseDoWithBlocks v with
  | inl parseErr => inl parseErr
  | inr [] => inr {| c_raw := v; pre := []; post := [] |}
  | inr executors =>
    let '(pre', post') := place executors (pre cmd) (post cmd) in
    inr {| c_raw := v; pre := pre'; post := post' |}
  end.

End CommandParse.

(** ** [Rules.Validate] *)

Definition isDefaultRule (rule : Rule) : bool :=
  String.eqb (Name rule) "default" || String.eqb (raw (On rule)) OnDefault.

Definition ruleOnAlwaysTrue (on : RuleOn) : bool :=
  String.eqb (Go.TrimSpace (raw on)) OnDefault
  || match checker on with None => true | Some _ => false end.

(** [commandTerminatesInPre], [commandsTerminateInPre] (the
    [slices.ContainsFunc]) and [ifElseBlockTerminatesInPre]. *)
Fixpoint commandTerminatesInPre (cmd : CommandHandler) : bool :=
  match cmd with
  | CmdHandler h => terminate h
  | IfBlockCommand on do =>
    ruleOnAlwaysTrue on && existsb commandTerminatesInPre do
  | IfElseBlockCommand ifs els =>
    let hasElse := match els with [] => false | _ => true end in
    (** the loop over [cmd.Ifs]: [None] is its [return false] *)
    let loop :=
      fix loop (ifs : list (RuleOn * list CommandHandler)) (hasFallback : bool)
        : option bool :=
        match ifs with
        | [] => Some hasFallback
        | br :: ifs' =>
          if negb (existsb commandTerminatesInPre (snd br)) then None
          else loop ifs' (if ruleOnAlwaysTrue (fst br) then true else hasFallback)
        end in
    match loop ifs hasElse with
    | None => false
    | Some hasFallback =>
      if negb hasFallback then false
      else if hasElse && negb (existsb commandTerminatesInPre els) then false
      else true
    end
  end.

Definition commandsTerminateInPre (cmds : Commands) : bool :=
  existsb commandTerminatesInPre cmds.

Definition doesTerminateInPre (rule : Rule) : bool :=
  commandsTerminateInPre (pre (Do rule)).

Inductive ValidateError :=
| ErrMultipleDefaultRules (found : nat)
| ErrDeadRule (i j : nat).

Definition set_Name (rule : Rule) (name : string) : Rule :=
  {| Name := name; On := On rule; Do := Do rule |}.

(** The first loop: the indices of the default rules, and the rules with
    empty names set to [rule[i]]. *)
Fixpoint nameRules (i : nat) (rules : Rules) : Rules * list nat :=
  match rules with
  | [] => ([], [])
  | rule :: rest =>
    let '(rest', found) := nameRules (S i) rest in
    let rule' :=
      if is_empty (Name rule)
      then set_Name rule ("rule[" +:+ Go.itoa i +:+ "]")
      else rule in
    (rule' :: rest', if isDefaultRule rule then i :: found else found)
  end.

Section Validate.

Variable LookupEnv : string -> option string.

(** The inner loop [for j := i + 1; j < len(rules); j++] over
    [rules[j:]]: the index of the first shadowed rule. *)
Fixpoint shadowed (sig1 : string) (j : nat) (rules : Rules) : outcome (option nat) :=
  match rules with
  | [] => Ret None
  | r2 :: rest =>
    if isDefaultRule r2 || IsPostRule (phase (On r2)) then shadowed sig1 (S j) rest
    else
      '(sig2, ok) ← matcherSignature LookupEnv (raw (On r2));
      if negb ok || negb (String.eqb sig1 sig2) then shadowed sig1 (S j) rest
      else Ret (Some j)
  end.

(** The outer loop [for i := range rules] over [rules[i:]]. *)
Fixpoint deadRule (i : nat) (rules : Rules) : outcome (option (nat * nat)) :=
  match rules with
  | [] => Ret None
  | r1 :: rest =>
    if isDefaultRule r1 || IsPostRule (phase (On r1)) || negb (doesTerminateInPre r1)
    then deadRule (S i) rest
    else
      '(sig1, ok) ← matcherSignature LookupEnv (raw (On r1));
      if negb ok then deadRule (S i) rest
      else
        found ← shadowed sig1 (S i) rest;
        match found with
        | Some j => Ret (Some (i, j))
        | None => deadRule (S i) rest
        end
  end.

(** [rules.Validate()]: the rules as the call leaves them (names set in
    place) and the returned error. *)
Definition Validate (rules : Rules) : outcome (Rules * option ValidateError) :=
  let '(rules', defaultRulesFound) := nameRules O rules in
  if (1 <? length defaultRulesFound)%nat
  then Ret (rules', Some (ErrMultipleDefaultRules (length defaultRulesFound)))
  else
    dead ← deadRule O rules';
    match dead with
    | Some (i, j) => Ret (rules', Some (ErrDeadRule i j))
    | None => Ret (rules', None)
    end.

End Validate.

(** ** [Rules.BuildHandler] *)

(** Ghost events: which command lists the handler serves, in order. *)
Inductive RuleRef :=
| NonDefault (i : nat)                (* index into [nonDefaultRules] *)
| Default.

Inductive Event :=
| EvPre (r : RuleRef)                 (* [execPreCommand(rule.Do, rm, r)] *)
| EvInternalServerError               (* [http.Error(rm, ..., 500)] *)
| EvUpstream                          (* [up(rm, r)] *)
| EvPost (r : RuleRef)                (* [execPostCommand(rule.Do, rm, r)] *)
| EvPostMatcherPre (i : nat)          (* [rule.Do.pre.ServeHTTP] of a post-matcher rule *)
| EvPostMatcherPost (i : nat).

Section BuildHandler.

(** The response modifier, as far as the executor uses it. *)
Variable NewResponseModifier : World -> World.
Variable FlushRelease : World -> World.
Variable HasStatus : World -> bool.
Variable http_Error500 : World -> World.
(** [rm.AppendError("executing pre rule (%s): %w", raw, err)] and the
    same for post; [isPost] selects the message. *)
Variable AppendError : bool -> string -> error -> World -> World.

Variable up : upstream_t.

(** The loop that separates the default rule from the others. *)
Fixpoint splitRules (rules : Rules) (defaultRule : option Rule)
    (nonDefaultRules : Rules) : option Rule * Rules :=
  match rules with
  | [] => (defaultRule, nonDefaultRules)
  | rule :: rest =>
    if isDefaultRule rule
    then splitRules rest (Some rule) nonDefaultRules
    else splitRules rest defaultRule (nonDefaultRules ++ [rule])
  end.

Definition execPreCommand (cmd : Command) (w : World) : World * option error :=
  Commands_ServeHTTP (pre cmd) up w.

Definition execPostCommand (cmd : Command) (w : World) : World * option error :=
  Commands_ServeHTTP (post cmd) up w.

(** The local variables of the returned closure, with the ghost trace. *)
Record Exec := {
  rm : World;
  hasError : bool;
  executedPre : list bool;
  terminatedInPre : list bool;
  matchedNonDefaultPre : bool;
  preTerminated : bool;
  defaultExecutedPre : bool;
  defaultTerminatedInPre : bool;
  trace : list Event
}.

Definition exec_init (w : World) (n : nat) : Exec :=
  {| rm := w; hasError := false;
     executedPre := replicate n false; terminatedInPre := replicate n false;
     matchedNonDefaultPre := false; preTerminated := false;
     defaultExecutedPre := false; defaultTerminatedInPre := false;
     trace := [] |}.

Definition with_rm (st : Exec) (w : World) : Exec :=
  {| rm := w; hasError := hasError st; executedPre := executedPre st;
     terminatedInPre := terminatedInPre st;
     matchedNonDefaultPre := matchedNonDefaultPre st;
     preTerminated := preTerminated st;
     defaultExecutedPre := defaultExecutedPre st;
     defaultTerminatedInPre := defaultTerminatedInPre st;
     trace := trace st |}.

Definition with_event (st : Exec) (e : Event) : Exec :=
  {| rm := rm st; hasError := hasError st; executedPre := executedPre st;
     terminatedInPre := terminatedInPre st;
     matchedNonDefaultPre := matchedNonDefaultPre st;
     preTerminated := preTerminated st;
     defaultExecutedPre := defaultExecutedPre st;
     defaultTerminatedInPre := defaultTerminatedInPre st;
     trace := trace st ++ [e] |}.

Definition with_hasError (st : Exec) : Exec :=
  {| rm := rm st; hasError := true; executedPre := executedPre st;
     terminatedInPre := terminatedInPre st;
     matchedNonDefaultPre := matchedNonDefaultPre st;
     preTerminated := preTerminated st;
     defaultExecutedPre := defaultExecutedPre st;
     defaultTerminatedInPre := defaultTerminatedInPre st;
     trace := trace st |}.

Definition with_matched (st : Exec) : Exec :=
  {| rm := rm st; hasError := hasError st; executedPre := executedPre st;
     terminatedInPre := terminatedInPre st;
     matchedNonDefaultPre := true;
     preTerminated := preTerminated st;
     defaultExecutedPre := defaultExecutedPre st;
     defaultTerminatedInPre := defaultTerminatedInPre st;
     trace := trace st |}.

(** [executedPre[i] = true] *)
Definition with_executedPre (st : Exec) (i : nat) : Exec :=
  {| rm := rm st; hasError := hasError st;
     executedPre := <[i:=true]> (executedPre st);
     terminatedInPre := terminatedInPre st;
     matchedNonDefaultPre := matchedNonDefaultPre st;
     preTerminated := preTerminated st;
     defaultExecutedPre := defaultExecutedPre st;
     defaultTerminatedInPre := defaultTerminatedInPre st;
     trace := trace st |}.

(** [terminatedInPre[i] = true; preTerminated = true] *)
Definition with_terminatedInPre (st : Exec) (i : nat) : Exec :=
  {| rm := rm st; hasError := hasError st; executedPre := executedPre st;
     terminatedInPre := <[i:=true]> (terminatedInPre st);
     matchedNonDefaultPre := matchedNonDefaultPre st;
     preTerminated := true;
     defaultExecutedPre := defaultExecutedPre st;
     defaultTerminatedInPre := defaultTerminatedInPre st;
     trace := trace st |}.

Definition with_defaultExecutedPre (st : Exec) : Exec :=
  {| rm := rm st; hasError := hasError st; executedPre := executedPre st;
     terminatedInPre := terminatedInPre st;
     matchedNonDefaultPre := matchedNonDefaultPre st;
     preTerminated := preTerminated st;
     defaultExecutedPre := true;
     defaultTerminatedInPre := defaultTerminatedInPre st;
     trace := trace st |}.

Definition with_defaultTerminatedInPre (st : Exec) : Exec :=
  {| rm := rm st; hasError := hasError st; executedPre := executedPre st;
     terminatedInPre := terminatedInPre st;
     matchedNonDefaultPre := matchedNonDefaultPre st;
     preTerminated := preTerminated st;
     defaultExecutedPre := defaultExecutedPre st;
     defaultTerminatedInPre := true;
     trace := trace st |}.

(** One iteration of the first loop over [nonDefaultRules]. *)
Definition pre_iter (i : nat) (rule : Rule) (st : Exec) : Exec :=
  if IsPostRule (phase (On rule)) || negb (Check (On rule) (rm st)) then st
  else
    let st := with_matched st in
    if preTerminated st then
      (* Preserve post-only commands even after pre-phase termination. *)
      match pre (Do rule) with
      | [] => with_executedPre st i
      | _ => st
      end
    else
      let st := with_event (with_executedPre st i) (EvPre (NonDefault i)) in
      match execPreCommand (Do rule) (rm st) with
      | (w, None) => with_rm st w
      | (w, Some err) =>
        let st := with_rm st w in
        if is_errTerminateRule err then with_terminatedInPre st i
        else
          let st :=
            if isUnexpectedError err
            then with_rm st (AppendError false (c_raw (Do rule)) err (rm st))
            else st in
          with_hasError st
      end.

Fixpoint pre_loop (i : nat) (rules : Rules) (st : Exec) : Exec :=
  match rules with
  | [] => st
  | rule :: rest => pre_loop (S i) rest (pre_iter i rule st)
  end.

(** The default rule as a fallback. *)
Definition default_pre (defaultRule : option Rule) (st : Exec) : Exec :=
  match defaultRule with
  | None => st
  | Some d =>
    if negb (matchedNonDefaultPre st) && negb (IsPostRule (phase (On d)))
       && Check (On d) (rm st)
    then
      let st := with_event (with_defaultExecutedPre st) (EvPre Default) in
      match execPreCommand (Do d) (rm st) with
      | (w, None) => with_rm st w
      | (w, Some err) =>
        let st := with_rm st w in
        if is_errTerminateRule err then with_defaultTerminatedInPre st
        else
          let st :=
            if isUnexpectedError err
            then with_rm st (AppendError false (c_raw (Do d)) err (rm st))
            else st in
          with_hasError st
      end
    else st
  end.

(** [if !rm.HasStatus() { ... }] *)
Definition upstream_call (st : Exec) : Exec :=
  if negb (HasStatus (rm st)) then
    if hasError st
    then with_event (with_rm st (http_Error500 (rm st))) EvInternalServerError
    else with_event (with_rm st (up (rm st))) EvUpstream
  else st.

(** [err] handling shared by the loops after the upstream call. *)
Definition report_post (isPost : bool) (rule : Rule) (st : Exec)
    (res : World * option error) : Exec :=
  match res with
  | (w, None) => with_rm st w
  | (w, Some err) =>
    let st := with_rm st w in
    if negb (is_errTerminateRule err) && isUnexpectedError err
    then with_rm st (AppendError isPost (c_raw (Do rule)) err (rm st))
    else st
  end.

Definition flag (l : list bool) (i : nat) : bool :=
  match l !! i with Some b => b | None => false end.

(** Post commands of the rules that executed in the pre phase. *)
Fixpoint post_loop (i : nat) (rules : Rules) (st : Exec) : Exec :=
  match rules with
  | [] => st
  | rule :: rest =>
    if negb (flag (executedPre st) i) || flag (terminatedInPre st) i
    then post_loop (S i) rest st
    else
      let st := with_event st (EvPost (NonDefault i)) in
      post_loop (S i) rest
        (report_post true rule st (execPostCommand (Do rule) (rm st)))
  end.

Definition default_post (defaultRule : option Rule) (st : Exec) : Exec :=
  match defaultRule with
  | Some d =>
    if defaultExecutedPre st && negb (defaultTerminatedInPre st) then
      let st := with_event st (EvPost Default) in
      report_post true d st (execPostCommand (Do d) (rm st))
    else st
  | None => st
  end.

(** The true post-matcher rules, after the response is available. *)
Fixpoint post_matcher_loop (i : nat) (rules : Rules) (st : Exec) : Exec :=
  match rules with
  | [] => st
  | rule :: rest =>
    if negb (IsPostRule (phase (On rule))) || negb (Check (On rule) (rm st))
    then post_matcher_loop (S i) rest st
    else
      let st := with_event st (EvPostMatcherPre i) in
      match Commands_ServeHTTP (pre (Do rule)) up (rm st) with
      | (w, Some err) =>
        let st := with_rm st w in
        if is_errTerminateRule err then post_matcher_loop (S i) rest st
        else
          let st :=
            if isUnexpectedError err
            then with_rm st (AppendError false (c_raw (Do rule)) err (rm st))
            else st in
          let st := with_event st (EvPostMatcherPost i) in
          post_matcher_loop (S i) rest
            (report_post true rule st (execPostCommand (Do rule) (rm st)))
      | (w, None) =>
        let st := with_event (with_rm st w) (EvPostMatcherPost i) in
        post_matcher_loop (S i) rest
          (report_post true rule st (execPostCommand (Do rule) (rm st)))
      end
  end.

(** The phases of the closure in order. *)
Definition pre_phase (defaultRule : option Rule) (nonDefaultRules : Rules)
    (w : World) : Exec :=
  default_pre defaultRule
    (pre_loop O nonDefaultRules
       (exec_init (NewResponseModifier w) (length nonDefaultRules))).

Definition post_phase (defaultRule : option Rule) (nonDefaultRules : Rules)
    (st : Exec) : Exec :=
  default_post defaultRule (post_loop O nonDefaultRules st).

Definition serve (defaultRule : option Rule) (nonDefaultRules : Rules)
    (w : World) : Exec :=
  let st := pre_phase defaultRule nonDefaultRules w in
  let st := upstream_call st in
  let st := post_phase defaultRule nonDefaultRules st in
  let st := post_matcher_loop O nonDefaultRules st in
  with_rm st (FlushRelease (rm st)).

(** [rules.BuildHandler(up)] *)
Definition BuildHandler (rules : Rules) : World -> World :=
  match rules with
  | [] => up
  | _ =>
    let '(defaultRule, nonDefaultRules) := splitRules rules None [] in
    let trivial :=
      match nonDefaultRules, defaultRule with
      | [], None => true
      | [], Some d => String.eqb (c_raw (Do d)) CommandUpstream
      | _, _ => false
      end in
    if trivial then up
    else fun w => rm (serve defaultRule nonDefaultRules w)
  end.

End BuildHandler.

End Engine.

(* ===================================================================== *)
(** * The request, as matchers, variables and commands see it *)
(* ===================================================================== *)

(** [http.Header] and [url.Values] are [map[string][]string]. *)
Abbreviation Values := (gmap string (list string)).

Record URL := {
  Scheme : string;
  Path : string;
  RawPath : string;
  RawQuery : string;
  Fragment : string
}.

Record Request := {
  Method : string;
  url : URL;
  Header : Values;
  Host : string;
  RequestURI : string
}.

(** ** The [rewrite] command (the closure built for [CommandRewrite]) *)
Definition rewrite (orig repl : string) (r : Request) : Request * option error :=
  let path := Path (url r) in
  let path :=
    match path with
    | String c _ => if negb (Ascii.eqb c Ch.slash) then "/" +:+ path else path
    | EmptyString => path
    end in
  if negb (Go.HasPrefix path orig) then (r, None)
  else
    let path := repl +:+ Go.drop_bytes (String.length orig) path in
    ({| Method := Method r;
        url := {| Scheme := Scheme (url r); Path := path; RawPath := EmptyString;
                  RawQuery := RawQuery (url r); Fragment := Fragment (url r) |};
        Header := Header r; Host := Host r; RequestURI := EmptyString |},
     None).

(** ** The [header] matcher (the closures built for [OnHeader]) *)
Definition Matcher := string -> bool.

(** [m[k]] of a Go map: the zero value when the key is absent. *)
Definition index_map (m : Values) (k : string) : list string :=
  match m !! k with Some vs => vs | None => [] end.

Definition OnHeader (k : string) (matcher : option Matcher) (r : Request) : bool :=
  match matcher with
  | None => (0 <? length (index_map (Header r) k))%nat
  | Some m => existsb m (index_map (Header r) k)
  end.

(** ** Dynamic variables (vars_dynamic.go) *)

Inductive ArgError :=
| ErrExpectNoArg
| ErrExpectOneOrTwoArgs
| ErrInvalidArguments (arg : string).

Definition getKeyAndIndex (args : list string) : string * Z * option ArgError :=
  match args with
  | [] => (EmptyString, 0, Some ErrExpectNoArg)
  | [key] => (key, 0, None)
  | [key; idx] =>
    match Go.Atoi idx with
    | None => (EmptyString, 0, Some (ErrInvalidArguments idx))
    | Some index => (key, index, None)
    end
  | _ => (EmptyString, 0, Some ErrExpectOneOrTwoArgs)
  end.

Section DynamicVars.

(** [stripFragment], a helper of the package. *)
Variable stripFragment : string -> string.

(** [values[index]] panics when the index is out of range. *)
Definition index_slice (values : list string) (index : Z) : outcome string :=
  if index <? 0 then Panic
  else match values !! Z.to_nat index with
       | Some v => Ret v
       | None => Panic
       end.

Definition getValueByKeyAtIndex (values : Values) (key : string) (index : Z)
  : outcome (string * option ArgError) :=
  match values !! key with
  | Some vs =>
    if index <? Z.of_nat (length vs)
    then v ← index_slice vs index; Ret (stripFragment v, None)
    else Ret (EmptyString, None)       (* index out of range *)
  | None => Ret (EmptyString, None)    (* unknown header *)
  end.

(** [dynamicVarSubsMap[VarHeader].get] *)
Definition VarHeader_get (args : list string) (req : Request)
  : outcome (string * option ArgError) :=
  let '(key, index, err) := getKeyAndIndex args in
  match err with
  | Some e => Ret (EmptyString, Some e)
  | None => getValueByKeyAtIndex (Header req) key index
  end.

End DynamicVars.

(* ===================================================================== *)
(** * tokenizer.go, block_parser.go, rules.go: scanning the block syntax *)
(* ===================================================================== *)

(** The scanners walk over [src] by index.  A loop [for pos < len(src)]
    is a recursion on the rest [src[pos:]] of the text, with [pos] carried
    along; where a loop hands [pos] to an inner loop, [fuel] bounds the
    number of its iterations (each consumes at least one byte). *)

(** Two more character constants. *)
Module Ck.
Definition star : ascii := "*".
Definition hash : ascii := "#".
End Ck.

(** [unicode.IsSpace(rune(c))] of a byte [c]. *)
Definition isSpaceByte (c : ascii) : bool := Go.IsSpace (Go.byteZ c).

(** [pos+1 < len(src) && src[pos+1] == n], on the rest after [src[pos]]. *)
Definition next_is (rest' : string) (n : ascii) : bool :=
  match rest' with
  | String c _ => Ascii.eqb c n
  | EmptyString => false
  end.

(** The messages of [ErrInvalidBlockSyntax.Withf]. *)
Inductive BlockSyntaxError :=
| ErrUnterminatedBlockComment         (* "unterminated block comment" *)
| ErrUnmatchedRBraceInHeader          (* "unmatched '}' in block header" *)
| ErrExpectedLBraceAfterHeader        (* "expected '{' after block header" *)
| ErrUnmatchedLBrace (startPos : nat). (* "unmatched '{' at position %d" *)

(** ** [skipSameLineSpace] *)

Fixpoint skipSameLineSpace_loop (rest : string) (pos : nat) : nat :=
  match rest with
  | EmptyString => pos
  | String c rest' =>
    if Ascii.eqb c Ch.lf then pos
    else if Ascii.eqb c Ch.cr then skipSameLineSpace_loop rest' (S pos)
    else if Ascii.eqb c Ch.space || Ascii.eqb c Ch.tab
    then skipSameLineSpace_loop rest' (S pos)
    else pos
  end.

Definition skipSameLineSpace (src : string) (pos : nat) : nat :=
  skipSameLineSpace_loop (Go.drop_bytes pos src) pos.

(** ** [Tokenizer.skipComments] *)

(** [for pos < t.length && t.src[pos] != '\n' { pos++ }] *)
Fixpoint skip_to_eol (rest : string) (pos : nat) : string * nat :=
  match rest with
  | EmptyString => (rest, pos)
  | String c rest' =>
    if Ascii.eqb c Ch.lf then (rest, pos) else skip_to_eol rest' (S pos)
  end.

(** The search for the end of a block comment,
    [for pos+1 < t.length { ... }]: the rest and the position after
    ["*/"], or [None] when the comment is not closed. *)
Fixpoint skip_block (rest : string) (pos : nat) : option (string * nat) :=
  match rest with
  | String c ((String n rest'') as rest') =>
    if Ascii.eqb c Ck.star && Ascii.eqb n Ch.slash
    then Some (rest'', S (S pos))
    else skip_block rest' (S pos)
  | _ => None
  end.

Fixpoint skipComments_loop (fuel : nat) (rest : string) (pos : nat)
    (atLineStart prevIsSpace : bool) : BlockSyntaxError + nat :=
  match fuel with
  | O => inr pos
  | S fuel' =>
    match rest with
    | EmptyString => inr pos
    | String c rest' =>
      if isSpaceByte c then skipComments_loop fuel' rest' (S pos) false true
      else if Ascii.eqb c Ch.slash && next_is rest' Ch.slash then
        let '(r, p) := skip_to_eol rest pos in
        skipComments_loop fuel' r p true true
      else if Ascii.eqb c Ck.hash && (atLineStart || prevIsSpace) then
        let '(r, p) := skip_to_eol rest pos in
        skipComments_loop fuel' r p true true
      else if Ascii.eqb c Ch.slash && next_is rest' Ck.star then
        match skip_block (Go.drop_bytes 1 rest') (S (S pos)) with
        | None => inl ErrUnterminatedBlockComment
        | Some (r, p) => skipComments_loop fuel' r p false true
        end
      else inr pos                                          (* break *)
    end
  end.

Definition skipComments (src : string) (pos : nat)
    (atLineStart prevIsSpace : bool) : BlockSyntaxError + nat :=
  skipComments_loop (S (String.length src)) (Go.drop_bytes pos src) pos
                    atLineStart prevIsSpace.

(** ** [Tokenizer.scanToBrace] *)

Fixpoint scanToBrace_loop (rest : string) (pos : nat) (quote : option ascii)
  : BlockSyntaxError + nat :=
  match rest with
  | EmptyString => inl ErrExpectedLBraceAfterHeader
  | String c rest' =>
    match quote with
    | Some q =>
      scanToBrace_loop rest' (S pos) (if Ascii.eqb c q then None else quote)
    | None =>
      if is_quote_byte c then scanToBrace_loop rest' (S pos) (Some c)
      else if Ascii.eqb c Ch.lbrace then inr pos
      else if Ascii.eqb c Ch.rbrace then inl ErrUnmatchedRBraceInHeader
      else scanToBrace_loop rest' (S pos) None
    end
  end.

Definition scanToBrace (src : string) (pos : nat) : BlockSyntaxError + nat :=
  scanToBrace_loop (Go.drop_bytes pos src) pos None.

(** [parseHeaderToBrace]: the trimmed header and the position of the
    brace. *)
Definition parseHeaderToBrace (src : string) (start : nat)
  : BlockSyntaxError + (string * nat) :=
  match scanToBrace src start with
  | inl err => inl err
  | inr bracePos =>
    inr (Go.TrimSpace (Go.take_bytes (bracePos - start) (Go.drop_bytes start src)),
         bracePos)
  end.

(** ** [Tokenizer.findMatchingBrace] *)

(** The inner loop that skips an env var [${...}], entered after the
    ["${"]: the rest and the position it leaves. *)
Fixpoint skip_env (rest : string) (pos : nat) (envBraceDepth : nat)
    (envQuote : option ascii) : string * nat :=
  match rest with
  | EmptyString => (rest, pos)
  | String ec rest' =>
    match envQuote with
    | Some q =>
      skip_env rest' (S pos) envBraceDepth
               (if Ascii.eqb ec q then None else envQuote)
    | None =>
      if is_quote_byte ec then skip_env rest' (S pos) envBraceDepth (Some ec)
      else if Ascii.eqb ec Ch.lbrace
      then skip_env rest' (S pos) (S envBraceDepth) None
      else if Ascii.eqb ec Ch.rbrace then
        if (envBraceDepth =? 1)%nat then (rest', S pos)     (* pos++; break *)
        else skip_env rest' (S pos) (Nat.pred envBraceDepth) None
      else skip_env rest' (S pos) envBraceDepth None
    end
  end.

Record BraceScan := {
  bs_braceDepth : nat;
  bs_quote : option ascii;
  bs_inLine : bool;
  bs_inBlock : bool;
  bs_atLineStart : bool;
  bs_prevIsSpace : bool
}.

Definition bs_init : BraceScan :=
  {| bs_braceDepth := 1; bs_quote := None; bs_inLine := false;
     bs_inBlock := false; bs_atLineStart := true; bs_prevIsSpace := true |}.

(** [if c == '\n' { atLineStart = true; prevIsSpace = true } else
    { atLineStart = false; prevIsSpace = unicode.IsSpace(c) }] *)
Definition bs_after (st : BraceScan) (c : ascii) : BraceScan :=
  {| bs_braceDepth := bs_braceDepth st; bs_quote := bs_quote st;
     bs_inLine := bs_inLine st; bs_inBlock := bs_inBlock st;
     bs_atLineStart := Ascii.eqb c Ch.lf;
     bs_prevIsSpace := if Ascii.eqb c Ch.lf then true else isSpaceByte c |}.

Definition bs_set_quote (st : BraceScan) (q : option ascii) : BraceScan :=
  {| bs_braceDepth := bs_braceDepth st; bs_quote := q;
     bs_inLine := bs_inLine st; bs_inBlock := bs_inBlock st;
     bs_atLineStart := bs_atLineStart st; bs_prevIsSpace := bs_prevIsSpace st |}.

Definition bs_set_inLine (st : BraceScan) (b : bool) : BraceScan :=
  {| bs_braceDepth := bs_braceDepth st; bs_quote := bs_quote st;
     bs_inLine := b; bs_inBlock := bs_inBlock st;
     bs_atLineStart := bs_atLineStart st; bs_prevIsSpace := bs_prevIsSpace st |}.

Definition bs_set_inBlock (st : BraceScan) (b : bool) : BraceScan :=
  {| bs_braceDepth := bs_braceDepth st; bs_quote := bs_quote st;
     bs_inLine := bs_inLine st; bs_inBlock := b;
     bs_atLineStart := bs_atLineStart st; bs_prevIsSpace := bs_prevIsSpace st |}.

Definition bs_set_depth (st : BraceScan) (n : nat) : BraceScan :=
  {| bs_braceDepth := n; bs_quote := bs_quote st;
     bs_inLine := bs_inLine st; bs_inBlock := bs_inBlock st;
     bs_atLineStart := bs_atLineStart st; bs_prevIsSpace := bs_prevIsSpace st |}.

(** [atLineStart = true; prevIsSpace = true] *)
Definition bs_line_start (st : BraceScan) : BraceScan :=
  {| bs_braceDepth := bs_braceDepth st; bs_quote := bs_quote st;
     bs_inLine := bs_inLine st; bs_inBlock := bs_inBlock st;
     bs_atLineStart := true; bs_prevIsSpace := true |}.

(** [atLineStart = false; prevIsSpace = false] *)
Definition bs_in_token (st : BraceScan) : BraceScan :=
  {| bs_braceDepth := bs_braceDepth st; bs_quote := bs_quote st;
     bs_inLine := bs_inLine st; bs_inBlock := bs_inBlock st;
     bs_atLineStart := false; bs_prevIsSpace := false |}.

(** The loop of [findMatchingBrace]; [None] is the end of the text
    without a matching brace. *)
Fixpoint findMatchingBrace_loop (fuel : nat) (rest : string) (pos : nat)
    (st : BraceScan) : option nat :=
  match fuel with
  | O => None
  | S fuel' =>
    match rest with
    | EmptyString => None
    | String c rest' =>
      if bs_inLine st then
        findMatchingBrace_loop fuel' rest' (S pos)
          (if Ascii.eqb c Ch.lf then bs_line_start (bs_set_inLine st false) else st)
      else if bs_inBlock st then
        if Ascii.eqb c Ck.star && next_is rest' Ch.slash
        then findMatchingBrace_loop fuel' (Go.drop_bytes 1 rest') (S (S pos))
               (bs_set_inBlock st false)
        else findMatchingBrace_loop fuel' rest' (S pos)
               (if Ascii.eqb c Ch.lf then bs_line_start st else st)
      else
        match bs_quote st with
        | Some q =>
          findMatchingBrace_loop fuel' rest' (S pos)
            (bs_after (if Ascii.eqb c q then bs_set_quote st None else st) c)
        | None =>
          if is_quote_byte c then
            findMatchingBrace_loop fuel' rest' (S pos)
              (bs_in_token (bs_set_quote st (Some c)))
          else if Ascii.eqb c Ck.hash && (bs_atLineStart st || bs_prevIsSpace st)
          then findMatchingBrace_loop fuel' rest' (S pos) (bs_set_inLine st true)
          else if Ascii.eqb c Ch.slash
                  && (bs_atLineStart st || bs_prevIsSpace st)
                  && next_is rest' Ch.slash
          then findMatchingBrace_loop fuel' (Go.drop_bytes 1 rest') (S (S pos))
                 (bs_set_inLine st true)
          else if Ascii.eqb c Ch.slash
                  && (bs_atLineStart st || bs_prevIsSpace st)
                  && next_is rest' Ck.star
          then findMatchingBrace_loop fuel' (Go.drop_bytes 1 rest') (S (S pos))
                 (bs_set_inBlock st true)
          else if Ascii.eqb c Ch.dollar && next_is rest' Ch.lbrace then
            let '(r, p) := skip_env (Go.drop_bytes 1 rest') (S (S pos)) 1 None in
            findMatchingBrace_loop fuel' r p st
          else if Ascii.eqb c Ch.lbrace then
            findMatchingBrace_loop fuel' rest' (S pos)
              (bs_after (bs_set_depth st (S (bs_braceDepth st))) c)
          else if Ascii.eqb c Ch.rbrace then
            if (bs_braceDepth st =? 1)%nat then Some pos
            else findMatchingBrace_loop fuel' rest' (S pos)
                   (bs_after (bs_set_depth st (Nat.pred (bs_braceDepth st))) c)
          else findMatchingBrace_loop fuel' rest' (S pos) (bs_after st c)
        end
    end
  end.

Definition findMatchingBrace (src : string) (startPos : nat)
  : BlockSyntaxError + nat :=
  match findMatchingBrace_loop (S (String.length src))
          (Go.drop_bytes startPos src) startPos bs_init with
  | Some pos => inr pos
  | None => inl (ErrUnmatchedLBrace startPos)
  end.

(** ** [hasTopLevelLBrace] (rules.go) *)

Fixpoint hasTopLevelLBrace_loop (s : string) (quote : option ascii)
    (inLine inBlock : bool) : bool :=
  match s with
  | EmptyString => false
  | String c s' =>
    if inLine then
      hasTopLevelLBrace_loop s' quote (negb (Ascii.eqb c Ch.lf)) inBlock
    else if inBlock then
      if Ascii.eqb c Ck.star && next_is s' Ch.slash
      then match s' with
           | String _ s'' => hasTopLevelLBrace_loop s'' quote inLine false
           | EmptyString => false
           end
      else hasTopLevelLBrace_loop s' quote inLine inBlock
    else
      match quote with
      | Some q =>
        if negb (Ascii.eqb q Ch.backtick) && Ascii.eqb c Ch.backslash
        then match s' with
             | String _ s'' => hasTopLevelLBrace_loop s'' quote inLine inBlock
             | EmptyString =>     (* i+1 == len(s): the backslash is compared *)
               hasTopLevelLBrace_loop s'
                 (if Ascii.eqb c q then None else quote) inLine inBlock
             end
        else hasTopLevelLBrace_loop s'
               (if Ascii.eqb c q then None else quote) inLine inBlock
      | None =>
        if is_quote_byte c then hasTopLevelLBrace_loop s' (Some c) inLine inBlock
        else if Ascii.eqb c Ch.lbrace then true
        else if Ascii.eqb c Ck.hash then hasTopLevelLBrace_loop s' quote true inBlock
        else if Ascii.eqb c Ch.slash && next_is s' Ch.slash
        then match s' with
             | String _ s'' => hasTopLevelLBrace_loop s'' quote true inBlock
             | EmptyString => false
             end
        else if Ascii.eqb c Ch.slash && next_is s' Ck.star
        then match s' with
             | String _ s'' => hasTopLevelLBrace_loop s'' quote inLine true
             | EmptyString => false
             end
        else hasTopLevelLBrace_loop s' quote inLine inBlock
      end
  end.

Definition hasTopLevelLBrace (s : string) : bool :=
  hasTopLevelLBrace_loop s None false false.

(** ** [stripCommentsPreserveNewlines] (block_parser.go) *)

(** [strings.ContainsAny(src, "#/")] *)
Fixpoint containsHashOrSlash (s : string) : bool :=
  match s with
  | EmptyString => false
  | String c s' =>
    Ascii.eqb c Ck.hash || Ascii.eqb c Ch.slash || containsHashOrSlash s'
  end.

(** The loop: the bytes written to [out] from here on, and [inBlock]
    when the text ends. *)
Fixpoint strip_loop (s : string) (quote : option ascii)
    (inLine inBlock atLineStart prevIsSpace : bool) : string * bool :=
  let put (c : ascii) (r : string * bool) := (String c (fst r), snd r) in
  (* the tail of an iteration that wrote [c] *)
  let after (c : ascii) (s' : string) (quote : option ascii) :=
    put c (strip_loop s' quote inLine inBlock (Ascii.eqb c Ch.lf)
             (if Ascii.eqb c Ch.lf then true else isSpaceByte c)) in
  match s with
  | EmptyString => (EmptyString, inBlock)
  | String c s' =>
    if inLine then
      if Ascii.eqb c Ch.lf
      then put Ch.lf (strip_loop s' quote false inBlock true true)
      else strip_loop s' quote inLine inBlock atLineStart prevIsSpace
    else if inBlock then
      if Ascii.eqb c Ch.lf
      then put Ch.lf (strip_loop s' quote inLine inBlock true true)
      else if Ascii.eqb c Ck.star && next_is s' Ch.slash
      then match s' with
           | String _ s'' =>
             strip_loop s'' quote inLine false atLineStart prevIsSpace
           | EmptyString => (EmptyString, inBlock)
           end
      else strip_loop s' quote inLine inBlock atLineStart prevIsSpace
    else
      match quote with
      | Some q =>
        match s' with
        | String e s'' =>
          if Ascii.eqb c Ch.backslash
          then put c (put e (strip_loop s'' quote inLine inBlock false false))
          else after c s' (if Ascii.eqb c q then None else quote)
        | EmptyString => after c s' (if Ascii.eqb c q then None else quote)
        end
      | None =>
        if is_quote_byte c
        then put c (strip_loop s' (Some c) inLine inBlock false false)
        else if Ascii.eqb c Ck.hash && (atLineStart || prevIsSpace)
        then strip_loop s' quote true inBlock atLineStart prevIsSpace
        else if Ascii.eqb c Ch.slash && (atLineStart || prevIsSpace)
                && next_is s' Ch.slash
        then match s' with
             | String _ s'' =>
               strip_loop s'' quote true inBlock atLineStart prevIsSpace
             | EmptyString => (EmptyString, inBlock)
             end
        else if Ascii.eqb c Ch.slash && (atLineStart || prevIsSpace)
                && next_is s' Ck.star
        then match s' with
             | String _ s'' =>
               strip_loop s'' quote inLine true atLineStart prevIsSpace
             | EmptyString => (EmptyString, inBlock)
             end
        else after c s' quote
      end
  end.

Definition stripCommentsPreserveNewlines (src : string)
  : BlockSyntaxError + string :=
  if negb (containsHashOrSlash src) then inr src
  else
    let '(out, inBlock) := strip_loop src None false false true true in
    if inBlock then inl ErrUnterminatedBlockComment else inr out.

(* ===================================================================== *)
(** * vars_dynamic.go, on.go: status ranges *)
(* ===================================================================== *)

(** [strings.Cut(s, sep)] for a separator of one byte: the text before
    and after the first separator, and whether there is one. *)
Fixpoint strings_Cut (s : string) (sep : ascii) : string * string * bool :=
  match s with
  | EmptyString => (EmptyString, EmptyString, false)
  | String c s' =>
    if Ascii.eqb c sep then (EmptyString, s', true)
    else let '(before, after, found) := strings_Cut s' sep in
         (String c before, after, found)
  end.

(** The errors of [validateStatusCode]: the [*NumError] of
    [strconv.Atoi], or ["status code out of range: %s"]. *)
Inductive StatusCodeError :=
| ErrStatusSyntax (status : string)
| ErrStatusOutOfRange (status : string).

Definition validateStatusCode (status : string) : StatusCodeError + Z :=
  match Go.Atoi status with
  | None => inl (ErrStatusSyntax status)
  | Some statusCode =>
    if (statusCode <? 100) || (599 <? statusCode)
    then inl (ErrStatusOutOfRange status)
    else inr statusCode
  end.

(** The errors of [validateStatusRange]: [ErrExpectOneArg], or
    [ErrInvalidArguments.With(gperr.Join(begErr, endErr))]. *)
Inductive StatusRangeError :=
| ErrExpectOneArg
| ErrInvalidStatusRange (begErr endErr : option StatusCodeError).

Definition err_of {A} (r : StatusCodeError + A) : option StatusCodeError :=
  match r with inl e => Some e | inr _ => None end.

(** [validateStatusRange]: the [IntTuple] of the range. *)
Definition validateStatusRange (args : list string) : StatusRangeError + (Z * Z) :=
  match args with
  | [arg] =>
    let '(beg, end_, ok) := strings_Cut arg "-" in
    let end_ := if ok then end_ else beg in            (* <status> *)
    if String.eqb beg "1xx" then inr (100, 199)
    else if String.eqb beg "2xx" then inr (200, 299)
    else if String.eqb beg "3xx" then inr (300, 399)
    else if String.eqb beg "4xx" then inr (400, 499)
    else if String.eqb beg "5xx" then inr (500, 599)
    else
      match validateStatusCode beg, validateStatusCode end_ with
      | inr begInt, inr endInt => inr (begInt, endInt)
      | begRes, endRes => inl (ErrInvalidStatusRange (err_of begRes) (err_of endRes))
      end
  | _ => inl ErrExpectOneArg
  end.

(** The check the [status] matcher builds from the range; [statusCode]
    is [w.StatusCode()]. *)
Definition OnStatus (args : Z * Z) (statusCode : Z) : bool :=
  let '(beg, end_) := args in
  if beg =? end_ then statusCode =? beg
  else (beg <=? statusCode) && (statusCode <=? end_).

(* ===================================================================== *)
(** * vars.go: expanding variables in a template *)
(* ===================================================================== *)

Module Cv.
Definition comma : ascii := ",".
Definition underscore : ascii := "_".
End Cv.

(** [validVarNameCharset]: the letters and the underscore. *)
Definition validVarNameCharset (c : ascii) : bool :=
  Go.in_range 97 122 (Go.byteZ c) || Go.in_range 65 90 (Go.byteZ c)
  || Ascii.eqb c Cv.underscore.

(** [reVar], the pattern [\$[\w_]+], matches where a dollar is followed
    by a letter, a digit or an underscore. *)
Definition is_word_byte (c : ascii) : bool :=
  Go.is_digit c || Go.in_range 97 122 (Go.byteZ c)
  || Go.in_range 65 90 (Go.byteZ c) || Ascii.eqb c Cv.underscore.

Fixpoint NeedExpandVars (s : string) : bool :=
  match s with
  | EmptyString => false
  | String c s' =>
    (Ascii.eqb c Ch.dollar
     && match s' with String d _ => is_word_byte d | EmptyString => false end)
    || NeedExpandVars s'
  end.

(** The errors of [ExpandVars], [extractArgs] and
    [extractNestedFuncExpr], with what [Withf] and [Subject] add to
    them; [ErrGetter] is an error of a variable's getter. *)
Inductive VarsError (E : Type) :=
| ErrUnterminatedEnvVarAt (position : option nat)
| ErrUnterminatedQuotesIn (funcName : string)
| ErrUnterminatedParenthesis (funcName : string) (position : option nat)
| ErrUnterminatedQuotesNested (position : nat)
| ErrUnterminatedParenthesisNested (position : nat)
| ErrUnexpectedVar (name : string)
| ErrGetter (e : E).
Arguments ErrUnterminatedEnvVarAt {E}.
Arguments ErrUnterminatedQuotesIn {E}.
Arguments ErrUnterminatedParenthesis {E}.
Arguments ErrUnterminatedQuotesNested {E}.
Arguments ErrUnterminatedParenthesisNested {E}.
Arguments ErrUnexpectedVar {E}.
Arguments ErrGetter {E}.

(** [strings.IndexByte]; [None] is [-1]. *)
Fixpoint IndexByte (s : string) (c : ascii) : option nat :=
  match s with
  | EmptyString => None
  | String x s' =>
    if Ascii.eqb x c then Some O
    else match IndexByte s' c with Some i => Some (S i) | None => None end
  end.

Definition is_arg_space (ch : ascii) : bool :=
  Ascii.eqb ch Ch.space || Ascii.eqb ch Ch.tab || Ascii.eqb ch Ch.lf
  || Ascii.eqb ch Ch.cr.

(** The end [k] of the run of name bytes that starts at [k]; [s] is
    [src[k:]]. *)
Fixpoint name_end (s : string) (k : nat) : nat :=
  match s with
  | String c s' => if validVarNameCharset c then name_end s' (S k) else k
  | EmptyString => k
  end.

(** [len(arg) > 0 && arg[0] == '$'] *)
Definition starts_with_dollar (arg : string) : bool :=
  match arg with
  | String c _ => Ascii.eqb c Ch.dollar
  | EmptyString => false
  end.

Section ExpandVars.

Context {W Req E : Type}.

(** ** [extractNestedFuncExpr] *)

(** The second loop of [extractNestedFuncExpr]; [rest] is [src[i:]]. *)
Fixpoint nested_scan (start : nat) (rest : string) (i : nat) (depth : Z)
    (quote : option ascii) : VarsError E + nat :=
  match rest with
  | EmptyString =>
    match quote with
    | Some _ => inl (ErrUnterminatedQuotesNested start)
    | None => inl (ErrUnterminatedParenthesisNested start)
    end
  | String ch rest' =>
    match quote with
    | Some q =>
      nested_scan start rest' (S i) depth
        (if Ascii.eqb ch q then None else quote)
    | None =>
      if is_quote_byte ch then nested_scan start rest' (S i) depth (Some ch)
      else if Ascii.eqb ch Ch.lparen
      then nested_scan start rest' (S i) (depth + 1) None
      else if Ascii.eqb ch Ch.rparen then
        if depth - 1 =? 0 then inr i
        else nested_scan start rest' (S i) (depth - 1) None
      else nested_scan start rest' (S i) depth None
    end
  end.

(** The end index (inclusive) of the [$func(...)] expression that
    starts at [start]. *)
Definition extractNestedFuncExpr (src : string) (start : nat)
  : VarsError E + nat :=
  (* skip the function name *)
  let i := name_end (Go.drop_bytes (start + 1) src) (start + 1) in
  match Go.drop_bytes i src with
  | String c _ =>
    if Ascii.eqb c Ch.lparen
    then nested_scan start (Go.drop_bytes i src) i 0 None
    else inl (ErrUnterminatedParenthesisNested start)
  | EmptyString => inl (ErrUnterminatedParenthesisNested start)
  end.

(** ** [extractArgs] *)

(** The loop of [extractArgs]; [rest] is [src[nextIdx:]].  Where the
    source moves [nextIdx] behind a nested expression, [skip] is the
    number of bytes the loop steps over to get there. *)
Fixpoint extractArgs_loop (src funcName : string) (rest : string)
    (nextIdx : nat) (skip : nat) (quote : option ascii) (arg : string)
    (args : list string) : VarsError E + (list string * nat) :=
  match rest with
  | EmptyString =>
    (* reached the end of the string without a closing parenthesis *)
    match quote with
    | Some _ => inl (ErrUnterminatedQuotesIn funcName)
    | None => inl (ErrUnterminatedParenthesis funcName None)
    end
  | String ch rest' =>
    match skip with
    | S skip' =>
      extractArgs_loop src funcName rest' (S nextIdx) skip' quote arg args
    | O =>
      match quote with
      | Some q =>
        if Ascii.eqb ch q
        then extractArgs_loop src funcName rest' (S nextIdx) O None EmptyString
               (args ++ [arg])
        else extractArgs_loop src funcName rest' (S nextIdx) O quote
               (arg +:+ String ch EmptyString) args
      | None =>
        if is_quote_byte ch
        then extractArgs_loop src funcName rest' (S nextIdx) O (Some ch) arg args
        else if Ascii.eqb ch Ch.dollar && is_empty arg then
          (* nested function call: $func(...) as an argument *)
          match extractNestedFuncExpr src nextIdx with
          | inl nestedErr => inl nestedErr
          | inr nestedEnd =>
            extractArgs_loop src funcName rest' (S nextIdx) (nestedEnd - nextIdx)
              None arg
              (args ++ [Go.take_bytes (nestedEnd + 1 - nextIdx) rest])
          end
        else if Ascii.eqb ch Ch.rparen then
          inr (if negb (is_empty arg) then args ++ [arg] else args, nextIdx)
        else if Ascii.eqb ch Cv.comma then
          if negb (is_empty arg)
          then extractArgs_loop src funcName rest' (S nextIdx) O None EmptyString
                 (args ++ [arg])
          else extractArgs_loop src funcName rest' (S nextIdx) O None arg args
        else if is_arg_space ch
        then extractArgs_loop src funcName rest' (S nextIdx) O None arg args
        else extractArgs_loop src funcName rest' (S nextIdx) O None
               (arg +:+ String ch EmptyString) args
      end
    end
  end.

Definition extractArgs (src : string) (i : nat) (funcName : string)
  : VarsError E + (list string * nat) :=
  match IndexByte (Go.drop_bytes i src) Ch.lparen with
  | None => inl (ErrUnterminatedParenthesis funcName (Some i))
  | Some parenIdx =>
    let parenIdx := (parenIdx + i)%nat in
    extractArgs_loop src funcName (Go.drop_bytes (parenIdx + 1) src)
      (parenIdx + 1) O None EmptyString []
  end.

(** ** [ExpandVars] and [expandArgs] *)

Record dynamicVarGetter := {
  dv_phase : PhaseFlag;
  dv_get : list string -> W -> Req -> E + string
}.

Variable dynamicVarSubsMap : gmap string dynamicVarGetter.
Variable staticReqVarSubsMap : gmap string (Req -> string).
Variable staticRespVarSubsMap : gmap string (W -> string).

(** What [ExpandVars] returns, with what it has written. *)
Definition Expanded : Type := PhaseFlag * string * option (VarsError E).

Section Nested.

(** [ExpandVars] as [expandArgs] calls it on an argument; [None] when
    the nesting is deeper than the model follows (see [ExpandVars]). *)
Variable expand : W -> Req -> string -> option Expanded.

(** [expandArgs]: the arguments that start with a dollar are expanded;
    [phase] is the phase so far. *)
Fixpoint expandArgs (args : list string) (w : W) (req : Req) (phase : PhaseFlag)
  : option (VarsError E + (list string * PhaseFlag)) :=
  match args with
  | [] => Some (inr ([], phase))
  | arg :: args' =>
    if starts_with_dollar arg then
      match expand w req arg with
      | None => None
      | Some (_, _, Some err) => Some (inl err)
      | Some (argPhase, buf, None) =>
        match expandArgs args' w req (Z.lor phase argPhase) with
        | Some (inr (expanded, phase')) => Some (inr (buf :: expanded, phase'))
        | other => other
        end
      end
    else
      match expandArgs args' w req phase with
      | Some (inr (expanded, phase')) => Some (inr (arg :: expanded, phase'))
      | other => other
      end
  end.

(** The loop of [ExpandVars]: [rest] is [src[i:]] and [dst] is what has
    been written.  Where the source moves [i] forward before [continue],
    [skip] is the number of bytes the loop steps over to get there.  The
    writer is a buffer, whose writes do not fail. *)
Fixpoint ExpandVars_loop (w : W) (req : Req) (src : string) (rest : string)
    (i : nat) (skip : nat) (phase : PhaseFlag) (dst : string)
  : option Expanded :=
  match rest with
  | EmptyString => Some (phase, dst, None)
  | String ch after =>
    match skip with
    | S skip' => ExpandVars_loop w req src after (S i) skip' phase dst
    | O =>
      if negb (Ascii.eqb ch Ch.dollar)
      then ExpandVars_loop w req src after (S i) O phase
             (dst +:+ String ch EmptyString)
      else
        (* look ahead *)
        match after with
        | EmptyString => Some (phase, dst, Some (ErrUnterminatedEnvVarAt None))
        | String cj afterj =>
          let j := S i in
          if Ascii.eqb cj Ch.dollar then           (* $$ -> literal '$' *)
            ExpandVars_loop w req src after (S i) 1 phase
              (dst +:+ String Ch.dollar EmptyString)
          else if Ascii.eqb cj Ch.lbrace then      (* ${...} pass through as-is *)
            ExpandVars_loop w req src after (S i) 1 phase
              (dst +:+ String Ch.dollar (String Ch.lbrace EmptyString))
          else if validVarNameCharset cj then
            let k := name_end after j in
            let name := Go.take_bytes (k - j) after in
            match dynamicVarSubsMap !! name with
            | Some getter =>
              (* function-like variables *)
              let phase := Z.lor phase (dv_phase getter) in
              match extractArgs src j name with
              | inl err => Some (phase, dst, Some err)
              | inr (args, nextIdx) =>
                (* expand any nested $func(...) expressions in args *)
                match expandArgs args w req PhaseNone with
                | None => None
                | Some (inl err) => Some (phase, dst, Some err)
                | Some (inr (args, argPhase)) =>
                  let phase := Z.lor phase argPhase in
                  match dv_get getter args w req with
                  | inl err => Some (phase, dst, Some (ErrGetter err))
                  | inr actual =>
                    ExpandVars_loop w req src after (S i) (nextIdx - i) phase
                      (dst +:+ actual)
                  end
                end
              end
            | None =>
              match staticReqVarSubsMap !! name with
              | Some getter =>               (* always available *)
                ExpandVars_loop w req src after (S i) (k - j) phase
                  (dst +:+ getter req)
              | None =>
                match staticRespVarSubsMap !! name with
                | Some getter =>             (* post response *)
                  ExpandVars_loop w req src after (S i) (k - j)
                    (Z.lor phase PhasePost) (dst +:+ getter w)
                | None => Some (phase, dst, Some (ErrUnexpectedVar name))
                end
              end
            end
          else
            (* no valid construct after '$' *)
            Some (phase, dst, Some (ErrUnterminatedEnvVarAt (Some j)))
        end
    end
  end.

End Nested.

(** [ExpandVars] calls itself, through [expandArgs], on arguments of the
    text it expands; [fuel] bounds the depth of these calls. *)
Fixpoint ExpandVars_fuel (fuel : nat) (w : W) (req : Req) (src : string)
  : option Expanded :=
  match fuel with
  | O => None
  | S fuel' =>
    ExpandVars_loop (ExpandVars_fuel fuel') w req src src O O PhaseNone EmptyString
  end.

(** An argument is shorter than the text it is taken from, so that the
    length of the text bounds the depth: the fuel never runs out
    ([ExpandVars_fuel_enough]), and the value given for that case is
    never returned. *)
Definition ExpandVars (w : W) (req : Req) (src : string) : Expanded :=
  match ExpandVars_fuel (S (String.length src)) w req src with
  | Some res => res
  | None => (PhaseNone, EmptyString, None)
  end.

(** ** [templateString] (do_set.go) *)

Record templateString := {
  ts_string : string;
  isTemplate : bool
}.

(** [templateString.ExpandVarsToString] *)
Definition ExpandVarsToString (tmpl : templateString) (w : W) (r : Req)
  : string * PhaseFlag * option (VarsError E) :=
  if negb (isTemplate tmpl) then (ts_string tmpl, PhaseNone, None)
  else
    let '(phase, buf, err) := ExpandVars w r (ts_string tmpl) in
    match err with
    | Some e => (EmptyString, PhaseNone, Some e)
    | None => (buf, phase, None)
    end.

(** ** [validateTemplate] (vars_dynamic.go) *)

(** [voidResponseModifier] and [dummyRequest], which [ValidateVars]
    expands with. *)
Variable voidResponseModifier : W.
Variable dummyRequest : Req.

Definition ValidateVars (s : string) : PhaseFlag * option (VarsError E) :=
  let '(phase, _, err) := ExpandVars voidResponseModifier dummyRequest s in
  (phase, err).

Fixpoint HasSuffix_byte (s : string) (c : ascii) : bool :=
  match s with
  | EmptyString => false
  | String x EmptyString => Ascii.eqb x c
  | String _ s' => HasSuffix_byte s' c
  end.

Definition validateTemplate (tmplStr : string) (newline : bool)
  : PhaseFlag * templateString * option (VarsError E) :=
  let tmplStr :=
    if newline && negb (HasSuffix_byte tmplStr Ch.lf)
    then tmplStr +:+ String Ch.lf EmptyString else tmplStr in
  if negb (NeedExpandVars tmplStr)
  then (PhaseNone, {| ts_string := tmplStr; isTemplate := false |}, None)
  else
    let '(phase, err) := ValidateVars tmplStr in
    match err with
    | Some e => (phase, {| ts_string := EmptyString; isTemplate := false |}, Some e)
    | None => (phase, {| ts_string := tmplStr; isTemplate := true |}, None)
    end.

End ExpandVars.

(* ===================================================================== *)
(** * do_set.go: the [header] field of [set], [add] and [remove] *)
(* ===================================================================== *)

(** The request after an assignment to its header map. *)
Definition with_Header (r : Request) (h : Values) : Request :=
  {| Method := Method r; url := url r; Header := h; Host := Host r;
     RequestURI := RequestURI r |}.

Section FieldHeader.

Context {W E : Type}.
Variable dynamicVarSubsMap : gmap string (@dynamicVarGetter W Request E).
Variable staticReqVarSubsMap : gmap string (Request -> string).
Variable staticRespVarSubsMap : gmap string (W -> string).

(** The three handlers of a field; each returns the request as it has
    left it and its error. *)
Record FieldHandler := {
  fh_set : W -> Request -> Request * option (VarsError E);
  fh_add : W -> Request -> Request * option (VarsError E);
  fh_remove : W -> Request -> Request * option (VarsError E)
}.

(** [modFields[FieldHeader].builder]; the key is used as it is written. *)
Definition FieldHeader_builder (k : string) (tmpl : templateString) : FieldHandler :=
  {| fh_set := fun w r =>
       let '(v, _, err) :=
         ExpandVarsToString dynamicVarSubsMap staticReqVarSubsMap
           staticRespVarSubsMap tmpl w r in
       match err with
       | Some e => (r, Some e)
       | None => (with_Header r (<[k := [v]]> (Header r)), None)
       end;
     fh_add := fun w r =>
       let '(v, _, err) :=
         ExpandVarsToString dynamicVarSubsMap staticReqVarSubsMap
           staticRespVarSubsMap tmpl w r in
       match err with
       | Some e => (r, Some e)
       | None =>
         (with_Header r (<[k := index_map (Header r) k ++ [v]]> (Header r)), None)
       end;
     fh_remove := fun w r => (with_Header r (delete k (Header r)), None) |}.

End FieldHeader.

(* ===================================================================== *)
(** * Properties *)
(* ===================================================================== *)

(** ** Strings *)

Lemma append_nil_l (s : string) : EmptyString +:+ s = s.
Proof. reflexivity. Qed.

Lemma append_cons (c : ascii) (s t : string) :
  String c s +:+ t = String c (s +:+ t).
Proof. reflexivity. Qed.

Lemma append_nil_r (s : string) : s +:+ EmptyString = s.
Proof.
  induction s as [|c s IH]; [reflexivity |].
  rewrite append_cons. f_equal. exact IH.
Qed.

Lemma append_assoc (a b c : string) : (a +:+ b) +:+ c = a +:+ (b +:+ c).
Proof.
  induction a as [|x a IH]; [reflexivity |].
  rewrite !append_cons. f_equal. exact IH.
Qed.

Lemma drop_bytes_append (a b : string) :
  Go.drop_bytes (String.length a) (a +:+ b) = b.
Proof.
  induction a as [|x a IH]; [reflexivity |].
  rewrite append_cons. simpl. exact IH.
Qed.

Lemma HasPrefix_append (p rest : string) : Go.HasPrefix (p +:+ rest) p = true.
Proof.
  induction p as [|c p IH]; [destruct rest; reflexivity |].
  rewrite append_cons. simpl. now rewrite Ascii.eqb_refl, IH.
Qed.

Lemma HasPrefix_split (s p : string) :
  Go.HasPrefix s p = true -> s = p +:+ Go.drop_bytes (String.length p) s.
Proof.
  revert s; induction p as [|c p IH]; intros s H; [reflexivity |].
  destruct s as [|d s]; [discriminate |].
  cbn [Go.HasPrefix] in H.
  apply andb_true_iff in H as [Hc Hp].
  apply Ascii.eqb_eq in Hc; subst d.
  rewrite append_cons. cbn [String.length Go.drop_bytes].
  f_equal. now apply IH.
Qed.

(** ** The [rewrite] command *)

(** The path the command compares: a non-empty path that lacks the
    leading slash gets one. *)
Definition with_leading_slash (path : string) : string :=
  match path with
  | EmptyString => EmptyString
  | String c _ => if Ascii.eqb c "/" then path else String "/" path
  end.

Definition rewritten (r : Request) (path : string) : Request :=
  {| Method := Method r;
     url := {| Scheme := Scheme (url r); Path := path; RawPath := EmptyString;
               RawQuery := RawQuery (url r); Fragment := Fragment (url r) |};
     Header := Header r; Host := Host r; RequestURI := EmptyString |}.

(** C5.  [rewrite from to]: when the request path (given its leading
    slash if it is non-empty and lacks one) is [from] followed by some
    [rest], the path becomes [to] followed by [rest], [RawPath] and
    [RequestURI] become empty and everything else, the query string
    included, is kept; when the path does not start with [from] the
    request is returned as it was.  No error is returned either way. *)
Theorem rewrite_replaces_prefix (orig repl : string) (r : Request) :
  let path := with_leading_slash (Path (url r)) in
  (forall rest, path = orig +:+ rest ->
     rewrite orig repl r = (rewritten r (repl +:+ rest), None)
     /\ RawQuery (url (fst (rewrite orig repl r))) = RawQuery (url r))
  /\ ((forall rest, path <> orig +:+ rest) -> rewrite orig repl r = (r, None)).
Proof.
  intros path.
  assert (Hpath : forall b : bool,
    Go.HasPrefix path orig = b ->
    rewrite orig repl r =
      if b then (rewritten r (repl +:+ Go.drop_bytes (String.length orig) path), None)
      else (r, None)).
  { intros b Hb. unfold rewrite. subst path. unfold with_leading_slash in Hb.
    destruct (Path (url r)) as [|c p]; simpl in *.
    - rewrite Hb. destruct b; reflexivity.
    - change Ch.slash with "/"%char.
      destruct (Ascii.eqb c "/"); simpl in *; rewrite Hb; destruct b; reflexivity. }
  split.
  - intros rest Hrest.
    rewrite (Hpath true) by (rewrite Hrest; apply HasPrefix_append).
    rewrite Hrest, drop_bytes_append. split; reflexivity.
  - intros Hno.
    destruct (Go.HasPrefix path orig) eqn:Hp; [| now apply (Hpath false)].
    exfalso. apply (Hno (Go.drop_bytes (String.length orig) path)).
    now apply HasPrefix_split.
Qed.

Definition req_axyz : Request :=
  {| Method := "GET";
     url := {| Scheme := EmptyString; Path := "/axyz"; RawPath := "/axyz";
               RawQuery := "foo=1&bar=2"; Fragment := EmptyString |};
     Header := ∅; Host := "example.com"; RequestURI := "/axyz?foo=1&bar=2" |}.

Lemma rewrite_replaces_prefix_witness :
  rewrite "/a" "/b" req_axyz = (rewritten req_axyz "/bxyz", None)
  /\ RawQuery (url (fst (rewrite "/a" "/b" req_axyz))) = "foo=1&bar=2".
Proof.
  exact (proj1 (rewrite_replaces_prefix "/a" "/b" req_axyz) "xyz" eq_refl).
Defined.

(** An empty path is not given a leading slash: a request in absolute
    form without a path ([GET http://example.com HTTP/1.1], as a proxy
    receives it) has the path [""], which does not start with ["/"],
    although with the slash prepended it would; [rewrite / /x] leaves
    the request as it is, [RequestURI] included. *)
Definition req_no_path : Request :=
  {| Method := "GET";
     url := {| Scheme := "http"; Path := EmptyString; RawPath := EmptyString;
               RawQuery := "foo=1"; Fragment := EmptyString |};
     Header := ∅; Host := "example.com";
     RequestURI := "http://example.com?foo=1" |}.

Lemma rewrite_keeps_empty_path :
  Path (url req_no_path) = EmptyString
  /\ Go.HasPrefix ("/" +:+ Path (url req_no_path)) "/" = true
  /\ rewrite "/" "/x" req_no_path = (req_no_path, None)
  /\ Path (url (fst (rewrite "/" "/x" req_no_path))) <> "/x"
  /\ RequestURI (fst (rewrite "/" "/x" req_no_path)) <> EmptyString.
Proof. vm_compute. repeat split; discriminate. Qed.

(** ** Header lookups *)

Lemma index_map_lookup (m m' : Values) (k : string) :
  m !! k = m' !! k -> index_map m k = index_map m' k.
Proof. unfold index_map. now intros ->. Qed.

(** C6.  The [header k [v]] matcher and the [$header(k[, i])] variable
    read the request-header map at the key [k] as written and nowhere
    else: two requests whose maps agree at [k] give the same answers,
    and when the header is stored only under another key [k'] (for
    instance the same name in another casing) the matcher is false and
    the variable expands to the empty string.  What is stored under [k]
    is what they see: with the values [vs] there, the matcher without a
    value holds when [vs] is not empty, the matcher with a value when
    one of [vs] matches, and the variable is the value at the index. *)
Theorem header_lookup_is_exact
    (stripFragment : string -> string) (k : string) (matcher : option Matcher) :
  (forall r r' : Request,
      Header r !! k = Header r' !! k ->
      OnHeader k matcher r = OnHeader k matcher r'
      /\ forall index,
           getValueByKeyAtIndex stripFragment (Header r) k index
           = getValueByKeyAtIndex stripFragment (Header r') k index)
  /\ (forall (r : Request) (k' : string) (vs : list string),
        k' <> k ->
        Header r = {[ k' := vs ]} ->
        OnHeader k matcher r = false
        /\ VarHeader_get stripFragment [k] r = Ret (EmptyString, None)
        /\ forall index,
             getValueByKeyAtIndex stripFragment (Header r) k index
             = Ret (EmptyString, None))
  /\ (forall (r : Request) (vs : list string),
        Header r !! k = Some vs ->
        OnHeader k matcher r
        = match matcher with
          | None => negb (is_nil_list vs)
          | Some m => existsb m vs
          end
        /\ (forall (i : nat) (v idx : string),
              vs !! i = Some v ->
              Go.Atoi idx = Some (Z.of_nat i) ->
              VarHeader_get stripFragment [k; idx] r
              = Ret (stripFragment v, None)
              /\ getValueByKeyAtIndex stripFragment (Header r) k (Z.of_nat i)
                 = Ret (stripFragment v, None))
        /\ VarHeader_get stripFragment [k] r
           = Ret (match vs with v :: _ => stripFragment v | [] => EmptyString end,
                  None))
  /\ (forall r : Request,
        Header r !! k = None ->
        OnHeader k matcher r = false
        /\ VarHeader_get stripFragment [k] r = Ret (EmptyString, None)).
Proof.
  split; [| split; [| split]].
  - intros r r' Heq. split.
    + unfold OnHeader. now rewrite (index_map_lookup _ _ _ Heq).
    + intros index. unfold getValueByKeyAtIndex. now rewrite Heq.
  - intros r k' vs Hne Hh.
    assert (Hnone : Header r !! k = None).
    { rewrite Hh. now apply lookup_singleton_ne. }
    repeat split.
    + unfold OnHeader, index_map. rewrite Hnone. now destruct matcher.
    + unfold VarHeader_get, getKeyAndIndex, getValueByKeyAtIndex.
      now rewrite Hnone.
    + intros index. unfold getValueByKeyAtIndex. now rewrite Hnone.
  - intros r vs Hvs. split; [| split].
    + unfold OnHeader, index_map. rewrite Hvs.
      destruct matcher; [reflexivity |]. now destruct vs.
    + intros i v idx Hi Hidx.
      assert (Hget : getValueByKeyAtIndex stripFragment (Header r) k (Z.of_nat i)
                     = Ret (stripFragment v, None)).
      { unfold getValueByKeyAtIndex, index_slice. rewrite Hvs.
        pose proof (lookup_lt_Some _ _ _ Hi) as Hlt.
        destruct (Z.ltb_spec (Z.of_nat i) (Z.of_nat (length vs))); [| lia].
        destruct (Z.ltb_spec (Z.of_nat i) 0); [lia |].
        rewrite Nat2Z.id, Hi. reflexivity. }
      split; [| exact Hget].
      unfold VarHeader_get, getKeyAndIndex. rewrite Hidx. exact Hget.
    + unfold VarHeader_get, getKeyAndIndex, getValueByKeyAtIndex, index_slice.
      rewrite Hvs. destruct vs as [|v vs]; reflexivity.
  - intros r Hnone. split.
    + unfold OnHeader, index_map. rewrite Hnone. now destruct matcher.
    + unfold VarHeader_get, getKeyAndIndex, getValueByKeyAtIndex.
      now rewrite Hnone.
Qed.

Definition req_token : Request :=
  {| Method := "GET";
     url := {| Scheme := EmptyString; Path := "/"; RawPath := EmptyString; RawQuery := EmptyString;
               Fragment := EmptyString |};
     Header := {[ "X-Token" := ["abc"] ]}; Host := "example.com";
     RequestURI := "/" |}.

Lemma header_lookup_is_exact_witness :
  OnHeader "x-token" None req_token = false
  /\ VarHeader_get id ["x-token"] req_token = Ret (EmptyString, None)
  /\ forall index,
       getValueByKeyAtIndex id (Header req_token) "x-token" index
       = Ret (EmptyString, None).
Proof.
  refine (proj1 (proj2 (header_lookup_is_exact id "x-token" None))
            req_token "X-Token" ["abc"] _ eq_refl).
  discriminate.
Defined.

(** The stored casing is observed under the stored key. *)
Example header_stored_casing :
  OnHeader "X-Token" None req_token = true
  /\ VarHeader_get id ["X-Token"] req_token = Ret ("abc", None).
Proof. split; vm_compute; reflexivity. Qed.

(** ** Indexed lookups of dynamic variables *)

(** C10.  [getValueByKeyAtIndex] returns the empty string and no error
    when the key is absent or the index is not below the number of
    values.  Its guard is [index < len(values)] alone: for a present
    key and such an index the access [values[index]] is in range, and
    the value is returned, exactly when [index >= 0]; a negative index
    panics.  [getKeyAndIndex] hands over a negative index when the
    second argument is a negative number. *)
Theorem getValueByKeyAtIndex_bounds
    (stripFragment : string -> string) (values : Values) (key : string) (index : Z) :
  (values !! key = None ->
     getValueByKeyAtIndex stripFragment values key index = Ret (EmptyString, None))
  /\ (forall vs, values !! key = Some vs -> Z.of_nat (length vs) <= index ->
        getValueByKeyAtIndex stripFragment values key index = Ret (EmptyString, None))
  /\ (forall vs, values !! key = Some vs -> index < Z.of_nat (length vs) ->
        (0 <= index ->
           exists v, vs !! Z.to_nat index = Some v
             /\ getValueByKeyAtIndex stripFragment values key index
                = Ret (stripFragment v, None))
        /\ (index < 0 ->
              getValueByKeyAtIndex stripFragment values key index = Panic))
  /\ getKeyAndIndex [key; "-1"] = (key, -1, None).
Proof.
  unfold getValueByKeyAtIndex.
  split; [| split; [| split]].
  - now intros ->.
  - intros vs -> Hge.
    destruct (Z.ltb_spec index (Z.of_nat (length vs))); [lia | reflexivity].
  - intros vs -> Hlt.
    destruct (Z.ltb_spec index (Z.of_nat (length vs))); [| lia].
    unfold index_slice. split.
    + intros Hnn. destruct (Z.ltb_spec index 0); [lia |].
      destruct (vs !! Z.to_nat index) as [v|] eqn:Hv.
      * exists v. split; reflexivity.
      * apply lookup_ge_None in Hv. lia.
    + intros Hneg. destruct (Z.ltb_spec index 0); [reflexivity | lia].
  - reflexivity.
Qed.

Lemma getValueByKeyAtIndex_bounds_witness :
  getValueByKeyAtIndex id {[ "X-Token" := ["abc"] ]} "X-Token" (-1) = Panic.
Proof.
  refine (proj2 (proj1 (proj2 (proj2
    (getValueByKeyAtIndex_bounds id {[ "X-Token" := ["abc"] ]} "X-Token" (-1))))
    ["abc"] _ _) _).
  - reflexivity.
  - simpl; lia.
  - lia.
Defined.

(** [$header(X-Token, -1)] reaches the access with the negative index. *)
Example VarHeader_negative_index :
  VarHeader_get id ["X-Token"; "-1"] req_token = Panic.
Proof. vm_compute. reflexivity. Qed.

(** ** [Command.Parse] *)

Section CommandParseFacts.

Context {World E : Type}.
Implicit Types (executors : list (@CommandHandler World)).

Definition isPost (c : @CommandHandler World) : bool := IsPostRule (Phase c).
Definition isPre (c : @CommandHandler World) : bool := negb (IsPostRule (Phase c)).

Lemma place_filter executors (pre0 post0 : list (@CommandHandler World)) :
  place executors pre0 post0
  = (pre0 ++ filter (fun c => isPre c = true) executors,
     post0 ++ filter (fun c => isPost c = true) executors).
Proof.
  revert pre0 post0.
  induction executors as [|c l IH]; intros pre0 post0.
  - simpl. now rewrite !app_nil_r.
  - cbn [place]. rewrite !filter_cons. unfold isPre, isPost.
    destruct (IsPostRule (Phase c)) eqn:Hc; rewrite IH.
    + rewrite decide_False by (simpl; congruence).
      rewrite decide_True by reflexivity.
      now rewrite <- app_assoc.
    + rewrite decide_True by reflexivity.
      rewrite decide_False by congruence.
      now rewrite <- app_assoc.
Qed.

Lemma filter_split_Permutation executors :
  Permutation executors
    (filter (fun c => isPre c = true) executors
     ++ filter (fun c => isPost c = true) executors).
Proof.
  induction executors as [|c l IH]; [constructor |].
  rewrite !filter_cons. unfold isPre, isPost in *.
  destruct (IsPostRule (Phase c)) eqn:Hc.
  - rewrite decide_False by (simpl; congruence).
    rewrite decide_True by reflexivity.
    apply Permutation_cons_app. exact IH.
  - rewrite decide_True by reflexivity.
    rewrite decide_False by congruence.
    simpl. now constructor.
Qed.

(** C4.  When [Command.Parse] accepts a do-body, the handlers it places
    are those the parser returned: the handlers whose [Phase()] has the
    post bit go, in order, to the end of [post], the others to the end of
    [pre]; the two placed lists together are a rearrangement of the
    parsed list, so every parsed handler is placed exactly once.  For a
    command that starts empty, [pre] and [post] are these two lists. *)
Theorem Command_Parse_places_by_phase
    (parseDoWithBlocks : string -> E + list (@CommandHandler World))
    (cmd0 cmd : Command) (v : string) (executors : list CommandHandler) :
  parseDoWithBlocks v = inr executors ->
  Command_Parse parseDoWithBlocks cmd0 v = inr cmd ->
  let placed_pre := filter (fun c => isPre c = true) executors in
  let placed_post := filter (fun c => isPost c = true) executors in
  let kept (l : Commands) := match executors with [] => [] | _ => l end in
  pre cmd = kept (pre cmd0) ++ placed_pre
  /\ post cmd = kept (post cmd0) ++ placed_post
  /\ Permutation executors (placed_pre ++ placed_post)
  /\ (forall c, In c placed_post <-> In c executors /\ IsPostRule (Phase c) = true)
  /\ (forall c, In c placed_pre <-> In c executors /\ IsPostRule (Phase c) = false)
  /\ (pre cmd0 = [] -> post cmd0 = [] ->
      pre cmd = placed_pre /\ post cmd = placed_post).
Proof.
  intros Hparse Hcmd placed_pre placed_post kept.
  unfold Command_Parse in Hcmd. rewrite Hparse in Hcmd.
  assert (Hpre : pre cmd = kept (pre cmd0) ++ placed_pre
                 /\ post cmd = kept (post cmd0) ++ placed_post).
  { destruct executors as [|c l].
    - injection Hcmd as <-. split; reflexivity.
    - rewrite place_filter in Hcmd. injection Hcmd as <-. split; reflexivity. }
  destruct Hpre as [Hpre Hpost].
  split; [exact Hpre |]. split; [exact Hpost |].
  split; [apply filter_split_Permutation |].
  split; [| split].
  - intros c. subst placed_post. rewrite <- !list_elem_of_In, list_elem_of_filter.
    unfold isPost. tauto.
  - intros c. subst placed_pre. rewrite <- !list_elem_of_In, list_elem_of_filter.
    unfold isPre. rewrite negb_true_iff. tauto.
  - intros H1 H2. rewrite Hpre, Hpost, H1, H2.
    subst kept. destruct executors; split; reflexivity.
Qed.

End CommandParseFacts.

(** A body of two commands, a request-phase one and a response-phase one. *)
Definition noop : @HandlerFunc unit := fun _ w => (w, None).
Definition cmd_pre : @CommandHandler unit :=
  CmdHandler {| fn := noop; h_phase := PhasePre; terminate := false |}.
Definition cmd_post : @CommandHandler unit :=
  CmdHandler {| fn := noop; h_phase := PhasePost; terminate := false |}.
Definition cmd_mixed : @CommandHandler unit :=
  IfBlockCommand {| raw := "status 200"; checker := Some (fun _ => true);
                    phase := PhasePost |} [cmd_pre].
Definition empty_command : @Command unit :=
  {| c_raw := EmptyString; pre := []; post := [] |}.
Definition parse3 : string -> unit + list (@CommandHandler unit) :=
  fun _ => inr [cmd_post; cmd_pre; cmd_mixed].

Lemma Command_Parse_places_by_phase_witness :
  pre {| c_raw := "body"; pre := [cmd_pre]; post := [cmd_post; cmd_mixed] |}
    = [cmd_pre]
  /\ post {| c_raw := "body"; pre := [cmd_pre]; post := [cmd_post; cmd_mixed] |}
    = [cmd_post; cmd_mixed].
Proof.
  exact (proj2 (proj2 (proj2 (proj2 (proj2
    (Command_Parse_places_by_phase parse3 empty_command
       {| c_raw := "body"; pre := [cmd_pre]; post := [cmd_post; cmd_mixed] |}
       "body" [cmd_post; cmd_pre; cmd_mixed] eq_refl eq_refl)))))
    eq_refl eq_refl).
Defined.

(** ** [BuildHandler]: the default rule and the others *)

Section SplitRules.

Context {World : Type}.
Implicit Types (rules : list (@Rule World)).

Definition defaults_of rules : list Rule :=
  filter (fun r => isDefaultRule r = true) rules.
Definition non_defaults_of rules : list Rule :=
  filter (fun r => isDefaultRule r = false) rules.

(** The default rule the handler uses is the last rule that is a default
    rule; the others keep their order. *)
Lemma splitRules_spec rules (d : option (@Rule World)) (nd : list (@Rule World)) :
  splitRules rules d nd
  = (match last (defaults_of rules) with Some r => Some r | None => d end,
     nd ++ non_defaults_of rules).
Proof.
  revert d nd. induction rules as [|r l IH]; intros d nd.
  - simpl. now rewrite app_nil_r.
  - cbn [splitRules]. unfold defaults_of, non_defaults_of in *.
    rewrite !filter_cons.
    destruct (isDefaultRule r) eqn:Hr; rewrite IH.
    + rewrite decide_True by reflexivity.
      rewrite decide_False by congruence.
      rewrite last_cons. now destruct (last _).
    + rewrite decide_False by congruence.
      rewrite decide_True by reflexivity.
      now rewrite <- app_assoc.
Qed.

Lemma filter_all (P : @Rule World -> bool) rules :
  Forall (fun r => P r = true) rules ->
  filter (fun r => P r = true) rules = rules
  /\ filter (fun r => P r = false) rules = [].
Proof.
  induction 1 as [|r l Hr Hl [IH1 IH2]]; [split; reflexivity |].
  rewrite !filter_cons.
  rewrite decide_True by exact Hr.
  rewrite decide_False by congruence.
  now rewrite IH1, IH2.
Qed.

Variable NewResponseModifier FlushRelease : World -> World.
Variable HasStatus : World -> bool.
Variable http_Error500 : World -> World.
Variable AppendError : bool -> string -> error -> World -> World.
Variable up : World -> World.

(** C9.  For a rule set without non-default rules, whose default rule (if
    there is one) has the raw do-body ["upstream"], [BuildHandler] returns
    the upstream handler itself; the empty rule set is such a set. *)
Theorem BuildHandler_trivial_is_upstream rules :
  Forall (fun r => isDefaultRule r = true) rules ->
  (forall d, last rules = Some d -> c_raw (Do d) = "upstream") ->
  BuildHandler NewResponseModifier FlushRelease HasStatus http_Error500
               AppendError up rules = up.
Proof.
  intros Hall Hraw. unfold BuildHandler.
  destruct rules as [|r l] eqn:Hrules; [reflexivity |].
  rewrite <- Hrules in *. rewrite splitRules_spec.
  destruct (filter_all isDefaultRule rules Hall) as [Hd Hnd].
  unfold defaults_of, non_defaults_of. rewrite Hd, Hnd. simpl.
  destruct (last rules) as [d|] eqn:Hlast.
  - rewrite (Hraw d eq_refl). reflexivity.
  - reflexivity.
Qed.

(** Otherwise the handler is the executor, run with the last default
    rule and the non-default rules in their order. *)
Lemma BuildHandler_serves rules :
  BuildHandler NewResponseModifier FlushRelease HasStatus http_Error500
               AppendError up rules = up
  \/ BuildHandler NewResponseModifier FlushRelease HasStatus http_Error500
                  AppendError up rules
     = fun w =>
         rm (serve NewResponseModifier FlushRelease HasStatus http_Error500
                   AppendError up (last (defaults_of rules))
                   (non_defaults_of rules) w).
Proof.
  unfold BuildHandler. destruct rules as [|r l] eqn:Hrules; [now left |].
  rewrite <- Hrules. rewrite splitRules_spec. cbn [app].
  assert (Hd : match last (defaults_of rules) with
               | Some r0 => Some r0 | None => None end
               = last (defaults_of rules)) by now destruct (last _).
  rewrite Hd.
  destruct (non_defaults_of rules); [| now right].
  destruct (last (defaults_of rules)) as [d|]; [| now left].
  destruct (String.eqb (c_raw (Do d)) CommandUpstream); [now left | now right].
Qed.

End SplitRules.

Definition default_upstream : @Rule unit :=
  {| Name := "default";
     On := {| raw := EmptyString; checker := None; phase := PhaseNone |};
     Do := {| c_raw := "upstream"; pre := []; post := [] |} |}.

Lemma BuildHandler_trivial_is_upstream_witness :
  BuildHandler id id (fun _ => false) id (fun _ _ _ w => w) id [default_upstream]
  = id.
Proof.
  apply BuildHandler_trivial_is_upstream.
  - repeat constructor.
  - intros d Hd. injection Hd as <-. reflexivity.
Defined.

(** ** UTF-8: decoding and encoding *)

Lemma byteZ_range (c : ascii) : 0 <= Go.byteZ c < 256.
Proof.
  unfold Go.byteZ. pose proof (N_ascii_bounded c). lia.
Qed.

Lemma byte_of_byteZ (c : ascii) : Go.byte_of (Go.byteZ c) = c.
Proof.
  unfold Go.byte_of, Go.byteZ. rewrite N2Z.id. apply ascii_N_embedding.
Qed.

Lemma in_range_spec (lo hi x : Z) :
  Go.in_range lo hi x = true <-> lo <= x <= hi.
Proof. unfold Go.in_range. rewrite andb_true_iff, !Z.leb_le. tauto. Qed.

Lemma in_range_false (lo hi x : Z) :
  Go.in_range lo hi x = false <-> x < lo \/ hi < x.
Proof.
  unfold Go.in_range. rewrite andb_false_iff, !Z.leb_gt. tauto.
Qed.

Ltac range_cases :=
  repeat match goal with
  | H : Go.in_range _ _ _ = true |- _ => apply in_range_spec in H
  | H : Go.in_range _ _ _ = false |- _ => apply in_range_false in H
  | H : Go.is_cont _ = true |- _ => unfold Go.is_cont in H
  | H : Go.is_cont _ = false |- _ => unfold Go.is_cont in H
  | H : (_ <? _) = true |- _ => apply Z.ltb_lt in H
  | H : (_ <? _) = false |- _ => apply Z.ltb_ge in H
  | H : (_ =? _) = true |- _ => apply Z.eqb_eq in H
  | H : (_ =? _) = false |- _ => apply Z.eqb_neq in H
  | H : _ && _ = true |- _ => apply andb_true_iff in H as [? ?]
  | H : _ || _ = false |- _ => apply orb_false_iff in H as [? ?]
  end.

(** The width of a decoded rune is between 1 and 4 on a non-empty string
    and never exceeds the string. *)
Lemma DecodeRune_width (c : ascii) (t : string) (r : Go.rune) (w : nat) :
  Go.DecodeRuneInString (String c t) = (r, w) ->
  (1 <= w <= 4)%nat /\ (w <= String.length (String c t))%nat.
Proof.
  unfold Go.DecodeRuneInString. cbn [String.length].
  repeat match goal with
  | |- context [if ?b then _ else _] => destruct b
  | |- context [match ?s with EmptyString => _ | String _ _ => _ end] =>
      destruct s
  end; intros [= <- <-]; cbn [String.length]; lia.
Qed.

(** An ASCII rune comes from the ASCII byte of the same value. *)
Lemma DecodeRune_ascii (c : ascii) (t : string) (r : Go.rune) (w : nat) :
  Go.DecodeRuneInString (String c t) = (r, w) ->
  r < 128 -> r = Go.byteZ c /\ w = 1%nat.
Proof.
  unfold Go.DecodeRuneInString, Go.RuneError.
  pose proof (byteZ_range c).
  destruct (Go.byteZ c <? 128) eqn:H0; [now intros [= <- <-] |].
  destruct (Go.in_range 194 223 (Go.byteZ c)) eqn:H1.
  { destruct t as [|c1 t]; [intros [= <- <-]; lia |].
    pose proof (byteZ_range c1).
    destruct (Go.is_cont c1) eqn:Hc1; intros [= <- <-]; range_cases; lia. }
  destruct (Go.in_range 224 239 (Go.byteZ c)) eqn:H2.
  { destruct t as [|c1 [|c2 t]]; try (intros [= <- <-]; lia).
    pose proof (byteZ_range c1). pose proof (byteZ_range c2).
    destruct (Go.byteZ c =? 224) eqn:E1; destruct (Go.byteZ c =? 237) eqn:E2;
      match goal with |- context [if ?b then _ else _] => destruct b eqn:Hb end;
      intros [= <- <-]; range_cases; lia. }
  destruct (Go.in_range 240 244 (Go.byteZ c)) eqn:H3.
  { destruct t as [|c1 [|c2 [|c3 t]]]; try (intros [= <- <-]; lia).
    pose proof (byteZ_range c1). pose proof (byteZ_range c2).
    pose proof (byteZ_range c3).
    destruct (Go.byteZ c =? 240) eqn:E1; destruct (Go.byteZ c =? 244) eqn:E2;
      match goal with |- context [if ?b then _ else _] => destruct b eqn:Hb end;
      intros [= <- <-]; range_cases; lia. }
  intros [= <- <-]; lia.
Qed.

Lemma str_eq_1 (a : Z) (c : ascii) (t : string) :
  a = Go.byteZ c -> Go.str1 a = Go.take_bytes 1 (String c t).
Proof. intros ->. unfold Go.str1. now rewrite byte_of_byteZ. Qed.

(** [WriteRune] of a rune that [range] decoded from a valid sequence
    writes back the bytes it was decoded from. *)
Lemma EncodeRune_DecodeRune (c : ascii) (t : string) (r : Go.rune) (w : nat) :
  Go.DecodeRuneInString (String c t) = (r, w) ->
  (r =? Go.RuneError) && (w =? 1)%nat = false ->
  Go.EncodeRune r = Go.take_bytes w (String c t).
Proof.
  unfold Go.DecodeRuneInString, Go.RuneError.
  pose proof (byteZ_range c) as Hc.
  destruct (Go.byteZ c <? 128) eqn:H0.
  { intros [= <- <-] _. unfold Go.EncodeRune.
    replace (Go.in_range 0 127 (Go.byteZ c)) with true
      by (symmetry; apply in_range_spec; range_cases; lia).
    now apply str_eq_1. }
  assert (Herr : forall s, (65533 =? 65533) && (1 =? 1)%nat = false ->
                           Go.EncodeRune 65533 = s) by discriminate.
  destruct (Go.in_range 194 223 (Go.byteZ c)) eqn:H1.
  { destruct t as [|c1 t]; [intros [= <- <-]; apply Herr |].
    pose proof (byteZ_range c1).
    destruct (Go.is_cont c1) eqn:Hc1; intros [= <- <-]; [| apply Herr].
    intros _. range_cases. unfold Go.EncodeRune.
    set (r := (Go.byteZ c - 192) * 64 + (Go.byteZ c1 - 128)).
    replace (Go.in_range 0 127 r) with false
      by (symmetry; apply in_range_false; subst r; lia).
    replace (Go.in_range 128 2047 r) with true
      by (symmetry; apply in_range_spec; subst r; lia).
    unfold Go.str2, Go.str1. cbn [Go.take_bytes].
    replace (192 + r / 64) with (Go.byteZ c)
      by (subst r; Z.div_mod_to_equations; lia).
    replace (128 + r mod 64) with (Go.byteZ c1)
      by (subst r; Z.div_mod_to_equations; lia).
    now rewrite !byte_of_byteZ. }
  destruct (Go.in_range 224 239 (Go.byteZ c)) eqn:H2.
  { destruct t as [|c1 [|c2 t]]; try (intros [= <- <-]; apply Herr).
    pose proof (byteZ_range c1). pose proof (byteZ_range c2).
    match goal with |- context [if ?b then _ else _] => destruct b eqn:Hb end;
      intros [= <- <-]; [| apply Herr].
    intros _. unfold Go.EncodeRune, Go.MaxRune.
    set (r := (Go.byteZ c - 224) * 4096 + (Go.byteZ c1 - 128) * 64
              + (Go.byteZ c2 - 128)).
    assert (Hr : 2048 <= r <= 55295 \/ 57344 <= r <= 65535).
    { subst r. destruct (Go.byteZ c =? 224) eqn:E1;
        destruct (Go.byteZ c =? 237) eqn:E2; range_cases; lia. }
    assert (Hb1 : 128 <= Go.byteZ c1 <= 191).
    { destruct (Go.byteZ c =? 224) eqn:E1;
        destruct (Go.byteZ c =? 237) eqn:E2; range_cases; lia. }
    range_cases.
    replace (Go.in_range 0 127 r) with false
      by (symmetry; apply in_range_false; lia).
    replace (Go.in_range 128 2047 r) with false
      by (symmetry; apply in_range_false; lia).
    replace (Go.in_range 2048 55295 r || Go.in_range 57344 65535 r) with true
      by (symmetry; apply orb_true_iff; rewrite !in_range_spec; lia).
    unfold Go.str3, Go.str2, Go.str1. cbn [Go.take_bytes].
    replace (224 + r / 4096) with (Go.byteZ c)
      by (subst r; Z.div_mod_to_equations; lia).
    replace (128 + (r / 64) mod 64) with (Go.byteZ c1)
      by (subst r; Z.div_mod_to_equations; lia).
    replace (128 + r mod 64) with (Go.byteZ c2)
      by (subst r; Z.div_mod_to_equations; lia).
    now rewrite !byte_of_byteZ. }
  destruct (Go.in_range 240 244 (Go.byteZ c)) eqn:H3.
  { destruct t as [|c1 [|c2 [|c3 t]]]; try (intros [= <- <-]; apply Herr).
    pose proof (byteZ_range c1). pose proof (byteZ_range c2).
    pose proof (byteZ_range c3).
    match goal with |- context [if ?b then _ else _] => destruct b eqn:Hb end;
      intros [= <- <-]; [| apply Herr].
    intros _. unfold Go.EncodeRune, Go.MaxRune.
    set (r := (Go.byteZ c - 240) * 262144 + (Go.byteZ c1 - 128) * 4096
              + (Go.byteZ c2 - 128) * 64 + (Go.byteZ c3 - 128)).
    assert (Hr : 65536 <= r <= 1114111).
    { subst r. destruct (Go.byteZ c =? 240) eqn:E1;
        destruct (Go.byteZ c =? 244) eqn:E2; range_cases; lia. }
    assert (Hb1 : 128 <= Go.byteZ c1 <= 191).
    { destruct (Go.byteZ c =? 240) eqn:E1;
        destruct (Go.byteZ c =? 244) eqn:E2; range_cases; lia. }
    range_cases.
    replace (Go.in_range 0 127 r) with false
      by (symmetry; apply in_range_false; lia).
    replace (Go.in_range 128 2047 r) with false
      by (symmetry; apply in_range_false; lia).
    replace (Go.in_range 2048 55295 r || Go.in_range 57344 65535 r) with false
      by (symmetry; apply orb_false_iff; rewrite !in_range_false; lia).
    replace (Go.in_range 65536 1114111 r) with true
      by (symmetry; apply in_range_spec; lia).
    unfold Go.str4, Go.str3, Go.str2, Go.str1. cbn [Go.take_bytes].
    replace (240 + r / 262144) with (Go.byteZ c)
      by (subst r; Z.div_mod_to_equations; lia).
    replace (128 + (r / 4096) mod 64) with (Go.byteZ c1)
      by (subst r; Z.div_mod_to_equations; lia).
    replace (128 + (r / 64) mod 64) with (Go.byteZ c2)
      by (subst r; Z.div_mod_to_equations; lia).
    replace (128 + r mod 64) with (Go.byteZ c3)
      by (subst r; Z.div_mod_to_equations; lia).
    now rewrite !byte_of_byteZ. }
  intros [= <- <-]. apply Herr.
Qed.

(** ** Ranging over a string *)

Lemma range_from_skip (s : string) (off k : nat) :
  Go.range_from off k s = Go.range_from (off + k) 0 (Go.drop_bytes k s).
Proof.
  revert off k. induction s as [|c t IH]; intros off k.
  - destruct k; reflexivity.
  - destruct k as [|k].
    + now rewrite Nat.add_0_r.
    + cbn [Go.range_from Go.drop_bytes]. rewrite IH. f_equal. lia.
Qed.

Lemma range_from_offset (s : string) (off off' : nat) :
  map snd (Go.range_from off 0 s) = map snd (Go.range_from off' 0 s).
Proof.
  remember (String.length s) as n eqn:Hn.
  revert s off off' Hn.
  induction n as [n IH] using lt_wf_ind; intros s off off' Hn.
  destruct s as [|c t]; [reflexivity |].
  cbn [Go.range_from].
  destruct (Go.DecodeRuneInString (String c t)) as [r w] eqn:Hd.
  cbn [map snd]. f_equal.
  rewrite (range_from_skip t (S off)), (range_from_skip t (S off')).
  apply (IH (String.length (Go.drop_bytes (Nat.pred w) t))); [| reflexivity].
  subst n. cbn [String.length].
  clear. generalize (Nat.pred w). intros k. revert k.
  induction t as [|c t IH]; intros [|k]; cbn [Go.drop_bytes String.length]; try lia.
  specialize (IH k). lia.
Qed.

Lemma drop_bytes_length (k : nat) (s : string) :
  String.length (Go.drop_bytes k s) = (String.length s - k)%nat.
Proof.
  revert k. induction s as [|c t IH]; intros [|k];
    cbn [Go.drop_bytes String.length]; try lia.
  apply IH.
Qed.

(** The first rune, then the runes of the rest. *)
Lemma runes_cons (c : ascii) (t : string) (r : Go.rune) (w : nat) :
  Go.DecodeRuneInString (String c t) = (r, w) ->
  Go.runes (String c t) = r :: Go.runes (Go.drop_bytes w (String c t)).
Proof.
  intros Hd. pose proof (DecodeRune_width _ _ _ _ Hd) as [Hw _].
  unfold Go.runes, Go.range_string. cbn [Go.range_from]. rewrite Hd.
  cbn [map snd]. f_equal.
  rewrite range_from_skip.
  destruct w as [|w]; [lia |]. cbn [Nat.pred Go.drop_bytes].
  apply range_from_offset.
Qed.

Lemma valid_from_skip (s : string) (k : nat) :
  Go.valid_from k s = Go.valid_from 0 (Go.drop_bytes k s).
Proof.
  revert k. induction s as [|c t IH]; intros [|k]; try reflexivity.
  cbn [Go.valid_from Go.drop_bytes]. apply IH.
Qed.

Lemma ValidString_cons (c : ascii) (t : string) (r : Go.rune) (w : nat) :
  Go.DecodeRuneInString (String c t) = (r, w) ->
  Go.ValidString (String c t) = true ->
  (r =? Go.RuneError) && (w =? 1)%nat = false
  /\ Go.ValidString (Go.drop_bytes w (String c t)) = true.
Proof.
  intros Hd. pose proof (DecodeRune_width _ _ _ _ Hd) as [Hw _].
  unfold Go.ValidString. cbn [Go.valid_from]. rewrite Hd.
  rewrite andb_true_iff, negb_true_iff. intros [H1 H2]. split; [exact H1 |].
  rewrite valid_from_skip in H2.
  destruct w as [|w]; [lia |]. exact H2.
Qed.

Lemma take_drop_bytes (k : nat) (s : string) :
  Go.take_bytes k s +:+ Go.drop_bytes k s = s.
Proof.
  revert k. induction s as [|c t IH]; intros [|k]; try reflexivity.
  cbn [Go.take_bytes Go.drop_bytes]. rewrite append_cons. f_equal. apply IH.
Qed.

(** Writing every rune of a valid string gives the string back. *)
Fixpoint write_runes (l : list Go.rune) : string :=
  match l with
  | [] => EmptyString
  | r :: l' => Go.EncodeRune r +:+ write_runes l'
  end.

Lemma write_runes_valid (s : string) :
  Go.ValidString s = true -> write_runes (Go.runes s) = s.
Proof.
  remember (String.length s) as n eqn:Hn. revert s Hn.
  induction n as [n IH] using lt_wf_ind; intros s Hn Hv.
  destruct s as [|c t]; [reflexivity |].
  destruct (Go.DecodeRuneInString (String c t)) as [r w] eqn:Hd.
  pose proof (DecodeRune_width _ _ _ _ Hd) as [Hw Hlen].
  destruct (ValidString_cons _ _ _ _ Hd Hv) as [Hok Hrest].
  rewrite (runes_cons _ _ _ _ Hd). cbn [write_runes].
  rewrite (EncodeRune_DecodeRune _ _ _ _ Hd Hok).
  rewrite (IH (String.length (Go.drop_bytes w (String c t)))); trivial.
  - apply take_drop_bytes.
  - subst n. rewrite drop_bytes_length. cbn [String.length] in *. lia.
Qed.

(** ** Env expansion *)

(** No rune ['$'] is directly followed by ['$'] or ['{']. *)
Fixpoint no_expansion (l : list Go.rune) : bool :=
  match l with
  | r :: ((r' :: _) as l') =>
    negb ((r =? Rn.dollar) && ((r' =? Rn.dollar) || (r' =? Rn.lbrace)))
    && no_expansion l'
  | _ => true
  end.

Lemma no_expansion_cons (r r' : Go.rune) (l : list Go.rune) :
  no_expansion (r :: r' :: l)
  = negb ((r =? Rn.dollar) && ((r' =? Rn.dollar) || (r' =? Rn.lbrace)))
    && no_expansion (r' :: l).
Proof. reflexivity. Qed.

(** The text a state stands for: the buffer and the pending ['$']. *)
Definition x_text (st : ExpandState) : string :=
  x_buf st +:+ (if x_expectingBrace st then "$" else EmptyString).

Section ExpandFacts.

Variable LookupEnv : string -> option string.

Lemma expand_step_plain (st : ExpandState) (r : Go.rune) :
  x_inEnvVar st = false ->
  (x_expectingBrace st = true -> r <> Rn.dollar /\ r <> Rn.lbrace) ->
  let st' := expand_step LookupEnv st r in
  x_inEnvVar st' = false
  /\ x_missing st' = x_missing st
  /\ x_text st' = x_text st +:+ Go.EncodeRune r
  /\ (x_expectingBrace st' = true -> r = Rn.dollar).
Proof.
  destruct st as [b ev ms inEnv eb]. cbn [x_inEnvVar x_expectingBrace].
  intros -> Heb. unfold expand_step, x_text, x_write, x_setExpecting.
  cbn [x_inEnvVar x_expectingBrace x_buf x_missing x_envVar].
  destruct (r =? Rn.lbrace) eqn:Hl; destruct (r =? Rn.dollar) eqn:Hd;
    destruct (r =? Rn.rbrace) eqn:Hr; destruct eb;
    range_cases; subst;
    try (destruct (Heb eq_refl); congruence);
    try discriminate;
    cbn [negb andb x_inEnvVar x_expectingBrace x_buf x_missing x_envVar];
    rewrite ?append_nil_r, ?append_assoc;
    repeat split; try reflexivity; try congruence.
Qed.

Lemma expand_fold_plain (l : list Go.rune) (st : ExpandState) :
  x_inEnvVar st = false ->
  no_expansion l = true ->
  (x_expectingBrace st = true ->
   match l with r :: _ => r <> Rn.dollar /\ r <> Rn.lbrace | [] => True end) ->
  let st' := fold_left (expand_step LookupEnv) l st in
  x_inEnvVar st' = false
  /\ x_missing st' = x_missing st
  /\ x_text st' = x_text st +:+ write_runes l.
Proof.
  revert st. induction l as [|r l IH]; intros st Hin Hno Heb.
  - cbn [fold_left write_runes]. now rewrite append_nil_r.
  - cbn [fold_left write_runes].
    destruct (expand_step_plain st r Hin Heb) as (H1 & H2 & H3 & H4).
    destruct (IH (expand_step LookupEnv st r) H1) as (K1 & K2 & K3).
    + destruct l; [reflexivity |]. rewrite no_expansion_cons in Hno.
      now apply andb_true_iff in Hno as [_ Hno].
    + intros Hexp. specialize (H4 Hexp). subst r.
      destruct l as [|r' l]; [exact I |].
      rewrite no_expansion_cons in Hno. apply andb_true_iff in Hno as [Hno _].
      rewrite Z.eqb_refl in Hno. cbn [andb] in Hno.
      apply negb_true_iff, orb_false_iff in Hno as [Ha Hb].
      range_cases. split; assumption.
    + split; [exact K1 |]. split; [congruence |].
      now rewrite K3, H3, append_assoc.
Qed.

(** Where nothing can be expanded, the expansion writes every rune back. *)
Lemma expandEnvVarsRaw_plain (v : string) :
  no_expansion (Go.runes v) = true ->
  expandEnvVarsRaw LookupEnv v = (write_runes (Go.runes v), no_error).
Proof.
  intros Hno. unfold expandEnvVarsRaw.
  destruct (expand_fold_plain (Go.runes v) expand_init eq_refl Hno)
    as (H1 & H2 & H3); [discriminate |].
  change (x_text expand_init) with EmptyString in H3.
  rewrite append_nil_l in H3.
  set (st := fold_left (expand_step LookupEnv) (Go.runes v) expand_init) in *.
  destruct st as [b ev ms inEnv eb].
  unfold expand_finish, x_text, x_write in *.
  cbn [x_buf x_expectingBrace x_missing x_inEnvVar expand_init] in *.
  subst inEnv ms. rewrite <- H3.
  destruct eb; cbn [x_inEnvVar x_buf x_missing x_expectingBrace];
    rewrite ?append_nil_r; reflexivity.
Qed.

End ExpandFacts.

Lemma Contains_drop (k : nat) (s sub : string) :
  Go.Contains s sub = false -> Go.Contains (Go.drop_bytes k s) sub = false.
Proof.
  revert k. induction s as [|c t IH]; intros k H.
  - now destruct k.
  - destruct k as [|k]; [exact H |].
    cbn [Go.drop_bytes]. apply IH.
    cbn [Go.Contains] in H. now apply orb_false_iff in H as [_ H].
Qed.

Lemma Contains_prefix2 (a b : ascii) (t : string) :
  Go.Contains (String a (String b t)) (String a (String b EmptyString)) = true.
Proof.
  cbn [Go.Contains Go.HasPrefix]. rewrite !Ascii.eqb_refl.
  now destruct t.
Qed.

Lemma byteZ_inj (c : ascii) (z : Z) : Go.byteZ c = z -> c = Go.byte_of z.
Proof. intros <-. symmetry. apply byte_of_byteZ. Qed.

(** The head rune of a string, when it is ASCII, is its first byte. *)
Lemma runes_head_ascii (s : string) (r : Go.rune) (l : list Go.rune) :
  Go.runes s = r :: l -> r < 128 ->
  exists t, s = String (Go.byte_of r) t.
Proof.
  destruct s as [|c t]; [discriminate |].
  destruct (Go.DecodeRuneInString (String c t)) as [r' w] eqn:Hd.
  rewrite (runes_cons _ _ _ _ Hd). intros [= -> _] Hr.
  destruct (DecodeRune_ascii _ _ _ _ Hd Hr) as [Hb _].
  exists t. f_equal. apply byteZ_inj. now symmetry.
Qed.

(** A string without the byte sequences [$$] and [${] has no expansion
    point. *)
Lemma no_expansion_bytes (s : string) :
  Go.Contains s "$$" = false -> Go.Contains s "${" = false ->
  no_expansion (Go.runes s) = true.
Proof.
  remember (String.length s) as n eqn:Hn. revert s Hn.
  induction n as [n IH] using lt_wf_ind; intros s Hn H1 H2.
  destruct s as [|c t]; [reflexivity |].
  destruct (Go.DecodeRuneInString (String c t)) as [r w] eqn:Hd.
  pose proof (DecodeRune_width _ _ _ _ Hd) as [Hw Hlen].
  rewrite (runes_cons _ _ _ _ Hd).
  assert (Hrest : no_expansion (Go.runes (Go.drop_bytes w (String c t))) = true).
  { apply (IH (String.length (Go.drop_bytes w (String c t)))); trivial.
    - subst n. rewrite drop_bytes_length. cbn [String.length] in *. lia.
    - now apply Contains_drop.
    - now apply Contains_drop. }
  destruct (Go.runes (Go.drop_bytes w (String c t))) as [|r' l] eqn:Hl;
    [reflexivity |].
  rewrite no_expansion_cons, Hrest, andb_true_r. apply negb_true_iff.
  destruct (r =? Rn.dollar) eqn:Hr; [| reflexivity]. cbn [andb].
  range_cases. subst r.
  destruct (DecodeRune_ascii _ _ _ _ Hd) as [Hc ->]; [unfold Rn.dollar; lia |].
  cbn [Go.drop_bytes] in Hl.
  apply orb_false_iff. split; apply Z.eqb_neq; intros ->.
  - destruct (runes_head_ascii _ _ _ Hl) as [t' ->]; [unfold Rn.dollar; lia |].
    symmetry in Hc. apply byteZ_inj in Hc. subst c.
    pose proof (Contains_prefix2 (Go.byte_of Rn.dollar) (Go.byte_of Rn.dollar) t') as K.
    change (String (Go.byte_of Rn.dollar) (String (Go.byte_of Rn.dollar) EmptyString))
      with "$$" in K.
    congruence.
  - destruct (runes_head_ascii _ _ _ Hl) as [t' ->]; [unfold Rn.lbrace; lia |].
    symmetry in Hc. apply byteZ_inj in Hc. subst c.
    pose proof (Contains_prefix2 (Go.byte_of Rn.dollar) (Go.byte_of Rn.lbrace) t') as K.
    change (String (Go.byte_of Rn.dollar) (String (Go.byte_of Rn.lbrace) EmptyString))
      with "${" in K.
    congruence.
Qed.

(** Without a condition on the expansion itself idempotence fails:
    [$$$$] holds no [$${] and no value is substituted, yet it expands to
    [$$], which expands to [$]. *)
Lemma expandEnvVarsRaw_not_idempotent :
  let LookupEnv : string -> option string := fun _ => None in
  Go.Contains "$$$$" "$${" = false
  /\ fst (expandEnvVarsRaw LookupEnv "$$$$") = "$$"
  /\ fst (expandEnvVarsRaw LookupEnv (fst (expandEnvVarsRaw LookupEnv "$$$$")))
     <> fst (expandEnvVarsRaw LookupEnv "$$$$").
Proof. vm_compute. repeat split; discriminate. Qed.

(** C8 (amended).  When the expansion of [s] is valid UTF-8 and holds
    neither [$$] nor [${], expanding it again changes nothing (and
    reports no error): env expansion is idempotent on such [s]. *)
Theorem expandEnvVarsRaw_idempotent
    (LookupEnv : string -> option string) (s : string) :
  let t := fst (expandEnvVarsRaw LookupEnv s) in
  Go.ValidString t = true ->
  Go.Contains t "$$" = false ->
  Go.Contains t "${" = false ->
  expandEnvVarsRaw LookupEnv t = (t, no_error)
  /\ fst (expandEnvVarsRaw LookupEnv (fst (expandEnvVarsRaw LookupEnv s)))
     = fst (expandEnvVarsRaw LookupEnv s).
Proof.
  intros t Hv H1 H2.
  assert (Ht : expandEnvVarsRaw LookupEnv t = (t, no_error)).
  { rewrite expandEnvVarsRaw_plain by now apply no_expansion_bytes.
    now rewrite write_runes_valid. }
  split; [exact Ht |]. fold t. now rewrite Ht.
Qed.

Definition env_demo : string -> option string :=
  fun name => if String.eqb name "API_SECRET" then Some "sk_live" else None.

Lemma expandEnvVarsRaw_idempotent_witness :
  expandEnvVarsRaw env_demo "key=sk_live; cost=$5" = ("key=sk_live; cost=$5", no_error)
  /\ fst (expandEnvVarsRaw env_demo
            (fst (expandEnvVarsRaw env_demo "key=${API_SECRET}; cost=$$5")))
     = fst (expandEnvVarsRaw env_demo "key=${API_SECRET}; cost=$$5").
Proof.
  apply (expandEnvVarsRaw_idempotent env_demo "key=${API_SECRET}; cost=$$5");
    vm_compute; reflexivity.
Defined.

(** A substituted value that is not valid UTF-8 is rewritten by the
    second expansion (each invalid byte becomes U+FFFD), which is why
    validity is asked of the expansion. *)
Example expandEnvVarsRaw_invalid_utf8 :
  let LookupEnv : string -> option string :=
    fun _ => Some (String "255" EmptyString) in
  fst (expandEnvVarsRaw LookupEnv "${A}") = String "255" EmptyString
  /\ fst (expandEnvVarsRaw LookupEnv (String "255" EmptyString))
     = String "239" (String "191" (String "189" EmptyString)).
Proof. vm_compute. split; reflexivity. Qed.

(** ** [splitAnd] *)

(** ["x"] followed by U+00A0 (no-break space), the bytes [78 C2 A0]. *)
Definition x_nbsp : string := String "x" (String "194" (String "160" EmptyString)).

(** C7.  [splitAnd] is not compositional on this input: as the last
    segment, ["x" U+00A0] is trimmed by [strings.TrimSpace], which
    removes the no-break space; followed by ["&y"] it is an inner
    segment, trimmed by the ASCII table only, and keeps it. *)
Theorem splitAnd_inner_segment_keeps_nbsp :
  splitAnd x_nbsp = ["x"]
  /\ splitAnd "y" = ["y"]
  /\ splitAnd (x_nbsp +:+ "&" +:+ "y") = [x_nbsp; "y"]
  /\ splitAnd (x_nbsp +:+ "&" +:+ "y") <> splitAnd x_nbsp ++ splitAnd "y".
Proof. vm_compute. repeat split; discriminate. Qed.

(** *** [splitAnd] on ASCII input

    The segments of a string: those ended by a separator, and the rest
    after the last separator.  [cur] is the segment being read. *)
Fixpoint cut (s cur : string) : list string * string :=
  match s with
  | EmptyString => ([], cur)
  | String c s' =>
    if andSeps c then let '(l, r) := cut s' EmptyString in (cur :: l, r)
    else cut s' (cur +:+ String c EmptyString)
  end.

(** The trimming of a segment that is followed by a separator. *)
Definition inner_trim (seg : string) : string := trim_end (trim_beg seg).

Fixpoint keep (l : list string) : list string :=
  match l with
  | [] => []
  | s :: l' => if is_empty s then keep l' else s :: keep l'
  end.

Lemma keep_app (l1 l2 : list string) : keep (l1 ++ l2) = keep l1 ++ keep l2.
Proof.
  induction l1 as [|s l1 IH]; [reflexivity |].
  cbn [app keep]. rewrite IH. now destruct (is_empty s).
Qed.

Lemma cut_cur (s cur : string) :
  cut s cur
  = match cut s EmptyString with
    | ([], r) => ([], cur +:+ r)
    | (seg :: l, r) => ((cur +:+ seg) :: l, r)
    end.
Proof.
  revert cur. induction s as [|c s IH]; intros cur.
  - cbn [cut]. now rewrite append_nil_r.
  - cbn [cut]. destruct (andSeps c).
    + destruct (cut s EmptyString) as [l r]. now rewrite append_nil_r.
    + rewrite (IH (cur +:+ String c EmptyString)), (IH (EmptyString +:+ String c EmptyString)).
      rewrite append_nil_l.
      destruct (cut s EmptyString) as [[|seg l] r]; now rewrite append_assoc.
Qed.

Lemma indexAnd_None (s : string) :
  indexAnd s = None -> cut s EmptyString = ([], s) /\ countAnd s = O.
Proof.
  induction s as [|c s IH]; [now split |].
  cbn [indexAnd cut countAnd]. destruct (andSeps c); [discriminate |].
  destruct (indexAnd s); [discriminate |]. intros _.
  destruct (IH eq_refl) as [Hc Hn]. rewrite cut_cur, Hc. now split.
Qed.

Lemma indexAnd_Some (s : string) (e : nat) :
  indexAnd s = Some e ->
  cut s EmptyString
  = (let '(l, r) := cut (Go.drop_bytes (S e) s) EmptyString in
     (Go.take_bytes e s :: l, r))
  /\ countAnd s = S (countAnd (Go.drop_bytes (S e) s))
  /\ (e < String.length s)%nat.
Proof.
  revert e. induction s as [|c s IH]; intros e; [discriminate |].
  cbn [indexAnd cut countAnd String.length].
  destruct (andSeps c) eqn:Hc.
  - intros [= <-]. cbn [Go.drop_bytes Go.take_bytes].
    split; [reflexivity |]. split; [reflexivity | lia].
  - destruct (indexAnd s) as [e'|]; [| discriminate]. intros [= <-].
    destruct (IH e' eq_refl) as (H1 & H2 & H3).
    change (Go.drop_bytes (S (S e')) (String c s)) with (Go.drop_bytes (S e') s).
    change (Go.take_bytes (S e') (String c s)) with (String c (Go.take_bytes e' s)).
    rewrite cut_cur, H1.
    destruct (cut (Go.drop_bytes (S e') s) EmptyString) as [l r].
    rewrite append_nil_l, append_cons, append_nil_l.
    split; [reflexivity |]. split; [exact H2 | lia].
Qed.

(** The loop of [splitAnd] stores the trimmed, non-empty segments that a
    separator ends, and leaves the rest. *)
Lemma splitAnd_loop_cut (k n : nat) (s : string) (a : list string) :
  (String.length s <= k)%nat ->
  (length a + countAnd s <= n)%nat ->
  splitAnd_loop k n s a
  = (a ++ keep (map inner_trim (fst (cut s EmptyString))),
     snd (cut s EmptyString)).
Proof.
  revert s a. induction k as [|k IH]; intros s a Hk Hn.
  - destruct s; [| cbn [String.length] in Hk; lia].
    cbn. now rewrite app_nil_r.
  - cbn [splitAnd_loop].
    destruct (indexAnd s) as [e|] eqn:He.
    + destruct (indexAnd_Some s e He) as (Hcut & Hcnt & Hlt).
      destruct (Nat.ltb_spec (length a) n); [| lia].
      rewrite IH.
      * rewrite Hcut.
        destruct (cut (Go.drop_bytes (S e) s) EmptyString) as [l r].
        cbn [fst snd map keep]. fold (inner_trim (Go.take_bytes e s)).
        destruct (is_empty (inner_trim (Go.take_bytes e s))); [reflexivity |].
        rewrite <- app_assoc. reflexivity.
      * rewrite drop_bytes_length. lia.
      * destruct (is_empty _); rewrite ?length_app; cbn [length]; lia.
    + destruct (indexAnd_None s He) as [Hcut _]. rewrite Hcut.
      cbn [fst snd map keep]. rewrite app_nil_r.
      now destruct (length a <? n)%nat.
Qed.

(** [splitAnd] in closed form. *)
Lemma splitAnd_cut (s : string) :
  splitAnd s
  = keep (map inner_trim (fst (cut s EmptyString)))
    ++ keep [Go.TrimSpace (snd (cut s EmptyString))].
Proof.
  unfold splitAnd. destruct s as [|c s]; [reflexivity |].
  cbn [is_empty]. rewrite splitAnd_loop_cut; [| lia | cbn [length]; lia].
  rewrite app_nil_l. cbn [keep].
  destruct (is_empty (Go.TrimSpace (snd (cut (String c s) EmptyString))));
    [now rewrite app_nil_r | reflexivity].
Qed.

Lemma cut_separator (a b cur : string) (sep : ascii) :
  andSeps sep = true ->
  cut (a +:+ String sep b) cur
  = (fst (cut a cur) ++ snd (cut a cur) :: fst (cut b EmptyString),
     snd (cut b EmptyString)).
Proof.
  intros Hsep. revert cur. induction a as [|c a IH]; intros cur.
  - rewrite append_nil_l. cbn [cut]. rewrite Hsep.
    now destruct (cut b EmptyString).
  - rewrite append_cons. cbn [cut]. destruct (andSeps c).
    + rewrite IH. now destruct (cut a EmptyString).
    + apply IH.
Qed.

(** The composition law holds whenever the two trimmings agree on the
    last segment of [a]. *)
Lemma splitAnd_append (a b : string) :
  inner_trim (snd (cut a EmptyString)) = Go.TrimSpace (snd (cut a EmptyString)) ->
  splitAnd (a +:+ "&" +:+ b) = splitAnd a ++ splitAnd b.
Proof.
  intros Hlast. rewrite !splitAnd_cut.
  change ("&" +:+ b) with (String "&" b).
  rewrite cut_separator by reflexivity. cbn [fst snd].
  rewrite map_app, keep_app. cbn [map keep]. rewrite Hlast.
  rewrite <- !app_assoc. f_equal.
  destruct (is_empty (Go.TrimSpace (snd (cut a EmptyString)))); reflexivity.
Qed.

(** On ASCII text [strings.TrimSpace] is the trimming by the ASCII
    table. *)
Fixpoint is_ascii (s : string) : bool :=
  match s with
  | EmptyString => true
  | String c s' => (Go.byteZ c <? 128) && is_ascii s'
  end.

Lemma IsSpace_ascii (c : ascii) :
  Go.byteZ c < 128 -> Go.IsSpace (Go.byteZ c) = Go.asciiSpace c.
Proof.
  intros Hc. unfold Go.IsSpace, Go.asciiSpace.
  repeat match goal with
  | |- context [?x =? ?k] =>
    lazymatch k with
    | 32 => fail
    | _ => replace (x =? k) with false by (symmetry; apply Z.eqb_neq; lia)
    end
  end.
  replace (Go.in_range 8192 8202 (Go.byteZ c)) with false
    by (symmetry; apply in_range_false; lia).
  now rewrite !orb_false_r.
Qed.

Lemma range_from_ascii (c : ascii) (s : string) (off : nat) :
  Go.byteZ c < 128 ->
  Go.range_from off 0 (String c s)
  = (off, Go.byteZ c) :: Go.range_from (S off) 0 s.
Proof.
  intros Hc. cbn [Go.range_from Go.DecodeRuneInString].
  apply Z.ltb_lt in Hc. now rewrite Hc.
Qed.

Lemma trim_beg_ascii (s : string) : is_ascii s = true -> is_ascii (trim_beg s) = true.
Proof.
  induction s as [|c s IH]; [reflexivity |]. intros H.
  cbn [trim_beg]. destruct (Go.asciiSpace c); [| exact H].
  cbn [is_ascii] in H. apply andb_true_iff in H as [_ H]. now apply IH.
Qed.

Lemma TrimLeftFunc_ascii (s : string) :
  is_ascii s = true -> Go.TrimLeftFunc Go.IsSpace s = trim_beg s.
Proof.
  intros Hs. unfold Go.TrimLeftFunc, Go.range_string.
  assert (H : forall off,
    match Go.indexNot Go.IsSpace (Go.range_from off 0 s) with
    | None => trim_beg s = EmptyString
    | Some i => exists k, i = (off + k)%nat /\ Go.drop_bytes k s = trim_beg s
    end).
  { induction s as [|c s IH]; intros off; [reflexivity |].
    cbn [is_ascii] in Hs. apply andb_true_iff in Hs as [Hc Hs].
    apply Z.ltb_lt in Hc. rewrite range_from_ascii by exact Hc.
    cbn [Go.indexNot trim_beg]. rewrite (IsSpace_ascii c Hc).
    destruct (Go.asciiSpace c).
    - specialize (IH Hs (S off)).
      destruct (Go.indexNot Go.IsSpace (Go.range_from (S off) 0 s)) as [i|];
        [| exact IH].
      destruct IH as (k & -> & Hk). exists (S k). split; [lia | exact Hk].
    - exists O. split; [lia | reflexivity]. }
  specialize (H O).
  destruct (Go.indexNot Go.IsSpace (Go.range_from 0 0 s)) as [i|]; [| now symmetry].
  destruct H as (k & -> & Hk). exact Hk.
Qed.

(** A non-empty string ends with a byte. *)
Lemma string_snoc (c : ascii) (s : string) :
  exists u d, String c s = u +:+ String d EmptyString.
Proof.
  revert c. induction s as [|c' s IH]; intros c.
  - now exists EmptyString, c.
  - destruct (IH c') as (u & d & ->). now exists (String c u), d.
Qed.

Lemma length_snoc (u : string) (d : ascii) :
  String.length (u +:+ String d EmptyString) = S (String.length u).
Proof.
  induction u as [|c u IH]; [reflexivity |].
  rewrite append_cons. cbn [String.length]. now rewrite IH.
Qed.

Lemma get_snoc (u : string) (d : ascii) :
  String.get (String.length u) (u +:+ String d EmptyString) = Some d.
Proof.
  induction u as [|c u IH]; [reflexivity |].
  rewrite append_cons. cbn [String.length String.get]. exact IH.
Qed.

Lemma take_snoc (u : string) (d : ascii) :
  Go.take_bytes (String.length u) (u +:+ String d EmptyString) = u.
Proof.
  induction u as [|c u IH]; [reflexivity |].
  rewrite append_cons. cbn [String.length Go.take_bytes]. now rewrite IH.
Qed.

Lemma is_ascii_snoc (u : string) (d : ascii) :
  is_ascii (u +:+ String d EmptyString) = is_ascii u && (Go.byteZ d <? 128).
Proof.
  induction u as [|c u IH].
  - rewrite append_nil_l. cbn [is_ascii]. now destruct (_ <? _).
  - rewrite append_cons. cbn [is_ascii]. now rewrite IH, andb_assoc.
Qed.

Lemma trim_end_all_snoc (u : string) (d : ascii) :
  trim_end_all (u +:+ String d EmptyString)
  = if Go.asciiSpace d then trim_end_all u else u +:+ String d EmptyString.
Proof.
  induction u as [|c u IH].
  - rewrite append_nil_l. cbn [trim_end_all]. now destruct (Go.asciiSpace d).
  - rewrite append_cons. cbn [trim_end_all]. rewrite IH.
    destruct (Go.asciiSpace d); [reflexivity |].
    destruct u; reflexivity.
Qed.

Lemma DecodeLastRune_ascii (u : string) (d : ascii) :
  Go.byteZ d < 128 ->
  Go.DecodeLastRuneInString (u +:+ String d EmptyString) = (Go.byteZ d, 1%nat).
Proof.
  intros Hd. unfold Go.DecodeLastRuneInString, Go.len, Go.byte_at.
  rewrite length_snoc.
  replace (Z.of_nat (S (String.length u)) =? 0) with false
    by (symmetry; apply Z.eqb_neq; lia).
  replace (Z.to_nat (Z.of_nat (S (String.length u)) - 1)) with (String.length u)
    by lia.
  rewrite get_snoc. unfold Go.RuneSelf.
  apply Z.ltb_lt in Hd. now rewrite Hd.
Qed.

Lemma TrimRightFunc_ascii (t : string) :
  is_ascii t = true -> Go.TrimRightFunc Go.IsSpace t = trim_end_all t.
Proof.
  unfold Go.TrimRightFunc.
  assert (H : forall n t, (String.length t <= n)%nat -> is_ascii t = true ->
                          Go.trimRight_loop Go.IsSpace n t = trim_end_all t).
  { clear t. induction n as [|n IH]; intros t Hn Ht.
    - destruct t; [reflexivity | cbn [String.length] in Hn; lia].
    - destruct t as [|c t]; [reflexivity |].
      destruct (string_snoc c t) as (u & d & Hu).
      cbn [Go.trimRight_loop]. rewrite Hu in *.
      rewrite is_ascii_snoc in Ht. apply andb_true_iff in Ht as [Hau Hd].
      apply Z.ltb_lt in Hd.
      rewrite DecodeLastRune_ascii by exact Hd.
      rewrite (IsSpace_ascii d Hd), trim_end_all_snoc, length_snoc.
      replace (S (String.length u) - 1)%nat with (String.length u) by lia.
      rewrite take_snoc.
      destruct (Go.asciiSpace d); [| reflexivity].
      apply IH; [rewrite length_snoc in Hn; lia | exact Hau]. }
  intros Ht. now apply H.
Qed.

Lemma trim_end_trim_beg (s : string) :
  trim_end (trim_beg s) = trim_end_all (trim_beg s).
Proof.
  induction s as [|c s IH]; [reflexivity |].
  cbn [trim_beg]. destruct (Go.asciiSpace c) eqn:Hc; [exact IH |].
  cbn [trim_end trim_end_all]. rewrite Hc.
  now destruct (trim_end_all s).
Qed.

Lemma TrimSpace_ascii (s : string) :
  is_ascii s = true -> Go.TrimSpace s = inner_trim s.
Proof.
  intros Hs. unfold Go.TrimSpace, inner_trim.
  rewrite (TrimLeftFunc_ascii s Hs).
  rewrite (TrimRightFunc_ascii _ (trim_beg_ascii s Hs)).
  symmetry. apply trim_end_trim_beg.
Qed.

Lemma cut_rest_ascii (s cur : string) :
  is_ascii s = true -> is_ascii cur = true -> is_ascii (snd (cut s cur)) = true.
Proof.
  revert cur. induction s as [|c s IH]; intros cur Hs Hcur; [exact Hcur |].
  cbn [is_ascii] in Hs. apply andb_true_iff in Hs as [Hc Hs].
  cbn [cut]. destruct (andSeps c).
  - specialize (IH EmptyString Hs eq_refl).
    now destruct (cut s EmptyString).
  - apply IH; [exact Hs |]. rewrite is_ascii_snoc. now rewrite Hcur, Hc.
Qed.

(** For ASCII [a] (and any [b]) the composition law holds. *)
Lemma splitAnd_append_ascii (a b : string) :
  is_ascii a = true ->
  splitAnd (a +:+ "&" +:+ b) = splitAnd a ++ splitAnd b.
Proof.
  intros Ha. apply splitAnd_append. symmetry.
  apply TrimSpace_ascii. now apply cut_rest_ascii.
Qed.

(** [forEachAndPart], which [RuleOn.Parse] uses on the same text, trims
    every part with [strings.TrimSpace]. *)
Example forEachAndPart_trims_nbsp :
  forEachAndPart (x_nbsp +:+ "&" +:+ "y") = ["x"; "y"].
Proof. vm_compute. reflexivity. Qed.

(** ** [Rules.Validate]: dead rules *)

Section ValidateFacts.

Context {World : Type}.
Implicit Types (cmd : @CommandHandler World) (rules : list (@Rule World)).
Implicit Types (ifs : list (@RuleOn World * list (@CommandHandler World))).
Implicit Types (els : list (@CommandHandler World)).

(** Induction over command handlers, through the nested lists. *)
Section CommandHandler_induction.
Variable P : @CommandHandler World -> Prop.
Hypothesis P_handler : forall h, P (CmdHandler h).
Hypothesis P_if : forall on do, Forall P do -> P (IfBlockCommand on do).
Hypothesis P_ifelse : forall ifs els,
  Forall (fun br => Forall P (snd br)) ifs -> Forall P els ->
  P (IfElseBlockCommand ifs els).

Fixpoint CommandHandler_nested_ind cmd : P cmd :=
  let all :=
    fix all (l : list CommandHandler) : Forall P l :=
      match l with
      | [] => List.Forall_nil P
      | c :: l' => List.Forall_cons P c l' (CommandHandler_nested_ind c) (all l')
      end in
  match cmd with
  | CmdHandler h => P_handler h
  | IfBlockCommand on do => P_if on do (all do)
  | IfElseBlockCommand ifs els =>
    P_ifelse ifs els
      ((fix branches (ifs : list (RuleOn * list CommandHandler))
          : Forall (fun br => Forall P (snd br)) ifs :=
          match ifs with
          | [] => List.Forall_nil _
          | br :: ifs' => List.Forall_cons _ br ifs' (all (snd br)) (branches ifs')
          end) ifs)
      (all els)
  end.
End CommandHandler_induction.

(** The condition of a block is always true: it is the literal [default]
    or it carries no checker. *)
Definition AlwaysTrue (on : @RuleOn World) : Prop :=
  Go.TrimSpace (raw on) = OnDefault \/ checker on = None.

(** A command terminates in the pre phase: directly, as a terminating
    handler; through an always-true block whose body terminates; or
    through an if-else chain whose every branch terminates (the else
    branch too when present) and that has a fallback, an always-true
    branch or an else branch. *)
#[local] Unset Elimination Schemes.
Inductive TerminatesInPre : @CommandHandler World -> Prop :=
| Terminates_handler h :
    terminate h = true -> TerminatesInPre (CmdHandler h)
| Terminates_if on do :
    AlwaysTrue on -> Exists TerminatesInPre do ->
    TerminatesInPre (IfBlockCommand on do)
| Terminates_ifelse ifs els :
    Forall (fun br => Exists TerminatesInPre (snd br)) ifs ->
    (els <> [] -> Exists TerminatesInPre els) ->
    (els <> [] \/ Exists (fun br => AlwaysTrue (fst br)) ifs) ->
    TerminatesInPre (IfElseBlockCommand ifs els).
#[local] Set Elimination Schemes.

Lemma ruleOnAlwaysTrue_spec (on : @RuleOn World) :
  ruleOnAlwaysTrue on = true <-> AlwaysTrue on.
Proof.
  unfold ruleOnAlwaysTrue, AlwaysTrue.
  rewrite orb_true_iff, String.eqb_eq.
  destruct (checker on); intuition congruence.
Qed.

(** The loop over the branches of an if-else chain. *)
Definition ifs_loop :=
  fix loop (ifs : list (@RuleOn World * list (@CommandHandler World)))
      (hasFallback : bool) : option bool :=
    match ifs with
    | [] => Some hasFallback
    | br :: ifs' =>
      if negb (existsb commandTerminatesInPre (snd br)) then None
      else loop ifs' (if ruleOnAlwaysTrue (fst br) then true else hasFallback)
    end.

Lemma ifs_loop_spec ifs (hasFallback : bool) :
  ifs_loop ifs hasFallback
  = if forallb (fun br => existsb commandTerminatesInPre (snd br)) ifs
    then Some (hasFallback || existsb (fun br => ruleOnAlwaysTrue (fst br)) ifs)
    else None.
Proof.
  revert hasFallback. induction ifs as [|br ifs IH]; intros hasFallback.
  - cbn. now rewrite orb_false_r.
  - cbn [ifs_loop forallb existsb].
    destruct (existsb commandTerminatesInPre (snd br)); cbn [negb andb];
      [| reflexivity].
    rewrite IH. destruct (forallb _ ifs); [| reflexivity].
    destruct (ruleOnAlwaysTrue (fst br)), hasFallback; reflexivity.
Qed.

Lemma commandTerminatesInPre_ifelse ifs els :
  commandTerminatesInPre (IfElseBlockCommand ifs els)
  = forallb (fun br => existsb commandTerminatesInPre (snd br)) ifs
    && (negb (is_nil_list els)
        || existsb (fun br => ruleOnAlwaysTrue (fst br)) ifs)
    && (is_nil_list els || existsb commandTerminatesInPre els).
Proof.
  cbn [commandTerminatesInPre]. fold ifs_loop. rewrite ifs_loop_spec.
  destruct (forallb _ ifs); [| reflexivity].
  destruct els as [|c els]; cbn [is_nil_list negb orb andb].
  - destruct (existsb _ ifs); reflexivity.
  - destruct (existsb commandTerminatesInPre (c :: els)); reflexivity.
Qed.

Lemma existsb_Exists {A} (f : A -> bool) (P : A -> Prop) (l : list A) :
  Forall (fun a => f a = true <-> P a) l ->
  existsb f l = true <-> Exists P l.
Proof.
  induction 1 as [|a l Ha Hl IH]; cbn [existsb].
  - rewrite Exists_nil. split; [discriminate | tauto].
  - rewrite Exists_cons, orb_true_iff. tauto.
Qed.

Lemma forallb_Forall {A} (f : A -> bool) (P : A -> Prop) (l : list A) :
  Forall (fun a => f a = true <-> P a) l ->
  forallb f l = true <-> Forall P l.
Proof.
  induction 1 as [|a l Ha Hl IH]; cbn [forallb].
  - split; [constructor | reflexivity].
  - rewrite Forall_cons, andb_true_iff. tauto.
Qed.

(** [commandTerminatesInPre] decides [TerminatesInPre]. *)
Lemma commandTerminatesInPre_spec cmd :
  commandTerminatesInPre cmd = true <-> TerminatesInPre cmd.
Proof.
  induction cmd as [h | on do IH | ifs els IHifs IHels]
    using CommandHandler_nested_ind.
  - cbn. split; [now constructor | now inversion 1].
  - cbn [commandTerminatesInPre].
    rewrite andb_true_iff, ruleOnAlwaysTrue_spec, (existsb_Exists _ _ _ IH).
    split; [intros []; now constructor | now inversion 1].
  - rewrite commandTerminatesInPre_ifelse, !andb_true_iff, !orb_true_iff.
    rewrite (forallb_Forall _ (fun br => Exists TerminatesInPre (snd br))).
    2:{ eapply Forall_impl; [exact IHifs |]. intros br Hbr.
        now apply existsb_Exists. }
    rewrite (existsb_Exists _ (fun br => AlwaysTrue (fst br))).
    2:{ apply Forall_forall. intros br _. apply ruleOnAlwaysTrue_spec. }
    rewrite (existsb_Exists _ _ _ IHels).
    destruct els as [|c els]; cbn [is_nil_list negb].
    + split.
      * intros [[H1 [H2|H2]] _]; [discriminate |].
        constructor; [exact H1 | congruence | now right].
      * inversion 1 as [| |? ? H1 H2 H3]; subst.
        destruct H3 as [H3|H3]; [congruence |]. tauto.
    + split.
      * intros [[H1 _] [H3|H3]]; [discriminate |].
        constructor; [exact H1 | tauto | left; discriminate].
      * inversion 1 as [| |? ? H1 H2 H3]; subst.
        split; [split; [exact H1 | now left] |].
        right. apply H2. discriminate.
Qed.

Lemma doesTerminateInPre_spec (rule : @Rule World) :
  doesTerminateInPre rule = true <-> Exists TerminatesInPre (pre (Do rule)).
Proof.
  unfold doesTerminateInPre, commandsTerminateInPre.
  apply existsb_Exists, Forall_forall. intros c _.
  apply commandTerminatesInPre_spec.
Qed.

Variable LookupEnv : string -> option string.

(** The signature of a rule's [On], when it has one ([ok] is true). *)
Definition has_signature (r : @Rule World) (sig : string) : Prop :=
  matcherSignature LookupEnv (raw (On r)) = Ret (sig, true).

(** A rule that takes part in the check: not default, matched before the
    upstream call. *)
Definition pre_matched (r : @Rule World) : Prop :=
  isDefaultRule r = false /\ IsPostRule (phase (On r)) = false.

(** Rule [ri] shadows rule [rj]: both take part, they have the same
    canonical matcher signature, and [ri] terminates in the pre phase. *)
Definition Shadows (ri rj : @Rule World) : Prop :=
  pre_matched ri /\ pre_matched rj
  /\ (exists sig, has_signature ri sig /\ has_signature rj sig)
  /\ Exists TerminatesInPre (pre (Do ri)).

Definition DeadPair rules : Prop :=
  exists i j ri rj, (i < j)%nat /\ rules !! i = Some ri /\ rules !! j = Some rj
                    /\ Shadows ri rj.

Definition signature_defined (r : @Rule World) : Prop :=
  matcherSignature LookupEnv (raw (On r)) <> Panic.

Lemma DeadPair_cons (r1 : @Rule World) rules :
  DeadPair (r1 :: rules)
  <-> (exists k rj, rules !! k = Some rj /\ Shadows r1 rj) \/ DeadPair rules.
Proof.
  split.
  - intros (i & j & ri & rj & Hij & Hi & Hj & Hs).
    destruct j as [|j]; [lia |]. destruct i as [|i].
    + injection Hi as <-. left. exists j, rj. split; [exact Hj | exact Hs].
    + right. exists i, j, ri, rj.
      split; [lia |]. split; [exact Hi |]. split; [exact Hj | exact Hs].
  - intros [(k & rj & Hk & Hs) | (i & j & ri & rj & Hij & Hi & Hj & Hs)].
    + exists O, (S k), r1, rj.
      split; [lia |]. split; [reflexivity |]. split; [exact Hk | exact Hs].
    + exists (S i), (S j), ri, rj.
      split; [lia |]. split; [exact Hi |]. split; [exact Hj | exact Hs].
Qed.

Lemma shadowed_spec (sig1 : string) (j : nat) rules :
  Forall signature_defined rules ->
  exists res, shadowed LookupEnv sig1 j rules = Ret res
    /\ (is_Some res
        <-> exists k rj, rules !! k = Some rj /\ pre_matched rj
                         /\ has_signature rj sig1).
Proof.
  intros Hdef. revert j.
  induction Hdef as [|r2 rest Hr2 Hrest IH]; intros j.
  - exists None. split; [reflexivity |]. split.
    + intros [? [=]].
    + intros (k & rj & Hk & _). now rewrite lookup_nil in Hk.
  - assert (Hcons : forall res : option nat,
      (is_Some res <-> exists k rj, rest !! k = Some rj /\ pre_matched rj
                                    /\ has_signature rj sig1) ->
      ~ (pre_matched r2 /\ has_signature r2 sig1) ->
      (is_Some res <-> exists k rj, (r2 :: rest) !! k = Some rj
                                    /\ pre_matched rj /\ has_signature rj sig1)).
    { intros res Hres Hno. rewrite Hres. split.
      - intros (k & rj & Hk & H). exists (S k), rj. split; [exact Hk | exact H].
      - intros (k & rj & Hk & H). destruct k as [|k].
        + injection Hk as <-. tauto.
        + exists k, rj. split; [exact Hk | exact H]. }
    cbn [shadowed]. unfold pre_matched, has_signature, signature_defined in *.
    destruct (isDefaultRule r2) eqn:Hd; cbn [orb].
    { destruct (IH (S j)) as (res & Hres & Hiff). exists res.
      split; [exact Hres |]. apply Hcons; [exact Hiff |]. intuition congruence. }
    destruct (IsPostRule (phase (On r2))) eqn:Hp.
    { destruct (IH (S j)) as (res & Hres & Hiff). exists res.
      split; [exact Hres |]. apply Hcons; [exact Hiff |]. intuition congruence. }
    destruct (matcherSignature LookupEnv (raw (On r2))) as [[sig2 ok]|] eqn:Hsig;
      [| congruence].
    cbn. destruct ok; cbn [negb orb].
    + destruct (String.eqb sig1 sig2) eqn:He; cbn [negb].
      * apply String.eqb_eq in He. subst sig2.
        exists (Some j). split; [reflexivity |]. split; [| now eexists].
        intros _. exists O, r2. repeat split; assumption.
      * apply String.eqb_neq in He.
        destruct (IH (S j)) as (res & Hres & Hiff). exists res.
        split; [exact Hres |]. apply Hcons; [exact Hiff |].
        intros [_ [= ?]]. congruence.
    + destruct (IH (S j)) as (res & Hres & Hiff). exists res.
      split; [exact Hres |]. apply Hcons; [exact Hiff |].
      intros [_ [= ?]].
Qed.

Lemma deadRule_spec (i : nat) rules :
  Forall signature_defined rules ->
  exists res, deadRule LookupEnv i rules = Ret res
    /\ (is_Some res <-> DeadPair rules).
Proof.
  intros Hdef. revert i.
  induction Hdef as [|r1 rest Hr1 Hrest IH]; intros i.
  - exists None. split; [reflexivity |]. split.
    + intros [? [=]].
    + intros (? & ? & ? & ? & _ & Hk & _). now rewrite lookup_nil in Hk.
  - assert (Hskip : forall res : option (nat * nat),
      (is_Some res <-> DeadPair rest) ->
      ~ (exists k rj, rest !! k = Some rj /\ Shadows r1 rj) ->
      (is_Some res <-> DeadPair (r1 :: rest))).
    { intros res Hres Hno. rewrite DeadPair_cons, Hres. tauto. }
    cbn [deadRule].
    destruct (IH (S i)) as (res & Hres & Hiff).
    pose proof (doesTerminateInPre_spec r1) as Hterm.
    unfold Shadows, pre_matched, has_signature, signature_defined in *.
    destruct (isDefaultRule r1) eqn:Hd; cbn [orb].
    { exists res. split; [exact Hres |]. apply Hskip; [exact Hiff |].
      intros (k & rj & _ & [? ?] & _). congruence. }
    destruct (IsPostRule (phase (On r1))) eqn:Hp; cbn [orb].
    { exists res. split; [exact Hres |]. apply Hskip; [exact Hiff |].
      intros (k & rj & _ & [? ?] & _). congruence. }
    destruct (doesTerminateInPre r1) eqn:Ht; cbn [negb].
    2:{ exists res. split; [exact Hres |]. apply Hskip; [exact Hiff |].
        intros (k & rj & _ & _ & _ & _ & Hex). apply Hterm in Hex. congruence. }
    destruct (matcherSignature LookupEnv (raw (On r1))) as [[sig1 ok]|] eqn:Hsig;
      [| congruence].
    cbn. destruct ok; cbn [negb].
    2:{ exists res. split; [exact Hres |]. apply Hskip; [exact Hiff |].
        intros (k & rj & _ & _ & _ & (sig & [= ?] & _) & _). }
    destruct (shadowed_spec sig1 (S i) rest Hrest) as (found & Hfound & Hfiff).
    rewrite Hfound. cbn. destruct found as [j|].
    + exists (Some (i, j)). split; [reflexivity |].
      split; [| now eexists]. intros _. apply DeadPair_cons. left.
      destruct Hfiff as [Hfiff _].
      destruct Hfiff as (k & rj & Hk & Hpm & Hsj); [now eexists |].
      exists k, rj. split; [exact Hk |].
      split; [split; assumption |]. split; [exact Hpm |].
      split; [exists sig1; split; [exact Hsig | exact Hsj] |].
      now apply Hterm.
    + rewrite Hres. exists res. split; [reflexivity |].
      apply Hskip; [exact Hiff |].
      intros (k & rj & Hk & _ & Hpm & (sig & [= <-] & Hsj) & _).
      destruct Hfiff as [_ Hfiff].
      destruct Hfiff as [? [=]]. exists k, rj. repeat split; try tauto.
Qed.

(** Naming the rules changes neither [On] nor [Do] nor what is a default
    rule. *)
Definition same_rule (r r' : @Rule World) : Prop :=
  On r' = On r /\ Do r' = Do r /\ isDefaultRule r' = isDefaultRule r.

Lemma isDefaultRule_named (rule : @Rule World) (i : nat) :
  is_empty (Name rule) = true ->
  isDefaultRule (set_Name rule ("rule[" +:+ Go.itoa i +:+ "]"))
  = isDefaultRule rule.
Proof.
  unfold isDefaultRule, set_Name. cbn [Name On].
  destruct (Name rule); [reflexivity | discriminate].
Qed.

Lemma nameRules_spec (i : nat) rules :
  Forall2 same_rule rules (fst (nameRules i rules))
  /\ length (snd (nameRules i rules)) = length (defaults_of rules).
Proof.
  revert i. induction rules as [|r rest IH]; intros i.
  - split; [constructor | reflexivity].
  - cbn [nameRules]. destruct (IH (S i)) as [IH1 IH2].
    destruct (nameRules (S i) rest) as [rest' found]. cbn [fst snd] in *.
    split.
    + constructor; [| exact IH1].
      destruct (is_empty (Name r)) eqn:He.
      * split; [reflexivity |]. split; [reflexivity |].
        now apply isDefaultRule_named.
      * repeat split.
    + unfold defaults_of in *. rewrite filter_cons.
      destruct (isDefaultRule r) eqn:Hd.
      * rewrite decide_True by reflexivity. cbn [length]. now rewrite IH2.
      * rewrite decide_False by congruence. exact IH2.
Qed.

Lemma Shadows_same (ri rj ri' rj' : @Rule World) :
  same_rule ri ri' -> same_rule rj rj' -> Shadows ri rj <-> Shadows ri' rj'.
Proof.
  intros (Hon & Hdo & Hdef) (Hon' & Hdo' & Hdef').
  unfold Shadows, pre_matched, has_signature.
  rewrite Hon, Hdo, Hdef, Hon', Hdef'. reflexivity.
Qed.

Lemma DeadPair_same rules (rules' : list (@Rule World)) :
  Forall2 same_rule rules rules' -> DeadPair rules <-> DeadPair rules'.
Proof.
  intros Hsame. split.
  - intros (i & j & ri & rj & Hij & Hi & Hj & Hs).
    destruct (Forall2_lookup_l _ _ _ _ _ Hsame Hi) as (ri' & Hi' & Hri).
    destruct (Forall2_lookup_l _ _ _ _ _ Hsame Hj) as (rj' & Hj' & Hrj).
    exists i, j, ri', rj'.
    split; [exact Hij |]. split; [exact Hi' |]. split; [exact Hj' |].
    now apply (Shadows_same ri rj ri' rj').
  - intros (i & j & ri' & rj' & Hij & Hi & Hj & Hs).
    destruct (Forall2_lookup_r _ _ _ _ _ Hsame Hi) as (ri & Hi' & Hri).
    destruct (Forall2_lookup_r _ _ _ _ _ Hsame Hj) as (rj & Hj' & Hrj).
    exists i, j, ri, rj.
    split; [exact Hij |]. split; [exact Hi' |]. split; [exact Hj' |].
    now apply (Shadows_same ri rj ri' rj').
Qed.

Lemma signature_defined_same rules (rules' : list (@Rule World)) :
  Forall2 same_rule rules rules' ->
  Forall signature_defined rules -> Forall signature_defined rules'.
Proof.
  induction 1 as [|r r' l l' (Hon & _) Hl IH]; [constructor |].
  rewrite !Forall_cons. intros [Hr Hrest]. split; [| now apply IH].
  unfold signature_defined in *. now rewrite Hon.
Qed.

(** C3 (amended).  For a rule set all of whose [On] expressions have a
    defined signature computation, [Validate] returns, and it fails with
    the dead-rule error if and only if the set has at most one default
    rule and there are indices [i < j] of non-default rules matched
    before the upstream call whose [On] expressions have the same
    canonical matcher signature, rule [i] terminating in the pre phase. *)
Theorem Validate_dead_rule_iff rules :
  Forall signature_defined rules ->
  exists rules' err,
    Validate LookupEnv rules = Ret (rules', err)
    /\ ((exists i j, err = Some (ErrDeadRule i j))
        <-> (length (defaults_of rules) <= 1)%nat /\ DeadPair rules).
Proof.
  intros Hdef. unfold Validate.
  destruct (nameRules_spec O rules) as [Hsame Hlen].
  destruct (nameRules O rules) as [rules' found]. cbn [fst snd] in *.
  destruct (Nat.ltb_spec 1 (length found)) as [Hmany | Hone].
  - exists rules', (Some (ErrMultipleDefaultRules (length found))).
    split; [reflexivity |]. split.
    + intros (i & j & [=]).
    + intros [Hle _]. lia.
  - destruct (deadRule_spec O rules' (signature_defined_same _ _ Hsame Hdef))
      as (res & Hres & Hiff).
    rewrite Hres. cbn.
    assert (Hiff' : is_Some res <-> DeadPair rules)
      by (rewrite (DeadPair_same _ _ Hsame); exact Hiff).
    destruct res as [[i j]|].
    + exists rules', (Some (ErrDeadRule i j)). split; [reflexivity |].
      rewrite <- Hiff'. split.
      * intros _. split; [lia | now eexists].
      * intros _. now exists i, j.
    + exists rules', None. split; [reflexivity |].
      rewrite <- Hiff'. split; [intros (? & ? & [=]) | intros [_ [? [=]]]].
Qed.

End ValidateFacts.

(** Concrete rules: [default { pass }] and [header Host example.com {
    error ... }]. *)
Definition no_env : string -> option string := fun _ => None.

Definition h_error : @Handler unit :=
  {| fn := fun _ w => (w, Some errTerminateRule); h_phase := PhasePre;
     terminate := true |}.

Definition h_pass : @Handler unit :=
  {| fn := fun up w => (up w, Some errTerminateRule); h_phase := PhaseNone;
     terminate := true |}.

Definition rule_default : @Rule unit :=
  {| Name := EmptyString;
     On := {| raw := "default"; checker := Some (fun _ => true);
              phase := PhaseNone |};
     Do := {| c_raw := "pass"; pre := [CmdHandler h_pass]; post := [] |} |}.

Definition rule_host (do_raw : string) : @Rule unit :=
  {| Name := EmptyString;
     On := {| raw := "header Host example.com";
              checker := Some (fun _ => true); phase := PhaseNone |};
     Do := {| c_raw := do_raw; pre := [CmdHandler h_error]; post := [] |} |}.

Definition rules_two_defaults : list (@Rule unit) :=
  [rule_default; rule_default; rule_host "error 404 a"; rule_host "error 403 b"].

Definition rules_shadowed : list (@Rule unit) :=
  [rule_host "error 404 a"; rule_host "error 403 b"].

Lemma rule_host_Shadows (a b : string) :
  Shadows no_env (rule_host a) (rule_host b).
Proof.
  split; [split; reflexivity |]. split; [split; reflexivity |].
  split.
  - eexists. split; vm_compute; reflexivity.
  - constructor. now constructor.
Qed.

(** On a rule set with two default rules and a shadowed rule,
    [Validate] reports the default rules, not the dead rule. *)
Lemma Validate_two_defaults_not_dead_rule :
  exists rules',
    Validate no_env rules_two_defaults
    = Ret (rules', Some (ErrMultipleDefaultRules 2))
    /\ DeadPair no_env rules_two_defaults
    /\ ~ (exists i j,
            Some (ErrMultipleDefaultRules 2) = Some (ErrDeadRule i j)).
Proof.
  eexists. split; [vm_compute; reflexivity |]. split.
  - exists 2%nat, 3%nat, (rule_host "error 404 a"), (rule_host "error 403 b").
    split; [lia |]. split; [reflexivity |]. split; [reflexivity |].
    apply rule_host_Shadows.
  - intros (i & j & [=]).
Qed.

Lemma Validate_dead_rule_iff_witness :
  exists rules' err,
    Validate no_env rules_shadowed = Ret (rules', err)
    /\ ((exists i j, err = Some (ErrDeadRule i j))
        <-> (length (defaults_of rules_shadowed) <= 1)%nat
            /\ DeadPair no_env rules_shadowed).
Proof.
  apply (Validate_dead_rule_iff no_env rules_shadowed).
  repeat constructor; vm_compute; discriminate.
Defined.

(** On that rule set the error is the dead rule [(0, 1)], and the rules
    are named in place. *)
Example Validate_shadowed :
  Validate no_env rules_shadowed
  = Ret ([set_Name (rule_host "error 404 a") "rule[0]";
          set_Name (rule_host "error 403 b") "rule[1]"],
         Some (ErrDeadRule 0 1)).
Proof. vm_compute. reflexivity. Qed.

(** The signature does not depend on the order or the layout of the
    conditions, nor on repeated alternatives.  Arguments are joined by a
    NUL byte. *)
Definition sig_host_get : string :=
  "(header Host" +:+ String Ascii.zero "example.com)&(method GET)".

Example matcherSignature_canonical :
  matcherSignature no_env "header Host example.com & method GET"
  = Ret (sig_host_get, true)
  /\ matcherSignature no_env (String.concat (String Ch.lf EmptyString)
                                ["method GET"; "header Host example.com"])
     = Ret (sig_host_get, true)
  /\ matcherSignature no_env "method POST | method  GET | method POST"
     = Ret ("(method GET|method POST)", true)
  /\ matcherSignature no_env "  " = Ret ("(any)", true).
Proof. vm_compute. repeat split; reflexivity. Qed.

(** Bodies of the rules of the validator's tests: a terminating handler
    inside [default { ... }], and if-else chains. *)
Definition h_set : @Handler unit :=
  {| fn := fun _ w => (w, None); h_phase := PhasePost; terminate := false |}.
Definition on_default_block : @RuleOn unit :=
  {| raw := "default"; checker := Some (fun _ => true); phase := PhaseNone |}.
Definition on_method_get : @RuleOn unit :=
  {| raw := "method GET"; checker := Some (fun _ => true); phase := PhaseNone |}.

Example terminates_inside_if_block :
  commandTerminatesInPre
    (IfBlockCommand on_default_block [CmdHandler h_error]) = true
  /\ commandTerminatesInPre
       (IfBlockCommand on_method_get [CmdHandler h_error]) = false.
Proof. vm_compute. split; reflexivity. Qed.

Example terminates_across_if_else :
  commandTerminatesInPre
    (IfElseBlockCommand [(on_method_get, [CmdHandler h_error])]
                        [CmdHandler h_pass]) = true
  /\ commandTerminatesInPre
       (IfElseBlockCommand [(on_method_get, [CmdHandler h_set])]
                           [CmdHandler h_error]) = false
  /\ commandTerminatesInPre
       (IfElseBlockCommand [(on_method_get, [CmdHandler h_error])] []) = false.
Proof. vm_compute. repeat split; reflexivity. Qed.

(** An unconditional or matched branch with an empty body does not fall
    through to the else branch. *)
Example if_else_empty_branch_does_not_fall_through :
  ServeHTTP
    (IfElseBlockCommand
       [({| raw := EmptyString; checker := None; phase := PhaseNone |}, [])]
       [CmdHandler h_error]) id tt = (tt, None).
Proof. reflexivity. Qed.

(** A rune outside [quoteChars] makes [parse], and with it the signature
    computation, panic once the fast path is left (here by a quote). *)
Example matcherSignature_panics :
  matcherSignature no_env
    (String "p" (String " " (String Ch.dquote
       (String "228" (String "184" (String "173" (String Ch.dquote EmptyString)))))))
  = Panic.
Proof. vm_compute. reflexivity. Qed.

(** ** The executor: pre phase, upstream call, post phase *)

Section ExecutorFacts.

Context {World : Type}.
Variable NewResponseModifier FlushRelease : World -> World.
Variable HasStatus : World -> bool.
Variable http_Error500 : World -> World.
Variable AppendError : bool -> string -> error -> World -> World.
Variable up : World -> World.

Implicit Types (rule : @Rule World) (nd : list (@Rule World)).
Implicit Types (st : @Exec World) (d : option (@Rule World)).

#[local] Abbreviation preIter := (pre_iter AppendError up).
#[local] Abbreviation preLoop := (pre_loop AppendError up).
#[local] Abbreviation defaultPre := (default_pre AppendError up).
#[local] Abbreviation upstreamCall := (upstream_call HasStatus http_Error500 up).
#[local] Abbreviation postLoop := (post_loop AppendError up).
#[local] Abbreviation defaultPost := (default_post AppendError up).
#[local] Abbreviation postMatcherLoop := (post_matcher_loop AppendError up).
#[local] Abbreviation prePhase := (pre_phase NewResponseModifier AppendError up).
#[local] Abbreviation postPhase := (post_phase AppendError up).
#[local] Abbreviation serveRules :=
  (serve NewResponseModifier FlushRelease HasStatus http_Error500 AppendError up).

(** The rule's [On] is evaluated before the upstream call and matches. *)
Definition matches_pre rule (w : World) : bool :=
  negb (IsPostRule (phase (On rule))) && Check (On rule) w.

Ltac exec_cases :=
  repeat match goal with
  | |- context [if ?b then _ else _] => destruct b eqn:?
  | |- context [match ?x with _ => _ end] => destruct x eqn:?
  end.

Ltac exec_simpl :=
  cbn [rm hasError executedPre terminatedInPre matchedNonDefaultPre
       preTerminated defaultExecutedPre defaultTerminatedInPre trace
       with_rm with_event with_hasError with_matched with_executedPre
       with_terminatedInPre with_defaultExecutedPre
       with_defaultTerminatedInPre] in *.

(** *** One iteration of the pre loop *)

Lemma pre_iter_skip (i : nat) rule st :
  matches_pre rule (rm st) = false -> preIter i rule st = st.
Proof.
  unfold matches_pre, pre_iter. intros H.
  destruct (IsPostRule (phase (On rule))); [reflexivity |].
  cbn [negb andb orb] in *. now rewrite H.
Qed.

Lemma pre_iter_matched (i : nat) rule st :
  matchedNonDefaultPre (preIter i rule st)
  = matchedNonDefaultPre st || matches_pre rule (rm st).
Proof.
  destruct (matches_pre rule (rm st)) eqn:Hm.
  - unfold matches_pre in Hm. apply andb_true_iff in Hm as [H1 H2].
    apply negb_true_iff in H1. unfold pre_iter.
    rewrite H1, H2. cbn [negb orb]. rewrite orb_true_r.
    exec_cases; exec_simpl; reflexivity.
  - rewrite pre_iter_skip by exact Hm. now rewrite orb_false_r.
Qed.

Lemma pre_iter_preTerminated (i : nat) rule st :
  preTerminated st = true -> preTerminated (preIter i rule st) = true.
Proof.
  intros Ht. unfold pre_iter.
  exec_cases; exec_simpl; congruence.
Qed.

Lemma pre_iter_terminates (i : nat) rule st :
  matches_pre rule (rm st) = true -> preTerminated st = false ->
  snd (execPreCommand up (Do rule) (rm st)) = Some errTerminateRule ->
  preTerminated (preIter i rule st) = true.
Proof.
  unfold matches_pre. intros Hm Ht Hex.
  apply andb_true_iff in Hm as [H1 H2]. apply negb_true_iff in H1.
  unfold pre_iter. rewrite H1, H2. cbn [negb orb].
  exec_simpl. rewrite Ht. exec_simpl.
  destruct (execPreCommand up (Do rule) (rm st)) as [w' [err|]];
    cbn [snd] in Hex; [| discriminate].
  injection Hex as ->. reflexivity.
Qed.

(** The iteration serves the rule's pre commands exactly when the rule
    matches and no earlier rule terminated. *)
Lemma pre_iter_trace (i : nat) rule st :
  trace (preIter i rule st)
  = trace st
    ++ (if matches_pre rule (rm st) && negb (preTerminated st)
        then [EvPre (NonDefault i)] else []).
Proof.
  destruct (matches_pre rule (rm st)) eqn:Hm.
  - unfold matches_pre in Hm. apply andb_true_iff in Hm as [H1 H2].
    apply negb_true_iff in H1. unfold pre_iter.
    rewrite H1, H2. cbn [negb orb andb]. exec_simpl.
    destruct (preTerminated st) eqn:Ht; cbn [negb].
    + exec_cases; exec_simpl; now rewrite app_nil_r.
    + exec_cases; exec_simpl; reflexivity.
  - rewrite pre_iter_skip by exact Hm. cbn [andb]. now rewrite app_nil_r.
Qed.

Lemma pre_iter_lengths (i : nat) rule st :
  length (executedPre (preIter i rule st)) = length (executedPre st)
  /\ length (terminatedInPre (preIter i rule st)) = length (terminatedInPre st).
Proof.
  unfold pre_iter.
  exec_cases; exec_simpl; rewrite ?length_insert; split; reflexivity.
Qed.

Lemma flag_insert_ne (l : list bool) (i j : nat) (b : bool) :
  i <> j -> flag (<[i:=b]> l) j = flag l j.
Proof. intros H. unfold flag. now rewrite list_lookup_insert_ne. Qed.

Lemma flag_insert_eq (l : list bool) (i : nat) (b : bool) :
  (i < length l)%nat -> flag (<[i:=b]> l) i = b.
Proof. intros H. unfold flag. now rewrite list_lookup_insert_eq. Qed.

Lemma pre_iter_flags_other (i j : nat) rule st :
  i <> j ->
  flag (executedPre (preIter i rule st)) j = flag (executedPre st) j
  /\ flag (terminatedInPre (preIter i rule st)) j = flag (terminatedInPre st) j.
Proof.
  intros Hij. unfold pre_iter.
  exec_cases; exec_simpl; rewrite ?flag_insert_ne by exact Hij;
    split; reflexivity.
Qed.

(** A matching rule without pre commands is marked as executed, whether
    or not the pre phase has terminated, and never as terminated. *)
Lemma pre_iter_flags_post_only (i : nat) rule st :
  matches_pre rule (rm st) = true -> pre (Do rule) = [] ->
  (i < length (executedPre st))%nat ->
  flag (executedPre (preIter i rule st)) i = true
  /\ flag (terminatedInPre (preIter i rule st)) i = flag (terminatedInPre st) i.
Proof.
  unfold matches_pre. intros Hm Hpre Hlen.
  apply andb_true_iff in Hm as [H1 H2]. apply negb_true_iff in H1.
  unfold pre_iter, execPreCommand.
  rewrite H1, H2, Hpre. cbn [negb orb Commands_ServeHTTP]. exec_simpl.
  destruct (preTerminated st); exec_simpl;
    rewrite flag_insert_eq by exact Hlen; split; reflexivity.
Qed.

(** *** The pre loop *)

Lemma pre_loop_app (i : nat) (l1 l2 : list (@Rule World)) st :
  preLoop i (l1 ++ l2) st = preLoop (i + length l1) l2 (preLoop i l1 st).
Proof.
  revert i st. induction l1 as [|r l1 IH]; intros i st.
  - cbn. now rewrite Nat.add_0_r.
  - cbn [app pre_loop length]. rewrite IH. f_equal. lia.
Qed.

(** The state in which the rule at position [k] of the loop is examined. *)
Definition at_rule (i : nat) nd st (k : nat) : Exec :=
  preLoop i (take k nd) st.

Lemma at_rule_0 (i : nat) nd st : at_rule i nd st 0 = st.
Proof. unfold at_rule. now rewrite take_0. Qed.

Lemma at_rule_S (i k : nat) rule nd st :
  at_rule i (rule :: nd) st (S k) = at_rule (S i) nd (preIter i rule st) k.
Proof. reflexivity. Qed.

(** The position-wise view: a property of position [k] of [rule :: nd]
    is one of the head or of position [k - 1] of the tail. *)
Lemma exists_position (i : nat) rule nd st
    (Q : nat -> @Rule World -> @Exec World -> Prop) :
  (exists k r, (rule :: nd) !! k = Some r /\ Q (i + k)%nat r (at_rule i (rule :: nd) st k))
  <-> Q i rule st
      \/ exists k r, nd !! k = Some r
           /\ Q (S i + k)%nat r (at_rule (S i) nd (preIter i rule st) k).
Proof.
  split.
  - intros (k & r & Hk & HQ). destruct k as [|k].
    + injection Hk as <-. rewrite at_rule_0, Nat.add_0_r in HQ. now left.
    + right. exists k, r. split; [exact Hk |].
      rewrite at_rule_S in HQ. now replace (S i + k)%nat with (i + S k)%nat by lia.
  - intros [HQ | (k & r & Hk & HQ)].
    + exists O, rule. split; [reflexivity |].
      now rewrite at_rule_0, Nat.add_0_r.
    + exists (S k), r. split; [exact Hk |].
      rewrite at_rule_S. now replace (i + S k)%nat with (S i + k)%nat by lia.
Qed.

(** [matchedNonDefaultPre] is set exactly when some rule matched. *)
Lemma pre_loop_matched (i : nat) nd st :
  matchedNonDefaultPre (preLoop i nd st) = true
  <-> matchedNonDefaultPre st = true
      \/ exists k r, nd !! k = Some r
           /\ matches_pre r (rm (at_rule i nd st k)) = true.
Proof.
  revert i st. induction nd as [|rule nd IH]; intros i st.
  - cbn [pre_loop]. split; [now left |].
    intros [H | (k & r & Hk & _)]; [exact H | now rewrite lookup_nil in Hk].
  - cbn [pre_loop]. rewrite IH, pre_iter_matched, orb_true_iff.
    rewrite (exists_position i rule nd st
               (fun _ r st' => matches_pre r (rm st') = true)).
    tauto.
Qed.

Lemma pre_loop_preTerminated (i : nat) nd st :
  preTerminated st = true -> preTerminated (preLoop i nd st) = true.
Proof.
  revert i st. induction nd as [|rule nd IH]; intros i st H; [exact H |].
  cbn [pre_loop]. apply IH. now apply pre_iter_preTerminated.
Qed.

(** The kinds of events, by the part of the handler that emits them. *)
Inductive EventKind :=
| KPre | KDefaultPre | KUpstream | KPost | KDefaultPost | KPostMatcher.

Definition kind (e : Event) : EventKind :=
  match e with
  | EvPre (NonDefault _) => KPre
  | EvPre Default => KDefaultPre
  | EvInternalServerError | EvUpstream => KUpstream
  | EvPost (NonDefault _) => KPost
  | EvPost Default => KDefaultPost
  | EvPostMatcherPre _ | EvPostMatcherPost _ => KPostMatcher
  end.

Definition all_of_kind (k : EventKind) (evs : list Event) : Prop :=
  Forall (fun e => kind e = k) evs.

Lemma not_in_kind (k : EventKind) (evs : list Event) (e : Event) :
  all_of_kind k evs -> kind e <> k -> ~ In e evs.
Proof.
  intros Hall Hk Hin. apply Hk.
  unfold all_of_kind in Hall. rewrite Forall_forall in Hall.
  apply Hall. now apply list_elem_of_In.
Qed.

(** The events of the pre loop: the pre commands of rule [j] are served
    exactly when the rule matches in a state where no earlier rule has
    terminated. *)
Lemma pre_loop_trace (i : nat) nd st :
  exists evs,
    trace (preLoop i nd st) = trace st ++ evs
    /\ all_of_kind KPre evs
    /\ forall j, In (EvPre (NonDefault j)) evs
        <-> exists k r, nd !! k = Some r
              /\ (j = (i + k)%nat
                  /\ matches_pre r (rm (at_rule i nd st k)) = true
                  /\ preTerminated (at_rule i nd st k) = false).
Proof.
  revert i st. induction nd as [|rule nd IH]; intros i st.
  - exists []. cbn [pre_loop]. rewrite app_nil_r.
    split; [reflexivity |]. split; [constructor |].
    intros j. split; [intros [] |].
    intros (k & r & Hk & _). now rewrite lookup_nil in Hk.
  - cbn [pre_loop].
    destruct (IH (S i) (preIter i rule st)) as (evs & Htr & Hkind & Hin).
    rewrite pre_iter_trace in Htr.
    set (hd := if matches_pre rule (rm st) && negb (preTerminated st)
               then [EvPre (NonDefault i)] else []) in *.
    exists (hd ++ evs). rewrite Htr, <- app_assoc.
    split; [reflexivity |]. split.
    + apply Forall_app. split; [| exact Hkind].
      subst hd. destruct (_ && _); repeat constructor.
    + intros j.
      rewrite (exists_position i rule nd st
                 (fun p r st' => j = p /\ matches_pre r (rm st') = true
                                 /\ preTerminated st' = false)).
      rewrite in_app_iff, Hin. apply or_iff_compat_r.
      subst hd. destruct (matches_pre rule (rm st)); cbn [andb].
      * destruct (preTerminated st); cbn [negb].
        -- split; [intros [] | intros (_ & _ & [=])].
        -- split.
           ++ intros [[= ->] | []]. repeat split.
           ++ intros (-> & _). now left.
      * split; [intros [] | intros (_ & [=] & _)].
Qed.

(** The loop from index [i] on leaves the flags below [i] alone. *)
Lemma pre_loop_flags_below (i j : nat) nd st :
  (j < i)%nat ->
  flag (executedPre (preLoop i nd st)) j = flag (executedPre st) j
  /\ flag (terminatedInPre (preLoop i nd st)) j = flag (terminatedInPre st) j.
Proof.
  revert i st. induction nd as [|rule nd IH]; intros i st Hj; [now split |].
  cbn [pre_loop]. destruct (IH (S i) (preIter i rule st)) as [H1 H2]; [lia |].
  destruct (pre_iter_flags_other i j rule st) as [K1 K2]; [lia |].
  split; congruence.
Qed.

(** A rule without pre commands that matches is flagged as executed at
    the end of the loop, and its termination flag is untouched. *)
Lemma pre_loop_flags_post_only (i k : nat) rule nd st :
  nd !! k = Some rule ->
  matches_pre rule (rm (at_rule i nd st k)) = true ->
  pre (Do rule) = [] ->
  (i + k < length (executedPre st))%nat ->
  flag (executedPre (preLoop i nd st)) (i + k) = true
  /\ flag (terminatedInPre (preLoop i nd st)) (i + k)
     = flag (terminatedInPre st) (i + k).
Proof.
  revert i k st. induction nd as [|r nd IH]; intros i k st Hk Hm Hpre Hlen.
  - now rewrite lookup_nil in Hk.
  - cbn [pre_loop]. destruct k as [|k].
    + injection Hk as ->. rewrite at_rule_0 in Hm. rewrite Nat.add_0_r in *.
      destruct (pre_loop_flags_below (S i) i nd (preIter i rule st)) as [H1 H2];
        [lia |].
      destruct (pre_iter_flags_post_only i rule st Hm Hpre Hlen) as [K1 K2].
      split; congruence.
    + rewrite at_rule_S in Hm.
      replace (i + S k)%nat with (S i + k)%nat in * by lia.
      destruct (IH (S i) k (preIter i r st) Hk Hm Hpre) as [H1 H2].
      { destruct (pre_iter_lengths i r st) as [-> _]. exact Hlen. }
      destruct (pre_iter_flags_other i (S i + k) r st) as [K1 K2]; [lia |].
      split; congruence.
Qed.

(** *** The default rule, the upstream call and the post phase *)

(** The condition under which the default rule runs. *)
Definition default_runs d st : bool :=
  match d with
  | Some dr =>
    negb (matchedNonDefaultPre st) && negb (IsPostRule (phase (On dr)))
    && Check (On dr) (rm st)
  | None => false
  end.

Lemma default_pre_spec d st :
  trace (defaultPre d st)
  = trace st ++ (if default_runs d st then [EvPre Default] else [])
  /\ defaultExecutedPre (defaultPre d st)
     = defaultExecutedPre st || default_runs d st
  /\ executedPre (defaultPre d st) = executedPre st
  /\ terminatedInPre (defaultPre d st) = terminatedInPre st.
Proof.
  unfold default_pre, default_runs. destruct d as [dr|].
  - destruct (negb (matchedNonDefaultPre st) && negb (IsPostRule (phase (On dr)))
              && Check (On dr) (rm st)).
    + exec_cases; exec_simpl; rewrite ?orb_true_r; repeat split.
    + rewrite app_nil_r, orb_false_r. repeat split.
  - rewrite app_nil_r, orb_false_r. repeat split.
Qed.

Lemma upstream_call_spec st :
  (exists evs, trace (upstreamCall st) = trace st ++ evs
               /\ all_of_kind KUpstream evs)
  /\ defaultExecutedPre (upstreamCall st) = defaultExecutedPre st
  /\ defaultTerminatedInPre (upstreamCall st) = defaultTerminatedInPre st
  /\ executedPre (upstreamCall st) = executedPre st
  /\ terminatedInPre (upstreamCall st) = terminatedInPre st.
Proof.
  unfold upstream_call.
  destruct (negb (HasStatus (rm st))); [destruct (hasError st) |]; exec_simpl.
  - split; [| repeat split]. eexists. split; [reflexivity |]. now repeat constructor.
  - split; [| repeat split]. eexists. split; [reflexivity |]. now repeat constructor.
  - split; [| repeat split]. exists []. rewrite app_nil_r. split; [reflexivity | constructor].
Qed.

Lemma report_post_spec (isPost : bool) rule st (res : World * option error) :
  trace (report_post AppendError isPost rule st res) = trace st
  /\ defaultExecutedPre (report_post AppendError isPost rule st res)
     = defaultExecutedPre st
  /\ defaultTerminatedInPre (report_post AppendError isPost rule st res)
     = defaultTerminatedInPre st
  /\ executedPre (report_post AppendError isPost rule st res) = executedPre st
  /\ terminatedInPre (report_post AppendError isPost rule st res)
     = terminatedInPre st.
Proof.
  unfold report_post. destruct res as [w [err|]]; exec_cases; exec_simpl;
    repeat split.
Qed.

(** The post loop serves the post commands of every rule flagged as
    executed and not as terminated. *)
Lemma post_loop_spec (i : nat) nd st :
  (exists evs,
      trace (postLoop i nd st) = trace st ++ evs
      /\ all_of_kind KPost evs
      /\ forall k, (k < length nd)%nat ->
           flag (executedPre st) (i + k) = true ->
           flag (terminatedInPre st) (i + k) = false ->
           In (EvPost (NonDefault (i + k))) evs)
  /\ defaultExecutedPre (postLoop i nd st) = defaultExecutedPre st
  /\ defaultTerminatedInPre (postLoop i nd st) = defaultTerminatedInPre st.
Proof.
  revert i st. induction nd as [|rule nd IH]; intros i st.
  - cbn [post_loop]. split; [| now split].
    exists []. rewrite app_nil_r. split; [reflexivity |].
    split; [constructor |]. cbn [length]. lia.
  - cbn [post_loop].
    destruct (negb (flag (executedPre st) i) || flag (terminatedInPre st) i)
      eqn:Hskip.
    + destruct (IH (S i) st) as ((evs & Htr & Hkind & Hin) & Hd1 & Hd2).
      split; [| now split]. exists evs. split; [exact Htr |].
      split; [exact Hkind |].
      intros [|k] Hk He Ht.
      * rewrite Nat.add_0_r in *. rewrite He, Ht in Hskip. discriminate.
      * replace (i + S k)%nat with (S i + k)%nat in * by lia.
        apply Hin; [cbn [length] in Hk; lia | exact He | exact Ht].
    + set (st1 := with_event st (EvPost (NonDefault i))).
      set (st2 := report_post AppendError true rule st1
                    (execPostCommand up (Do rule) (rm st1))).
      destruct (report_post_spec true rule st1
                  (execPostCommand up (Do rule) (rm st1)))
        as (R1 & R2 & R3 & R4 & R5).
      fold st2 in R1, R2, R3, R4, R5.
      destruct (IH (S i) st2) as ((evs & Htr & Hkind & Hin) & Hd1 & Hd2).
      split; [| split; [rewrite Hd1, R2 | rewrite Hd2, R3]; reflexivity].
      exists (EvPost (NonDefault i) :: evs).
      split; [rewrite Htr, R1; subst st1; cbn [trace with_event];
              now rewrite <- app_assoc |].
      split; [constructor; [reflexivity | exact Hkind] |].
      intros [|k] Hk He Ht.
      * rewrite Nat.add_0_r. now left.
      * right. replace (i + S k)%nat with (S i + k)%nat in * by lia.
        apply Hin; [cbn [length] in Hk; lia | |].
        -- rewrite R4. exact He.
        -- rewrite R5. exact Ht.
Qed.

Lemma default_post_spec d st :
  exists evs,
    trace (defaultPost d st) = trace st ++ evs
    /\ all_of_kind KDefaultPost evs
    /\ (defaultExecutedPre st = false -> evs = []).
Proof.
  unfold default_post. destruct d as [dr|].
  - destruct (defaultExecutedPre st) eqn:He; cbn [andb].
    + destruct (negb (defaultTerminatedInPre st)).
      * destruct (report_post_spec true dr (with_event st (EvPost Default))
                    (execPostCommand up (Do dr)
                       (rm (with_event st (EvPost Default))))) as (R1 & _).
        eexists. rewrite R1. cbn [trace with_event].
        split; [reflexivity |]. split; [now repeat constructor | discriminate].
      * exists []. rewrite app_nil_r. split; [reflexivity |].
        split; [constructor | reflexivity].
    + exists []. rewrite app_nil_r. split; [reflexivity |].
      split; [constructor | reflexivity].
  - exists []. rewrite app_nil_r. split; [reflexivity |].
    split; [constructor | reflexivity].
Qed.

Lemma post_matcher_loop_spec (i : nat) nd st :
  exists evs,
    trace (postMatcherLoop i nd st) = trace st ++ evs
    /\ all_of_kind KPostMatcher evs.
Proof.
  revert i st. induction nd as [|rule nd IH]; intros i st.
  - exists []. cbn [post_matcher_loop]. rewrite app_nil_r.
    split; [reflexivity | constructor].
  - cbn [post_matcher_loop].
    destruct (negb (IsPostRule (phase (On rule))) || negb (Check (On rule) (rm st))).
    + apply IH.
    + set (st1 := with_event st (EvPostMatcherPre i)).
      destruct (Commands_ServeHTTP (pre (Do rule)) up (rm st1)) as [w [err|]].
      * destruct (is_errTerminateRule err).
        -- destruct (IH (S i) (with_rm st1 w)) as (evs & Htr & Hkind).
           exists (EvPostMatcherPre i :: evs).
           split; [rewrite Htr; subst st1; cbn [trace with_rm with_event];
                   now rewrite <- app_assoc |].
           constructor; [reflexivity | exact Hkind].
        -- match goal with
           | |- context [post_matcher_loop _ _ _ _ (report_post _ _ _ ?s ?r)] =>
             destruct (report_post_spec true rule s r) as (R1 & _);
             destruct (IH (S i) (report_post AppendError true rule s r))
               as (evs & Htr & Hkind)
           end.
           exists (EvPostMatcherPre i :: EvPostMatcherPost i :: evs).
           split.
           ++ rewrite Htr, R1. subst st1.
              destruct (isUnexpectedError err);
                cbn [trace with_rm with_event]; now rewrite <- !app_assoc.
           ++ constructor; [reflexivity |].
              constructor; [reflexivity | exact Hkind].
      * match goal with
        | |- context [post_matcher_loop _ _ _ _ (report_post _ _ _ ?s ?r)] =>
          destruct (report_post_spec true rule s r) as (R1 & _);
          destruct (IH (S i) (report_post AppendError true rule s r))
            as (evs & Htr & Hkind)
        end.
        exists (EvPostMatcherPre i :: EvPostMatcherPost i :: evs).
        split.
        -- rewrite Htr, R1. subst st1. cbn [trace with_rm with_event].
           now rewrite <- !app_assoc.
        -- constructor; [reflexivity |].
           constructor; [reflexivity | exact Hkind].
Qed.

(** *** The whole handler *)

Lemma at_rule_next (i : nat) rule nd st :
  nd !! i = Some rule ->
  at_rule 0 nd st (S i) = preIter i rule (at_rule 0 nd st i).
Proof.
  intros Hi. unfold at_rule. rewrite (take_S_r _ _ _ Hi), pre_loop_app.
  rewrite length_take_le by (apply lookup_lt_Some in Hi; lia).
  reflexivity.
Qed.

Lemma at_rule_preTerminated (i j : nat) nd st :
  (i <= j)%nat ->
  preTerminated (at_rule 0 nd st i) = true ->
  preTerminated (at_rule 0 nd st j) = true.
Proof.
  intros Hij H. unfold at_rule in *.
  replace j with (i + (j - i))%nat by lia.
  rewrite <- take_take_drop, pre_loop_app.
  now apply pre_loop_preTerminated.
Qed.

Lemma pre_iter_defaultExecutedPre (i : nat) rule st :
  defaultExecutedPre (preIter i rule st) = defaultExecutedPre st.
Proof. unfold pre_iter. exec_cases; exec_simpl; reflexivity. Qed.

Lemma pre_loop_defaultExecutedPre (i : nat) nd st :
  defaultExecutedPre (preLoop i nd st) = defaultExecutedPre st.
Proof.
  revert i st. induction nd as [|rule nd IH]; intros i st; [reflexivity |].
  cbn [pre_loop]. now rewrite IH, pre_iter_defaultExecutedPre.
Qed.

(** The state the first rule is examined in, and the state at rule [j]. *)
Definition start (w : World) nd : Exec :=
  exec_init (NewResponseModifier w) (length nd).

Definition before nd (w : World) (j : nat) : Exec :=
  at_rule 0 nd (start w nd) j.

Definition loop_end nd (w : World) : Exec := preLoop 0 nd (start w nd).

(** Rule [j] is matched in the pre phase. *)
Definition matched_in_pre nd (w : World) (j : nat) : Prop :=
  exists rule, nd !! j = Some rule
    /\ IsPostRule (phase (On rule)) = false
    /\ Check (On rule) (rm (before nd w j)) = true.

Lemma matches_pre_spec rule (w : World) :
  matches_pre rule w = true
  <-> IsPostRule (phase (On rule)) = false /\ Check (On rule) w = true.
Proof. unfold matches_pre. now rewrite andb_true_iff, negb_true_iff. Qed.

Lemma matched_loop_end nd (w : World) :
  matchedNonDefaultPre (loop_end nd w) = true <-> exists j, matched_in_pre nd w j.
Proof.
  unfold loop_end. rewrite pre_loop_matched. cbn [start exec_init matchedNonDefaultPre].
  split.
  - intros [[=] | (k & r & Hk & Hm)]. exists k, r. split; [exact Hk |].
    now apply matches_pre_spec.
  - intros (k & r & Hk & Hm). right. exists k, r. split; [exact Hk |].
    now apply matches_pre_spec.
Qed.

(** The trace of one request, part by part. *)
Lemma serve_anatomy d nd (w : World) :
  exists e_pre e_up e_post e_dpost e_pm,
    let e_dpre :=
      if default_runs d (loop_end nd w) then [EvPre Default] else [] in
    trace (serveRules d nd w)
      = (e_pre ++ e_dpre ++ e_up) ++ (e_post ++ e_dpost ++ e_pm)
    /\ trace (upstreamCall (prePhase d nd w)) = e_pre ++ e_dpre ++ e_up
    /\ all_of_kind KPre e_pre /\ all_of_kind KUpstream e_up
    /\ all_of_kind KPost e_post /\ all_of_kind KDefaultPost e_dpost
    /\ all_of_kind KPostMatcher e_pm
    /\ (forall j, In (EvPre (NonDefault j)) e_pre
          <-> exists r, nd !! j = Some r
                /\ matches_pre r (rm (before nd w j)) = true
                /\ preTerminated (before nd w j) = false)
    /\ (default_runs d (loop_end nd w) = false -> e_dpost = [])
    /\ (forall k, (k < length nd)%nat ->
          flag (executedPre (loop_end nd w)) k = true ->
          flag (terminatedInPre (loop_end nd w)) k = false ->
          In (EvPost (NonDefault k)) e_post).
Proof.
  unfold serve, pre_phase, post_phase. cbn zeta. fold (start w nd).
  fold (loop_end nd w).
  destruct (pre_loop_trace 0 nd (start w nd)) as (e_pre & T1 & K1 & M1).
  fold (loop_end nd w) in T1. cbn [start exec_init trace app] in T1.
  destruct (default_pre_spec d (loop_end nd w)) as (T2 & D2 & X2 & Y2).
  set (s2 := defaultPre d (loop_end nd w)) in *.
  destruct (upstream_call_spec s2) as ((e_up & T3 & K3) & D3 & _ & X3 & Y3).
  set (s3 := upstreamCall s2) in *.
  destruct (post_loop_spec 0 nd s3) as ((e_post & T4 & K4 & M4) & D4 & _).
  set (s4 := postLoop 0 nd s3) in *.
  destruct (default_post_spec d s4) as (e_dpost & T5 & K5 & M5).
  set (s5 := defaultPost d s4) in *.
  destruct (post_matcher_loop_spec 0 nd s5) as (e_pm & T6 & K6).
  exists e_pre, e_up, e_post, e_dpost, e_pm. cbn zeta.
  cbn [trace with_rm].
  split; [rewrite T6, T5, T4, T3, T2, T1; now rewrite <- !app_assoc |].
  split; [rewrite T3, T2, T1; now rewrite <- !app_assoc |].
  do 5 (split; [assumption |]).
  split; [| split].
  - intros j. rewrite M1. split.
    + intros (k & r & Hk & -> & Hm & Ht). now exists r.
    + intros (r & Hj & Hm & Ht). exists j, r. repeat split; assumption.
  - intros Hruns. apply M5. rewrite D4, D3, D2, Hruns.
    unfold loop_end. now rewrite pre_loop_defaultExecutedPre.
  - intros k Hk He Ht. apply (M4 k Hk).
    + rewrite X3, X2. exact He.
    + rewrite Y3, Y2. exact Ht.
Qed.

Lemma in_app3 {A} (x : A) (a b c : list A) :
  In x (a ++ b ++ c) <-> In x a \/ In x b \/ In x c.
Proof. rewrite !in_app_iff. tauto. Qed.

(** [EvPre Default] is in the trace exactly when the default rule runs. *)
Lemma default_pre_in_trace d nd (w : World) :
  In (EvPre Default) (trace (serveRules d nd w))
  <-> default_runs d (loop_end nd w) = true.
Proof.
  destruct (serve_anatomy d nd w)
    as (e_pre & e_up & e_post & e_dpost & e_pm & T & _ & K1 & K2 & K3 & K4 & K5 & _).
  cbn zeta in T. rewrite T, in_app_iff, !in_app3.
  pose proof (not_in_kind _ _ (EvPre Default) K1).
  pose proof (not_in_kind _ _ (EvPre Default) K2).
  pose proof (not_in_kind _ _ (EvPre Default) K3).
  pose proof (not_in_kind _ _ (EvPre Default) K4).
  pose proof (not_in_kind _ _ (EvPre Default) K5).
  destruct (default_runs d (loop_end nd w)).
  - split; [reflexivity |]. intros _. left. right. left. now left.
  - split; [| discriminate].
    cbn [In]. intros [[?|[[]|?]]|[?|[?|?]]]; exfalso; intuition discriminate.
Qed.

Lemma default_runs_spec d st :
  default_runs d st = true
  <-> matchedNonDefaultPre st = false
      /\ exists dr, d = Some dr /\ IsPostRule (phase (On dr)) = false
                    /\ Check (On dr) (rm st) = true.
Proof.
  unfold default_runs. destruct d as [dr|].
  - rewrite !andb_true_iff, !negb_true_iff. split.
    + intros [[H1 H2] H3]. split; [exact H1 |]. now exists dr.
    + intros [H1 (dr' & [= <-] & H2 & H3)]. tauto.
  - split; [discriminate | intros [_ (? & [=] & _)]].
Qed.

(** *** What the handler does to the response

    The trace names the operations the handler performs.  Their effect on
    the response modifier is written here with the command lists
    themselves, and the response the handler ends with is shown to be
    the result of these effects, in the order of the trace. *)

(** The response after a command list has been served: an error that is
    neither the termination signal nor a stream cancellation is appended
    to it. *)
Definition after_commands (isPost : bool) (raw : string)
    (res : World * option error) : World :=
  match res with
  | (w', None) => w'
  | (w', Some err) =>
    if negb (is_errTerminateRule err) && isUnexpectedError err
    then AppendError isPost raw err w' else w'
  end.

(** Serving the pre commands, and the post commands, of a rule. *)
Definition served_pre rule (w : World) : World :=
  after_commands false (c_raw (Do rule))
    (Commands_ServeHTTP (pre (Do rule)) up w).

Definition served_post rule (w : World) : World :=
  after_commands true (c_raw (Do rule))
    (Commands_ServeHTTP (post (Do rule)) up w).

Definition on_rule (f : @Rule World -> World -> World) d (w : World) : World :=
  match d with
  | Some rule => f rule w
  | None => w
  end.

(** The effect of one traced operation, for the default rule [d] and the
    other rules [nd]. *)
Definition effect d nd (e : Event) (w : World) : World :=
  match e with
  | EvPre (NonDefault i) => on_rule served_pre (nd !! i) w
  | EvPre Default => on_rule served_pre d w
  | EvInternalServerError => http_Error500 w
  | EvUpstream => up w
  | EvPost (NonDefault i) => on_rule served_post (nd !! i) w
  | EvPost Default => on_rule served_post d w
  | EvPostMatcherPre i => on_rule served_pre (nd !! i) w
  | EvPostMatcherPost i => on_rule served_post (nd !! i) w
  end.

Definition replay d nd (evs : list Event) (w : World) : World :=
  fold_left (fun w' e => effect d nd e w') evs w.

Lemma replay_app d nd (a b : list Event) (w : World) :
  replay d nd (a ++ b) w = replay d nd b (replay d nd a w).
Proof. unfold replay. apply fold_left_app. Qed.

(** [st'] is reached from [st] by performing the operations that [st']
    has traced beyond [st]. *)
Definition extends d nd st st' : Prop :=
  exists evs, trace st' = trace st ++ evs /\ rm st' = replay d nd evs (rm st).

Lemma extends_refl d nd st : extends d nd st st.
Proof. exists []. now rewrite app_nil_r. Qed.

Lemma extends_trans d nd st1 st2 st3 :
  extends d nd st1 st2 -> extends d nd st2 st3 -> extends d nd st1 st3.
Proof.
  intros (e1 & T1 & R1) (e2 & T2 & R2). exists (e1 ++ e2).
  rewrite T2, T1, R2, R1, replay_app, <- app_assoc. now split.
Qed.

Lemma extends_by d nd st st' (evs : list Event) :
  extends d nd st st' -> trace st' = trace st ++ evs ->
  rm st' = replay d nd evs (rm st).
Proof.
  intros (e & T & R) T'. rewrite T in T'. apply app_inv_head in T'.
  now subst e.
Qed.

Lemma extends_one d nd st st' (e : Event) :
  trace st' = trace st ++ [e] -> rm st' = effect d nd e (rm st) ->
  extends d nd st st'.
Proof. intros T R. exists [e]. now split. Qed.

Lemma extends_same d nd st st' :
  trace st' = trace st -> rm st' = rm st -> extends d nd st st'.
Proof. intros T R. exists []. rewrite app_nil_r. now split. Qed.

(** The response after one iteration of the pre loop. *)
Lemma pre_iter_rm (i : nat) rule st :
  rm (preIter i rule st)
  = if matches_pre rule (rm st) && negb (preTerminated st)
    then served_pre rule (rm st) else rm st.
Proof.
  destruct (matches_pre rule (rm st)) eqn:Hm.
  - unfold matches_pre in Hm. apply andb_true_iff in Hm as [H1 H2].
    apply negb_true_iff in H1.
    unfold pre_iter, served_pre, after_commands, execPreCommand.
    rewrite H1, H2. cbn [negb orb andb]. exec_simpl.
    destruct (preTerminated st) eqn:Ht; cbn [negb].
    + destruct (pre (Do rule)); reflexivity.
    + destruct (Commands_ServeHTTP (pre (Do rule)) up (rm st)) as [w' [err|]];
        exec_simpl; [| reflexivity].
      destruct (is_errTerminateRule err); cbn [negb andb]; [reflexivity |].
      destruct (isUnexpectedError err); reflexivity.
  - rewrite pre_iter_skip by exact Hm. reflexivity.
Qed.

Lemma pre_iter_extends d nd (i : nat) rule st :
  nd !! i = Some rule -> extends d nd st (preIter i rule st).
Proof.
  intros Hi. pose proof (pre_iter_trace i rule st) as T.
  pose proof (pre_iter_rm i rule st) as R.
  destruct (matches_pre rule (rm st) && negb (preTerminated st)).
  - apply (extends_one _ _ _ _ _ T). cbn [effect]. now rewrite Hi.
  - rewrite app_nil_r in T. now apply extends_same.
Qed.

(** The rules of a loop that runs from index [i] are those of [nd] from
    that index on. *)
Definition rules_from nd (i : nat) (l : list (@Rule World)) : Prop :=
  forall k r, l !! k = Some r -> nd !! (i + k)%nat = Some r.

Lemma rules_from_0 nd : rules_from nd 0 nd.
Proof. intros k r H. exact H. Qed.

Lemma rules_from_cons nd (i : nat) rule (l : list (@Rule World)) :
  rules_from nd i (rule :: l) -> nd !! i = Some rule /\ rules_from nd (S i) l.
Proof.
  intros H. split.
  - specialize (H O rule eq_refl). now rewrite Nat.add_0_r in H.
  - intros k r Hk. specialize (H (S k) r Hk).
    now replace (S i + k)%nat with (i + S k)%nat by lia.
Qed.

Lemma pre_loop_extends d nd (i : nat) (l : list (@Rule World)) st :
  rules_from nd i l -> extends d nd st (preLoop i l st).
Proof.
  revert i st. induction l as [|rule l IH]; intros i st Hl.
  - apply extends_refl.
  - apply rules_from_cons in Hl as [Hi Hl]. cbn [pre_loop].
    apply (extends_trans _ _ _ (preIter i rule st));
      [now apply pre_iter_extends | now apply IH].
Qed.

(** The default rule: its pre commands are served on the response the
    loop has left, or nothing happens at all. *)
Lemma default_pre_runs d st :
  default_runs d st = true ->
  trace (defaultPre d st) = trace st ++ [EvPre Default]
  /\ rm (defaultPre d st) = on_rule served_pre d (rm st).
Proof.
  unfold default_pre, default_runs. destruct d as [dr|]; [| discriminate].
  intros ->. unfold on_rule, served_pre, after_commands, execPreCommand.
  exec_simpl.
  destruct (Commands_ServeHTTP (pre (Do dr)) up (rm st)) as [w' [err|]];
    exec_simpl; [| now split].
  destruct (is_errTerminateRule err); cbn [negb andb]; [now split |].
  destruct (isUnexpectedError err); now split.
Qed.

Lemma default_pre_idle d st :
  default_runs d st = false -> defaultPre d st = st.
Proof.
  unfold default_pre, default_runs. destruct d as [dr|]; [| reflexivity].
  now intros ->.
Qed.

Lemma default_pre_extends d nd st : extends d nd st (defaultPre d st).
Proof.
  destruct (default_runs d st) eqn:Hr.
  - destruct (default_pre_runs d st Hr) as [T R].
    now apply (extends_one _ _ _ _ _ T).
  - rewrite (default_pre_idle d st Hr). apply extends_refl.
Qed.

(** The upstream call: nothing when a status has been written, the 500
    answer after an error, else the upstream handler. *)
Lemma upstream_call_rm st :
  rm (upstreamCall st)
  = if HasStatus (rm st) then rm st
    else if hasError st then http_Error500 (rm st) else up (rm st).
Proof.
  unfold upstream_call.
  destruct (HasStatus (rm st)); cbn [negb]; [reflexivity |].
  destruct (hasError st); reflexivity.
Qed.

Lemma upstream_call_extends d nd st : extends d nd st (upstreamCall st).
Proof.
  unfold upstream_call.
  destruct (HasStatus (rm st)); cbn [negb]; [apply extends_refl |].
  destruct (hasError st); eapply extends_one; reflexivity.
Qed.

Lemma report_post_rm rule st (res : World * option error) :
  rm (report_post AppendError true rule st res)
  = after_commands true (c_raw (Do rule)) res.
Proof.
  unfold report_post, after_commands. destruct res as [w' [err|]];
    [| reflexivity].
  exec_simpl. destruct (negb (is_errTerminateRule err) && isUnexpectedError err);
    reflexivity.
Qed.

Lemma post_loop_extends d nd (i : nat) (l : list (@Rule World)) st :
  rules_from nd i l -> extends d nd st (postLoop i l st).
Proof.
  revert i st. induction l as [|rule l IH]; intros i st Hl.
  - apply extends_refl.
  - apply rules_from_cons in Hl as [Hi Hl]. cbn [post_loop].
    destruct (negb (flag (executedPre st) i) || flag (terminatedInPre st) i);
      [now apply IH |].
    eapply extends_trans; [| now apply IH].
    match goal with
    | |- extends _ _ _ (report_post _ _ _ ?s ?r) =>
      destruct (report_post_spec true rule s r) as (R1 & _);
      apply (extends_one _ _ _ _ (EvPost (NonDefault i)));
        [rewrite R1; reflexivity |]
    end.
    rewrite report_post_rm. cbn [effect]. rewrite Hi. reflexivity.
Qed.

Lemma default_post_idle d st :
  defaultExecutedPre st = false -> defaultPost d st = st.
Proof.
  unfold default_post. destruct d as [dr|]; [| reflexivity]. now intros ->.
Qed.

Lemma default_post_extends d nd st : extends d nd st (defaultPost d st).
Proof.
  unfold default_post. destruct d as [dr|]; [| apply extends_refl].
  destruct (defaultExecutedPre st && negb (defaultTerminatedInPre st));
    [| apply extends_refl].
  match goal with
  | |- extends _ _ _ (report_post _ _ _ ?s ?r) =>
    destruct (report_post_spec true dr s r) as (R1 & _);
    apply (extends_one _ _ _ _ (EvPost Default)); [rewrite R1; reflexivity |]
  end.
  rewrite report_post_rm. reflexivity.
Qed.

Lemma post_matcher_post_extends d nd (i : nat) rule st :
  nd !! i = Some rule ->
  extends d nd st
    (report_post AppendError true rule (with_event st (EvPostMatcherPost i))
       (execPostCommand up (Do rule) (rm (with_event st (EvPostMatcherPost i))))).
Proof.
  intros Hi.
  match goal with
  | |- extends _ _ _ (report_post _ _ _ ?s ?r) =>
    destruct (report_post_spec true rule s r) as (R1 & _);
    apply (extends_one _ _ _ _ (EvPostMatcherPost i)); [rewrite R1; reflexivity |]
  end.
  rewrite report_post_rm. cbn [effect]. rewrite Hi. reflexivity.
Qed.

Lemma post_matcher_loop_extends d nd (i : nat) (l : list (@Rule World)) st :
  rules_from nd i l -> extends d nd st (postMatcherLoop i l st).
Proof.
  revert i st. induction l as [|rule l IH]; intros i st Hl.
  - apply extends_refl.
  - apply rules_from_cons in Hl as [Hi Hl]. cbn [post_matcher_loop].
    destruct (negb (IsPostRule (phase (On rule))) || negb (Check (On rule) (rm st)));
      [now apply IH |].
    assert (Hpre : forall st1,
      trace st1 = trace st ++ [EvPostMatcherPre i] ->
      rm st1 = served_pre rule (rm st) -> extends d nd st st1).
    { intros st1 T R. apply (extends_one _ _ _ _ _ T).
      cbn [effect]. now rewrite Hi. }
    exec_simpl. unfold served_pre, after_commands in Hpre.
    destruct (Commands_ServeHTTP (pre (Do rule)) up (rm st)) as [w' [err|]].
    + destruct (is_errTerminateRule err) eqn:Hterm; cbn [negb andb] in Hpre.
      * eapply extends_trans; [| now apply IH].
        apply Hpre; reflexivity.
      * eapply extends_trans; [| now apply IH].
        eapply extends_trans; [| now apply post_matcher_post_extends].
        apply Hpre; destruct (isUnexpectedError err); reflexivity.
    + eapply extends_trans; [| now apply IH].
      eapply extends_trans; [| now apply post_matcher_post_extends].
      apply Hpre; reflexivity.
Qed.

(** The handler's response is the replay of its trace: after the pre
    phase and the upstream call, and at the end, where it is flushed. *)
Lemma serve_replay d nd (w : World) :
  extends d nd (start w nd) (upstreamCall (prePhase d nd w))
  /\ exists st,
       extends d nd (upstreamCall (prePhase d nd w)) st
       /\ trace (serveRules d nd w) = trace st
       /\ rm (serveRules d nd w) = FlushRelease (rm st).
Proof.
  unfold serve, pre_phase, post_phase. cbn zeta. fold (start w nd). split.
  - eapply extends_trans; [| apply upstream_call_extends].
    eapply extends_trans; [| apply default_pre_extends].
    apply pre_loop_extends, rules_from_0.
  - exists (postMatcherLoop 0 nd
              (defaultPost d
                 (postLoop 0 nd
                    (upstreamCall (defaultPre d (preLoop 0 nd (start w nd))))))).
    split; [| split; reflexivity].
    eapply extends_trans; [| apply post_matcher_loop_extends, rules_from_0].
    eapply extends_trans; [| apply default_post_extends].
    apply post_loop_extends, rules_from_0.
Qed.

(** What follows the upstream call in the trace is performed on the
    response the upstream call has left. *)
Lemma serve_replay_later d nd (w : World) (later : list Event) :
  trace (serveRules d nd w) = trace (upstreamCall (prePhase d nd w)) ++ later ->
  rm (serveRules d nd w)
  = FlushRelease (replay d nd later (rm (upstreamCall (prePhase d nd w)))).
Proof.
  intros T. destruct (serve_replay d nd w) as (_ & st & Hext & Ht & Hr).
  rewrite Hr. f_equal. apply (extends_by _ _ _ _ _ Hext). now rewrite <- Ht.
Qed.

Lemma serve_replay_all d nd (w : World) :
  rm (serveRules d nd w)
  = FlushRelease
      (replay d nd (trace (serveRules d nd w)) (NewResponseModifier w)).
Proof.
  destruct (serve_replay d nd w) as ((e1 & T1 & R1) & st & (e2 & T2 & R2) & Ht & Hr).
  rewrite Hr, Ht, T2, T1, R2, R1. cbn [start exec_init trace rm app].
  now rewrite replay_app.
Qed.

(** Once the pre phase has terminated, the loop leaves the response as
    it is. *)
Lemma before_beyond nd (w : World) (j : nat) :
  nd !! j = None -> before nd w (S j) = before nd w j.
Proof.
  intros Hj. apply lookup_ge_None in Hj. unfold before, at_rule.
  now rewrite !take_ge by lia.
Qed.

Lemma before_end nd (w : World) : before nd w (length nd) = loop_end nd w.
Proof. unfold before, at_rule, loop_end. now rewrite take_ge by lia. Qed.

Lemma before_terminated_rm nd (w : World) (i j : nat) :
  preTerminated (before nd w i) = true -> (i <= j)%nat ->
  rm (before nd w j) = rm (before nd w i).
Proof.
  intros Ht Hij. induction Hij as [|j Hij IH]; [reflexivity |].
  destruct (nd !! j) as [r|] eqn:Hj.
  - unfold before in *. rewrite (at_rule_next j r nd _ Hj), pre_iter_rm.
    rewrite (at_rule_preTerminated i j nd _ Hij Ht), andb_false_r.
    exact IH.
  - now rewrite (before_beyond nd w j Hj).
Qed.

Lemma defaultExecutedPre_after_pre d nd (w : World) :
  defaultExecutedPre (prePhase d nd w) = default_runs d (loop_end nd w).
Proof.
  unfold pre_phase. fold (start w nd). fold (loop_end nd w).
  destruct (default_pre_spec d (loop_end nd w)) as (_ & -> & _).
  unfold loop_end. now rewrite pre_loop_defaultExecutedPre.
Qed.

(** Without its fallback condition the default rule plays no part. *)
Lemma serve_without_default d nd (w : World) :
  default_runs d (loop_end nd w) = false ->
  serveRules d nd w = serveRules None nd w.
Proof.
  intros Hr. unfold serve, pre_phase, post_phase. cbn zeta.
  fold (start w nd). fold (loop_end nd w).
  rewrite (default_pre_idle d _ Hr). cbn [default_pre default_post].
  set (s4 := postLoop 0 nd (upstreamCall (loop_end nd w))).
  rewrite (default_post_idle d s4); [reflexivity |].
  subst s4.
  destruct (post_loop_spec 0 nd (upstreamCall (loop_end nd w))) as (_ & -> & _).
  destruct (upstream_call_spec (loop_end nd w)) as (_ & -> & _).
  unfold loop_end. now rewrite pre_loop_defaultExecutedPre.
Qed.

(** C1.  The default rule's pre commands are served if and only if no
    non-default rule is matched in the pre phase, the default rule
    exists, its [On] is not a post (response) condition and its check
    passes on the state the pre loop leaves; and when some non-default
    rule is matched in the pre phase, neither the pre nor the post
    commands of the default rule are served.  Served is meant as done:
    under the condition the pre phase ends with the response that
    serving the default rule's pre commands gives on the response the
    loop has left; whenever they are not served the handler does what
    it does without a default rule; and the response the handler ends
    with is the result of the traced operations in their order. *)
Theorem default_rule_is_fallback d nd (w : World) :
  (In (EvPre Default) (trace (serveRules d nd w))
   <-> (~ exists j, matched_in_pre nd w j)
       /\ exists dr, d = Some dr
            /\ IsPostRule (phase (On dr)) = false
            /\ Check (On dr) (rm (loop_end nd w)) = true)
  /\ ((exists j, matched_in_pre nd w j) ->
      ~ In (EvPre Default) (trace (serveRules d nd w))
      /\ ~ In (EvPost Default) (trace (serveRules d nd w)))
  /\ (forall dr,
        d = Some dr ->
        (~ exists j, matched_in_pre nd w j) ->
        IsPostRule (phase (On dr)) = false ->
        Check (On dr) (rm (loop_end nd w)) = true ->
        rm (prePhase d nd w)
        = after_commands false (c_raw (Do dr))
            (Commands_ServeHTTP (pre (Do dr)) up (rm (loop_end nd w))))
  /\ (~ In (EvPre Default) (trace (serveRules d nd w)) ->
      serveRules d nd w = serveRules None nd w)
  /\ rm (serveRules d nd w)
     = FlushRelease
         (replay d nd (trace (serveRules d nd w)) (NewResponseModifier w)).
Proof.
  pose proof (matched_loop_end nd w) as Hm.
  split; [| split; [| split; [| split]]].
  - rewrite default_pre_in_trace, default_runs_spec, <- Hm.
    now rewrite not_true_iff_false.
  - intros Hj. apply Hm in Hj.
    assert (Hruns : default_runs d (loop_end nd w) = false).
    { apply not_true_iff_false. rewrite default_runs_spec. intros [? _]. congruence. }
    split.
    + rewrite default_pre_in_trace. congruence.
    + destruct (serve_anatomy d nd w)
        as (e_pre & e_up & e_post & e_dpost & e_pm & T & _
            & K1 & K2 & K3 & K4 & K5 & _ & M & _).
      cbn zeta in T. rewrite T, Hruns, (M Hruns), in_app_iff, !in_app3.
      pose proof (not_in_kind _ _ (EvPost Default) K1).
      pose proof (not_in_kind _ _ (EvPost Default) K2).
      pose proof (not_in_kind _ _ (EvPost Default) K3).
      pose proof (not_in_kind _ _ (EvPost Default) K5).
      cbn [In]. intros [[?|[[]|?]]|[?|[[]|?]]]; intuition discriminate.
  - intros dr -> Hnone Hpost Hcheck.
    assert (Hruns : default_runs (Some dr) (loop_end nd w) = true).
    { apply default_runs_spec. split.
      - apply not_true_iff_false. now rewrite Hm.
      - now exists dr. }
    unfold pre_phase. fold (start w nd). fold (loop_end nd w).
    now destruct (default_pre_runs (Some dr) _ Hruns) as [_ ->].
  - intros Hnot. apply serve_without_default.
    apply not_true_iff_false. now rewrite <- default_pre_in_trace.
  - apply serve_replay_all.
Qed.

(** C2.  Once the pre commands of rule [i] have returned the termination
    signal, the pre commands of no later rule are served in the pre
    phase, nor those of the default rule: the pre loop and the pre
    phase keep the response that rule [i]'s commands have left.  Yet
    every rule matched in the pre phase that has no pre commands has
    its post commands served after the pre phase and the upstream
    call: the handler ends with the response that results from serving
    them, between the operations traced before and after.  (The pre
    commands of a rule whose [On] is a response condition are served
    in the last loop, see [pre_termination_response_rule].) *)
Theorem pre_termination_keeps_post_only d nd (w : World) :
  (forall i rule,
      nd !! i = Some rule ->
      In (EvPre (NonDefault i)) (trace (serveRules d nd w)) ->
      snd (Commands_ServeHTTP (pre (Do rule)) up (rm (before nd w i)))
        = Some errTerminateRule ->
      ((forall j, (i < j)%nat ->
          ~ In (EvPre (NonDefault j)) (trace (serveRules d nd w)))
       /\ ~ In (EvPre Default) (trace (serveRules d nd w)))
      /\ (forall j, (i < j)%nat ->
            rm (before nd w j)
            = fst (Commands_ServeHTTP (pre (Do rule)) up (rm (before nd w i))))
      /\ rm (prePhase d nd w)
         = fst (Commands_ServeHTTP (pre (Do rule)) up (rm (before nd w i))))
  /\ (forall j rule,
        nd !! j = Some rule ->
        matched_in_pre nd w j ->
        pre (Do rule) = [] ->
        exists earlier later,
          trace (serveRules d nd w)
            = trace (upstreamCall (prePhase d nd w))
              ++ earlier ++ EvPost (NonDefault j) :: later
          /\ rm (serveRules d nd w)
             = FlushRelease
                 (replay d nd later
                    (after_commands true (c_raw (Do rule))
                       (Commands_ServeHTTP (post (Do rule)) up
                          (replay d nd earlier
                             (rm (upstreamCall (prePhase d nd w))))))))
  /\ rm (serveRules d nd w)
     = FlushRelease
         (replay d nd (trace (serveRules d nd w)) (NewResponseModifier w)).
Proof.
  destruct (serve_anatomy d nd w)
    as (e_pre & e_up & e_post & e_dpost & e_pm & T & Tup
        & K1 & K2 & K3 & K4 & K5 & M1 & M2 & M3).
  cbn zeta in T, Tup.
  assert (Hpre : forall j, In (EvPre (NonDefault j)) (trace (serveRules d nd w))
                           <-> In (EvPre (NonDefault j)) e_pre).
  { intros j. rewrite T, in_app_iff, !in_app3.
    pose proof (not_in_kind _ _ (EvPre (NonDefault j)) K2).
    pose proof (not_in_kind _ _ (EvPre (NonDefault j)) K3).
    pose proof (not_in_kind _ _ (EvPre (NonDefault j)) K4).
    pose proof (not_in_kind _ _ (EvPre (NonDefault j)) K5).
    split; [| tauto].
    destruct (default_runs d (loop_end nd w)); cbn [In];
      intros [[?|[?|?]]|[?|[?|?]]]; try assumption; exfalso;
      intuition discriminate. }
  split; [| split; [| apply serve_replay_all]].
  - intros i rule Hi Hin Hterm.
    apply Hpre, M1 in Hin. destruct Hin as (r & Hi' & Hm & Ht).
    assert (r = rule) by congruence. subst r.
    assert (Hnext : preTerminated (before nd w (S i)) = true).
    { unfold before. rewrite (at_rule_next i rule nd _ Hi).
      now apply pre_iter_terminates. }
    assert (Hrm : rm (before nd w (S i))
                  = fst (Commands_ServeHTTP (pre (Do rule)) up (rm (before nd w i)))).
    { unfold before in *. rewrite (at_rule_next i rule nd _ Hi), pre_iter_rm.
      rewrite Hm, Ht. cbn [negb andb]. unfold served_pre, after_commands.
      destruct (Commands_ServeHTTP (pre (Do rule)) up (rm (at_rule 0 nd (start w nd) i)))
        as [w' [err|]]; cbn [snd fst] in *; [| discriminate].
      injection Hterm as ->. reflexivity. }
    assert (Hmatched : matchedNonDefaultPre (loop_end nd w) = true).
    { apply matched_loop_end. exists i, rule. split; [exact Hi |].
      now apply matches_pre_spec. }
    split; [split |].
    + intros j Hij Hj. apply Hpre, M1 in Hj.
      destruct Hj as (r & _ & _ & Hj).
      unfold before in *.
      rewrite (at_rule_preTerminated (S i) j nd _) in Hj; [discriminate | lia |].
      exact Hnext.
    + rewrite default_pre_in_trace, default_runs_spec.
      intros [Hnone _]. congruence.
    + split.
      * intros j Hij. rewrite <- Hrm. apply before_terminated_rm; [exact Hnext | lia].
      * unfold pre_phase. fold (start w nd). fold (loop_end nd w).
        rewrite default_pre_idle.
        -- rewrite <- before_end, <- Hrm.
           apply before_terminated_rm; [exact Hnext |].
           apply lookup_lt_Some in Hi. lia.
        -- apply not_true_iff_false. rewrite default_runs_spec.
           intros [Hnone _]. congruence.
  - intros j rule Hj (r & Hj' & Hp & Hc) Hpre0.
    assert (r = rule) by congruence. subst r.
    assert (Hin : In (EvPost (NonDefault j)) (e_post ++ e_dpost ++ e_pm)).
    { apply in_app_iff. left.
      pose proof (lookup_lt_Some _ _ _ Hj) as Hlt.
      apply (M3 j Hlt).
      + destruct (pre_loop_flags_post_only 0 j rule nd (start w nd)) as [H1 _];
          trivial.
        * now apply matches_pre_spec.
        * cbn [start exec_init executedPre]. now rewrite length_replicate.
      + destruct (pre_loop_flags_post_only 0 j rule nd (start w nd)) as [_ H2];
          trivial.
        * now apply matches_pre_spec.
        * cbn [start exec_init executedPre]. now rewrite length_replicate.
        * unfold loop_end. cbn [Nat.add] in H2. rewrite H2.
          cbn [start exec_init terminatedInPre]. unfold flag.
          now rewrite lookup_replicate_2. }
    apply in_split in Hin as (earlier & later & Hsplit).
    exists earlier, later.
    assert (Htr : trace (serveRules d nd w)
                  = trace (upstreamCall (prePhase d nd w))
                    ++ earlier ++ EvPost (NonDefault j) :: later).
    { rewrite Tup, <- Hsplit. exact T. }
    split; [exact Htr |].
    rewrite (serve_replay_later d nd w _ Htr), replay_app.
    cbn [replay fold_left effect]. rewrite Hj. reflexivity.
Qed.

End ExecutorFacts.

(** *** A concrete exchange

    A small world: the request path, the response status (0 while none is
    written) and the response headers set so far. *)
Record Exchange := {
  x_path : string;
  x_status : Z;
  x_headers : list string
}.

Definition ex_write (code : Z) (x : Exchange) : Exchange :=
  {| x_path := x_path x; x_status := code; x_headers := x_headers x |}.
Definition ex_header (h : string) (x : Exchange) : Exchange :=
  {| x_path := x_path x; x_status := x_status x;
     x_headers := x_headers x ++ [h] |}.

Definition ex_up : Exchange -> Exchange := ex_write 200.
Definition ex_HasStatus (x : Exchange) : bool := negb (x_status x =? 0).
Definition ex_AppendError : bool -> string -> error -> Exchange -> Exchange :=
  fun _ _ _ x => x.

(** [error 403 blocked], [set resp_header h v]. *)
Definition cmd_error403 : @CommandHandler Exchange :=
  CmdHandler {| fn := fun _ x => (ex_write 403 x, Some errTerminateRule);
                h_phase := PhasePre; terminate := true |}.
Definition cmd_set_resp_header (h : string) : @CommandHandler Exchange :=
  CmdHandler {| fn := fun _ x => (ex_header h x, None);
                h_phase := PhasePost; terminate := false |}.

Definition on_path (p : string) : @RuleOn Exchange :=
  {| raw := "path " +:+ p; checker := Some (fun x => String.eqb (x_path x) p);
     phase := PhaseNone |}.
Definition on_status_4xx : @RuleOn Exchange :=
  {| raw := "status 4xx";
     checker := Some (fun x => Go.in_range 400 499 (x_status x));
     phase := PhasePost |}.

(** [path / { error 403 blocked }], [path / { set resp_header X-Late
    should-run }], [status 4xx { set resp_header X-Post true }]. *)
Definition rule_block : @Rule Exchange :=
  {| Name := "rule[0]"; On := on_path "/";
     Do := {| c_raw := "error 403 blocked"; pre := [cmd_error403]; post := [] |} |}.
Definition rule_late : @Rule Exchange :=
  {| Name := "rule[1]"; On := on_path "/";
     Do := {| c_raw := "set resp_header X-Late should-run"; pre := [];
              post := [cmd_set_resp_header "X-Late"] |} |}.
Definition rule_post : @Rule Exchange :=
  {| Name := "rule[2]"; On := on_status_4xx;
     Do := {| c_raw := "set resp_header X-Post true"; pre := [];
              post := [cmd_set_resp_header "X-Post"] |} |}.
Definition rule_fallback : @Rule Exchange :=
  {| Name := "default";
     On := {| raw := "default"; checker := Some (fun _ => true);
              phase := PhaseNone |};
     Do := {| c_raw := "set resp_header X-Default true"; pre := [];
              post := [cmd_set_resp_header "X-Default"] |} |}.

Definition rules_flow : list (@Rule Exchange) := [rule_block; rule_late; rule_post].

Definition request_for (p : string) : Exchange :=
  {| x_path := p; x_status := 0; x_headers := [] |}.

Definition ex_serve d nd (x : Exchange) : @Exec Exchange :=
  serve id id ex_HasStatus (ex_write 500) ex_AppendError ex_up d nd x.

(** The post-only rule still runs after the pre phase has terminated:
    status 403, [X-Late] and [X-Post] set, the upstream not called. *)
Example flow_trace :
  trace (ex_serve (Some rule_fallback) rules_flow (request_for "/"))
  = [EvPre (NonDefault 0); EvPost (NonDefault 1);
     EvPostMatcherPre 2; EvPostMatcherPost 2]
  /\ rm (ex_serve (Some rule_fallback) rules_flow (request_for "/"))
     = {| x_path := "/"; x_status := 403; x_headers := ["X-Late"; "X-Post"] |}.
Proof. vm_compute. split; reflexivity. Qed.

(** No rule matches: the default rule runs. *)
Example fallback_trace :
  trace (ex_serve (Some rule_fallback) rules_flow (request_for "/other"))
  = [EvPre Default; EvUpstream; EvPost Default]
  /\ rm (ex_serve (Some rule_fallback) rules_flow (request_for "/other"))
     = {| x_path := "/other"; x_status := 200; x_headers := ["X-Default"] |}.
Proof. vm_compute. split; reflexivity. Qed.

Lemma default_rule_is_fallback_witness :
  (~ In (EvPre Default) (trace (ex_serve (Some rule_fallback) rules_flow (request_for "/")))
   /\ ~ In (EvPost Default) (trace (ex_serve (Some rule_fallback) rules_flow (request_for "/"))))
  /\ ex_serve (Some rule_fallback) rules_flow (request_for "/")
     = ex_serve None rules_flow (request_for "/").
Proof.
  pose proof (default_rule_is_fallback id id ex_HasStatus (ex_write 500)
                ex_AppendError ex_up (Some rule_fallback) rules_flow (request_for "/"))
    as (_ & Hmatched & _ & Hnone & _).
  assert (Hex : exists j, matched_in_pre id ex_AppendError ex_up rules_flow
                            (request_for "/") j).
  { exists 0%nat, rule_block. repeat split; reflexivity. }
  destruct (Hmatched Hex) as [Hpre Hpost].
  split; [split; assumption | exact (Hnone Hpre)].
Defined.

(** The default rule as a fallback with a pre command of its own: the
    pre phase ends with the response its command has left. *)
Definition cmd_set_header (h : string) : @CommandHandler Exchange :=
  CmdHandler {| fn := fun _ x => (ex_header h x, None);
                h_phase := PhasePre; terminate := false |}.

Definition rule_fallback_pre : @Rule Exchange :=
  {| Name := "default";
     On := {| raw := "default"; checker := Some (fun _ => true);
              phase := PhaseNone |};
     Do := {| c_raw := "set header X-Default true";
              pre := [cmd_set_header "X-Default"]; post := [] |} |}.

Example fallback_pre_runs :
  rm (pre_phase id ex_AppendError ex_up (Some rule_fallback_pre) rules_flow
        (request_for "/other"))
  = {| x_path := "/other"; x_status := 0; x_headers := ["X-Default"] |}
  /\ rm (pre_phase id ex_AppendError ex_up (Some rule_fallback_pre) rules_flow
           (request_for "/"))
     = {| x_path := "/"; x_status := 403; x_headers := [] |}.
Proof. vm_compute. split; reflexivity. Qed.

Lemma pre_termination_keeps_post_only_witness :
  (((forall j, (0 < j)%nat ->
       ~ In (EvPre (NonDefault j))
            (trace (ex_serve (Some rule_fallback) rules_flow (request_for "/"))))
    /\ ~ In (EvPre Default)
            (trace (ex_serve (Some rule_fallback) rules_flow (request_for "/"))))
   /\ (forall j, (0 < j)%nat ->
         rm (before id ex_AppendError ex_up rules_flow (request_for "/") j)
         = ex_write 403 (request_for "/"))
   /\ rm (pre_phase id ex_AppendError ex_up (Some rule_fallback) rules_flow
            (request_for "/"))
      = ex_write 403 (request_for "/"))
  /\ exists earlier later,
       trace (ex_serve (Some rule_fallback) rules_flow (request_for "/"))
       = trace (upstream_call ex_HasStatus (ex_write 500) ex_up
                  (pre_phase id ex_AppendError ex_up (Some rule_fallback)
                     rules_flow (request_for "/")))
         ++ earlier ++ EvPost (NonDefault 1) :: later
       /\ rm (ex_serve (Some rule_fallback) rules_flow (request_for "/"))
          = replay (ex_write 500) ex_AppendError ex_up (Some rule_fallback)
              rules_flow later
              (ex_header "X-Late"
                 (replay (ex_write 500) ex_AppendError ex_up (Some rule_fallback)
                    rules_flow earlier
                    (rm (upstream_call ex_HasStatus (ex_write 500) ex_up
                           (pre_phase id ex_AppendError ex_up (Some rule_fallback)
                              rules_flow (request_for "/")))))).
Proof.
  pose proof (pre_termination_keeps_post_only id id ex_HasStatus (ex_write 500)
                ex_AppendError ex_up (Some rule_fallback) rules_flow (request_for "/"))
    as (Hterm & Hpost & _).
  split.
  - apply (Hterm 0%nat rule_block); [reflexivity | | reflexivity].
    vm_compute. now left.
  - apply (Hpost 1%nat rule_late); [reflexivity | | reflexivity].
    exists rule_late. repeat split; reflexivity.
Defined.

(** A rule whose [On] is a response condition is matched after the
    upstream call, in the last loop, and that loop serves its pre
    commands whatever the pre phase did: [path / { error 403 blocked }]
    terminates the pre phase, and [status 4xx { set header X-Seen true }]
    still has its pre command run. *)
Definition rule_on_response : @Rule Exchange :=
  {| Name := "rule[1]"; On := on_status_4xx;
     Do := {| c_raw := "set header X-Seen true";
              pre := [cmd_set_header "X-Seen"]; post := [] |} |}.

Definition rules_response : list (@Rule Exchange) := [rule_block; rule_on_response].

Lemma pre_termination_response_rule :
  let x := request_for "/" in
  let st := upstream_call ex_HasStatus (ex_write 500) ex_up
              (pre_phase id ex_AppendError ex_up None rules_response x) in
  snd (Commands_ServeHTTP (pre (Do rule_block)) ex_up
         (rm (before id ex_AppendError ex_up rules_response x 0)))
  = Some errTerminateRule
  /\ In (EvPre (NonDefault 0)) (trace (ex_serve None rules_response x))
  /\ Check (On rule_on_response) (rm st) = true
  /\ pre (Do rule_on_response) <> []
  /\ trace (ex_serve None rules_response x)
     = [EvPre (NonDefault 0); EvPostMatcherPre 1; EvPostMatcherPost 1]
  /\ rm (ex_serve None rules_response x)
     = fst (Commands_ServeHTTP (pre (Do rule_on_response)) ex_up (rm st))
  /\ rm (ex_serve None rules_response x) <> rm st
  /\ x_headers (rm (ex_serve None rules_response x)) = ["X-Seen"].
Proof. vm_compute. repeat split; try discriminate. now left. Qed.

(* ===================================================================== *)
(** * Further properties of the parser helpers, validator and executor *)
(* ===================================================================== *)

(** ** [splitAnd] and [forEachAndPart]: segments *)

Lemma countAnd_append (a b : string) :
  countAnd (a +:+ b) = (countAnd a + countAnd b)%nat.
Proof.
  induction a as [|c a IH]; [reflexivity |].
  rewrite append_cons. cbn [countAnd]. rewrite IH. now destruct (andSeps c).
Qed.

Lemma countAnd_drop (n : nat) (s : string) :
  (countAnd (Go.drop_bytes n s) <= countAnd s)%nat.
Proof.
  revert s. induction n as [|n IH]; intros s; [reflexivity |].
  destruct s as [|c s]; [reflexivity |].
  cbn [Go.drop_bytes countAnd]. specialize (IH s). destruct (andSeps c); lia.
Qed.

Lemma countAnd_take (n : nat) (s : string) :
  (countAnd (Go.take_bytes n s) <= countAnd s)%nat.
Proof.
  revert s. induction n as [|n IH]; intros s; [cbn; lia |].
  destruct s as [|c s]; [reflexivity |].
  cbn [Go.take_bytes countAnd]. specialize (IH s). destruct (andSeps c); lia.
Qed.

Lemma countAnd_trim_beg (s : string) : (countAnd (trim_beg s) <= countAnd s)%nat.
Proof.
  induction s as [|c s IH]; [reflexivity |].
  cbn [trim_beg]. destruct (Go.asciiSpace c); [| reflexivity].
  cbn [countAnd]. destruct (andSeps c); lia.
Qed.

Lemma countAnd_trim_end_all (s : string) :
  (countAnd (trim_end_all s) <= countAnd s)%nat.
Proof.
  induction s as [|c s IH]; [reflexivity |].
  cbn [trim_end_all countAnd].
  destruct (trim_end_all s) eqn:Ht.
  - destruct (Go.asciiSpace c); cbn [countAnd]; destruct (andSeps c); lia.
  - cbn [countAnd] in *. destruct (andSeps c); lia.
Qed.

Lemma countAnd_inner_trim (s : string) :
  (countAnd (inner_trim s) <= countAnd s)%nat.
Proof.
  unfold inner_trim. rewrite trim_end_trim_beg.
  etransitivity; [apply countAnd_trim_end_all | apply countAnd_trim_beg].
Qed.

Lemma countAnd_TrimLeftFunc (f : Go.rune -> bool) (s : string) :
  (countAnd (Go.TrimLeftFunc f s) <= countAnd s)%nat.
Proof.
  unfold Go.TrimLeftFunc. destruct (Go.indexNot f (Go.range_string s)).
  - apply countAnd_drop.
  - cbn. lia.
Qed.

Lemma countAnd_trimRight_loop (f : Go.rune -> bool) (n : nat) (s : string) :
  (countAnd (Go.trimRight_loop f n s) <= countAnd s)%nat.
Proof.
  revert s. induction n as [|n IH]; intros s; [reflexivity |].
  cbn [Go.trimRight_loop]. destruct s as [|c s]; [reflexivity |].
  destruct (Go.DecodeLastRuneInString (String c s)) as [r size].
  destruct (f r); [| reflexivity].
  etransitivity; [apply IH | apply countAnd_take].
Qed.

Lemma countAnd_TrimSpace (s : string) :
  (countAnd (Go.TrimSpace s) <= countAnd s)%nat.
Proof.
  unfold Go.TrimSpace, Go.TrimRightFunc.
  etransitivity; [apply countAnd_trimRight_loop | apply countAnd_TrimLeftFunc].
Qed.

(** The segments of [cut] hold no separator, and there is one per
    separator. *)
Lemma cut_segments (s cur : string) :
  countAnd cur = O ->
  Forall (fun seg => countAnd seg = O) (fst (cut s cur))
  /\ countAnd (snd (cut s cur)) = O
  /\ length (fst (cut s cur)) = countAnd s.
Proof.
  revert cur. induction s as [|c s IH]; intros cur Hcur.
  - cbn [cut fst snd countAnd length]. split; [constructor | now split].
  - cbn [cut countAnd]. destruct (andSeps c) eqn:Hc.
    + destruct (IH EmptyString eq_refl) as (H1 & H2 & H3).
      destruct (cut s EmptyString) as [l r]. cbn [fst snd length] in *.
      split; [now constructor |]. split; [exact H2 | now rewrite H3].
    + apply IH. rewrite countAnd_append. cbn [countAnd]. rewrite Hc. lia.
Qed.

Lemma keep_spec (l : list string) (P : string -> Prop) :
  Forall P l -> Forall (fun seg => seg <> EmptyString /\ P seg) (keep l).
Proof.
  induction 1 as [|s l Hs Hl IH]; [constructor |].
  cbn [keep]. destruct s as [|c s]; cbn [is_empty]; [exact IH |].
  constructor; [| exact IH]. split; [discriminate | exact Hs].
Qed.

Lemma keep_length (l : list string) : (length (keep l) <= length l)%nat.
Proof.
  induction l as [|s l IH]; [reflexivity |].
  cbn [keep]. destruct (is_empty s); cbn [length]; lia.
Qed.

(** X1.  [splitAnd] returns at most [countAnd(s) + 1] segments, the length
    of the slice it allocates; no segment is empty and none contains a
    separator (["&"] or a newline). *)
Theorem splitAnd_segments (s : string) :
  (length (splitAnd s) <= countAnd s + 1)%nat
  /\ Forall (fun seg => seg <> EmptyString /\ countAnd seg = O) (splitAnd s).
Proof.
  rewrite splitAnd_cut.
  destruct (cut_segments s EmptyString eq_refl) as (Hseg & Hrest & Hlen).
  split.
  - rewrite length_app.
    pose proof (keep_length (map inner_trim (fst (cut s EmptyString)))) as H1.
    pose proof (keep_length [Go.TrimSpace (snd (cut s EmptyString))]) as H2.
    rewrite length_map, Hlen in H1. cbn [length] in H2. lia.
  - apply Forall_app. split.
    + apply keep_spec. apply Forall_map.
      eapply Forall_impl; [exact Hseg |]. cbn beta. intros seg H.
      pose proof (countAnd_inner_trim seg). lia.
    + apply keep_spec. constructor; [| constructor].
      pose proof (countAnd_TrimSpace (snd (cut s EmptyString))). lia.
Qed.

(** [forEachAndPart] in closed form. *)
Lemma forEachAndPart_loop_cut (s cur : string) :
  forEachAndPart_loop s cur
  = keep (map Go.TrimSpace (fst (cut s cur) ++ [snd (cut s cur)])).
Proof.
  revert cur. induction s as [|c s IH]; intros cur.
  - reflexivity.
  - cbn [forEachAndPart_loop cut]. destruct (andSeps c).
    + rewrite IH. destruct (cut s EmptyString) as [l r]. reflexivity.
    + apply IH.
Qed.

Lemma cut_ascii (s cur : string) :
  is_ascii s = true -> is_ascii cur = true ->
  Forall (fun seg => is_ascii seg = true) (fst (cut s cur)).
Proof.
  revert cur. induction s as [|c s IH]; intros cur Hs Hcur; [constructor |].
  cbn [is_ascii] in Hs. apply andb_true_iff in Hs as [Hc Hs].
  cbn [cut]. destruct (andSeps c).
  - specialize (IH EmptyString Hs eq_refl).
    destruct (cut s EmptyString). cbn [fst] in *. now constructor.
  - apply IH; [exact Hs |]. rewrite is_ascii_snoc. now rewrite Hcur, Hc.
Qed.

(** X2.  On ASCII text [forEachAndPart] hands out the segments [splitAnd]
    returns. *)
Theorem forEachAndPart_splitAnd (s : string) :
  is_ascii s = true -> forEachAndPart s = splitAnd s.
Proof.
  intros Hs. unfold forEachAndPart.
  rewrite forEachAndPart_loop_cut, splitAnd_cut, map_app, keep_app.
  f_equal. f_equal.
  pose proof (cut_ascii s EmptyString Hs eq_refl) as Hseg.
  induction Hseg as [|seg l Hseg Hl IH]; [reflexivity |].
  cbn [map]. now rewrite IH, (TrimSpace_ascii seg Hseg).
Qed.

Lemma forEachAndPart_splitAnd_witness :
  forEachAndPart "method GET & path /a" = splitAnd "method GET & path /a"
  /\ splitAnd "method GET & path /a" = ["method GET"; "path /a"].
Proof.
  split; [apply forEachAndPart_splitAnd; reflexivity | reflexivity].
Defined.

(** ** Command handlers *)

Section CommandFacts.

Context {World : Type}.
Implicit Types (cmd : @CommandHandler World) (c : list (@CommandHandler World)).
Implicit Types (ifs : list (@RuleOn World * list (@CommandHandler World))).
Implicit Types (up : World -> World) (w : World).

(** X3.  [Commands.ServeHTTP] runs the commands in order and stops at the
    first error: a list [c1 ++ c2] runs [c2] only if [c1] returned no
    error, on the state [c1] left. *)
Theorem Commands_ServeHTTP_app c1 c2 up w :
  Commands_ServeHTTP (c1 ++ c2) up w
  = match Commands_ServeHTTP c1 up w with
    | (w', Some err) => (w', Some err)
    | (w', None) => Commands_ServeHTTP c2 up w'
    end.
Proof.
  revert w. induction c1 as [|cmd c1 IH]; intros w; [reflexivity |].
  cbn [app Commands_ServeHTTP].
  destruct (ServeHTTP cmd up w) as [w' [err|]]; [reflexivity | apply IH].
Qed.

(** The list runner inside [ServeHTTP] is [Commands.ServeHTTP]. *)
Lemma serve_list_Commands c up w :
  (fix serve_list (l : list CommandHandler) (w : World) : World * option error :=
     match l with
     | [] => (w, None)
     | cmd :: l' =>
       match ServeHTTP cmd up w with
       | (w', Some err) => (w', Some err)
       | (w', None) => serve_list l' w'
       end
     end) c w
  = Commands_ServeHTTP c up w.
Proof.
  revert w. induction c as [|cmd c IH]; intros w; [reflexivity |].
  cbn [Commands_ServeHTTP]. destruct (ServeHTTP cmd up w) as [w' [err|]];
    [reflexivity | apply IH].
Qed.

(** X4.  An if-else chain runs the commands of the first branch whose
    condition holds on the incoming state and nothing else; the [else]
    commands run only when no condition holds. *)
Theorem IfElseBlockCommand_first_match ifs (els : list (@CommandHandler World)) up w :
  ServeHTTP (IfElseBlockCommand ifs els) up w
  = match find (fun br => Check (fst br) w) ifs with
    | Some br => Commands_ServeHTTP (snd br) up w
    | None => Commands_ServeHTTP els up w
    end.
Proof.
  cbn [ServeHTTP].
  induction ifs as [|[on do] ifs IH].
  - cbn [find]. apply serve_list_Commands.
  - cbn [find fst snd]. unfold Check at 1.
    destruct (checker on) as [chk|].
    + destruct (chk w); [apply serve_list_Commands | exact IH].
    + apply serve_list_Commands.
Qed.

(** *** Phases *)

Lemma IsPostRule_lor (a b : PhaseFlag) :
  IsPostRule (Z.lor a b) = IsPostRule a || IsPostRule b.
Proof.
  unfold IsPostRule. rewrite Z.land_lor_distr_l.
  destruct (Z.eqb_spec (Z.land a PhasePost) 0) as [Ha|Ha];
    destruct (Z.eqb_spec (Z.land b PhasePost) 0) as [Hb|Hb]; cbn [negb orb];
    destruct (Z.eqb_spec (Z.lor (Z.land a PhasePost) (Z.land b PhasePost)) 0)
      as [H|H]; try reflexivity; exfalso.
  - apply H. now rewrite Ha, Hb.
  - apply Z.lor_eq_0_iff in H. tauto.
  - apply Z.lor_eq_0_iff in H. tauto.
  - apply Z.lor_eq_0_iff in H. tauto.
Qed.

Lemma IsPostRule_fold {A} (f : A -> PhaseFlag) (l : list A) (ph : PhaseFlag) :
  IsPostRule (fold_left (fun ph x => Z.lor ph (f x)) l ph)
  = IsPostRule ph || existsb (fun x => IsPostRule (f x)) l.
Proof.
  revert ph. induction l as [|x l IH]; intros ph.
  - cbn. now rewrite orb_false_r.
  - cbn [fold_left existsb]. rewrite IH, IsPostRule_lor. now rewrite orb_assoc.
Qed.

(** [Commands.Phase] asks for the post phase exactly when one of the
    commands does. *)
Theorem Commands_Phase_IsPostRule c :
  IsPostRule (Commands_Phase c) = existsb (fun cmd => IsPostRule (Phase cmd)) c.
Proof. unfold Commands_Phase. now rewrite IsPostRule_fold. Qed.

(** Whether a post (response) requirement occurs anywhere inside a
    command: in a handler, in the condition of a block, or in a nested
    command. *)
Fixpoint post_inside cmd : bool :=
  match cmd with
  | CmdHandler h => IsPostRule (h_phase h)
  | IfBlockCommand on do => IsPostRule (phase on) || existsb post_inside do
  | IfElseBlockCommand ifs els =>
    existsb (fun br => IsPostRule (phase (fst br)) || existsb post_inside (snd br)) ifs
    || existsb post_inside els
  end.

Lemma existsb_ext_in {A} (f g : A -> bool) (l : list A) :
  Forall (fun x => f x = g x) l -> existsb f l = existsb g l.
Proof.
  induction 1 as [|x l Hx Hl IH]; [reflexivity |].
  cbn [existsb]. now rewrite Hx, IH.
Qed.

(** X5.  A block command asks for the post phase exactly when a post
    requirement occurs somewhere inside it, however deeply nested. *)
Theorem Phase_post_inside cmd : IsPostRule (Phase cmd) = post_inside cmd.
Proof.
  induction cmd as [h | on do IHdo | ifs els IHifs IHels]
    using CommandHandler_nested_ind.
  - reflexivity.
  - cbn [Phase post_inside]. rewrite IsPostRule_fold. f_equal.
    now apply existsb_ext_in.
  - cbn [Phase post_inside].
    assert (Hifs :
      IsPostRule
        (fold_left
           (fun ph br =>
              Z.lor ph (fold_left (fun ph cmd => Z.lor ph (Phase cmd))
                                  (snd br) (phase (fst br))))
           ifs PhaseNone)
      = existsb (fun br => IsPostRule (phase (fst br))
                           || existsb post_inside (snd br)) ifs).
    { rewrite (IsPostRule_fold
                 (fun br => fold_left (fun ph cmd => Z.lor ph (Phase cmd))
                                      (snd br) (phase (fst br)))).
      cbn [orb]. change (IsPostRule PhaseNone) with false. cbn [orb].
      apply existsb_ext_in.
      eapply Forall_impl; [exact IHifs |]. cbn beta. intros br Hbr.
      rewrite IsPostRule_fold. f_equal. now apply existsb_ext_in. }
    destruct els as [|e els].
    + rewrite Hifs. cbn [existsb]. now rewrite orb_false_r.
    + rewrite IsPostRule_lor, Hifs. f_equal.
      rewrite IsPostRule_fold. change (IsPostRule PhaseNone) with false.
      cbn [orb]. now apply existsb_ext_in.
Qed.

End CommandFacts.

(** ** [Rules.Validate]: names and default rules *)

Section ValidateMore.

Context {World : Type}.
Variable LookupEnv : string -> option string.
Implicit Types (rules : list (@Rule World)).

(** The name [Validate] leaves rule [i] with. *)
Definition named (i : nat) (r : @Rule World) : Rule :=
  if is_empty (Name r) then set_Name r ("rule[" +:+ Go.itoa i +:+ "]") else r.

Lemma nameRules_lookup (i : nat) rules (k : nat) (r : @Rule World) :
  rules !! k = Some r ->
  fst (nameRules i rules) !! k = Some (named (i + k) r).
Proof.
  revert i k. induction rules as [|r0 rest IH]; intros i k Hk.
  - now rewrite lookup_nil in Hk.
  - cbn [nameRules]. specialize (IH (S i)).
    destruct (nameRules (S i) rest) as [rest' found]. cbn [fst] in *.
    destruct k as [|k].
    + injection Hk as ->. rewrite Nat.add_0_r. reflexivity.
    + change (rest' !! k = Some (named (i + S k) r)).
      change (rest !! k = Some r) in Hk. rewrite (IH k Hk).
      now replace (S i + k)%nat with (i + S k)%nat by lia.
Qed.

Lemma Validate_rules rules (rules' : list (@Rule World)) err :
  Validate LookupEnv rules = Ret (rules', err) -> rules' = fst (nameRules O rules).
Proof.
  unfold Validate. destruct (nameRules O rules) as [named_rules found].
  cbn [fst]. destruct (1 <? length found)%nat.
  - now intros [= <- _].
  - destruct (deadRule LookupEnv O named_rules) as [[[i j]|]|];
      cbn; [now intros [= <- _] | now intros [= <- _] | discriminate].
Qed.

(** X6.  Whatever [Validate] returns, it leaves every rule in place with
    its [On] and [Do], gives the name [rule[i]] to a rule at index [i]
    whose name is empty, and changes no other name. *)
Theorem Validate_names rules (rules' : list (@Rule World)) err :
  Validate LookupEnv rules = Ret (rules', err) ->
  length rules' = length rules
  /\ forall i r, rules !! i = Some r -> rules' !! i = Some (named i r).
Proof.
  intros H. apply Validate_rules in H. subst rules'. split.
  - destruct (nameRules_spec O rules) as [Hsame _].
    symmetry. exact (Forall2_length _ _ _ Hsame).
  - intros i r Hi. exact (nameRules_lookup O rules i r Hi).
Qed.

(** X7.  [Validate] fails with the multiple-default-rules error, reporting
    [n], if and only if the rule set has [n > 1] default rules; the [On]
    expressions are not looked at in that case. *)
Theorem Validate_multiple_defaults rules (n : nat) :
  (exists rules', Validate LookupEnv rules
                  = Ret (rules', Some (ErrMultipleDefaultRules n)))
  <-> n = length (defaults_of rules) /\ (1 < n)%nat.
Proof.
  unfold Validate. destruct (nameRules_spec O rules) as [_ Hlen].
  destruct (nameRules O rules) as [named_rules found]. cbn [snd] in Hlen.
  rewrite <- Hlen.
  destruct (Nat.ltb_spec 1 (length found)) as [Hgt|Hle].
  - split.
    + intros (rules' & [= _ <-]). now split.
    + intros [-> _]. now eexists.
  - split.
    + intros (rules' & H).
      destruct (deadRule LookupEnv O named_rules) as [[[i j]|]|];
        cbn in H; discriminate.
    + intros [-> ?]. lia.
Qed.

End ValidateMore.

Lemma Validate_names_witness :
  length [set_Name (rule_host "error 404 a") "rule[0]";
          set_Name (rule_host "error 403 b") "rule[1]"]
  = length rules_shadowed
  /\ forall i r, rules_shadowed !! i = Some r ->
       [set_Name (rule_host "error 404 a") "rule[0]";
        set_Name (rule_host "error 403 b") "rule[1]"] !! i = Some (named i r).
Proof.
  apply (Validate_names no_env rules_shadowed _ (Some (ErrDeadRule 0 1))).
  vm_compute. reflexivity.
Defined.

(** ** [Rules.BuildHandler]: which rules it uses *)

Section BuildHandlerMore.

Context {World : Type}.
Variable NewResponseModifier FlushRelease : World -> World.
Variable HasStatus : World -> bool.
Variable http_Error500 : World -> World.
Variable AppendError : bool -> string -> error -> World -> World.
Variable up : World -> World.
Implicit Types (rules : list (@Rule World)).

Lemma filters_nil rules :
  defaults_of rules = [] -> non_defaults_of rules = [] -> rules = [].
Proof.
  destruct rules as [|r l]; [reflexivity |].
  unfold defaults_of, non_defaults_of. rewrite !filter_cons.
  destruct (isDefaultRule r).
  - rewrite decide_True by reflexivity. discriminate.
  - rewrite decide_False by congruence. rewrite decide_True by reflexivity.
    discriminate.
Qed.

Lemma last_None {A} (l : list A) : last l = None -> l = [].
Proof.
  destruct l as [|x l]; [reflexivity |].
  rewrite last_cons. now destruct (last l).
Qed.

(** X8.  The handler depends on the rule set only through its last
    default rule and its non-default rules in their order: earlier
    default rules, and the place of the default rule among the others,
    do not matter. *)
Theorem BuildHandler_uses_last_default rules1 rules2 :
  last (defaults_of rules1) = last (defaults_of rules2) ->
  non_defaults_of rules1 = non_defaults_of rules2 ->
  BuildHandler NewResponseModifier FlushRelease HasStatus http_Error500
               AppendError up rules1
  = BuildHandler NewResponseModifier FlushRelease HasStatus http_Error500
                 AppendError up rules2.
Proof.
  intros Hd Hnd.
  assert (Hempty : forall ra rb : list (@Rule World), ra = [] ->
            last (defaults_of ra) = last (defaults_of rb) ->
            non_defaults_of ra = non_defaults_of rb -> rb = []).
  { intros ra rb -> H1 H2. cbn in H1, H2.
    apply filters_nil; [apply last_None; now symmetry | now symmetry]. }
  unfold BuildHandler.
  destruct rules1 as [|r1 l1] eqn:E1.
  - rewrite (Hempty [] rules2 eq_refl Hd Hnd). reflexivity.
  - destruct rules2 as [|r2 l2] eqn:E2.
    + discriminate (Hempty [] (r1 :: l1) eq_refl (eq_sym Hd) (eq_sym Hnd)).
    + rewrite !splitRules_spec, Hd, Hnd. reflexivity.
Qed.

End BuildHandlerMore.

(** Two default rules: only the second is used. *)
Lemma BuildHandler_uses_last_default_witness :
  BuildHandler id id (fun _ => false) id (fun _ _ _ w => w) id
               [rule_default; rule_host "error 404 a"; default_upstream]
  = BuildHandler id id (fun _ => false) id (fun _ _ _ w => w) id
                 [default_upstream; rule_host "error 404 a"].
Proof.
  apply BuildHandler_uses_last_default; reflexivity.
Defined.

(** ** The executor: which post commands run, and errors *)

Section ExecutorMore.

Context {World : Type}.
Variable NewResponseModifier FlushRelease : World -> World.
Variable HasStatus : World -> bool.
Variable http_Error500 : World -> World.
Variable AppendError : bool -> string -> error -> World -> World.
Variable up : World -> World.

Implicit Types (rule : @Rule World) (nd : list (@Rule World)).
Implicit Types (st : @Exec World) (d : option (@Rule World)).

#[local] Abbreviation preIter' := (pre_iter AppendError up).
#[local] Abbreviation preLoop' := (pre_loop AppendError up).
#[local] Abbreviation defaultPre' := (default_pre AppendError up).
#[local] Abbreviation upstreamCall' := (upstream_call HasStatus http_Error500 up).
#[local] Abbreviation postLoop' := (post_loop AppendError up).
#[local] Abbreviation defaultPost' := (default_post AppendError up).
#[local] Abbreviation postMatcherLoop' := (post_matcher_loop AppendError up).
#[local] Abbreviation prePhase' := (pre_phase NewResponseModifier AppendError up).
#[local] Abbreviation serveRules' :=
  (serve NewResponseModifier FlushRelease HasStatus http_Error500 AppendError up).
#[local] Abbreviation before' := (before NewResponseModifier AppendError up).
#[local] Abbreviation loopEnd' := (loop_end NewResponseModifier AppendError up).
#[local] Abbreviation replay' := (replay http_Error500 AppendError up).
#[local] Abbreviation afterCommands' := (after_commands AppendError).

Ltac exec_cases' :=
  repeat match goal with
  | |- context [if ?b then _ else _] => destruct b eqn:?
  | |- context [match ?x with _ => _ end] => destruct x eqn:?
  end.

Ltac exec_simpl' :=
  cbn [rm hasError executedPre terminatedInPre matchedNonDefaultPre
       preTerminated defaultExecutedPre defaultTerminatedInPre trace
       with_rm with_event with_hasError with_matched with_executedPre
       with_terminatedInPre with_defaultExecutedPre
       with_defaultTerminatedInPre] in *.

(** The pre list of the rule returns the termination signal. *)
Definition pre_terminates rule (w : World) : bool :=
  match snd (execPreCommand up (Do rule) w) with
  | Some err => is_errTerminateRule err
  | None => false
  end.

(** The pre list of the rule returns an error other than the
    termination signal. *)
Definition pre_fails rule (w : World) : bool :=
  match snd (execPreCommand up (Do rule) w) with
  | Some err => negb (is_errTerminateRule err)
  | None => false
  end.

(** The flags and the error mark one iteration of the pre loop sets. *)
Lemma pre_iter_flags_here (i : nat) rule st :
  (i < length (executedPre st))%nat ->
  (i < length (terminatedInPre st))%nat ->
  flag (executedPre (preIter' i rule st)) i
  = flag (executedPre st) i
    || matches_pre rule (rm st)
       && (negb (preTerminated st) || is_nil_list (pre (Do rule)))
  /\ flag (terminatedInPre (preIter' i rule st)) i
     = flag (terminatedInPre st) i
       || matches_pre rule (rm st) && negb (preTerminated st)
          && pre_terminates rule (rm st)
  /\ hasError (preIter' i rule st)
     = hasError st
       || matches_pre rule (rm st) && negb (preTerminated st)
          && pre_fails rule (rm st).
Proof.
  intros He Ht.
  destruct (matches_pre rule (rm st)) eqn:Hm.
  - unfold matches_pre in Hm. apply andb_true_iff in Hm as [H1 H2].
    apply negb_true_iff in H1. unfold pre_iter, pre_terminates, pre_fails.
    rewrite H1, H2. cbn [negb orb andb]. exec_simpl'.
    destruct (preTerminated st) eqn:Hp; cbn [negb orb andb].
    + destruct (pre (Do rule)) eqn:Hpre; cbn [is_nil_list]; exec_simpl'.
      * rewrite flag_insert_eq by exact He.
        now rewrite !orb_true_r, !orb_false_r.
      * now rewrite !orb_false_r.
    + destruct (execPreCommand up (Do rule) (rm st)) as [w' [err|]];
        cbn [snd]; exec_simpl'.
      * destruct (is_errTerminateRule err); exec_simpl'.
        -- rewrite !flag_insert_eq by assumption.
           now rewrite !orb_true_r, !orb_false_r.
        -- destruct (isUnexpectedError err); exec_simpl';
             rewrite flag_insert_eq by assumption;
             now rewrite !orb_true_r, !orb_false_r.
      * rewrite flag_insert_eq by assumption.
        now rewrite !orb_true_r, !orb_false_r.
  - rewrite pre_iter_skip by exact Hm. cbn [andb]. now rewrite !orb_false_r.
Qed.

Lemma pre_iter_hasError (i : nat) rule st :
  hasError st = true -> hasError (preIter' i rule st) = true.
Proof.
  intros H. unfold pre_iter. exec_cases'; exec_simpl'; congruence.
Qed.

Lemma pre_loop_hasError (i : nat) nd st :
  hasError st = true -> hasError (preLoop' i nd st) = true.
Proof.
  revert i st. induction nd as [|rule nd IH]; intros i st H; [exact H |].
  cbn [pre_loop]. apply IH. now apply pre_iter_hasError.
Qed.

Lemma default_pre_hasError d st :
  hasError st = true -> hasError (defaultPre' d st) = true.
Proof.
  intros H. unfold default_pre. exec_cases'; exec_simpl'; congruence.
Qed.

(** The flags of rule [i + k] when the loop from [i] on has ended. *)
Lemma pre_loop_flags_at (i k : nat) rule nd st :
  nd !! k = Some rule ->
  (i + k < length (executedPre st))%nat ->
  (i + k < length (terminatedInPre st))%nat ->
  flag (executedPre st) (i + k) = false ->
  flag (terminatedInPre st) (i + k) = false ->
  let st' := at_rule AppendError up i nd st k in
  flag (executedPre (preLoop' i nd st)) (i + k)
  = matches_pre rule (rm st')
    && (negb (preTerminated st') || is_nil_list (pre (Do rule)))
  /\ flag (terminatedInPre (preLoop' i nd st)) (i + k)
     = matches_pre rule (rm st') && negb (preTerminated st')
       && pre_terminates rule (rm st')
  /\ (matches_pre rule (rm st') && negb (preTerminated st')
      && pre_fails rule (rm st') = true ->
      hasError (preLoop' i nd st) = true).
Proof.
  revert i k st. induction nd as [|r nd IH]; intros i k st Hk He Ht Fe Ft.
  - now rewrite lookup_nil in Hk.
  - cbn zeta. cbn [pre_loop]. destruct k as [|k].
    + injection Hk as ->. rewrite at_rule_0. rewrite Nat.add_0_r in *.
      destruct (pre_loop_flags_below AppendError up (S i) i nd (preIter' i rule st))
        as [H1 H2]; [lia |].
      destruct (pre_iter_flags_here i rule st He Ht) as (K1 & K2 & K3).
      rewrite H1, H2, K1, K2, Fe, Ft. cbn [orb].
      split; [reflexivity |]. split; [reflexivity |].
      intros Hf. apply pre_loop_hasError. rewrite K3, Hf. apply orb_true_r.
    + rewrite at_rule_S.
      replace (i + S k)%nat with (S i + k)%nat in * by lia.
      destruct (pre_iter_lengths AppendError up i r st) as [L1 L2].
      destruct (pre_iter_flags_other AppendError up i (S i + k) r st) as [K1 K2];
        [lia |].
      apply (IH (S i) k (preIter' i r st) Hk); congruence.
Qed.

(** Events of a kind other than that of [e] do not hold [e]. *)
Lemma In_app_kind (e : Event) (k : EventKind) (l evs : list Event) :
  all_of_kind k evs -> kind e <> k -> In e (l ++ evs) <-> In e l.
Proof.
  intros Hall Hk. rewrite in_app_iff.
  pose proof (not_in_kind k evs e Hall Hk). tauto.
Qed.

(** The post loop serves the post commands of exactly the rules flagged
    as executed and not as terminated. *)
Lemma post_loop_In (i j : nat) nd st :
  In (EvPost (NonDefault j)) (trace (postLoop' i nd st))
  <-> In (EvPost (NonDefault j)) (trace st)
      \/ (i <= j < i + length nd)%nat
         /\ flag (executedPre st) j = true
         /\ flag (terminatedInPre st) j = false.
Proof.
  revert i st. induction nd as [|rule nd IH]; intros i st.
  - cbn [post_loop length]. split; [now left | intros [H | [? _]]; [exact H | lia]].
  - cbn [post_loop length].
    destruct (negb (flag (executedPre st) i) || flag (terminatedInPre st) i)
      eqn:Hskip.
    + rewrite IH. apply or_iff_compat_l. split.
      * intros (Hr & He & Ht). repeat split; [lia | lia | exact He | exact Ht].
      * intros (Hr & He & Ht). repeat split; try assumption; try lia.
        destruct (Nat.eq_dec i j) as [<-|]; [| lia].
        rewrite He, Ht in Hskip. discriminate.
    + apply orb_false_iff in Hskip as [He0 Ht0]. apply negb_false_iff in He0.
      set (st1 := with_event st (EvPost (NonDefault i))).
      destruct (report_post_spec AppendError true rule st1
                  (execPostCommand up (Do rule) (rm st1)))
        as (R1 & _ & _ & R4 & R5).
      rewrite IH, R1, R4, R5. subst st1. cbn [trace with_event executedPre terminatedInPre].
      rewrite in_app_iff. cbn [In]. split.
      * intros [[H | [[= <-] | []]] | (Hr & He & Ht)].
        -- now left.
        -- right. repeat split; [lia | lia | exact He0 | exact Ht0].
        -- right. repeat split; [lia | lia | exact He | exact Ht].
      * intros [H | (Hr & He & Ht)]; [now left; left |].
        destruct (Nat.eq_dec i j) as [<-|].
        -- left. right. now left.
        -- right. repeat split; try assumption; lia.
Qed.

(** The post commands of rule [j] are in the trace exactly when the rule
    matched before the upstream call and either its pre commands ran
    without returning the termination signal, or an earlier rule had
    terminated and the rule has no pre commands. *)
Lemma post_in_trace_iff d nd (w : World) (j : nat) :
  In (EvPost (NonDefault j)) (trace (serveRules' d nd w))
  <-> exists rule,
        nd !! j = Some rule
        /\ IsPostRule (phase (On rule)) = false
        /\ Check (On rule) (rm (before' nd w j)) = true
        /\ (preTerminated (before' nd w j) = false
            /\ snd (execPreCommand up (Do rule) (rm (before' nd w j)))
               <> Some errTerminateRule
            \/ preTerminated (before' nd w j) = true /\ pre (Do rule) = []).
Proof.
  unfold serve, pre_phase, post_phase. cbn zeta. cbn [trace with_rm].
  fold (start NewResponseModifier w nd). fold (loopEnd' nd w).
  destruct (default_pre_spec AppendError up d (loopEnd' nd w)) as (T2 & _ & X2 & Y2).
  set (s2 := defaultPre' d (loopEnd' nd w)) in *.
  destruct (upstream_call_spec HasStatus http_Error500 up s2)
    as ((e_up & T3 & K3) & _ & _ & X3 & Y3).
  set (s3 := upstreamCall' s2) in *.
  set (s4 := postLoop' 0 nd s3) in *.
  destruct (default_post_spec AppendError up d s4) as (e_dpost & T5 & K5 & _).
  set (s5 := defaultPost' d s4) in *.
  destruct (post_matcher_loop_spec AppendError up 0 nd s5) as (e_pm & T6 & K6).
  destruct (pre_loop_trace AppendError up 0 nd (start NewResponseModifier w nd))
    as (e_pre & T1 & K1 & _).
  fold (loopEnd' nd w) in T1. cbn [start exec_init trace app] in T1.
  rewrite T6, (In_app_kind _ _ _ _ K6) by discriminate.
  rewrite T5, (In_app_kind _ _ _ _ K5) by discriminate.
  subst s4. rewrite post_loop_In.
  assert (Hnot : ~ In (EvPost (NonDefault j)) (trace s3)).
  { rewrite T3, (In_app_kind _ _ _ _ K3) by discriminate.
    rewrite T2, T1. rewrite in_app_iff.
    pose proof (not_in_kind _ _ (EvPost (NonDefault j)) K1).
    destruct (default_runs d (loopEnd' nd w)); cbn [In];
      intros [? | ?]; intuition discriminate. }
  rewrite X3, X2, Y3, Y2. cbn [Nat.add].
  split.
  - intros [H | (Hr & He & Ht)]; [contradiction |].
    destruct (lookup_lt_is_Some_2 nd j) as [rule Hj]; [lia |].
    exists rule. split; [exact Hj |].
    destruct (pre_loop_flags_at 0 j rule nd (start NewResponseModifier w nd) Hj)
      as (F1 & F2 & _).
    { cbn [start exec_init executedPre]. rewrite length_replicate. lia. }
    { cbn [start exec_init terminatedInPre]. rewrite length_replicate. lia. }
    { cbn [start exec_init executedPre]. unfold flag.
      rewrite lookup_replicate_2; [reflexivity | lia]. }
    { cbn [start exec_init terminatedInPre]. unfold flag.
      rewrite lookup_replicate_2; [reflexivity | lia]. }
    cbn [Nat.add] in F1, F2. fold (loopEnd' nd w) in F1, F2.
    fold (before' nd w j) in F1, F2.
    rewrite F1 in He. rewrite F2 in Ht.
    apply andb_true_iff in He as [Hm He].
    apply matches_pre_spec in Hm as Hm'. destruct Hm' as [Hp Hc].
    split; [exact Hp |]. split; [exact Hc |].
    rewrite Hm in Ht. cbn [andb] in Ht.
    destruct (preTerminated (before' nd w j)) eqn:Hpt; cbn [negb orb andb] in *.
    + right. split; [reflexivity |]. now destruct (pre (Do rule)).
    + left. split; [reflexivity |]. unfold pre_terminates in Ht.
      intros Heq. rewrite Heq in Ht. discriminate.
  - intros (rule & Hj & Hp & Hc & Hcase). right.
    pose proof (lookup_lt_Some _ _ _ Hj) as Hlt.
    split; [lia |].
    destruct (pre_loop_flags_at 0 j rule nd (start NewResponseModifier w nd) Hj)
      as (F1 & F2 & _).
    { cbn [start exec_init executedPre]. rewrite length_replicate. lia. }
    { cbn [start exec_init terminatedInPre]. rewrite length_replicate. lia. }
    { cbn [start exec_init executedPre]. unfold flag.
      rewrite lookup_replicate_2; [reflexivity | lia]. }
    { cbn [start exec_init terminatedInPre]. unfold flag.
      rewrite lookup_replicate_2; [reflexivity | lia]. }
    cbn [Nat.add] in F1, F2. fold (loopEnd' nd w) in F1, F2.
    fold (before' nd w j) in F1, F2.
    rewrite F1, F2.
    assert (Hm : matches_pre rule (rm (before' nd w j)) = true)
      by now apply matches_pre_spec.
    rewrite Hm. cbn [andb].
    destruct Hcase as [[Hpt Hne] | [Hpt Hnil]]; rewrite Hpt; cbn [negb orb andb].
    + split; [reflexivity |]. unfold pre_terminates.
      destruct (snd (execPreCommand up (Do rule) (rm (before' nd w j))))
        as [[]|]; try reflexivity. now contradiction Hne.
    + rewrite Hnil. split; reflexivity.
Qed.

(** X9.  The post commands of a non-default rule are served if and only
    if the rule matched before the upstream call and either its pre
    commands ran without returning the termination signal, or an earlier
    rule had terminated and the rule has no pre commands.  In particular
    a rule that terminated in the pre phase never runs its post
    commands, and a rule whose pre commands failed still does.  Served
    is meant as done: where they stand in the trace, the post commands
    are served on the response that the operations traced before have
    produced, and the handler ends with what the operations traced after
    make of the result; the response of the handler is that of the
    traced operations and of nothing else. *)
Theorem post_commands_served_iff d nd (w : World) (j : nat) :
  (In (EvPost (NonDefault j)) (trace (serveRules' d nd w))
   <-> exists rule,
         nd !! j = Some rule
         /\ IsPostRule (phase (On rule)) = false
         /\ Check (On rule) (rm (before' nd w j)) = true
         /\ (preTerminated (before' nd w j) = false
             /\ snd (Commands_ServeHTTP (pre (Do rule)) up (rm (before' nd w j)))
                <> Some errTerminateRule
             \/ preTerminated (before' nd w j) = true /\ pre (Do rule) = []))
  /\ (forall rule (earlier later : list Event),
        nd !! j = Some rule ->
        trace (serveRules' d nd w) = earlier ++ EvPost (NonDefault j) :: later ->
        rm (serveRules' d nd w)
        = FlushRelease
            (replay' d nd later
               (afterCommands' true (c_raw (Do rule))
                  (Commands_ServeHTTP (post (Do rule)) up
                     (replay' d nd earlier (NewResponseModifier w))))))
  /\ rm (serveRules' d nd w)
     = FlushRelease
         (replay' d nd (trace (serveRules' d nd w)) (NewResponseModifier w)).
Proof.
  split; [exact (post_in_trace_iff d nd w j) | split].
  - intros rule earlier later Hj Htr.
    rewrite (serve_replay_all NewResponseModifier FlushRelease HasStatus
               http_Error500 AppendError up d nd w).
    rewrite Htr, replay_app. cbn [replay fold_left effect]. rewrite Hj.
    reflexivity.
  - apply serve_replay_all.
Qed.


(** An error of a rule's pre commands that is not the termination
    signal marks the request as failed. *)
Lemma pre_error_trace d nd (w : World) (i : nat) rule (err : error) :
  nd !! i = Some rule ->
  In (EvPre (NonDefault i)) (trace (serveRules' d nd w)) ->
  snd (execPreCommand up (Do rule) (rm (before' nd w i))) = Some err ->
  err <> errTerminateRule ->
  (~ In EvUpstream (trace (serveRules' d nd w))
   /\ (HasStatus (rm (prePhase' d nd w)) = false ->
       In EvInternalServerError (trace (serveRules' d nd w))))
  /\ hasError (prePhase' d nd w) = true.
Proof.
  intros Hi Hin Hex Hne.
  unfold serve, pre_phase, post_phase in *. cbn zeta in *.
  cbn [trace with_rm] in *.
  fold (start NewResponseModifier w nd) in *. fold (loopEnd' nd w) in *.
  destruct (pre_loop_trace AppendError up 0 nd (start NewResponseModifier w nd))
    as (e_pre & T1 & K1 & M1).
  fold (loopEnd' nd w) in T1. cbn [start exec_init trace app] in T1.
  destruct (default_pre_spec AppendError up d (loopEnd' nd w)) as (T2 & _).
  set (s2 := defaultPre' d (loopEnd' nd w)) in *.
  destruct (upstream_call_spec HasStatus http_Error500 up s2)
    as ((e_up & T3 & K3) & _).
  set (s3 := upstreamCall' s2) in *.
  destruct (post_loop_spec AppendError up 0 nd s3) as ((e_post & T4 & K4 & _) & _).
  set (s4 := postLoop' 0 nd s3) in *.
  destruct (default_post_spec AppendError up d s4) as (e_dpost & T5 & K5 & _).
  set (s5 := defaultPost' d s4) in *.
  destruct (post_matcher_loop_spec AppendError up 0 nd s5) as (e_pm & T6 & K6).
  assert (Hlater : forall e, kind e = KPre \/ kind e = KUpstream ->
            In e (trace (postMatcherLoop' 0 nd s5)) <-> In e (trace s3)).
  { intros e He.
    rewrite T6, (In_app_kind e _ _ _ K6) by (destruct He; congruence).
    rewrite T5, (In_app_kind e _ _ _ K5) by (destruct He; congruence).
    rewrite T4, (In_app_kind e _ _ _ K4) by (destruct He; congruence).
    reflexivity. }
  assert (Hpre : In (EvPre (NonDefault i)) e_pre).
  { apply (Hlater (EvPre (NonDefault i))) in Hin; [| now left].
    rewrite T3, (In_app_kind _ _ _ _ K3) in Hin by discriminate.
    rewrite T2, T1, in_app_iff in Hin. destruct Hin as [H | H]; [exact H |].
    destruct (default_runs d (loopEnd' nd w)); cbn [In] in H;
      intuition discriminate. }
  apply M1 in Hpre. destruct Hpre as (k & r & Hk & Hik & Hm & Ht).
  cbn [Nat.add] in Hik. subst k.
  assert (r = rule) by congruence. subst r.
  fold (before' nd w i) in Hm, Ht.
  assert (Herr : hasError s2 = true).
  { subst s2. apply default_pre_hasError.
    pose proof (lookup_lt_Some _ _ _ Hi) as Hlt.
    destruct (pre_loop_flags_at 0 i rule nd (start NewResponseModifier w nd) Hi)
      as (_ & _ & F3).
    { cbn [start exec_init executedPre]. rewrite length_replicate. lia. }
    { cbn [start exec_init terminatedInPre]. rewrite length_replicate. lia. }
    { cbn [start exec_init executedPre]. unfold flag.
      rewrite lookup_replicate_2; [reflexivity | lia]. }
    { cbn [start exec_init terminatedInPre]. unfold flag.
      rewrite lookup_replicate_2; [reflexivity | lia]. }
    apply F3. fold (before' nd w i). rewrite Hm, Ht. cbn [negb andb].
    unfold pre_fails. rewrite Hex. now destruct err. }
  assert (Hup : trace s3
                = trace s2 ++ (if HasStatus (rm s2) then []
                               else [EvInternalServerError])).
  { subst s3. unfold upstream_call. rewrite Herr.
    destruct (HasStatus (rm s2)); cbn [negb]; exec_simpl';
      [now rewrite app_nil_r | reflexivity]. }
  assert (Hs2 : forall e, kind e = KUpstream -> ~ In e (trace s2)).
  { intros e He. rewrite T2, T1, in_app_iff.
    pose proof (not_in_kind _ _ e K1) as Hk1.
    assert (kind e <> KPre) as Hne' by congruence.
    destruct (default_runs d (loopEnd' nd w)); cbn [In];
      intros [? | ?]; try tauto.
    destruct H as [<- | []]. discriminate. }
  split; [split | exact Herr].
  - rewrite (Hlater EvUpstream) by now right.
    rewrite Hup, in_app_iff. intros [H | H].
    + now apply (Hs2 EvUpstream).
    + destruct (HasStatus (rm s2)); cbn [In] in H; intuition discriminate.
  - intros Hst. rewrite (Hlater EvInternalServerError) by now right.
    rewrite Hup, Hst, in_app_iff. right. now left.
Qed.

(** X10.  When the pre commands of a rule return an error other than the
    termination signal, the handler does not call the upstream itself;
    if no status has been written by the end of the pre phase it answers
    500 instead: the response after the upstream-call stage is that of
    [http.Error] on the response of the pre phase, or that response
    itself when a status has been written; and what the handler does
    afterwards, on this response, is neither the upstream call nor the
    500 answer. *)
Theorem pre_error_answers_500 d nd (w : World) (i : nat) rule (err : error) :
  nd !! i = Some rule ->
  In (EvPre (NonDefault i)) (trace (serveRules' d nd w)) ->
  snd (Commands_ServeHTTP (pre (Do rule)) up (rm (before' nd w i))) = Some err ->
  err <> errTerminateRule ->
  (~ In EvUpstream (trace (serveRules' d nd w))
   /\ (HasStatus (rm (prePhase' d nd w)) = false ->
       In EvInternalServerError (trace (serveRules' d nd w))))
  /\ rm (upstreamCall' (prePhase' d nd w))
     = (if HasStatus (rm (prePhase' d nd w)) then rm (prePhase' d nd w)
        else http_Error500 (rm (prePhase' d nd w)))
  /\ exists later,
       trace (serveRules' d nd w)
       = trace (upstreamCall' (prePhase' d nd w)) ++ later
       /\ ~ In EvUpstream later
       /\ ~ In EvInternalServerError later
       /\ rm (serveRules' d nd w)
          = FlushRelease
              (replay' d nd later (rm (upstreamCall' (prePhase' d nd w)))).
Proof.
  intros Hi Hin Hex Hne.
  destruct (pre_error_trace d nd w i rule err Hi Hin Hex Hne) as [Htrace Herr].
  split; [exact Htrace | split].
  - rewrite upstream_call_rm, Herr. reflexivity.
  - destruct (serve_anatomy NewResponseModifier FlushRelease HasStatus
                http_Error500 AppendError up d nd w)
      as (e_pre & e_up & e_post & e_dpost & e_pm & T & Tup
          & _ & _ & K3 & K4 & K5 & _).
    cbn zeta in T, Tup.
    exists (e_post ++ e_dpost ++ e_pm).
    assert (Htr : trace (serveRules' d nd w)
                  = trace (upstreamCall' (prePhase' d nd w))
                    ++ e_post ++ e_dpost ++ e_pm).
    { rewrite Tup. exact T. }
    split; [exact Htr |].
    pose proof (not_in_kind _ _ EvUpstream K3).
    pose proof (not_in_kind _ _ EvUpstream K4).
    pose proof (not_in_kind _ _ EvUpstream K5).
    pose proof (not_in_kind _ _ EvInternalServerError K3).
    pose proof (not_in_kind _ _ EvInternalServerError K4).
    pose proof (not_in_kind _ _ EvInternalServerError K5).
    split; [| split].
    + rewrite !in_app_iff. intros [?|[?|?]]; intuition discriminate.
    + rewrite !in_app_iff. intros [?|[?|?]]; intuition discriminate.
    + now apply serve_replay_later.
Qed.

End ExecutorMore.

(** A rule whose pre command fails: [path / { set header X $bad }]. *)
Definition cmd_failing : @CommandHandler Exchange :=
  CmdHandler {| fn := fun _ x => (x, Some (errOther "unexpected variable"));
                h_phase := PhasePre; terminate := false |}.

Definition rule_failing : @Rule Exchange :=
  {| Name := "rule[0]"; On := on_path "/";
     Do := {| c_raw := "set header X $bad"; pre := [cmd_failing];
              post := [cmd_set_resp_header "X-After"] |} |}.

(** The failing rule: the answer is 500, the upstream is not called, and
    the post commands of the rule still run. *)
Example failing_trace :
  trace (ex_serve None [rule_failing] (request_for "/"))
  = [EvPre (NonDefault 0); EvInternalServerError; EvPost (NonDefault 0)]
  /\ rm (ex_serve None [rule_failing] (request_for "/"))
     = {| x_path := "/"; x_status := 500; x_headers := ["X-After"] |}.
Proof. vm_compute. split; reflexivity. Qed.

Lemma pre_error_answers_500_witness :
  (~ In EvUpstream (trace (ex_serve None [rule_failing] (request_for "/")))
   /\ (ex_HasStatus (rm (pre_phase id ex_AppendError ex_up None [rule_failing]
                           (request_for "/"))) = false ->
       In EvInternalServerError
          (trace (ex_serve None [rule_failing] (request_for "/")))))
  /\ rm (upstream_call ex_HasStatus (ex_write 500) ex_up
           (pre_phase id ex_AppendError ex_up None [rule_failing]
              (request_for "/")))
     = ex_write 500 (request_for "/")
  /\ exists later,
       trace (ex_serve None [rule_failing] (request_for "/"))
       = trace (upstream_call ex_HasStatus (ex_write 500) ex_up
                  (pre_phase id ex_AppendError ex_up None [rule_failing]
                     (request_for "/")))
         ++ later
       /\ ~ In EvUpstream later
       /\ ~ In EvInternalServerError later
       /\ rm (ex_serve None [rule_failing] (request_for "/"))
          = replay (ex_write 500) ex_AppendError ex_up None [rule_failing] later
              (rm (upstream_call ex_HasStatus (ex_write 500) ex_up
                     (pre_phase id ex_AppendError ex_up None [rule_failing]
                        (request_for "/")))).
Proof.
  apply (pre_error_answers_500 id id ex_HasStatus (ex_write 500) ex_AppendError
           ex_up None [rule_failing] (request_for "/") 0%nat rule_failing
           (errOther "unexpected variable")).
  - reflexivity.
  - vm_compute. now left.
  - reflexivity.
  - discriminate.
Defined.

(** ** [parse]: words, quoted arguments, panics *)

(** The bytes of a string as the runes [range] yields on ASCII text. *)
Fixpoint byte_runes (s : string) : list Go.rune :=
  match s with
  | EmptyString => []
  | String c s' => Go.byteZ c :: byte_runes s'
  end.

Lemma runes_ascii_cons (c : ascii) (s : string) :
  Go.byteZ c < 128 -> Go.runes (String c s) = Go.byteZ c :: Go.runes s.
Proof.
  intros Hc. unfold Go.runes, Go.range_string.
  rewrite range_from_ascii by exact Hc. cbn [map snd]. f_equal.
  apply range_from_offset.
Qed.

Lemma runes_ascii_app (a b : string) :
  is_ascii a = true -> Go.runes (a +:+ b) = byte_runes a ++ Go.runes b.
Proof.
  induction a as [|c a IH]; intros Ha; [reflexivity |].
  cbn [is_ascii] in Ha. apply andb_true_iff in Ha as [Hc Ha].
  apply Z.ltb_lt in Hc. rewrite append_cons, runes_ascii_cons by exact Hc.
  cbn [byte_runes app]. now rewrite IH.
Qed.

Lemma runes_ascii (a : string) : is_ascii a = true -> Go.runes a = byte_runes a.
Proof.
  intros Ha. rewrite <- (append_nil_r a) at 1.
  rewrite runes_ascii_app by exact Ha. apply app_nil_r.
Qed.

Lemma EncodeRune_ascii (c : ascii) :
  Go.byteZ c < 128 -> Go.EncodeRune (Go.byteZ c) = String c EmptyString.
Proof.
  intros Hc. pose proof (byteZ_range c). unfold Go.EncodeRune.
  replace (Go.in_range 0 127 (Go.byteZ c)) with true
    by (symmetry; apply in_range_spec; lia).
  unfold Go.str1. now rewrite byte_of_byteZ.
Qed.

Lemma eqb_byteZ (c d : ascii) : Ascii.eqb c d = (Go.byteZ c =? Go.byteZ d).
Proof.
  destruct (Ascii.eqb_spec c d) as [->|Hne].
  - now rewrite Z.eqb_refl.
  - symmetry. apply Z.eqb_neq. intros H. apply Hne.
    rewrite <- (byte_of_byteZ c), <- (byte_of_byteZ d). now rewrite H.
Qed.

(** Bytes of a plain word: ASCII other than white space, quotes,
    backslash, dollar and parentheses. *)
Definition word_byte (c : ascii) : bool :=
  (Go.byteZ c <? 128) && negb (Go.asciiSpace c) && negb (is_quote_byte c)
  && negb (Ascii.eqb c Ch.backslash) && negb (Ascii.eqb c Ch.dollar)
  && negb (Ascii.eqb c Ch.lparen) && negb (Ascii.eqb c Ch.rparen).

Fixpoint all_bytes (p : ascii -> bool) (s : string) : bool :=
  match s with
  | EmptyString => true
  | String c s' => p c && all_bytes p s'
  end.

(** A non-empty word of such bytes. *)
Definition plain_word (s : string) : bool :=
  negb (is_empty s) && all_bytes word_byte s.

(** Bytes [parse] copies inside a pair of quotes [q]: ASCII other than
    the quote itself, backslash, dollar and parentheses. *)
Definition quoted_byte (q c : ascii) : bool :=
  (Go.byteZ c <? 128) && negb (Ascii.eqb c q)
  && negb (Ascii.eqb c Ch.backslash) && negb (Ascii.eqb c Ch.dollar)
  && negb (Ascii.eqb c Ch.lparen) && negb (Ascii.eqb c Ch.rparen).

Lemma all_bytes_impl (p q : ascii -> bool) (s : string) :
  (forall c, p c = true -> q c = true) ->
  all_bytes p s = true -> all_bytes q s = true.
Proof.
  intros Hpq. induction s as [|c s IH]; [reflexivity |].
  cbn [all_bytes]. rewrite !andb_true_iff. intros [Hc Hs].
  split; [now apply Hpq | now apply IH].
Qed.

Lemma all_bytes_ascii (p : ascii -> bool) (s : string) :
  (forall c, p c = true -> Go.byteZ c < 128) ->
  all_bytes p s = true -> is_ascii s = true.
Proof.
  intros Hp. induction s as [|c s IH]; [reflexivity |].
  cbn [all_bytes is_ascii]. rewrite !andb_true_iff. intros [Hc Hs].
  split; [apply Z.ltb_lt; now apply Hp | now apply IH].
Qed.

Ltac byte_facts :=
  repeat match goal with
  | H : _ && _ = true |- _ => apply andb_true_iff in H as [? ?]
  | H : negb _ = true |- _ => apply negb_true_iff in H
  | H : _ || _ = false |- _ => apply orb_false_iff in H as [? ?]
  | H : (_ <? _) = true |- _ => apply Z.ltb_lt in H
  | H : Ascii.eqb _ _ = false |- _ => rewrite eqb_byteZ in H
  end.

Lemma word_byte_ascii (c : ascii) : word_byte c = true -> Go.byteZ c < 128.
Proof. unfold word_byte. intros H. byte_facts. assumption. Qed.

Lemma quoted_byte_ascii (q c : ascii) : quoted_byte q c = true -> Go.byteZ c < 128.
Proof. unfold quoted_byte. intros H. byte_facts. assumption. Qed.

(** *** The simple path: words separated by one space *)

Lemma word_byte_scan (c : ascii) :
  word_byte c = true ->
  is_special_byte c = false /\ Ascii.eqb c Ch.lparen = false
  /\ Ascii.eqb c Ch.rparen = false /\ Ascii.eqb c Ch.space = false.
Proof.
  unfold word_byte, is_special_byte, is_quote_byte, Go.asciiSpace.
  intros H. byte_facts.
  rewrite !eqb_byteZ.
  change (Go.byteZ Ch.backslash) with 92 in *.
  change (Go.byteZ Ch.dollar) with 36 in *.
  change (Go.byteZ Ch.dquote) with 34 in *.
  change (Go.byteZ Ch.squote) with 39 in *.
  change (Go.byteZ Ch.backtick) with 96 in *.
  change (Go.byteZ Ch.lparen) with 40 in *.
  change (Go.byteZ Ch.rparen) with 41 in *.
  change (Go.byteZ Ch.tab) with 9. change (Go.byteZ Ch.cr) with 13.
  change (Go.byteZ Ch.lf) with 10. change (Go.byteZ Ch.space) with 32.
  match goal with H : Go.in_range 9 13 _ = false |- _ =>
    apply in_range_false in H end.
  repeat match goal with
  | H : (_ =? _) = false |- _ => apply Z.eqb_neq in H
  end.
  repeat split;
    repeat (apply orb_false_iff; split); apply Z.eqb_neq; lia.
Qed.

(** Scanning a sequence of words separated by spaces. *)
Lemma parseSimple_scan_words (w rest : string) (n : nat) :
  all_bytes word_byte w = true ->
  parseSimple_scan (w +:+ rest) n = parseSimple_scan rest n.
Proof.
  induction w as [|c w IH]; intros Hw; [reflexivity |].
  cbn [all_bytes] in Hw. apply andb_true_iff in Hw as [Hc Hw].
  destruct (word_byte_scan c Hc) as (H1 & H2 & H3 & _).
  rewrite append_cons. cbn [parseSimple_scan]. rewrite H1, H2, H3.
  now apply IH.
Qed.

Lemma parseSimple_scan_join (ws : list string) :
  Forall (fun w => plain_word w = true) ws ->
  parseSimple_scan (Go.Join ws " ") O = ScanOk.
Proof.
  induction 1 as [|w ws Hw Hws IH]; [reflexivity |].
  unfold plain_word in Hw. apply andb_true_iff in Hw as [_ Hw].
  destruct ws as [|w' ws].
  - cbn [Go.Join]. rewrite <- (append_nil_r w).
    now rewrite parseSimple_scan_words.
  - change (Go.Join (w :: w' :: ws) " ")
      with (w +:+ " " +:+ Go.Join (w' :: ws) " ").
    rewrite parseSimple_scan_words by exact Hw.
    change (" " +:+ Go.Join (w' :: ws) " ")
      with (String " " (Go.Join (w' :: ws) " ")).
    cbn [parseSimple_scan]. exact IH.
Qed.

Lemma fields_loop_word (w rest cur : string) :
  all_bytes word_byte w = true ->
  fields_loop (w +:+ rest) cur = fields_loop rest (cur +:+ w).
Proof.
  revert cur. induction w as [|c w IH]; intros cur Hw.
  - now rewrite append_nil_l, append_nil_r.
  - cbn [all_bytes] in Hw. apply andb_true_iff in Hw as [Hc Hw].
    destruct (word_byte_scan c Hc) as (_ & _ & _ & H4).
    rewrite append_cons. cbn [fields_loop]. rewrite H4.
    rewrite (IH _ Hw), append_assoc. reflexivity.
Qed.

Lemma space_fields_join (ws : list string) :
  Forall (fun w => plain_word w = true) ws ->
  space_fields (Go.Join ws " ") = ws.
Proof.
  unfold space_fields.
  induction 1 as [|w ws Hw Hws IH]; [reflexivity |].
  unfold plain_word in Hw. apply andb_true_iff in Hw as [Hne Hw].
  destruct ws as [|w' ws].
  - cbn [Go.Join]. rewrite <- (append_nil_r w) at 1.
    rewrite fields_loop_word by exact Hw. cbn [fields_loop].
    rewrite append_nil_l. destruct w; [discriminate | reflexivity].
  - change (Go.Join (w :: w' :: ws) " ")
      with (w +:+ " " +:+ Go.Join (w' :: ws) " ").
    rewrite fields_loop_word by exact Hw. rewrite append_nil_l.
    change (" " +:+ Go.Join (w' :: ws) " ")
      with (String " " (Go.Join (w' :: ws) " ")).
    cbn [fields_loop]. change (Ascii.eqb " " Ch.space) with true. cbv iota.
    rewrite IH. destruct w; [discriminate | reflexivity].
Qed.

Section ParseFacts.

Variable LookupEnv : string -> option string.

(** X11.  A subject and arguments that are plain words (ASCII, without
    white space, quotes, backslash, dollar or parentheses), written with
    one space between them, parse back to themselves without error. *)
Theorem parse_plain_words (subject : string) (args : list string) :
  plain_word subject = true ->
  Forall (fun a => plain_word a = true) args ->
  parse LookupEnv (Go.Join (subject :: args) " ")
  = Ret (subject, args, no_error).
Proof.
  intros Hs Ha. unfold parse, parseSimple.
  assert (Hall : Forall (fun w => plain_word w = true) (subject :: args))
    by now constructor.
  rewrite (parseSimple_scan_join _ Hall), (space_fields_join _ Hall).
  reflexivity.
Qed.

(** *** The general path *)

Lemma parse_loop_app (l1 l2 : list Go.rune) (st st' : ParseState) :
  parse_loop LookupEnv l1 st = Ret (Continue st') ->
  parse_loop LookupEnv (l1 ++ l2) st = parse_loop LookupEnv l2 st'.
Proof.
  revert st. induction l1 as [|r l1 IH]; intros st.
  - cbn. now intros [= ->].
  - cbn [app parse_loop].
    destruct (parse_step LookupEnv st r) as [[st1|s a e]|]; cbn.
    + apply IH.
    + discriminate.
    + discriminate.
Qed.

Lemma write_write (st : ParseState) (a b : string) :
  write (write st a) b = write st (a +:+ b).
Proof. unfold write, set_buf. cbn. now rewrite append_assoc. Qed.

Lemma write_nil (st : ParseState) : write st EmptyString = st.
Proof. destruct st. unfold write, set_buf. cbn. now rewrite append_nil_r. Qed.

(** An ASCII rune never makes [quoteChars] panic. *)
Lemma quoteChars_ascii (c : ascii) :
  quoteChars (Go.byteZ c)
  = Ret ((Go.byteZ c =? Rn.dquote) || (Go.byteZ c =? Rn.squote)
         || (Go.byteZ c =? Rn.backtick)).
Proof.
  unfold quoteChars. pose proof (byteZ_range c).
  replace (Go.in_range 0 255 (Go.byteZ c)) with true
    by (symmetry; apply in_range_spec; lia).
  reflexivity.
Qed.

(** Outside quotes, a word byte is copied to the buffer. *)
Lemma parse_step_word (st : ParseState) (c : ascii) :
  word_byte c = true ->
  escaped st = false -> expectingBrace st = false -> inEnvVar st = false ->
  parse_step LookupEnv st (Go.byteZ c)
  = Ret (Continue (write st (String c EmptyString))).
Proof.
  intros Hc He Hx Hi. unfold word_byte, is_quote_byte, Go.asciiSpace in Hc.
  byte_facts.
  change (Go.byteZ Ch.backslash) with 92 in *.
  change (Go.byteZ Ch.dollar) with 36 in *.
  change (Go.byteZ Ch.dquote) with 34 in *.
  change (Go.byteZ Ch.squote) with 39 in *.
  change (Go.byteZ Ch.backtick) with 96 in *.
  change (Go.byteZ Ch.lparen) with 40 in *.
  change (Go.byteZ Ch.rparen) with 41 in *.
  unfold parse_step. rewrite He, Hx. cbn [andb].
  rewrite quoteChars_ascii. unfold mbind, outcome_bind.
  unfold Rn.dquote, Rn.squote, Rn.backtick, Rn.backslash, Rn.dollar,
    Rn.lparen, Rn.rparen, Rn.space, Rn.lbrace, Rn.rbrace.
  repeat match goal with
  | H : (Go.byteZ c =? ?k) = false |- _ => rewrite H; clear H
  end.
  cbn [orb].
  rewrite Hx, Hi, (EncodeRune_ascii c) by assumption.
  destruct (Go.byteZ c =? 123); [reflexivity |].
  destruct (Go.byteZ c =? 125); reflexivity.
Qed.

Lemma state_write_fields (st : ParseState) (t : string) :
  escaped (write st t) = escaped st
  /\ expectingBrace (write st t) = expectingBrace st
  /\ inEnvVar (write st t) = inEnvVar st
  /\ quote (write st t) = quote st
  /\ brackets (write st t) = brackets st.
Proof. repeat split. Qed.

Lemma parse_loop_word (w : string) (st : ParseState) :
  all_bytes word_byte w = true ->
  escaped st = false -> expectingBrace st = false -> inEnvVar st = false ->
  parse_loop LookupEnv (byte_runes w) st = Ret (Continue (write st w)).
Proof.
  revert st. induction w as [|c w IH]; intros st Hw He Hx Hi.
  - cbn. now rewrite write_nil.
  - cbn [all_bytes] in Hw. apply andb_true_iff in Hw as [Hc Hw].
    cbn [byte_runes parse_loop].
    rewrite (parse_step_word st c Hc He Hx Hi). cbn.
    rewrite (IH _ Hw); try assumption. now rewrite write_write.
Qed.

(** Inside quotes [q], a byte other than the quote, backslash, dollar
    and parentheses is copied to the buffer. *)
Lemma parse_step_quoted (st : ParseState) (q c : ascii) :
  is_quote_byte q = true -> quoted_byte q c = true ->
  quote st = Go.byteZ q ->
  escaped st = false -> expectingBrace st = false -> inEnvVar st = false ->
  parse_step LookupEnv st (Go.byteZ c)
  = Ret (Continue (write st (String c EmptyString))).
Proof.
  intros Hq Hc Hqs He Hx Hi. unfold quoted_byte in Hc. byte_facts.
  assert (Hq0 : (Go.byteZ q =? 0) = false).
  { unfold is_quote_byte in Hq. rewrite !eqb_byteZ in Hq.
    apply Z.eqb_neq. intros E. rewrite E in Hq. discriminate. }
  change (Go.byteZ Ch.backslash) with 92 in *.
  change (Go.byteZ Ch.dollar) with 36 in *.
  change (Go.byteZ Ch.lparen) with 40 in *.
  change (Go.byteZ Ch.rparen) with 41 in *.
  unfold parse_step. rewrite He, Hx. cbn [andb].
  rewrite quoteChars_ascii. unfold mbind, outcome_bind.
  rewrite Hqs, Hq0. cbn [andb].
  unfold Rn.backslash, Rn.dollar, Rn.lparen, Rn.rparen, Rn.space, Rn.lbrace,
    Rn.rbrace.
  repeat match goal with
  | H : (Go.byteZ c =? ?k) = false |- _ => rewrite H; clear H
  end.
  rewrite Hx, Hi, (EncodeRune_ascii c) by assumption.
  repeat match goal with
  | |- context [if ?b then _ else _] => destruct b
  end; reflexivity.
Qed.

Lemma parse_loop_quoted (q : ascii) (body : string) (st : ParseState) :
  is_quote_byte q = true -> all_bytes (quoted_byte q) body = true ->
  quote st = Go.byteZ q ->
  escaped st = false -> expectingBrace st = false -> inEnvVar st = false ->
  parse_loop LookupEnv (byte_runes body) st = Ret (Continue (write st body)).
Proof.
  intros Hq. revert st. induction body as [|c body IH]; intros st Hb Hqs He Hx Hi.
  - cbn. now rewrite write_nil.
  - cbn [all_bytes] in Hb. apply andb_true_iff in Hb as [Hc Hb].
    cbn [byte_runes parse_loop].
    rewrite (parse_step_quoted st q c Hq Hc Hqs He Hx Hi). cbn.
    rewrite (IH _ Hb); try assumption. now rewrite write_write.
Qed.

End ParseFacts.

Section ParseFacts2.

Variable LookupEnv : string -> option string.

Lemma parse_step_returns (st : ParseState) (r : Go.rune) :
  0 <= r < 256 -> exists step, parse_step LookupEnv st r = Ret step.
Proof.
  intros Hr. unfold parse_step, quoteChars.
  replace (Go.in_range 0 255 r) with true
    by (symmetry; apply in_range_spec; lia).
  unfold mbind, outcome_bind.
  repeat match goal with
  | |- context [if ?b then _ else _] => destruct b
  | |- context [match ?x with _ => _ end] => destruct x
  end; eauto.
Qed.

Lemma parse_loop_returns (l : list Go.rune) (st : ParseState) :
  Forall (fun r => 0 <= r < 256) l ->
  exists step, parse_loop LookupEnv l st = Ret step.
Proof.
  intros Hl. revert st. induction Hl as [|r l Hr Hl IH]; intros st.
  - cbn. eauto.
  - cbn [parse_loop]. destruct (parse_step_returns st r Hr) as [step ->].
    cbn. destruct step as [st'|s a e]; [apply IH | eauto].
Qed.

Lemma byte_runes_range (s : string) :
  Forall (fun r => 0 <= r < 256) (byte_runes s).
Proof.
  induction s as [|c s IH]; [constructor |].
  cbn [byte_runes]. constructor; [apply byteZ_range | exact IH].
Qed.

(** X12.  On ASCII input [parse] always returns: the index [quoteChars[r]]
    stays inside the array. *)
Theorem parse_ascii_returns (v : string) :
  is_ascii v = true ->
  exists subject args err, parse LookupEnv v = Ret (subject, args, err).
Proof.
  intros Hv. unfold parse.
  destruct (parseSimple v) as [[[s a] e]|]; [now exists s, a, e |].
  rewrite (runes_ascii v Hv).
  destruct (parse_loop_returns (byte_runes v) parse_init (byte_runes_range v))
    as [step ->].
  cbn. destruct step as [st|s a e].
  - destruct (parse_finish st) as [[s a] e]. now exists s, a, e.
  - now exists s, a, e.
Qed.

Lemma flush_beg_word (w : string) :
  plain_word w = true -> flush_beg (Go.range_string w) O = O.
Proof.
  unfold plain_word. destruct w as [|c w]; [discriminate |].
  cbn [is_empty negb andb all_bytes]. intros H.
  apply andb_true_iff in H as [Hc _].
  pose proof (word_byte_ascii c Hc) as Hlt.
  unfold Go.range_string. rewrite range_from_ascii by exact Hlt.
  cbn [flush_beg]. rewrite (IsSpace_ascii c Hlt).
  unfold word_byte in Hc. byte_facts.
  now match goal with H : Go.asciiSpace c = false |- _ => rewrite H end.
Qed.

Lemma parseSimple_quote (w : string) (q : ascii) (rest : string) :
  all_bytes word_byte w = true -> is_quote_byte q = true ->
  parseSimple (w +:+ String " " (String q rest)) = None.
Proof.
  intros Hw Hq. unfold parseSimple.
  rewrite parseSimple_scan_words by exact Hw.
  cbn [parseSimple_scan]. change (is_special_byte " ") with false.
  change (Ascii.eqb " " Ch.lparen) with false.
  change (Ascii.eqb " " Ch.rparen) with false. cbv iota.
  cbn [parseSimple_scan].
  replace (is_special_byte q) with true; [reflexivity |].
  unfold is_quote_byte in Hq. unfold is_special_byte.
  apply orb_true_iff in Hq as [Hq | Hq];
    [apply orb_true_iff in Hq as [Hq | Hq] |]; rewrite Hq;
    now rewrite ?orb_true_r.
Qed.

(** X13.  A word followed by a quoted text is parsed as the subject and
    one argument, the text between the quotes as it is (spaces, braces
    and the other quote characters included), when the text holds
    neither the quote itself nor a backslash, a dollar or a parenthesis. *)
Theorem parse_quoted_argument (subj body : string) (q : ascii) :
  plain_word subj = true ->
  is_quote_byte q = true ->
  all_bytes (quoted_byte q) body = true ->
  parse LookupEnv (subj +:+ " " +:+ String q (body +:+ String q EmptyString))
  = Ret (subj, [body], no_error).
Proof.
  intros Hs Hq Hb.
  pose proof Hs as Hs'. unfold plain_word in Hs'.
  apply andb_true_iff in Hs' as [Hne Hw].
  pose proof (all_bytes_ascii _ _ word_byte_ascii Hw) as Has.
  pose proof (all_bytes_ascii _ _ (quoted_byte_ascii q) Hb) as Hab.
  assert (Hqa : Go.byteZ q < 128).
  { unfold is_quote_byte in Hq. rewrite !eqb_byteZ in Hq.
    apply orb_true_iff in Hq as [Hq | Hq];
      [apply orb_true_iff in Hq as [Hq | Hq] |];
      apply Z.eqb_eq in Hq; rewrite Hq; reflexivity. }
  unfold parse.
  change (" " +:+ String q (body +:+ String q EmptyString))
    with (String " " (String q (body +:+ String q EmptyString))).
  rewrite parseSimple_quote by assumption.
  rewrite runes_ascii_app by exact Has.
  rewrite (runes_ascii_cons " ") by reflexivity.
  rewrite (runes_ascii_cons q) by exact Hqa.
  rewrite runes_ascii_app by exact Hab.
  rewrite (runes_ascii_cons q) by exact Hqa.
  change (Go.runes EmptyString) with (@nil Go.rune).
  (* the subject *)
  set (st1 := {| buf := subj; subject := EmptyString; args := [];
                 escaped := false; quote := 0; brackets := O;
                 envVar := EmptyString; missing := []; inEnvVar := false;
                 expectingBrace := false |}).
  assert (H1 : write parse_init subj = st1) by reflexivity.
  rewrite (parse_loop_app LookupEnv _ _ parse_init st1)
    by (rewrite <- H1; now apply parse_loop_word).
  (* the space: flush the subject *)
  set (st2 := {| buf := EmptyString; subject := subj; args := [];
                 escaped := false; quote := 0; brackets := O;
                 envVar := EmptyString; missing := []; inEnvVar := false;
                 expectingBrace := false |}).
  assert (H2 : parse_step LookupEnv st1 (Go.byteZ " ") = Ret (Continue st2)).
  { unfold st1, st2, parse_step. cbn [escaped expectingBrace andb].
    change (quoteChars (Go.byteZ " ")) with (Ret false).
    unfold mbind, outcome_bind. cbv beta iota.
    change (Go.byteZ " " =? Rn.backslash) with false.
    change (Go.byteZ " " =? Rn.dollar) with false.
    change (Go.byteZ " " =? Rn.lbrace) with false.
    change (Go.byteZ " " =? Rn.rbrace) with false.
    change (Go.byteZ " " =? Rn.lparen) with false.
    change (Go.byteZ " " =? Rn.rparen) with false.
    change (Go.byteZ " " =? Rn.space) with true.
    cbv iota. cbn [quote Z.eqb]. cbv iota.
    unfold flush. cbn [buf subject args escaped quote brackets envVar missing
                       inEnvVar expectingBrace].
    rewrite (flush_beg_word subj Hs).
    destruct subj as [|c s]; [discriminate |].
    cbn [String.length Nat.eqb Go.drop_bytes is_empty]. reflexivity. }
  cbn [app parse_loop]. rewrite H2. unfold mbind, outcome_bind.
  (* the opening quote *)
  set (st3 := {| buf := EmptyString; subject := subj; args := [];
                 escaped := false; quote := Go.byteZ q; brackets := O;
                 envVar := EmptyString; missing := []; inEnvVar := false;
                 expectingBrace := false |}).
  assert (Hisq : (Go.byteZ q =? Rn.dquote) || (Go.byteZ q =? Rn.squote)
                 || (Go.byteZ q =? Rn.backtick) = true).
  { unfold is_quote_byte in Hq. now rewrite !eqb_byteZ in Hq. }
  assert (Hq0 : (Go.byteZ q =? 0) = false).
  { unfold is_quote_byte in Hq. rewrite !eqb_byteZ in Hq.
    apply Z.eqb_neq. intros E. rewrite E in Hq. discriminate. }
  assert (H3 : parse_step LookupEnv st2 (Go.byteZ q) = Ret (Continue st3)).
  { unfold st2, st3, parse_step. cbn [escaped expectingBrace andb].
    rewrite quoteChars_ascii, Hisq. unfold mbind, outcome_bind.
    cbn [quote brackets Z.eqb Nat.eqb andb].
    unfold flush, set_quote.
    cbn [buf subject args escaped quote brackets envVar missing
         inEnvVar expectingBrace]. reflexivity. }
  rewrite H3.
  (* the quoted text *)
  set (st4 := {| buf := body; subject := subj; args := [];
                 escaped := false; quote := Go.byteZ q; brackets := O;
                 envVar := EmptyString; missing := []; inEnvVar := false;
                 expectingBrace := false |}).
  assert (H4 : write st3 body = st4) by reflexivity.
  rewrite (parse_loop_app LookupEnv _ _ st3 st4)
    by (rewrite <- H4; apply (parse_loop_quoted LookupEnv q body st3); trivial).
  (* the closing quote *)
  set (st5 := {| buf := EmptyString; subject := subj; args := [body];
                 escaped := false; quote := 0; brackets := O;
                 envVar := EmptyString; missing := []; inEnvVar := false;
                 expectingBrace := false |}).
  assert (H5 : parse_step LookupEnv st4 (Go.byteZ q) = Ret (Continue st5)).
  { unfold st4, st5, parse_step. cbn [escaped expectingBrace andb].
    rewrite quoteChars_ascii, Hisq. unfold mbind, outcome_bind.
    cbn [quote brackets]. rewrite Hq0. cbn [andb]. rewrite Z.eqb_refl.
    unfold flush, set_quote.
    cbn [buf subject args escaped quote brackets envVar missing
         inEnvVar expectingBrace].
    destruct subj as [|c s]; [discriminate |]. reflexivity. }
  cbn [parse_loop]. unfold mbind, outcome_bind. rewrite H5.
  unfold st5, parse_finish. cbn [expectingBrace quote brackets inEnvVar
                                 Z.eqb Nat.eqb negb].
  unfold flush. cbn [buf]. reflexivity.
Qed.

End ParseFacts2.

Lemma parse_plain_words_witness :
  parse (fun _ => None) "header X-Token abc" = Ret ("header", ["X-Token"; "abc"], no_error).
Proof.
  apply (parse_plain_words (fun _ => None) "header" ["X-Token"; "abc"]).
  - reflexivity.
  - repeat constructor.
Defined.

Lemma parse_ascii_returns_witness :
  exists subject args err,
    parse (fun _ => None) "error 403 'a (b'" = Ret (subject, args, err).
Proof. apply parse_ascii_returns. reflexivity. Defined.

Lemma parse_quoted_argument_witness :
  parse (fun _ => None)
        ("error" +:+ " " +:+ String Ch.dquote ("not {found} 'here'" +:+ String Ch.dquote EmptyString))
  = Ret ("error", ["not {found} 'here'"], no_error).
Proof.
  apply parse_quoted_argument; reflexivity.
Defined.

(** Parentheses are counted inside quotes too: an opening one in a
    quoted text is an error. *)
Example parse_quoted_paren :
  parse (fun _ => None) ("error 403 " +:+ String Ch.dquote ("a ( b" +:+ String Ch.dquote EmptyString))
  = Ret ("error", ["403"; "a ( b"],
         {| syntax := Some ErrUnterminatedBrackets; missingEnvVars := [] |}).
Proof. vm_compute. reflexivity. Qed.

(** ** [expandEnvVarsRaw]: substitution *)

(** ASCII text without a dollar. *)
Definition text_byte (c : ascii) : bool :=
  (Go.byteZ c <? 128) && negb (Ascii.eqb c Ch.dollar).

(** ASCII text without dollar and braces: the name of a variable. *)
Definition name_byte (c : ascii) : bool :=
  (Go.byteZ c <? 128) && negb (Ascii.eqb c Ch.dollar)
  && negb (Ascii.eqb c Ch.lbrace) && negb (Ascii.eqb c Ch.rbrace).

Lemma text_byte_ascii (c : ascii) : text_byte c = true -> Go.byteZ c < 128.
Proof. unfold text_byte. intros H. byte_facts. assumption. Qed.

Lemma name_byte_ascii (c : ascii) : name_byte c = true -> Go.byteZ c < 128.
Proof. unfold name_byte. intros H. byte_facts. assumption. Qed.

Section ExpandSubstitution.

Variable LookupEnv : string -> option string.

Definition x_state (b e : string) (m : list string) (inEnv expecting : bool)
  : ExpandState :=
  {| x_buf := b; x_envVar := e; x_missing := m; x_inEnvVar := inEnv;
     x_expectingBrace := expecting |}.

(** Outside a variable, text is copied to the buffer. *)
Lemma expand_fold_text (t : string) (b e : string) (m : list string) :
  all_bytes text_byte t = true ->
  fold_left (expand_step LookupEnv) (byte_runes t) (x_state b e m false false)
  = x_state (b +:+ t) e m false false.
Proof.
  revert b. induction t as [|c t IH]; intros b Ht.
  - cbn. now rewrite append_nil_r.
  - cbn [all_bytes] in Ht. apply andb_true_iff in Ht as [Hc Ht].
    cbn [byte_runes fold_left].
    assert (Hstep : expand_step LookupEnv (x_state b e m false false) (Go.byteZ c)
                    = x_state (b +:+ String c EmptyString) e m false false).
    { unfold text_byte in Hc. byte_facts.
      unfold expand_step, x_state, x_write, x_setExpecting.
      cbn [x_expectingBrace x_inEnvVar x_buf x_envVar x_missing andb].
      change (Go.byteZ Ch.dollar) with Rn.dollar in *.
      match goal with H : (_ =? Rn.dollar) = false |- _ => rewrite H end.
      rewrite (EncodeRune_ascii c) by assumption.
      destruct (Go.byteZ c =? Rn.lbrace); [reflexivity |].
      destruct (Go.byteZ c =? Rn.rbrace); reflexivity. }
    rewrite Hstep, (IH _ Ht), append_assoc. reflexivity.
Qed.

(** Inside a variable, text is added to the name. *)
Lemma expand_fold_name (n : string) (b e : string) (m : list string) :
  all_bytes name_byte n = true ->
  fold_left (expand_step LookupEnv) (byte_runes n) (x_state b e m true false)
  = x_state b (e +:+ n) m true false.
Proof.
  revert e. induction n as [|c n IH]; intros e Hn.
  - cbn. now rewrite append_nil_r.
  - cbn [all_bytes] in Hn. apply andb_true_iff in Hn as [Hc Hn].
    cbn [byte_runes fold_left].
    assert (Hstep : expand_step LookupEnv (x_state b e m true false) (Go.byteZ c)
                    = x_state b (e +:+ String c EmptyString) m true false).
    { unfold name_byte in Hc. byte_facts.
      unfold expand_step, x_state, x_write, x_setExpecting.
      cbn [x_expectingBrace x_inEnvVar x_buf x_envVar x_missing andb].
      change (Go.byteZ Ch.dollar) with Rn.dollar in *.
      change (Go.byteZ Ch.lbrace) with Rn.lbrace in *.
      change (Go.byteZ Ch.rbrace) with Rn.rbrace in *.
      repeat match goal with H : (_ =? _) = false |- _ => rewrite H; clear H end.
      now rewrite (EncodeRune_ascii c) by assumption. }
    rewrite Hstep, (IH _ Hn), append_assoc. reflexivity.
Qed.

Lemma fold_left_app_state (l1 l2 : list Go.rune) (st : ExpandState) :
  fold_left (expand_step LookupEnv) (l1 ++ l2) st
  = fold_left (expand_step LookupEnv) l2 (fold_left (expand_step LookupEnv) l1 st).
Proof. apply fold_left_app. Qed.

(** The state after [prefix "${" name]. *)
Lemma expand_open (p n : string) :
  all_bytes text_byte p = true -> all_bytes name_byte n = true ->
  fold_left (expand_step LookupEnv) (Go.runes (p +:+ "${" +:+ n)) expand_init
  = x_state p n [] true false.
Proof.
  intros Hp Hn.
  pose proof (all_bytes_ascii _ _ text_byte_ascii Hp) as Hap.
  pose proof (all_bytes_ascii _ _ name_byte_ascii Hn) as Han.
  change ("${" +:+ n) with (String "$" (String "{" n)).
  rewrite runes_ascii_app by exact Hap.
  rewrite (runes_ascii_cons "$"), (runes_ascii_cons "{") by reflexivity.
  rewrite (runes_ascii n Han).
  rewrite fold_left_app_state.
  change expand_init with (x_state EmptyString EmptyString [] false false).
  rewrite (expand_fold_text p _ _ _ Hp), append_nil_l.
  cbn [fold_left].
  change (expand_step LookupEnv (x_state p EmptyString [] false false) (Go.byteZ "$"))
    with (x_state p EmptyString [] false true).
  change (expand_step LookupEnv (x_state p EmptyString [] false true) (Go.byteZ "{"))
    with (x_state p EmptyString [] true false).
  rewrite (expand_fold_name n _ _ _ Hn), append_nil_l. reflexivity.
Qed.

(** X14.  In text without other dollars, [${NAME}] is replaced by the
    value of the variable; when the variable is not set it is removed and
    its name reported as missing. *)
Theorem expandEnvVarsRaw_substitutes (p n q : string) :
  all_bytes text_byte p = true ->
  all_bytes name_byte n = true ->
  all_bytes text_byte q = true ->
  expandEnvVarsRaw LookupEnv (p +:+ "${" +:+ n +:+ "}" +:+ q)
  = match LookupEnv n with
    | Some value => (p +:+ value +:+ q, no_error)
    | None => (p +:+ q, {| syntax := None; missingEnvVars := [n] |})
    end.
Proof.
  intros Hp Hn Hq.
  pose proof (all_bytes_ascii _ _ text_byte_ascii Hp) as Hap.
  pose proof (all_bytes_ascii _ _ name_byte_ascii Hn) as Han.
  pose proof (all_bytes_ascii _ _ text_byte_ascii Hq) as Haq.
  unfold expandEnvVarsRaw.
  assert (Hsplit : p +:+ "${" +:+ n +:+ "}" +:+ q
                   = (p +:+ "${" +:+ n) +:+ String "}" q).
  { rewrite !append_assoc. reflexivity. }
  rewrite Hsplit.
  assert (Hascii : is_ascii (p +:+ "${" +:+ n) = true).
  { clear - Hap Han. induction p as [|c p IH].
    - exact Han.
    - rewrite append_cons. cbn [is_ascii] in *.
      apply andb_true_iff in Hap as [Hc Hap]. rewrite Hc. now apply IH. }
  rewrite runes_ascii_app by exact Hascii.
  rewrite <- (runes_ascii _ Hascii).
  rewrite fold_left_app_state, (expand_open p n Hp Hn).
  rewrite (runes_ascii_cons "}") by reflexivity. rewrite (runes_ascii q Haq).
  cbn [fold_left].
  assert (Hclose : expand_step LookupEnv (x_state p n [] true false) (Go.byteZ "}")
                   = match LookupEnv n with
                     | Some value => x_state (p +:+ value) n [] false false
                     | None => x_state p n [n] false false
                     end).
  { unfold expand_step, x_state.
    cbn [x_expectingBrace x_inEnvVar x_buf x_envVar x_missing andb].
    change (Go.byteZ "}" =? Rn.dollar) with false.
    change (Go.byteZ "}" =? Rn.lbrace) with false.
    change (Go.byteZ "}" =? Rn.rbrace) with true. cbv iota.
    destruct (LookupEnv n); reflexivity. }
  rewrite Hclose. destruct (LookupEnv n) as [value|].
  - rewrite (expand_fold_text q _ _ _ Hq). unfold expand_finish, x_state.
    cbn [x_expectingBrace x_inEnvVar x_buf x_missing]. now rewrite append_assoc.
  - rewrite (expand_fold_text q _ _ _ Hq). reflexivity.
Qed.

(** X15.  An unterminated [${NAME] is written back as it was read, with the
    unterminated-variable error. *)
Theorem expandEnvVarsRaw_unterminated (p n : string) :
  all_bytes text_byte p = true ->
  all_bytes name_byte n = true ->
  expandEnvVarsRaw LookupEnv (p +:+ "${" +:+ n)
  = (p +:+ "${" +:+ n,
     {| syntax := Some ErrUnterminatedEnvVar; missingEnvVars := [] |}).
Proof.
  intros Hp Hn. unfold expandEnvVarsRaw.
  rewrite (expand_open p n Hp Hn). reflexivity.
Qed.

End ExpandSubstitution.

(** An environment with one variable. *)
Definition env_host : string -> option string :=
  fun name => if String.eqb name "HOST" then Some "10.0.0.2:8080" else None.

Lemma expandEnvVarsRaw_substitutes_witness :
  expandEnvVarsRaw env_host "proxy http://${HOST}/api"
  = ("proxy http://10.0.0.2:8080/api", no_error).
Proof.
  exact (expandEnvVarsRaw_substitutes env_host "proxy http://" "HOST" "/api"
           eq_refl eq_refl eq_refl).
Defined.

Lemma expandEnvVarsRaw_unterminated_witness :
  expandEnvVarsRaw env_host "proxy http://${HOST"
  = ("proxy http://${HOST",
     {| syntax := Some ErrUnterminatedEnvVar; missingEnvVars := [] |}).
Proof.
  exact (expandEnvVarsRaw_unterminated env_host "proxy http://" "HOST"
           eq_refl eq_refl).
Defined.

(** ** The scanners of the block syntax *)

(** *** Positions and rests *)

Lemma drop_bytes_nil (n : nat) : Go.drop_bytes n EmptyString = EmptyString.
Proof. now destruct n. Qed.

Lemma drop_drop (a b : nat) (s : string) :
  Go.drop_bytes a (Go.drop_bytes b s) = Go.drop_bytes (a + b) s.
Proof.
  revert s. induction b as [|b IH]; intros s.
  - now rewrite Nat.add_0_r.
  - destruct s as [|c s].
    + now rewrite !drop_bytes_nil.
    + cbn [Go.drop_bytes]. rewrite IH.
      now replace (a + S b)%nat with (S (a + b)) by lia.
Qed.

(** The rest [src[pos:]] starts with the byte [src[pos]]. *)
Lemma drop_get (src : string) (pos : nat) (c : ascii) (rest' : string) :
  Go.drop_bytes pos src = String c rest' ->
  String.get pos src = Some c
  /\ Go.drop_bytes (S pos) src = rest'
  /\ (pos < String.length src)%nat.
Proof.
  revert src. induction pos as [|pos IH]; intros src H.
  - cbn in H. subst src. cbn. repeat split. lia.
  - destruct src as [|d src]; [discriminate |].
    cbn [Go.drop_bytes] in H. destruct (IH src H) as (H1 & H2 & H3).
    cbn [String.get Go.drop_bytes String.length]. repeat split; trivial. lia.
Qed.

Lemma drop_all (src : string) (pos : nat) :
  Go.drop_bytes pos src = EmptyString -> (String.length src <= pos)%nat.
Proof.
  revert src. induction pos as [|pos IH]; intros src H.
  - cbn in H. subst src. reflexivity.
  - destruct src as [|d src]; [cbn; lia |].
    cbn [Go.drop_bytes] in H. apply IH in H. cbn [String.length]. lia.
Qed.

Lemma get_none (src : string) (i : nat) :
  (String.length src <= i)%nat -> String.get i src = None.
Proof.
  revert i. induction src as [|c src IH]; intros i H; [now destruct i |].
  destruct i as [|i]; [cbn in H; lia |].
  cbn [String.get]. apply IH. cbn in H. lia.
Qed.

(** *** [skipSameLineSpace] *)

Definition sameLineSpace (c : ascii) : bool :=
  Ascii.eqb c Ch.space || Ascii.eqb c Ch.tab || Ascii.eqb c Ch.cr.

Lemma skipSameLineSpace_loop_spec (src : string) (rest : string) (pos : nat) :
  rest = Go.drop_bytes pos src ->
  let p := skipSameLineSpace_loop rest pos in
  (pos <= p)%nat
  /\ (p <= Nat.max pos (String.length src))%nat
  /\ (forall i, (pos <= i < p)%nat ->
        exists c, String.get i src = Some c /\ sameLineSpace c = true)
  /\ (forall c, String.get p src = Some c -> sameLineSpace c = false).
Proof.
  revert pos. induction rest as [|c rest' IH]; intros pos Hrest; cbn zeta.
  - cbn [skipSameLineSpace_loop]. symmetry in Hrest. apply drop_all in Hrest.
    split; [lia |]. split; [lia |]. split; [intros i Hi; lia |].
    intros c Hc. rewrite get_none in Hc by exact Hrest. discriminate.
  - symmetry in Hrest. destruct (drop_get _ _ _ _ Hrest) as (Hget & Hnext & Hlt).
    cbn [skipSameLineSpace_loop].
    assert (Hstop : sameLineSpace c = false ->
              (pos <= pos)%nat
              /\ (pos <= Nat.max pos (String.length src))%nat
              /\ (forall i, (pos <= i < pos)%nat ->
                    exists c, String.get i src = Some c /\ sameLineSpace c = true)
              /\ (forall c, String.get pos src = Some c -> sameLineSpace c = false)).
    { intros Hc. split; [lia |]. split; [lia |]. split; [intros i Hi; lia |].
      intros c' Hc'. congruence. }
    assert (Hgo : sameLineSpace c = true ->
              let p := skipSameLineSpace_loop rest' (S pos) in
              (pos <= p)%nat
              /\ (p <= Nat.max pos (String.length src))%nat
              /\ (forall i, (pos <= i < p)%nat ->
                    exists c, String.get i src = Some c /\ sameLineSpace c = true)
              /\ (forall c, String.get p src = Some c -> sameLineSpace c = false)).
    { intros Hc. cbn zeta.
      destruct (IH (S pos) (eq_sym Hnext)) as (H1 & H2 & H3 & H4).
      split; [lia |]. split; [lia |]. split; [| exact H4].
      intros i Hi. destruct (Nat.eq_dec i pos) as [-> | Hne].
      - now exists c.
      - apply H3. lia. }
    unfold sameLineSpace in Hstop, Hgo.
    destruct (Ascii.eqb_spec c Ch.lf) as [-> | Hlf]; [now apply Hstop |].
    destruct (Ascii.eqb c Ch.cr) eqn:Hcr.
    { apply Hgo. now rewrite orb_true_r. }
    destruct (Ascii.eqb c Ch.space || Ascii.eqb c Ch.tab) eqn:Hsp.
    { apply Hgo. reflexivity. }
    apply Hstop. reflexivity.
Qed.

(** X16.  [skipSameLineSpace] returns the first position at or after
    [pos] whose byte is not a space, tab or carriage return, and never
    moves past the end of the text or over a newline. *)
Theorem skipSameLineSpace_spec (src : string) (pos : nat) :
  let p := skipSameLineSpace src pos in
  (pos <= p)%nat
  /\ (p <= Nat.max pos (String.length src))%nat
  /\ (forall i, (pos <= i < p)%nat ->
        exists c, String.get i src = Some c /\ sameLineSpace c = true)
  /\ (forall c, String.get p src = Some c -> sameLineSpace c = false).
Proof. apply skipSameLineSpace_loop_spec. reflexivity. Qed.

(** *** [scanToBrace] *)

Lemma scanToBrace_loop_spec (src : string) (rest : string) (pos : nat)
    (quote : option ascii) (p : nat) :
  rest = Go.drop_bytes pos src ->
  scanToBrace_loop rest pos quote = inr p ->
  (pos <= p < String.length src)%nat /\ String.get p src = Some Ch.lbrace.
Proof.
  revert pos quote. induction rest as [|c rest' IH]; intros pos quote Hrest.
  - discriminate.
  - symmetry in Hrest. destruct (drop_get _ _ _ _ Hrest) as (Hget & Hnext & Hlt).
    assert (Hgo : forall q, scanToBrace_loop rest' (S pos) q = inr p ->
              (pos <= p < String.length src)%nat
              /\ String.get p src = Some Ch.lbrace).
    { intros q Hq. destruct (IH (S pos) q (eq_sym Hnext) Hq) as [H1 H2].
      split; [lia | exact H2]. }
    cbn [scanToBrace_loop]. destruct quote as [q|]; [apply Hgo |].
    destruct (is_quote_byte c); [apply Hgo |].
    destruct (Ascii.eqb_spec c Ch.lbrace) as [-> | Hl].
    + intros [= <-]. split; [lia | exact Hget].
    + destruct (Ascii.eqb c Ch.rbrace); [discriminate | apply Hgo].
Qed.

(** X17.  When [scanToBrace] succeeds, the position it returns lies at or
    after [pos], inside the text, and holds an opening brace. *)
Theorem scanToBrace_spec (src : string) (pos p : nat) :
  scanToBrace src pos = inr p ->
  (pos <= p < String.length src)%nat /\ String.get p src = Some Ch.lbrace.
Proof. apply scanToBrace_loop_spec. reflexivity. Qed.

(** *** [findMatchingBrace] *)

Lemma skip_env_spec (src : string) (rest : string) (pos d : nat)
    (q : option ascii) :
  rest = Go.drop_bytes pos src ->
  fst (skip_env rest pos d q) = Go.drop_bytes (snd (skip_env rest pos d q)) src
  /\ (pos <= snd (skip_env rest pos d q))%nat
  /\ (String.length (fst (skip_env rest pos d q)) <= String.length rest)%nat.
Proof.
  revert pos d q. induction rest as [|c rest' IH]; intros pos d q Hrest.
  - cbn. repeat split; trivial.
  - symmetry in Hrest. destruct (drop_get _ _ _ _ Hrest) as (_ & Hnext & _).
    assert (Hgo : forall d' q',
              fst (skip_env rest' (S pos) d' q')
              = Go.drop_bytes (snd (skip_env rest' (S pos) d' q')) src
              /\ (pos <= snd (skip_env rest' (S pos) d' q'))%nat
              /\ (String.length (fst (skip_env rest' (S pos) d' q'))
                  <= String.length (String c rest'))%nat).
    { intros d' q'. destruct (IH (S pos) d' q' (eq_sym Hnext)) as (H1 & H2 & H3).
      cbn [String.length]. repeat split; [exact H1 | lia | lia]. }
    cbn [skip_env]. destruct q as [q|]; [apply Hgo |].
    destruct (is_quote_byte c); [apply Hgo |].
    destruct (Ascii.eqb c Ch.lbrace); [apply Hgo |].
    destruct (Ascii.eqb c Ch.rbrace); [| apply Hgo].
    destruct (d =? 1)%nat; [| apply Hgo].
    cbn [fst snd String.length]. repeat split; [now symmetry | lia | lia].
Qed.

(** The rest [skip_env] leaves does not depend on the position. *)
Lemma skip_env_rest (s : string) (d : nat) (q : option ascii) (a b : nat) :
  fst (skip_env s a d q) = fst (skip_env s b d q).
Proof.
  revert d q a b. induction s as [|c s IHs]; intros d q a b; [reflexivity |].
  cbn [skip_env].
  repeat match goal with
  | |- context [match ?x with _ => _ end] => destruct x
  | |- context [if ?x then _ else _] => destruct x
  end; try apply IHs; reflexivity.
Qed.

Lemma next_is_Some (rest' : string) (n : ascii) :
  next_is rest' n = true -> exists r, rest' = String n r.
Proof.
  destruct rest' as [|c r]; [discriminate |]. cbn.
  destruct (Ascii.eqb_spec c n) as [-> |]; [eauto | discriminate].
Qed.

Lemma findMatchingBrace_loop_spec (src : string) (fuel : nat) (rest : string)
    (pos : nat) (st : BraceScan) (p : nat) :
  rest = Go.drop_bytes pos src ->
  findMatchingBrace_loop fuel rest pos st = Some p ->
  (pos <= p < String.length src)%nat /\ String.get p src = Some Ch.rbrace.
Proof.
  revert rest pos st. induction fuel as [|fuel IH]; intros rest pos st Hrest;
    [discriminate |].
  cbn [findMatchingBrace_loop]. destruct rest as [|c rest']; [discriminate |].
  symmetry in Hrest. destruct (drop_get _ _ _ _ Hrest) as (Hget & Hnext & Hlt).
  assert (Hone : forall st', findMatchingBrace_loop fuel rest' (S pos) st' = Some p ->
             (pos <= p < String.length src)%nat
             /\ String.get p src = Some Ch.rbrace).
  { intros st' H. destruct (IH rest' (S pos) st' (eq_sym Hnext) H) as [H1 H2].
    split; [lia | exact H2]. }
  assert (Htwo : forall st',
             findMatchingBrace_loop fuel (Go.drop_bytes 1 rest') (S (S pos)) st'
             = Some p ->
             (pos <= p < String.length src)%nat
             /\ String.get p src = Some Ch.rbrace).
  { intros st' H.
    destruct (IH (Go.drop_bytes 1 rest') (S (S pos)) st') as [H1 H2]; trivial.
    - rewrite <- Hnext, drop_drop. reflexivity.
    - split; [lia | exact H2]. }
  destruct (bs_inLine st); [apply Hone |].
  destruct (bs_inBlock st).
  { destruct (Ascii.eqb c Ck.star && next_is rest' Ch.slash);
      [apply Htwo | apply Hone]. }
  destruct (bs_quote st) as [q|]; [apply Hone |].
  destruct (is_quote_byte c); [apply Hone |].
  destruct (Ascii.eqb c Ck.hash && _); [apply Hone |].
  destruct (Ascii.eqb c Ch.slash && _ && next_is rest' Ch.slash); [apply Htwo |].
  destruct (Ascii.eqb c Ch.slash && _ && next_is rest' Ck.star); [apply Htwo |].
  destruct (Ascii.eqb c Ch.dollar && next_is rest' Ch.lbrace).
  { destruct (skip_env_spec src (Go.drop_bytes 1 rest') (S (S pos)) 1 None)
      as (H1 & H2 & _).
    { rewrite <- Hnext, drop_drop. reflexivity. }
    destruct (skip_env (Go.drop_bytes 1 rest') (S (S pos)) 1 None) as [r p'].
    cbn [fst snd] in *. intros H.
    destruct (IH r p' st H1 H) as [K1 K2]. split; [lia | exact K2]. }
  destruct (Ascii.eqb c Ch.lbrace); [apply Hone |].
  destruct (Ascii.eqb_spec c Ch.rbrace) as [-> | Hr]; [| apply Hone].
  destruct (bs_braceDepth st =? 1)%nat; [| apply Hone].
  intros [= <-]. split; [lia | exact Hget].
Qed.

(** X18.  When [findMatchingBrace] succeeds, the position it returns lies
    at or after [startPos], inside the text, and holds a closing brace:
    the body [src[startPos:end]] is a valid slice. *)
Theorem findMatchingBrace_spec (src : string) (startPos p : nat) :
  findMatchingBrace src startPos = inr p ->
  (startPos <= p < String.length src)%nat
  /\ String.get p src = Some Ch.rbrace.
Proof.
  unfold findMatchingBrace.
  destruct (findMatchingBrace_loop _ _ _ _) as [p'|] eqn:H; [| discriminate].
  intros [= <-]. now apply (findMatchingBrace_loop_spec src _ _ _ _ _ eq_refl H).
Qed.

(** The fuel of [findMatchingBrace] is never used up: more fuel gives
    the same result. *)
Lemma findMatchingBrace_loop_fuel (f1 f2 : nat) (rest : string) (pos : nat)
    (st : BraceScan) :
  (String.length rest < f1)%nat -> (String.length rest < f2)%nat ->
  findMatchingBrace_loop f1 rest pos st = findMatchingBrace_loop f2 rest pos st.
Proof.
  revert f2 rest pos st. induction f1 as [|f1 IH]; intros f2 rest pos st H1 H2;
    [lia |].
  destruct f2 as [|f2]; [lia |].
  cbn [findMatchingBrace_loop]. destruct rest as [|c rest']; [reflexivity |].
  cbn [String.length] in H1, H2.
  assert (Hone : forall st', findMatchingBrace_loop f1 rest' (S pos) st'
                             = findMatchingBrace_loop f2 rest' (S pos) st')
    by (intros st'; apply IH; lia).
  assert (Hlen : (String.length (Go.drop_bytes 1 rest') <= String.length rest')%nat)
    by (rewrite drop_bytes_length; lia).
  assert (Htwo : forall st',
             findMatchingBrace_loop f1 (Go.drop_bytes 1 rest') (S (S pos)) st'
             = findMatchingBrace_loop f2 (Go.drop_bytes 1 rest') (S (S pos)) st')
    by (intros st'; apply IH; lia).
  destruct (bs_inLine st); [apply Hone |].
  destruct (bs_inBlock st).
  { destruct (Ascii.eqb c Ck.star && next_is rest' Ch.slash);
      [apply Htwo | apply Hone]. }
  destruct (bs_quote st) as [q|]; [apply Hone |].
  destruct (is_quote_byte c); [apply Hone |].
  destruct (Ascii.eqb c Ck.hash && _); [apply Hone |].
  destruct (Ascii.eqb c Ch.slash && _ && next_is rest' Ch.slash); [apply Htwo |].
  destruct (Ascii.eqb c Ch.slash && _ && next_is rest' Ck.star); [apply Htwo |].
  destruct (Ascii.eqb c Ch.dollar && next_is rest' Ch.lbrace).
  { pose proof (skip_env_spec (Go.drop_bytes 1 rest') (Go.drop_bytes 1 rest') 0 1 None
                  eq_refl) as (_ & _ & H3).
    rewrite (skip_env_rest _ 1 None 0%nat (S (S pos))) in H3.
    destruct (skip_env (Go.drop_bytes 1 rest') (S (S pos)) 1 None) as [r p'].
    cbn [fst] in H3. apply IH; lia. }
  destruct (Ascii.eqb c Ch.lbrace); [apply Hone |].
  destruct (Ascii.eqb c Ch.rbrace); [| apply Hone].
  destruct (bs_braceDepth st =? 1)%nat; [reflexivity | apply Hone].
Qed.

(** *** [skipComments] *)

Lemma skip_to_eol_spec (src : string) (rest : string) (pos : nat) :
  rest = Go.drop_bytes pos src ->
  fst (skip_to_eol rest pos) = Go.drop_bytes (snd (skip_to_eol rest pos)) src
  /\ (pos <= snd (skip_to_eol rest pos) <= pos + String.length rest)%nat
  /\ (String.length (fst (skip_to_eol rest pos)) <= String.length rest)%nat.
Proof.
  revert pos. induction rest as [|c rest' IH]; intros pos Hrest.
  - cbn. repeat split; trivial. lia.
  - symmetry in Hrest. destruct (drop_get _ _ _ _ Hrest) as (_ & Hnext & _).
    cbn [skip_to_eol]. destruct (Ascii.eqb c Ch.lf).
    + cbn [fst snd]. repeat split; [now symmetry | lia | lia | lia].
    + destruct (IH (S pos) (eq_sym Hnext)) as (H1 & H2 & H3).
      cbn [String.length]. repeat split; [exact H1 | lia | lia | lia].
Qed.

Lemma skip_block_spec (src : string) (rest : string) (pos : nat)
    (r : string) (p : nat) :
  rest = Go.drop_bytes pos src ->
  skip_block rest pos = Some (r, p) ->
  r = Go.drop_bytes p src /\ (pos <= p <= pos + String.length rest)%nat
  /\ (String.length r < String.length rest)%nat.
Proof.
  revert pos. induction rest as [|c rest' IH]; intros pos Hrest; [discriminate |].
  symmetry in Hrest. destruct (drop_get _ _ _ _ Hrest) as (_ & Hnext & _).
  cbn [skip_block]. destruct rest' as [|n rest'']; [discriminate |].
  destruct (drop_get _ _ _ _ Hnext) as (_ & Hnext2 & _).
  destruct (Ascii.eqb c Ck.star && Ascii.eqb n Ch.slash).
  - intros [= <- <-]. cbn [String.length].
    repeat split; [now symmetry | lia | lia | lia].
  - intros H. destruct (IH (S pos) (eq_sym Hnext) H) as (H1 & H2 & H3).
    cbn [String.length] in *. repeat split; [exact H1 | lia | lia | lia].
Qed.

(** The byte at [p], if there is one, starts neither white space nor a
    [//] or [/*] comment. *)
Definition at_token (src : string) (p : nat) : Prop :=
  forall c, String.get p src = Some c ->
    isSpaceByte c = false
    /\ (c = Ch.slash ->
        String.get (S p) src <> Some Ch.slash
        /\ String.get (S p) src <> Some Ck.star).

Lemma next_is_get (src : string) (pos : nat) (rest' : string) (n : ascii) :
  Go.drop_bytes (S pos) src = rest' ->
  next_is rest' n = false -> String.get (S pos) src <> Some n.
Proof.
  intros Hnext Hn Hget. destruct rest' as [|d r].
  - apply drop_all in Hnext. rewrite get_none in Hget by exact Hnext. discriminate.
  - destruct (drop_get _ _ _ _ Hnext) as (Hd & _). cbn in Hn.
    rewrite Hd in Hget. injection Hget as ->. now rewrite Ascii.eqb_refl in Hn.
Qed.

Lemma skipComments_loop_spec (src : string) (fuel : nat) (rest : string)
    (pos : nat) (als pis : bool) (p : nat) :
  rest = Go.drop_bytes pos src ->
  (String.length rest < fuel)%nat ->
  skipComments_loop fuel rest pos als pis = inr p ->
  (pos <= p)%nat /\ (p <= Nat.max pos (String.length src))%nat
  /\ at_token src p.
Proof.
  revert rest pos als pis.
  induction fuel as [|fuel IH]; intros rest pos als pis Hrest Hfuel; [lia |].
  cbn [skipComments_loop]. destruct rest as [|c rest'].
  - intros [= <-]. symmetry in Hrest. apply drop_all in Hrest.
    split; [lia |]. split; [lia |].
    intros c Hc. rewrite get_none in Hc by exact Hrest. discriminate.
  - symmetry in Hrest. destruct (drop_get _ _ _ _ Hrest) as (Hget & Hnext & Hlt).
    cbn [String.length] in Hfuel.
    assert (Hline : forall a b,
              (let '(r, p0) := skip_to_eol (String c rest') pos in
               skipComments_loop fuel r p0 a b) = inr p ->
              Ascii.eqb c Ch.lf = false ->
              (pos <= p)%nat /\ (p <= Nat.max pos (String.length src))%nat
              /\ at_token src p).
    { intros a b H Hlf.
      destruct (skip_to_eol_spec src rest' (S pos) (eq_sym Hnext)) as (H1 & H2 & H3).
      cbn [skip_to_eol] in H. rewrite Hlf in H.
      destruct (skip_to_eol rest' (S pos)) as [r p0]. cbn [fst snd] in *.
      assert (String.length rest' = String.length src - S pos)%nat
        by (rewrite <- Hnext; apply drop_bytes_length).
      destruct (IH r p0 a b H1) as (K1 & K2 & K3); [lia | exact H |].
      split; [lia |]. split; [lia | exact K3]. }
    destruct (isSpaceByte c) eqn:Hsp.
    { intros H. destruct (IH rest' (S pos) false true (eq_sym Hnext)) as (K1 & K2 & K3);
        [lia | exact H |].
      split; [lia |]. split; [lia | exact K3]. }
    destruct (Ascii.eqb c Ch.slash && next_is rest' Ch.slash) eqn:Hss.
    { intros H. apply (Hline true true H).
      apply andb_true_iff in Hss as [Hc _].
      apply Ascii.eqb_eq in Hc. now subst c. }
    destruct (Ascii.eqb c Ck.hash && (als || pis)) eqn:Hh.
    { intros H. apply (Hline true true H).
      apply andb_true_iff in Hh as [Hc _].
      apply Ascii.eqb_eq in Hc. now subst c. }
    destruct (Ascii.eqb c Ch.slash && next_is rest' Ck.star) eqn:Hsb.
    { destruct (skip_block (Go.drop_bytes 1 rest') (S (S pos))) as [[r p0]|] eqn:Hb;
        [| discriminate].
      intros H.
      destruct (skip_block_spec src _ _ _ _ (eq_trans (f_equal _ (eq_sym Hnext))
                                               (drop_drop 1 (S pos) src)) Hb)
        as (H1 & H2 & H3).
      assert (String.length (Go.drop_bytes 1 rest') = String.length rest' - 1)%nat
        by apply drop_bytes_length.
      assert (String.length rest' = String.length src - S pos)%nat
        by (rewrite <- Hnext; apply drop_bytes_length).
      assert (rest' <> EmptyString).
      { apply andb_true_iff in Hsb as [_ Hn2].
        destruct (next_is_Some _ _ Hn2) as [? ->]. discriminate. }
      assert (0 < String.length rest')%nat by (destruct rest'; cbn; [congruence | lia]).
      destruct (IH r p0 false true H1) as (K1 & K2 & K3); [lia | exact H |].
      split; [lia |]. split; [lia | exact K3]. }
    intros [= <-]. split; [lia |]. split; [lia |].
    intros c' Hc'. rewrite Hget in Hc'. injection Hc' as <-.
    split; [exact Hsp |]. intros ->.
    rewrite Ascii.eqb_refl in Hss, Hsb. cbn [andb] in Hss, Hsb.
    split; now apply (next_is_get src pos rest').
Qed.

(** X19.  When [skipComments] succeeds, the position it returns lies at or
    after [pos] and not past the end, and the byte there (if any) is not
    white space and does not start a [//] or [/*] comment. *)
Theorem skipComments_spec (src : string) (pos : nat) (atLineStart prevIsSpace : bool)
    (p : nat) :
  skipComments src pos atLineStart prevIsSpace = inr p ->
  (pos <= p)%nat /\ (p <= Nat.max pos (String.length src))%nat
  /\ at_token src p.
Proof.
  apply skipComments_loop_spec; [reflexivity |].
  rewrite drop_bytes_length. lia.
Qed.

(** *** [hasTopLevelLBrace] *)

Fixpoint has_byte (b : ascii) (s : string) : bool :=
  match s with
  | EmptyString => false
  | String c s' => Ascii.eqb c b || has_byte b s'
  end.

(** Bytes that open neither a quotation nor a comment. *)
Definition code_byte (c : ascii) : bool :=
  negb (is_quote_byte c) && negb (Ascii.eqb c Ck.hash)
  && negb (Ascii.eqb c Ch.slash).

Lemma hasTopLevelLBrace_loop_sound (s : string) (quote : option ascii)
    (inLine inBlock : bool) :
  hasTopLevelLBrace_loop s quote inLine inBlock = true ->
  has_byte Ch.lbrace s = true.
Proof.
  remember (String.length s) as n eqn:Hn. revert s Hn quote inLine inBlock.
  induction n as [n IH] using lt_wf_ind. intros s Hn quote inLine inBlock.
  destruct s as [|c s']; [discriminate |].
  cbn [String.length] in Hn.
  assert (Hone : forall q a b, hasTopLevelLBrace_loop s' q a b = true ->
                               has_byte Ch.lbrace (String c s') = true).
  { intros q a b H. cbn [has_byte]. rewrite (IH (String.length s')) with (2 := eq_refl) (3 := H);
      [apply orb_true_r | lia]. }
  assert (Htwo : forall q a b,
            match s' with
            | String _ s'' => hasTopLevelLBrace_loop s'' q a b
            | EmptyString => false
            end = true ->
            has_byte Ch.lbrace (String c s') = true).
  { intros q a b H. destruct s' as [|d s'']; [discriminate |].
    cbn [has_byte]. cbn [String.length] in Hn.
    rewrite (IH (String.length s'')) with (2 := eq_refl) (3 := H);
      [now rewrite !orb_true_r | lia]. }
  cbn [hasTopLevelLBrace_loop].
  destruct inLine; [apply Hone |].
  destruct inBlock.
  { destruct (Ascii.eqb c Ck.star && next_is s' Ch.slash); [apply Htwo | apply Hone]. }
  destruct quote as [q|].
  { destruct (negb (Ascii.eqb q Ch.backtick) && Ascii.eqb c Ch.backslash);
      [| apply Hone].
    destruct s' as [|d s'']; [apply Hone |]. apply (Htwo (Some q) false false). }
  destruct (is_quote_byte c); [apply Hone |].
  destruct (Ascii.eqb_spec c Ch.lbrace) as [-> | Hl]; [reflexivity |].
  destruct (Ascii.eqb c Ck.hash); [apply Hone |].
  destruct (Ascii.eqb c Ch.slash && next_is s' Ch.slash); [apply Htwo |].
  destruct (Ascii.eqb c Ch.slash && next_is s' Ck.star); [apply Htwo |].
  apply Hone.
Qed.

Lemma hasTopLevelLBrace_loop_code (s : string) :
  all_bytes code_byte s = true ->
  hasTopLevelLBrace_loop s None false false = has_byte Ch.lbrace s.
Proof.
  induction s as [|c s IH]; [reflexivity |].
  cbn [all_bytes]. intros H. apply andb_true_iff in H as [Hc Hs].
  unfold code_byte in Hc. apply andb_true_iff in Hc as [Hc H3].
  apply andb_true_iff in Hc as [H1 H2].
  apply negb_true_iff in H1, H2, H3.
  cbn [hasTopLevelLBrace_loop has_byte]. rewrite H1, H2, H3. cbn [andb].
  destruct (Ascii.eqb c Ch.lbrace); [reflexivity | now apply IH].
Qed.

(** X20.  [hasTopLevelLBrace] reports a brace only when the text holds
    one; on text without quotes, ['#'] and ['/'] it reports exactly
    whether the text holds an opening brace. *)
Theorem hasTopLevelLBrace_spec (s : string) :
  (hasTopLevelLBrace s = true -> has_byte Ch.lbrace s = true)
  /\ (all_bytes code_byte s = true ->
      hasTopLevelLBrace s = has_byte Ch.lbrace s).
Proof.
  split.
  - apply hasTopLevelLBrace_loop_sound.
  - apply hasTopLevelLBrace_loop_code.
Qed.

(** *** [stripCommentsPreserveNewlines] *)

Fixpoint count_byte (b : ascii) (s : string) : nat :=
  match s with
  | EmptyString => O
  | String c s' => (if Ascii.eqb c b then 1 else 0) + count_byte b s'
  end.

Lemma strip_loop_spec_bounded (n : nat) (s : string) (quote : option ascii)
    (inLine inBlock als pis : bool) :
  (String.length s <= n)%nat ->
  count_byte Ch.lf (fst (strip_loop s quote inLine inBlock als pis))
  = count_byte Ch.lf s
  /\ (String.length (fst (strip_loop s quote inLine inBlock als pis))
      <= String.length s)%nat.
Proof.
  revert s quote inLine inBlock als pis.
  induction n as [|n IH]; intros s quote inLine inBlock als pis Hn.
  { destruct s; [cbn; split; reflexivity | cbn in Hn; lia]. }
  destruct s as [|c s']; [cbn; split; reflexivity |].
  cbn [String.length] in Hn.
  (* an iteration that drops [c], which is no newline *)
  assert (Hdrop : forall q a b x y,
            Ascii.eqb c Ch.lf = false ->
            count_byte Ch.lf (fst (strip_loop s' q a b x y))
            = count_byte Ch.lf (String c s')
            /\ (String.length (fst (strip_loop s' q a b x y))
                <= String.length (String c s'))%nat).
  { intros q a b x y Hlf.
    destruct (IH s' q a b x y) as [H1 H2]; [lia |].
    cbn [count_byte String.length]. rewrite Hlf, H1. split; lia. }
  (* an iteration that writes [c] *)
  assert (Hput : forall q a b x y,
            count_byte Ch.lf (String c (fst (strip_loop s' q a b x y)))
            = count_byte Ch.lf (String c s')
            /\ (String.length (String c (fst (strip_loop s' q a b x y)))
                <= String.length (String c s'))%nat).
  { intros q a b x y.
    destruct (IH s' q a b x y) as [H1 H2]; [lia |].
    cbn [count_byte String.length]. rewrite H1. split; lia. }
  (* an iteration that drops [c] and the next byte, neither a newline *)
  assert (Hdrop2 : forall d s'' q a b x y,
            s' = String d s'' ->
            Ascii.eqb c Ch.lf = false -> Ascii.eqb d Ch.lf = false ->
            count_byte Ch.lf (fst (strip_loop s'' q a b x y))
            = count_byte Ch.lf (String c s')
            /\ (String.length (fst (strip_loop s'' q a b x y))
                <= String.length (String c s'))%nat).
  { intros d s'' q a b x y -> Hc Hd.
    cbn [String.length] in Hn.
    destruct (IH s'' q a b x y) as [H1 H2]; [lia |].
    cbn [count_byte String.length]. rewrite Hc, Hd, H1. split; lia. }
  cbn [strip_loop].
  destruct inLine.
  { destruct (Ascii.eqb_spec c Ch.lf) as [-> | Hlf].
    - cbn [fst]. apply Hput.
    - now apply Hdrop. }
  destruct inBlock.
  { destruct (Ascii.eqb_spec c Ch.lf) as [-> | Hlf].
    - cbn [fst]. apply Hput.
    - destruct (Ascii.eqb c Ck.star && next_is s' Ch.slash) eqn:Hsb;
        [| now apply Hdrop].
      apply andb_true_iff in Hsb as [_ Hn2].
      destruct (next_is_Some _ _ Hn2) as [s'' ->].
      now apply (Hdrop2 Ch.slash s''). }
  destruct quote as [q|].
  { destruct s' as [|e s''].
    - cbn [fst]. apply Hput.
    - destruct (Ascii.eqb c Ch.backslash); [| cbn [fst]; apply Hput].
      cbn [fst]. cbn [String.length] in Hn.
      destruct (IH s'' (Some q) false false false false) as [H1 H2]; [lia |].
      cbn [count_byte String.length]. rewrite H1. split; lia. }
  destruct (is_quote_byte c); [cbn [fst]; apply Hput |].
  destruct (Ascii.eqb c Ck.hash && (als || pis)) eqn:Hh.
  { apply Hdrop. apply andb_true_iff in Hh as [Hc _].
    apply Ascii.eqb_eq in Hc. now subst c. }
  destruct (Ascii.eqb c Ch.slash && (als || pis) && next_is s' Ch.slash) eqn:Hss.
  { apply andb_true_iff in Hss as [Hc Hn2]. apply andb_true_iff in Hc as [Hc _].
    apply Ascii.eqb_eq in Hc. subst c.
    destruct (next_is_Some _ _ Hn2) as [s'' ->].
    now apply (Hdrop2 Ch.slash s''). }
  destruct (Ascii.eqb c Ch.slash && (als || pis) && next_is s' Ck.star) eqn:Hsb.
  { apply andb_true_iff in Hsb as [Hc Hn2]. apply andb_true_iff in Hc as [Hc _].
    apply Ascii.eqb_eq in Hc. subst c.
    destruct (next_is_Some _ _ Hn2) as [s'' ->].
    now apply (Hdrop2 Ck.star s''). }
  cbn [fst]. apply Hput.
Qed.

Lemma strip_loop_spec (s : string) (quote : option ascii)
    (inLine inBlock als pis : bool) :
  count_byte Ch.lf (fst (strip_loop s quote inLine inBlock als pis))
  = count_byte Ch.lf s
  /\ (String.length (fst (strip_loop s quote inLine inBlock als pis))
      <= String.length s)%nat.
Proof. now apply (strip_loop_spec_bounded (String.length s)). Qed.

(** X21.  When [stripCommentsPreserveNewlines] succeeds, its output has
    exactly as many newlines as its input, and is not longer: the lines
    of the commands keep their boundaries. *)
Theorem stripComments_preserves_newlines (src out : string) :
  stripCommentsPreserveNewlines src = inr out ->
  count_byte Ch.lf out = count_byte Ch.lf src
  /\ (String.length out <= String.length src)%nat.
Proof.
  unfold stripCommentsPreserveNewlines.
  destruct (negb (containsHashOrSlash src)).
  - intros [= <-]. split; reflexivity.
  - pose proof (strip_loop_spec src None false false true true) as H.
    destruct (strip_loop src None false false true true) as [o b].
    cbn [fst] in H. destruct b; [discriminate |]. now intros [= <-].
Qed.

(** *** The inputs of the package's tokenizer tests *)

Definition lf_str : string := String Ch.lf EmptyString.
Definition dq_str : string := String Ch.dquote EmptyString.

(** [cond "{" {] *)
Definition src_quoted_brace : string :=
  "cond " +:+ dq_str +:+ "{" +:+ dq_str +:+ " {".

(** [{ "}" }] *)
Definition src_quoted_closing : string :=
  "{ " +:+ dq_str +:+ "}" +:+ dq_str +:+ " }".

Definition src_comments : string :=
  "  // line" +:+ lf_str +:+ "  /* block */" +:+ lf_str +:+ "  # hash"
  +:+ lf_str +:+ "  default".

Definition src_do_body : string :=
  "set header X a // note" +:+ lf_str +:+ "# all" +:+ lf_str
  +:+ "log info /dev/stdout 'a # b' /* x" +:+ lf_str +:+ " y */".

Lemma scanToBrace_spec_witness :
  (0 <= 9 < String.length src_quoted_brace)%nat
  /\ String.get 9 src_quoted_brace = Some Ch.lbrace.
Proof. apply (scanToBrace_spec src_quoted_brace 0 9). reflexivity. Defined.

Lemma findMatchingBrace_spec_witness :
  (1 <= 6 < String.length src_quoted_closing)%nat
  /\ String.get 6 src_quoted_closing = Some Ch.rbrace.
Proof. apply (findMatchingBrace_spec src_quoted_closing 1 6). reflexivity. Defined.

Lemma skipComments_spec_witness :
  (0 <= 35)%nat /\ (35 <= Nat.max 0 (String.length src_comments))%nat
  /\ at_token src_comments 35.
Proof. apply (skipComments_spec src_comments 0 true true 35). reflexivity. Defined.

Lemma stripComments_preserves_newlines_witness :
  count_byte Ch.lf ("set header X a " +:+ lf_str +:+ lf_str
                    +:+ "log info /dev/stdout 'a # b' " +:+ lf_str)
  = count_byte Ch.lf src_do_body
  /\ (String.length ("set header X a " +:+ lf_str +:+ lf_str
                     +:+ "log info /dev/stdout 'a # b' " +:+ lf_str)
      <= String.length src_do_body)%nat.
Proof.
  apply (stripComments_preserves_newlines src_do_body). vm_compute. reflexivity.
Defined.

(** An unterminated block comment is an error of [skipComments] and of
    [stripCommentsPreserveNewlines]. *)
Example unterminated_block_comment :
  skipComments "/* unterminated" 0 true true = inl ErrUnterminatedBlockComment
  /\ stripCommentsPreserveNewlines "a /* b" = inl ErrUnterminatedBlockComment.
Proof. split; reflexivity. Qed.

(** ** The [status] matcher *)

Lemma validateStatusCode_range (status : string) (code : Z) :
  validateStatusCode status = inr code -> 100 <= code <= 599.
Proof.
  unfold validateStatusCode. destruct (Go.Atoi status) as [n|]; [| discriminate].
  destruct (Z.ltb_spec n 100); [discriminate |].
  destruct (Z.ltb_spec 599 n); [discriminate |].
  cbn [orb]. intros [= <-]. lia.
Qed.

(** X22.  A status range that [validateStatusRange] accepts has both ends
    between 100 and 599, and the matcher built from it holds for a
    status code exactly when the code lies between the two ends (both
    included). *)
Theorem status_range_matcher (args : list string) (beg end_ : Z) :
  validateStatusRange args = inr (beg, end_) ->
  (100 <= beg <= 599 /\ 100 <= end_ <= 599)
  /\ forall statusCode,
       OnStatus (beg, end_) statusCode = true <-> beg <= statusCode <= end_.
Proof.
  intros H. split.
  - unfold validateStatusRange in H.
    destruct args as [|arg [|? ?]]; try discriminate.
    destruct (strings_Cut arg "-") as [[b e] ok].
    repeat match type of H with
    | (if ?c then _ else _) = _ => destruct c; [injection H as <- <-; lia |]
    end.
    destruct (validateStatusCode b) as [eb|nb] eqn:Hb; [discriminate |].
    destruct (validateStatusCode (if ok then e else b)) as [ee|ne] eqn:He;
      [discriminate |].
    injection H as <- <-.
    split; eapply validateStatusCode_range; eassumption.
  - intros sc. unfold OnStatus.
    destruct (Z.eqb_spec beg end_) as [-> | Hne].
    + rewrite Z.eqb_eq. lia.
    + rewrite andb_true_iff, !Z.leb_le. reflexivity.
Qed.

Lemma status_range_matcher_witness :
  (100 <= 200 <= 599 /\ 100 <= 204 <= 599)
  /\ forall statusCode,
       OnStatus (200, 204) statusCode = true <-> 200 <= statusCode <= 204.
Proof. apply (status_range_matcher ["200-204"]). reflexivity. Defined.

(** The classes, a single code, and what is accepted besides: a sign,
    and a range whose ends are in the wrong order (it matches nothing). *)
Example status_ranges :
  validateStatusRange ["4xx"] = inr (400, 499)
  /\ validateStatusRange ["404"] = inr (404, 404)
  /\ validateStatusRange ["+404"] = inr (404, 404)
  /\ validateStatusRange ["1xx-404"] = inr (100, 199)
  /\ validateStatusRange ["500-200"] = inr (500, 200)
  /\ validateStatusRange ["99"]
     = inl (ErrInvalidStatusRange (Some (ErrStatusOutOfRange "99"))
                                  (Some (ErrStatusOutOfRange "99")))
  /\ validateStatusRange ["200"; "204"] = inl ErrExpectOneArg.
Proof. repeat split; reflexivity. Qed.

(** ** [forEachPipePart]: a pipe splits at the top level only *)

(** The pieces a part is made of: plain text, a quoted text, a text in
    parentheses, a backslash with the byte after it. *)
Inductive PipeSeg :=
| SegPlain (text : string)
| SegQuoted (q : ascii) (body : string)
| SegBracketed (body : string)
| SegEscaped (c : ascii).

Definition seg_text (g : PipeSeg) : string :=
  match g with
  | SegPlain text => text
  | SegQuoted q body => String q (body +:+ String q EmptyString)
  | SegBracketed body => String Ch.lparen (body +:+ String Ch.rparen EmptyString)
  | SegEscaped c => String Ch.backslash (String c EmptyString)
  end.

Definition pipe_plain (c : ascii) : bool :=
  negb (Ascii.eqb c Ch.backslash) && negb (is_quote_byte c)
  && negb (Ascii.eqb c Ch.lparen) && negb (Ascii.eqb c Ch.rparen)
  && negb (Ascii.eqb c Ch.pipe).

(** Inside quotes [q]: pipes and the other quotes are text. *)
Definition pipe_quoted (q c : ascii) : bool :=
  negb (Ascii.eqb c q) && negb (Ascii.eqb c Ch.backslash)
  && negb (Ascii.eqb c Ch.lparen) && negb (Ascii.eqb c Ch.rparen).

(** Inside parentheses: pipes and quotes are text. *)
Definition pipe_bracketed (c : ascii) : bool :=
  negb (Ascii.eqb c Ch.backslash)
  && negb (Ascii.eqb c Ch.lparen) && negb (Ascii.eqb c Ch.rparen).

Definition seg_ok (g : PipeSeg) : bool :=
  match g with
  | SegPlain text => all_bytes pipe_plain text
  | SegQuoted q body => is_quote_byte q && all_bytes (pipe_quoted q) body
  | SegBracketed body => all_bytes pipe_bracketed body
  | SegEscaped _ => true
  end.

Definition seg_concat (segs : list PipeSeg) : string :=
  fold_right (fun g acc => seg_text g +:+ acc) EmptyString segs.

(** What [forEachPipePart] hands to [fn] for the text [cur] of one part. *)
Definition trimmed_part (cur : string) : list string :=
  let part := Go.TrimSpace cur in
  if is_empty part then [] else [part].

Ltac andb_facts :=
  repeat match goal with
  | H : _ && _ = true |- _ => apply andb_true_iff in H as [? ?]
  | H : negb _ = true |- _ => apply negb_true_iff in H
  end.

Lemma quote_byte_facts (q : ascii) :
  is_quote_byte q = true ->
  Ascii.eqb q Ch.backslash = false /\ Ascii.eqb q Ch.lparen = false
  /\ Ascii.eqb q Ch.rparen = false /\ Ascii.eqb q Ch.pipe = false.
Proof.
  unfold is_quote_byte. rewrite !orb_true_iff, !Ascii.eqb_eq.
  intros [[-> | ->] | ->]; repeat split; reflexivity.
Qed.

Lemma pipe_loop_plain (text s : string) (cur : string) :
  all_bytes pipe_plain text = true ->
  forEachPipePart_loop (text +:+ s) None O cur false
  = forEachPipePart_loop s None O (cur +:+ text) false.
Proof.
  revert cur. induction text as [|c text IH]; intros cur Ht.
  - now rewrite append_nil_l, append_nil_r.
  - cbn [all_bytes] in Ht. apply andb_true_iff in Ht as [Hc Ht].
    unfold pipe_plain in Hc. andb_facts.
    rewrite append_cons. cbn [forEachPipePart_loop].
    repeat match goal with
    | H : _ = false |- _ => rewrite H; clear H
    end.
    rewrite (IH _ Ht), append_assoc. reflexivity.
Qed.

Lemma pipe_loop_quoted_body (q : ascii) (body s : string) (n : nat) (cur : string) :
  is_quote_byte q = true ->
  all_bytes (pipe_quoted q) body = true ->
  forEachPipePart_loop (body +:+ s) (Some q) n cur false
  = forEachPipePart_loop s (Some q) n (cur +:+ body) false.
Proof.
  intros Hq. revert cur. induction body as [|c body IH]; intros cur Hb.
  - now rewrite append_nil_l, append_nil_r.
  - cbn [all_bytes] in Hb. apply andb_true_iff in Hb as [Hc Hb].
    unfold pipe_quoted in Hc. andb_facts.
    rewrite append_cons. cbn [forEachPipePart_loop].
    match goal with H : Ascii.eqb c Ch.backslash = false |- _ => rewrite H end.
    match goal with H : Ascii.eqb c Ch.lparen = false |- _ => rewrite H end.
    match goal with H : Ascii.eqb c Ch.rparen = false |- _ => rewrite H end.
    match goal with H : Ascii.eqb c q = false |- _ => rewrite H end.
    assert (Hsame : forEachPipePart_loop (body +:+ s) (Some q) n
                      (cur +:+ String c EmptyString) false
                    = forEachPipePart_loop s (Some q) n (cur +:+ String c body) false).
    { rewrite (IH _ Hb), append_assoc. reflexivity. }
    destruct (is_quote_byte c); [| destruct (Ascii.eqb c Ch.pipe)];
      destruct n; exact Hsame.
Qed.

Lemma pipe_loop_bracketed_body (body s : string) (n : nat) (cur : string) :
  all_bytes pipe_bracketed body = true ->
  forEachPipePart_loop (body +:+ s) None (S n) cur false
  = forEachPipePart_loop s None (S n) (cur +:+ body) false.
Proof.
  revert cur. induction body as [|c body IH]; intros cur Hb.
  - now rewrite append_nil_l, append_nil_r.
  - cbn [all_bytes] in Hb. apply andb_true_iff in Hb as [Hc Hb].
    unfold pipe_bracketed in Hc. andb_facts.
    rewrite append_cons. cbn [forEachPipePart_loop].
    match goal with H : Ascii.eqb c Ch.backslash = false |- _ => rewrite H end.
    match goal with H : Ascii.eqb c Ch.lparen = false |- _ => rewrite H end.
    match goal with H : Ascii.eqb c Ch.rparen = false |- _ => rewrite H end.
    assert (Hsame : forEachPipePart_loop (body +:+ s) None (S n)
                      (cur +:+ String c EmptyString) false
                    = forEachPipePart_loop s None (S n) (cur +:+ String c body) false).
    { rewrite (IH _ Hb), append_assoc. reflexivity. }
    destruct (is_quote_byte c); [| destruct (Ascii.eqb c Ch.pipe)]; exact Hsame.
Qed.

Lemma pipe_loop_seg (g : PipeSeg) (s cur : string) :
  seg_ok g = true ->
  forEachPipePart_loop (seg_text g +:+ s) None O cur false
  = forEachPipePart_loop s None O (cur +:+ seg_text g) false.
Proof.
  destruct g as [text | q body | body | c]; cbn [seg_ok seg_text]; intros Hok.
  - now apply pipe_loop_plain.
  - apply andb_true_iff in Hok as [Hq Hb].
    destruct (quote_byte_facts q Hq) as (H1 & H2 & H3 & H4).
    rewrite append_cons. cbn [forEachPipePart_loop]. rewrite H1, Hq.
    rewrite append_assoc.
    rewrite (pipe_loop_quoted_body q body _ O _ Hq Hb).
    rewrite append_cons. cbn [forEachPipePart_loop]. rewrite H1, Hq.
    rewrite Ascii.eqb_refl. rewrite append_nil_l.
    f_equal. rewrite !append_assoc. reflexivity.
  - rewrite append_cons. cbn [forEachPipePart_loop].
    rewrite append_assoc.
    rewrite (pipe_loop_bracketed_body body _ O _ Hok).
    rewrite append_cons. cbn [forEachPipePart_loop Nat.pred].
    rewrite append_nil_l. f_equal. rewrite !append_assoc. reflexivity.
  - rewrite !append_cons, append_nil_l. cbn [forEachPipePart_loop].
    rewrite Ascii.eqb_refl, !append_assoc. reflexivity.
Qed.

Lemma pipe_loop_segs (segs : list PipeSeg) (s cur : string) :
  forallb seg_ok segs = true ->
  forEachPipePart_loop (seg_concat segs +:+ s) None O cur false
  = forEachPipePart_loop s None O (cur +:+ seg_concat segs) false.
Proof.
  revert cur. induction segs as [|g segs IH]; intros cur Hok.
  - cbn. now rewrite append_nil_r.
  - cbn [forallb] in Hok. apply andb_true_iff in Hok as [Hg Hok].
    cbn [seg_concat fold_right]. fold (seg_concat segs).
    rewrite append_assoc, (pipe_loop_seg g _ _ Hg), (IH _ Hok).
    now rewrite append_assoc.
Qed.

(** X23.  In a text made of plain bytes, quoted texts, texts in
    parentheses and escaped bytes, [forEachPipePart] finds no place to
    split: the whole text is one part; and a pipe after such a text ends
    the part, the rest being split on its own.  So pipes in quotes, in
    parentheses or after a backslash never split. *)
Theorem forEachPipePart_top_level (segs : list PipeSeg) (rest : string) :
  forallb seg_ok segs = true ->
  let a := seg_concat segs in
  forEachPipePart a = trimmed_part a
  /\ forEachPipePart (a +:+ String Ch.pipe rest)
     = trimmed_part a ++ forEachPipePart rest.
Proof.
  intros Hok a. unfold forEachPipePart. split.
  - rewrite <- (append_nil_r a) at 1. unfold a.
    rewrite (pipe_loop_segs segs _ _ Hok), append_nil_l.
    cbn [forEachPipePart_loop]. unfold trimmed_part.
    destruct (is_empty (Go.TrimSpace (seg_concat segs))); reflexivity.
  - unfold a. rewrite (pipe_loop_segs segs _ _ Hok), append_nil_l.
    cbn [forEachPipePart_loop]. unfold trimmed_part.
    destruct (is_empty (Go.TrimSpace (seg_concat segs))); reflexivity.
Qed.

Definition pipe_segs : list PipeSeg :=
  [SegPlain "header X "; SegQuoted Ch.dquote "a|b"; SegPlain " ";
   SegBracketed "c|d"; SegEscaped Ch.pipe].

Lemma forEachPipePart_top_level_witness :
  let a := seg_concat pipe_segs in
  forEachPipePart a = trimmed_part a
  /\ forEachPipePart (a +:+ String Ch.pipe " path /x")
     = trimmed_part a ++ forEachPipePart " path /x".
Proof. apply (forEachPipePart_top_level pipe_segs). reflexivity. Defined.

(** Parentheses are counted inside quotes too: after a quoted ["("] no
    pipe splits any more. *)
Example pipe_after_quoted_paren :
  splitPipe (String Ch.dquote (String Ch.lparen (String Ch.dquote " | b")))
  = [String Ch.dquote (String Ch.lparen (String Ch.dquote " | b"))]
  /\ splitPipe "a | b" = ["a"; "b"].
Proof. split; reflexivity. Qed.

(** ** Variables in templates: [extractArgs] and [ExpandVars] *)

Lemma length_app_str (a b : string) :
  String.length (a +:+ b) = (String.length a + String.length b)%nat.
Proof.
  induction a as [|c a IH]; [reflexivity |].
  rewrite append_cons. cbn [String.length]. now rewrite IH.
Qed.

Lemma drop_bytes_app_plus (a b : string) (k : nat) :
  Go.drop_bytes (String.length a + k) (a +:+ b) = Go.drop_bytes k b.
Proof.
  induction a as [|c a IH]; [reflexivity |].
  rewrite append_cons. cbn [String.length Nat.add Go.drop_bytes]. exact IH.
Qed.

Lemma take_bytes_append (a b : string) :
  Go.take_bytes (String.length a) (a +:+ b) = a.
Proof.
  induction a as [|c a IH]; [now destruct b |].
  rewrite append_cons. cbn [String.length Go.take_bytes]. now rewrite IH.
Qed.

Lemma take_bytes_length (n : nat) (s : string) :
  (String.length (Go.take_bytes n s) <= String.length s)%nat.
Proof.
  revert n. induction s as [|c s IH]; intros [|n]; cbn; try lia.
  specialize (IH n). lia.
Qed.

Lemma drop_bytes_plus (a b : nat) (s : string) :
  Go.drop_bytes a (Go.drop_bytes b s) = Go.drop_bytes (a + b) s.
Proof.
  revert s. induction b as [|b IH]; intros s.
  - now rewrite Nat.add_0_r.
  - destruct s as [|c s].
    + now rewrite !drop_bytes_nil.
    + cbn [Go.drop_bytes]. rewrite IH.
      now replace (a + S b)%nat with (S (a + b)) by lia.
Qed.

Lemma get_drop (src : string) (i p : nat) :
  String.get p (Go.drop_bytes i src) = String.get (p + i) src.
Proof.
  revert src. induction i as [|i IH]; intros src.
  - now rewrite Nat.add_0_r.
  - destruct src as [|c src].
    + cbn. now destruct p.
    + cbn [Go.drop_bytes]. rewrite IH.
      now replace (p + S i)%nat with (S (p + i)) by lia.
Qed.

Lemma IndexByte_get (s : string) (c : ascii) (p : nat) :
  IndexByte s c = Some p -> String.get p s = Some c.
Proof.
  revert p. induction s as [|x s IH]; intros p Hp; [discriminate |].
  cbn [IndexByte] in Hp. destruct (Ascii.eqb_spec x c) as [-> | _].
  - injection Hp as <-. reflexivity.
  - destruct (IndexByte s c) as [p'|]; [| discriminate].
    injection Hp as <-. cbn [String.get]. now apply IH.
Qed.

Lemma IndexByte_append (a b : string) (c : ascii) :
  IndexByte a c = None ->
  IndexByte (a +:+ String c b) c = Some (String.length a).
Proof.
  induction a as [|x a IH]; intros H.
  - rewrite append_nil_l. cbn [IndexByte String.length]. now rewrite Ascii.eqb_refl.
  - cbn [IndexByte] in H. rewrite append_cons. cbn [IndexByte String.length].
    destruct (Ascii.eqb x c); [discriminate |].
    destruct (IndexByte a c); [discriminate |]. now rewrite IH.
Qed.

(** *** Names *)

Lemma name_byte_facts (c : ascii) :
  validVarNameCharset c = true ->
  Ascii.eqb c Ch.dollar = false /\ Ascii.eqb c Ch.lbrace = false
  /\ Ascii.eqb c Ch.lparen = false /\ Ascii.eqb c Ch.rparen = false
  /\ is_quote_byte c = false.
Proof.
  destruct c as [[] [] [] [] [] [] [] []]; vm_compute; intros H;
    try discriminate H; repeat split.
Qed.

Definition starts_name (s : string) : bool :=
  match s with
  | String c _ => validVarNameCharset c
  | EmptyString => false
  end.

Definition is_name (name : string) : bool :=
  negb (is_empty name) && all_bytes validVarNameCharset name.

Lemma name_end_app (name next : string) (k : nat) :
  all_bytes validVarNameCharset name = true ->
  starts_name next = false ->
  name_end (name +:+ next) k = (k + String.length name)%nat.
Proof.
  revert k. induction name as [|c name IH]; intros k Hn Hs.
  - rewrite append_nil_l, Nat.add_0_r.
    destruct next as [|d next]; [reflexivity |].
    cbn in Hs. cbn [name_end]. now rewrite Hs.
  - cbn [all_bytes] in Hn. apply andb_true_iff in Hn as [Hc Hn].
    rewrite append_cons. cbn [name_end String.length]. rewrite Hc.
    rewrite (IH _ Hn Hs). lia.
Qed.

Lemma is_name_no_paren (name : string) :
  all_bytes validVarNameCharset name = true -> IndexByte name Ch.lparen = None.
Proof.
  induction name as [|c name IH]; [reflexivity |].
  cbn [all_bytes IndexByte]. intros H. apply andb_true_iff in H as [Hc Hn].
  destruct (name_byte_facts c Hc) as (_ & _ & -> & _). now rewrite IH.
Qed.

(** *** The arguments of a function-like variable *)

(** An argument as it is written: bare, between two quotes, or a nested
    call with arguments of its own. *)
#[warnings="-register-all"] Inductive Arg :=
| ArgBare (a : string)
| ArgQuoted (q : ascii) (a : string)
| ArgCall (name : string) (args : list Arg).

Section Arg_induction.

Variable P : Arg -> Prop.
Hypothesis Hbare : forall a, P (ArgBare a).
Hypothesis Hquoted : forall q a, P (ArgQuoted q a).
Hypothesis Hcall : forall name args, List.Forall P args -> P (ArgCall name args).

Fixpoint Arg_nested_ind (p : Arg) : P p :=
  match p with
  | ArgBare a => Hbare a
  | ArgQuoted q a => Hquoted q a
  | ArgCall name args =>
    Hcall name args
      ((fix all (l : list Arg) : List.Forall P l :=
          match l with
          | [] => @List.Forall_nil Arg P
          | x :: l' => @List.Forall_cons Arg P x l' (Arg_nested_ind x) (all l')
          end) args)
  end.

End Arg_induction.

(** Texts separated by a comma and a space. *)
Fixpoint join_args (texts : list string) : string :=
  match texts with
  | [] => EmptyString
  | t :: texts' =>
    match texts' with
    | [] => t
    | _ :: _ => t +:+ String Cv.comma (String Ch.space (join_args texts'))
    end
  end.

Definition call_text (name args : string) : string :=
  String Ch.dollar (name +:+ String Ch.lparen (args +:+ String Ch.rparen EmptyString)).

Fixpoint arg_text (p : Arg) : string :=
  match p with
  | ArgBare a => a
  | ArgQuoted q a => String q (a +:+ String q EmptyString)
  | ArgCall name args => call_text name (join_args (map arg_text args))
  end.

Definition args_text (l : list Arg) : string := join_args (map arg_text l).

(** What [extractArgs] returns for an argument: its text, without the
    quotes of a quoted one. *)
Definition arg_raw (p : Arg) : string :=
  match p with
  | ArgBare a => a
  | ArgQuoted _ a => a
  | ArgCall _ _ => arg_text p
  end.

Definition bare_byte (c : ascii) : bool :=
  negb (is_quote_byte c) && negb (Ascii.eqb c Ch.lparen)
  && negb (Ascii.eqb c Ch.rparen)
  && negb (Ascii.eqb c Cv.comma) && negb (is_arg_space c).

Definition other_than (q c : ascii) : bool := negb (Ascii.eqb c q).

(** A bare argument does not start with a dollar (it would be read as a
    nested call), the name of a nested call is not empty. *)
Fixpoint arg_ok (p : Arg) : bool :=
  match p with
  | ArgBare a =>
    negb (is_empty a) && all_bytes bare_byte a && negb (starts_with_dollar a)
  | ArgQuoted q a => is_quote_byte q && all_bytes (other_than q) a
  | ArgCall name args => is_name name && forallb arg_ok args
  end.

Lemma args_text_cons2 (p p' : Arg) (l : list Arg) :
  args_text (p :: p' :: l)
  = arg_text p +:+ String Cv.comma (String Ch.space (args_text (p' :: l))).
Proof. reflexivity. Qed.

Lemma quote_not_delim (q : ascii) :
  is_quote_byte q = true ->
  Ascii.eqb q Ch.rparen = false /\ Ascii.eqb q Cv.comma = false
  /\ is_arg_space q = false /\ Ascii.eqb q Ch.dollar = false
  /\ Ascii.eqb q Ch.lparen = false.
Proof.
  unfold is_quote_byte. rewrite !orb_true_iff, !Ascii.eqb_eq.
  intros [[-> | ->] | ->]; repeat split; reflexivity.
Qed.

Lemma is_empty_snoc (a : string) (c : ascii) :
  is_empty (a +:+ String c EmptyString) = false.
Proof. destruct a; [reflexivity | now rewrite append_cons]. Qed.

Lemma call_text_app (name body post : string) :
  call_text name body +:+ post
  = String Ch.dollar
      (name +:+ String Ch.lparen (body +:+ String Ch.rparen post)).
Proof.
  unfold call_text.
  now rewrite append_cons, append_assoc, append_cons, append_assoc,
    append_cons, append_nil_l.
Qed.

Lemma call_text_length (name body : string) :
  String.length (call_text name body)
  = (String.length name + String.length body + 3)%nat.
Proof.
  unfold call_text. cbn [String.length].
  rewrite length_app_str. cbn [String.length].
  rewrite length_app_str. cbn [String.length]. lia.
Qed.

Section ExtractArgsFacts.

Context {E : Type}.

Abbreviation scan := (@nested_scan E).
Abbreviation loop := (@extractArgs_loop E).

(** *** [extractNestedFuncExpr] on a nested call *)

Lemma scan_bare (start : nat) (a s : string) (i : nat) (depth : Z) :
  all_bytes bare_byte a = true ->
  scan start (a +:+ s) i depth None = scan start s (i + String.length a) depth None.
Proof.
  revert i. induction a as [|c a IH]; intros i Ha.
  - now rewrite append_nil_l, Nat.add_0_r.
  - cbn [all_bytes] in Ha. apply andb_true_iff in Ha as [Hc Ha].
    unfold bare_byte in Hc. andb_facts.
    rewrite append_cons. cbn [nested_scan].
    repeat match goal with H : _ = false |- _ => rewrite H; clear H end.
    rewrite (IH _ Ha). cbn [String.length]. f_equal. lia.
Qed.

Lemma scan_name (start : nat) (a s : string) (i : nat) (depth : Z) :
  all_bytes validVarNameCharset a = true ->
  scan start (a +:+ s) i depth None = scan start s (i + String.length a) depth None.
Proof.
  revert i. induction a as [|c a IH]; intros i Ha.
  - now rewrite append_nil_l, Nat.add_0_r.
  - cbn [all_bytes] in Ha. apply andb_true_iff in Ha as [Hc Ha].
    destruct (name_byte_facts c Hc) as (_ & _ & H1 & H2 & H3).
    rewrite append_cons. cbn [nested_scan]. rewrite H1, H2, H3.
    rewrite (IH _ Ha). cbn [String.length]. f_equal. lia.
Qed.

Lemma scan_quoted (start : nat) (q : ascii) (a s : string) (i : nat) (depth : Z) :
  all_bytes (other_than q) a = true ->
  scan start (a +:+ s) i depth (Some q)
  = scan start s (i + String.length a) depth (Some q).
Proof.
  revert i. induction a as [|c a IH]; intros i Ha.
  - now rewrite append_nil_l, Nat.add_0_r.
  - cbn [all_bytes] in Ha. apply andb_true_iff in Ha as [Hc Ha].
    unfold other_than in Hc. apply negb_true_iff in Hc.
    rewrite append_cons. cbn [nested_scan]. rewrite Hc.
    rewrite (IH _ Ha). cbn [String.length]. f_equal. lia.
Qed.

(** Inside a call ([depth] at least 1) the scan passes an argument and
    comes back to the depth it had. *)
Definition scan_passes (text : string) : Prop :=
  forall (start : nat) (s : string) (i : nat) (depth : Z),
    1 <= depth ->
    scan start (text +:+ s) i depth None
    = scan start s (i + String.length text) depth None.

Lemma scan_passes_app (a b : string) :
  scan_passes a -> scan_passes b -> scan_passes (a +:+ b).
Proof.
  intros Ha Hb start s i depth Hd.
  rewrite append_assoc, (Ha _ _ _ _ Hd), (Hb _ _ _ _ Hd), length_app_str.
  f_equal. lia.
Qed.

Lemma scan_passes_sep : scan_passes (String Cv.comma (String Ch.space EmptyString)).
Proof.
  intros start s i depth Hd. rewrite !append_cons, append_nil_l. cbn.
  f_equal. lia.
Qed.

Lemma scan_passes_join (texts : list string) :
  List.Forall scan_passes texts -> scan_passes (join_args texts).
Proof.
  induction texts as [|t texts IH]; intros Hall.
  - intros start s i depth Hd. cbn. f_equal. lia.
  - inversion Hall as [|? ? Ht Hts]; subst.
    destruct texts as [|t' texts]; [exact Ht |].
    change (join_args (t :: t' :: texts))
      with (t +:+ String Cv.comma (String Ch.space (join_args (t' :: texts)))).
    apply scan_passes_app; [exact Ht |].
    change (String Cv.comma (String Ch.space (join_args (t' :: texts))))
      with (String Cv.comma (String Ch.space EmptyString) +:+ join_args (t' :: texts)).
    apply scan_passes_app; [apply scan_passes_sep | now apply IH].
Qed.

Lemma scan_passes_call (name args : string) :
  all_bytes validVarNameCharset name = true ->
  scan_passes args -> scan_passes (call_text name args).
Proof.
  intros Hname Hargs start s i depth Hd. unfold call_text.
  rewrite !append_cons. cbn [nested_scan].
  change (is_quote_byte Ch.dollar) with false.
  change (Ascii.eqb Ch.dollar Ch.lparen) with false.
  change (Ascii.eqb Ch.dollar Ch.rparen) with false. cbv iota.
  rewrite append_assoc, (scan_name _ _ _ _ _ Hname).
  rewrite append_cons. cbn [nested_scan].
  change (is_quote_byte Ch.lparen) with false.
  rewrite Ascii.eqb_refl. cbv iota.
  rewrite append_assoc, (Hargs _ _ _ (depth + 1)) by lia.
  rewrite append_cons, append_nil_l. cbn [nested_scan].
  change (is_quote_byte Ch.rparen) with false.
  change (Ascii.eqb Ch.rparen Ch.lparen) with false.
  rewrite Ascii.eqb_refl. cbv iota.
  destruct (Z.eqb_spec (depth + 1 - 1) 0) as [H0 | _]; [lia |].
  replace (depth + 1 - 1) with depth by lia.
  cbn [String.length]. rewrite !length_app_str. cbn [String.length].
  rewrite length_app_str. cbn [String.length]. f_equal. lia.
Qed.

Lemma arg_scan_passes (p : Arg) : arg_ok p = true -> scan_passes (arg_text p).
Proof.
  induction p as [a | q a | name args IH] using Arg_nested_ind;
    cbn [arg_ok arg_text]; intros Hok.
  - apply andb_true_iff in Hok as [Hok _]. apply andb_true_iff in Hok as [_ Ha].
    intros start s i depth _. now apply scan_bare.
  - apply andb_true_iff in Hok as [Hq Ha].
    intros start s i depth _.
    rewrite append_cons. cbn [nested_scan]. rewrite Hq.
    rewrite append_assoc, (scan_quoted _ _ _ _ _ _ Ha).
    rewrite append_cons, append_nil_l. cbn [nested_scan].
    rewrite Ascii.eqb_refl. cbn [String.length]. rewrite length_app_str.
    cbn [String.length]. f_equal. lia.
  - apply andb_true_iff in Hok as [Hname Hargs].
    unfold is_name in Hname. apply andb_true_iff in Hname as [_ Hname].
    apply scan_passes_call; [exact Hname |].
    apply scan_passes_join. rewrite List.Forall_forall in IH.
    apply List.Forall_forall. intros t Ht. apply in_map_iff in Ht as (x & <- & Hx).
    apply IH; [exact Hx |]. rewrite forallb_forall in Hargs. now apply Hargs.
Qed.

(** The end of a nested call is its closing parenthesis. *)
Lemma extractNestedFuncExpr_text (pre post name body : string) :
  all_bytes validVarNameCharset name = true ->
  scan_passes body ->
  @extractNestedFuncExpr E
    (pre +:+ call_text name body +:+ post) (String.length pre)
  = inr (String.length pre + String.length (call_text name body) - 1)%nat.
Proof.
  intros Hname Hpass.
  unfold extractNestedFuncExpr. cbv zeta.
  rewrite call_text_app, call_text_length.
  rewrite (drop_bytes_app_plus pre _ 1). cbn [Go.drop_bytes].
  rewrite (name_end_app name (String Ch.lparen (body +:+ String Ch.rparen post))
             _ Hname eq_refl).
  replace (String.length pre + 1 + String.length name)%nat
    with (String.length pre + (1 + (String.length name + 0)))%nat by lia.
  rewrite (drop_bytes_app_plus pre). cbn [Nat.add Go.drop_bytes].
  rewrite (drop_bytes_app_plus name). cbn [Go.drop_bytes].
  rewrite Ascii.eqb_refl.
  cbn [nested_scan]. change (is_quote_byte Ch.lparen) with false.
  rewrite Ascii.eqb_refl. cbv iota.
  rewrite (Hpass _ _ _ (0 + 1)) by lia.
  cbn [nested_scan].
  change (is_quote_byte Ch.rparen) with false.
  change (Ascii.eqb Ch.rparen Ch.lparen) with false.
  rewrite Ascii.eqb_refl. cbn.
  f_equal. lia.
Qed.

Lemma args_scan_passes (args : list Arg) :
  forallb arg_ok args = true -> scan_passes (args_text args).
Proof.
  intros Hargs. apply scan_passes_join, List.Forall_forall. intros t Ht.
  apply in_map_iff in Ht as (x & <- & Hx). apply arg_scan_passes.
  rewrite forallb_forall in Hargs. now apply Hargs.
Qed.

(** *** The loop of [extractArgs] *)

(** Bytes stepped over behind a nested call. *)
Lemma extract_skip (src fn a s : string) (n : nat) (quote : option ascii)
    (arg : string) (args : list string) :
  loop src fn (a +:+ s) n (String.length a) quote arg args
  = loop src fn s (n + String.length a) O quote arg args.
Proof.
  revert n. induction a as [|c a IH]; intros n.
  - now rewrite append_nil_l, Nat.add_0_r.
  - rewrite append_cons. cbn [String.length extractArgs_loop].
    rewrite IH. f_equal. lia.
Qed.

(** Bare bytes behind the first one of an argument. *)
Lemma extract_bare (src fn a s : string) (n : nat) (arg : string)
    (args : list string) :
  is_empty arg = false ->
  all_bytes bare_byte a = true ->
  loop src fn (a +:+ s) n O None arg args
  = loop src fn s (n + String.length a) O None (arg +:+ a) args.
Proof.
  revert n arg. induction a as [|c a IH]; intros n arg Harg Ha.
  - now rewrite append_nil_l, append_nil_r, Nat.add_0_r.
  - cbn [all_bytes] in Ha. apply andb_true_iff in Ha as [Hc Ha].
    unfold bare_byte in Hc. andb_facts.
    rewrite append_cons. cbn [extractArgs_loop]. rewrite Harg, andb_false_r.
    repeat match goal with H : _ = false |- _ => rewrite H; clear H end.
    rewrite (IH _ _ (is_empty_snoc _ _) Ha).
    rewrite append_assoc, append_cons, append_nil_l.
    cbn [String.length]. f_equal. lia.
Qed.

(** A bare argument that does not start with a dollar. *)
Lemma extract_bare_arg (src fn a s : string) (n : nat) (args : list string) :
  all_bytes bare_byte a = true ->
  starts_with_dollar a = false ->
  loop src fn (a +:+ s) n O None EmptyString args
  = loop src fn s (n + String.length a) O None a args.
Proof.
  destruct a as [|c a]; intros Ha Hd.
  - now rewrite append_nil_l, Nat.add_0_r.
  - cbn [all_bytes] in Ha. apply andb_true_iff in Ha as [Hc Ha].
    cbn [starts_with_dollar] in Hd.
    unfold bare_byte in Hc. andb_facts.
    rewrite append_cons. cbn [extractArgs_loop]. rewrite Hd, andb_false_l.
    repeat match goal with H : _ = false |- _ => rewrite H; clear H end.
    rewrite append_nil_l, (extract_bare _ _ _ _ _ (String c EmptyString) _ eq_refl Ha).
    cbn [String.length]. f_equal. lia.
Qed.

(** The text between two quotes. *)
Lemma extract_quoted (src fn : string) (q : ascii) (a s : string) (n : nat)
    (arg : string) (args : list string) :
  all_bytes (other_than q) a = true ->
  loop src fn (a +:+ s) n O (Some q) arg args
  = loop src fn s (n + String.length a) O (Some q) (arg +:+ a) args.
Proof.
  revert n arg. induction a as [|c a IH]; intros n arg Ha.
  - now rewrite append_nil_l, append_nil_r, Nat.add_0_r.
  - cbn [all_bytes] in Ha. apply andb_true_iff in Ha as [Hc Ha].
    unfold other_than in Hc. apply negb_true_iff in Hc.
    rewrite append_cons. cbn [extractArgs_loop]. rewrite Hc.
    rewrite (IH _ _ Ha), append_assoc, append_cons, append_nil_l.
    cbn [String.length]. f_equal. lia.
Qed.

(** A nested call, where the argument starts: the whole expression is
    one argument. *)
Lemma extract_call (fn pre name body s : string) (args : list string) :
  all_bytes validVarNameCharset name = true ->
  scan_passes body ->
  let src := pre +:+ call_text name body +:+ s in
  loop src fn (call_text name body +:+ s) (String.length pre) O None
    EmptyString args
  = loop src fn s (String.length pre + String.length (call_text name body)) O
      None EmptyString (args ++ [call_text name body]).
Proof.
  intros Hname Hpass src.
  pose proof (extractNestedFuncExpr_text pre s name body Hname Hpass) as Hend.
  fold src in Hend.
  set (token := call_text name body) in *.
  assert (Htok : exists t, token = String Ch.dollar t) by (eexists; reflexivity).
  destruct Htok as [t Htok].
  assert (Hlen : String.length token = S (String.length t)) by now rewrite Htok.
  rewrite <- (take_bytes_append token s) at 3.
  rewrite Htok at 1. rewrite append_cons.
  cbn [extractArgs_loop]. change (is_quote_byte Ch.dollar) with false.
  rewrite Ascii.eqb_refl. cbn [is_empty andb]. cbv iota.
  rewrite Hend.
  replace (String.length pre + String.length token - 1 - String.length pre)%nat
    with (String.length t) by lia.
  replace (String.length pre + String.length token - 1 + 1 - String.length pre)%nat
    with (String.length token) by lia.
  rewrite extract_skip. rewrite <- append_cons, <- Htok.
  f_equal. lia.
Qed.

(** What the loop holds behind an argument: the bytes of a bare one
    not yet added, the arguments with a quoted one or a call added. *)
Definition arg_pending (p : Arg) : string :=
  match p with ArgBare a => a | _ => EmptyString end.

Definition arg_added (p : Arg) : list string :=
  match p with ArgBare _ => [] | _ => [arg_raw p] end.

Lemma extract_arg (fn pre s : string) (p : Arg) (args : list string) :
  arg_ok p = true ->
  let src := pre +:+ arg_text p +:+ s in
  loop src fn (arg_text p +:+ s) (String.length pre) O None EmptyString args
  = loop src fn s (String.length pre + String.length (arg_text p)) O None
      (arg_pending p) (args ++ arg_added p).
Proof.
  destruct p as [a | q a | name l];
    cbn [arg_ok arg_text arg_raw arg_pending arg_added]; intros Hok; cbv zeta.
  - apply andb_true_iff in Hok as [Hok Hd]. apply andb_true_iff in Hok as [_ Ha].
    apply negb_true_iff in Hd.
    now rewrite app_nil_r, (extract_bare_arg _ _ _ _ _ _ Ha Hd).
  - apply andb_true_iff in Hok as [Hq Ha].
    rewrite append_cons. cbn [extractArgs_loop]. rewrite Hq.
    rewrite append_assoc, (extract_quoted _ _ _ _ _ _ _ _ Ha), append_nil_l.
    rewrite append_cons, append_nil_l. cbn [extractArgs_loop].
    rewrite Ascii.eqb_refl. cbn [String.length]. rewrite length_app_str.
    cbn [String.length]. f_equal. lia.
  - apply andb_true_iff in Hok as [Hname Hargs].
    unfold is_name in Hname. apply andb_true_iff in Hname as [_ Hname].
    apply extract_call; [exact Hname | now apply args_scan_passes].
Qed.

Lemma arg_pending_added (p : Arg) (args : list string) :
  arg_ok p = true ->
  (if negb (is_empty (arg_pending p))
   then (args ++ arg_added p) ++ [arg_pending p] else args ++ arg_added p)
  = args ++ [arg_raw p].
Proof.
  destruct p as [a | q a | name l]; cbn [arg_ok arg_pending arg_added arg_raw];
    intros Hok; [| reflexivity | reflexivity].
  apply andb_true_iff in Hok as [Hok _]. apply andb_true_iff in Hok as [Ha _].
  destruct a; [discriminate |]. cbn. now rewrite app_nil_r.
Qed.

Lemma arg_pending_no_dollar (p : Arg) :
  arg_ok p = true -> starts_with_dollar (arg_pending p) = false.
Proof.
  destruct p as [a | q a | name l]; cbn [arg_ok arg_pending]; intros Hok;
    [| reflexivity | reflexivity].
  apply andb_true_iff in Hok as [_ Hd]. now apply negb_true_iff in Hd.
Qed.

(** The last argument, in front of the closing parenthesis. *)
Lemma extract_last (fn pre post : string) (p : Arg) (args : list string) :
  arg_ok p = true ->
  let src := pre +:+ arg_text p +:+ String Ch.rparen post in
  loop src fn (arg_text p +:+ String Ch.rparen post) (String.length pre) O None
    EmptyString args
  = inr (args ++ [arg_raw p], (String.length pre + String.length (arg_text p))%nat).
Proof.
  intros Hok src. unfold src. rewrite (extract_arg _ _ _ _ _ Hok).
  cbn [extractArgs_loop]. change (is_quote_byte Ch.rparen) with false.
  change (Ascii.eqb Ch.rparen Ch.dollar) with false. rewrite andb_false_l.
  rewrite Ascii.eqb_refl. cbv iota.
  now rewrite (arg_pending_added _ _ Hok).
Qed.

(** An argument followed by a comma and a space. *)
Lemma extract_next (fn pre s : string) (p : Arg) (args : list string) :
  arg_ok p = true ->
  let src := pre +:+ arg_text p +:+ String Cv.comma (String Ch.space s) in
  loop src fn (arg_text p +:+ String Cv.comma (String Ch.space s))
    (String.length pre) O None EmptyString args
  = loop src fn s (String.length pre + String.length (arg_text p) + 2) O None
      EmptyString (args ++ [arg_raw p]).
Proof.
  intros Hok src. unfold src. rewrite (extract_arg _ _ _ _ _ Hok).
  cbn [extractArgs_loop]. change (is_quote_byte Cv.comma) with false.
  change (Ascii.eqb Cv.comma Ch.dollar) with false. rewrite andb_false_l.
  change (Ascii.eqb Cv.comma Ch.rparen) with false.
  rewrite Ascii.eqb_refl. cbv iota.
  change (is_quote_byte Ch.space) with false.
  change (Ascii.eqb Ch.space Ch.dollar) with false.
  change (Ascii.eqb Ch.space Ch.rparen) with false.
  change (Ascii.eqb Ch.space Cv.comma) with false.
  change (is_arg_space Ch.space) with true. cbv iota.
  rewrite <- (arg_pending_added _ args Hok).
  destruct (arg_pending p) as [|c a]; cbn [is_empty negb]; f_equal; lia.
Qed.

Lemma extract_args_loop (fn pre post : string) (l : list Arg) (args : list string) :
  forallb arg_ok l = true ->
  let src := pre +:+ args_text l +:+ String Ch.rparen post in
  loop src fn (args_text l +:+ String Ch.rparen post) (String.length pre) O None
    EmptyString args
  = inr (args ++ map arg_raw l, (String.length pre + String.length (args_text l))%nat).
Proof.
  revert pre args. induction l as [|p l IH]; intros pre args Hok src.
  - cbn. now rewrite app_nil_r, Nat.add_0_r.
  - cbn [forallb] in Hok. apply andb_true_iff in Hok as [Hp Hl].
    destruct l as [|p' l'].
    + now apply extract_last.
    + unfold src. rewrite args_text_cons2.
      rewrite append_assoc, !append_cons.
      rewrite (extract_next _ _ _ _ _ Hp).
      set (sep := String Cv.comma (String Ch.space EmptyString)).
      specialize (IH (pre +:+ arg_text p +:+ sep) (args ++ [arg_raw p]) Hl).
      cbv zeta in IH. unfold sep in IH.
      rewrite !append_assoc, !append_cons, append_nil_l in IH.
      rewrite !length_app_str in IH. cbn [String.length] in IH.
      rewrite Nat.add_assoc in IH. rewrite IH.
      rewrite length_app_str. cbn [String.length map].
      rewrite <- app_assoc. cbn [app]. f_equal. f_equal. lia.
Qed.

Lemma extractArgs_call (pre name post : string) (l : list Arg) :
  IndexByte name Ch.lparen = None ->
  forallb arg_ok l = true ->
  @extractArgs E
    (pre +:+ name +:+ String Ch.lparen (args_text l +:+ String Ch.rparen post))
    (String.length pre) name
  = inr (map arg_raw l,
         (String.length pre + String.length name + 1
          + String.length (args_text l))%nat).
Proof.
  intros Hname Hok. unfold extractArgs.
  rewrite drop_bytes_append, (IndexByte_append _ _ _ Hname).
  cbv zeta.
  replace (String.length name + String.length pre + 1)%nat
    with (String.length pre + (String.length name + 1))%nat by lia.
  rewrite drop_bytes_app_plus.
  replace (String.length name + 1)%nat with (String.length name + 1)%nat by lia.
  rewrite drop_bytes_app_plus. cbn [Go.drop_bytes].
  pose proof (extract_args_loop name
                (pre +:+ name +:+ String Ch.lparen EmptyString) post l [] Hok) as H.
  cbv zeta in H.
  rewrite !append_assoc, !append_cons, append_nil_l in H.
  rewrite !length_app_str in H. cbn [String.length] in H.
  rewrite H. cbn [app]. f_equal. f_equal. lia.
Qed.

(** X24.  For a variable written as its name, an opening parenthesis,
    arguments separated by a comma and a space, and a closing
    parenthesis, where an argument is bare, quoted, or a nested call
    [$name(...)] with such arguments of its own, [extractArgs] returns
    the arguments in order and the index of the closing parenthesis: a
    bare argument as written, a quoted one without its quotes, and a
    nested call as its whole text, from the dollar to its closing
    parenthesis. *)
Theorem extractArgs_arguments (pre name post : string) (l : list Arg) :
  IndexByte name Ch.lparen = None ->
  forallb arg_ok l = true ->
  let src := pre +:+ name
             +:+ String Ch.lparen (args_text l +:+ String Ch.rparen post) in
  exists nextIdx,
    @extractArgs E src (String.length pre) name = inr (map arg_raw l, nextIdx)
    /\ Go.drop_bytes nextIdx src = String Ch.rparen post.
Proof.
  intros Hname Hok src. eexists. split.
  - apply extractArgs_call; assumption.
  - unfold src.
    replace (String.length pre + String.length name + 1
             + String.length (args_text l))%nat
      with (String.length pre
            + (String.length name + (1 + (String.length (args_text l) + 0))))%nat
      by lia.
    rewrite !drop_bytes_app_plus. cbn [Nat.add Go.drop_bytes].
    rewrite drop_bytes_app_plus. reflexivity.
Qed.

(** The loop returns at a closing parenthesis only. *)
Lemma extractArgs_loop_stops (src fn rest : string) (n skip : nat)
    (quote : option ascii) (arg : string) (args res : list string) (nextIdx : nat) :
  loop src fn rest n skip quote arg args = inr (res, nextIdx) ->
  exists k rest', nextIdx = (n + k)%nat
                  /\ Go.drop_bytes k rest = String Ch.rparen rest'.
Proof.
  revert n skip quote arg args.
  induction rest as [|ch rest IH]; intros n skip quote arg args H.
  - cbn in H. destruct quote; discriminate.
  - cbn [extractArgs_loop] in H.
    assert (Hstep : forall k q a l,
              loop src fn rest (S n) k q a l = inr (res, nextIdx) ->
              exists k rest', nextIdx = (n + k)%nat
                /\ Go.drop_bytes k (String ch rest) = String Ch.rparen rest').
    { intros k0 q a l Hl. destruct (IH _ _ _ _ _ Hl) as (k & rest' & -> & Hk).
      exists (S k), rest'. split; [lia | exact Hk]. }
    destruct skip as [|skip]; [| eapply Hstep; exact H].
    destruct quote as [q|].
    + destruct (Ascii.eqb ch q); eapply Hstep; exact H.
    + destruct (is_quote_byte ch); [eapply Hstep; exact H |].
      destruct (Ascii.eqb ch Ch.dollar && is_empty arg).
      { destruct (extractNestedFuncExpr src n); [discriminate |].
        eapply Hstep; exact H. }
      destruct (Ascii.eqb_spec ch Ch.rparen) as [-> | _].
      * injection H as _ <-. exists O, rest. split; [lia | reflexivity].
      * destruct (Ascii.eqb ch Cv.comma).
        -- destruct (negb (is_empty arg)); eapply Hstep; exact H.
        -- destruct (is_arg_space ch); eapply Hstep; exact H.
Qed.

(** X25.  When [extractArgs] succeeds, the index it returns is that of
    a closing parenthesis of [src], behind an opening parenthesis that
    is at or behind the index [i] where the search started. *)
Theorem extractArgs_closing_paren (src : string) (i : nat) (funcName : string)
    (args : list string) (nextIdx : nat) :
  @extractArgs E src i funcName = inr (args, nextIdx) ->
  String.get nextIdx src = Some Ch.rparen
  /\ exists parenIdx, (i <= parenIdx < nextIdx)%nat
                      /\ String.get parenIdx src = Some Ch.lparen.
Proof.
  unfold extractArgs.
  destruct (IndexByte (Go.drop_bytes i src) Ch.lparen) as [p|] eqn:Hp;
    [| discriminate].
  cbv zeta. intros H.
  destruct (extractArgs_loop_stops _ _ _ _ _ _ _ _ _ _ H) as (k & rest' & -> & Hk).
  rewrite drop_bytes_plus in Hk. split.
  - replace (p + i + 1 + k)%nat with (k + (p + i + 1))%nat by lia.
    now apply drop_get in Hk as [Hk _].
  - exists (p + i)%nat. split; [lia |].
    rewrite <- get_drop. now apply IndexByte_get.
Qed.

End ExtractArgsFacts.

Definition src_header_call : string :=
  "x $header(Accept, 'a, b', $cookie($arg(k), 'c)')) y".

Definition args_header_call : list Arg :=
  [ArgBare "Accept"; ArgQuoted Ch.squote "a, b";
   ArgCall "cookie" [ArgCall "arg" [ArgBare "k"]; ArgQuoted Ch.squote "c)"]].

Lemma extractArgs_arguments_witness :
  let src := "x $" +:+ "header"
             +:+ String Ch.lparen
                   (args_text args_header_call +:+ String Ch.rparen " y") in
  exists nextIdx,
    @extractArgs unit src 3 "header"
    = inr (["Accept"; "a, b"; "$cookie($arg(k), 'c)')"], nextIdx)
    /\ Go.drop_bytes nextIdx src = String Ch.rparen " y".
Proof.
  apply (extractArgs_arguments (E := unit) "x $" "header" " y" args_header_call);
    reflexivity.
Defined.

Lemma extractArgs_closing_paren_witness :
  String.get 48 src_header_call = Some Ch.rparen
  /\ exists parenIdx, (3 <= parenIdx < 48)%nat
                      /\ String.get parenIdx src_header_call = Some Ch.lparen.
Proof.
  apply (extractArgs_closing_paren (E := unit) src_header_call 3 "header"
           ["Accept"; "a, b"; "$cookie($arg(k), 'c)')"]).
  reflexivity.
Defined.

(** The first opening parenthesis behind the name is taken, also when
    it does not follow the name; an argument is closed by a quote, so
    that text before an opening quote is joined with the quoted text; a
    dollar starts a nested call only where an argument starts. *)
Example extractArgs_far_paren :
  @extractArgs unit "$header Accept (q) z" 1 "header" = inr (["q"], 17%nat)
  /\ @extractArgs unit "$f(a'b c'd)" 1 "f" = inr (["ab c"; "d"], 10%nat)
  /\ @extractArgs unit "$f(a, 'b" 1 "f" = inl (ErrUnterminatedQuotesIn "f")
  /\ @extractArgs unit "$f(a, b" 1 "f" = inl (ErrUnterminatedParenthesis "f" None)
  /\ @extractArgs unit "$f a" 1 "f" = inl (ErrUnterminatedParenthesis "f" (Some 1%nat))
  /\ @extractArgs unit "$f($g(a), b)" 1 "f" = inr (["$g(a)"; "b"], 11%nat)
  /\ @extractArgs unit "$f(x$g(a), b)" 1 "f" = inr (["x$g(a"], 8%nat)
  /\ @extractArgs unit "$f($g, b)" 1 "f" = inl (ErrUnterminatedParenthesisNested 3)
  /\ @extractArgs unit "$f($g('a)" 1 "f" = inl (ErrUnterminatedQuotesNested 3)
  /\ @extractArgs unit "$f($g(a)" 1 "f" = inl (ErrUnterminatedParenthesis "f" None).
Proof. repeat split; reflexivity. Qed.

(** *** Templates *)

Definition no_dollar (c : ascii) : bool := negb (Ascii.eqb c Ch.dollar).

Definition has_key {A} (m : gmap string A) (k : string) : bool :=
  match m !! k with Some _ => true | None => false end.

Lemma has_key_true {A} (m : gmap string A) (k : string) :
  has_key m k = true -> exists v, m !! k = Some v.
Proof. unfold has_key. destruct (m !! k); [eauto | discriminate]. Qed.

Lemma has_key_false {A} (m : gmap string A) (k : string) :
  has_key m k = false -> m !! k = None.
Proof. unfold has_key. destruct (m !! k); [discriminate | reflexivity]. Qed.

(** The arguments [extractArgs] returns are shorter than the text they
    are taken from. *)
Lemma extractArgs_loop_bound {E} (bound : nat) (src fn rest : string)
    (n skip : nat) (quote : option ascii) (arg : string)
    (args res : list string) (nextIdx : nat) :
  List.Forall (fun a => (String.length a <= bound)%nat) args ->
  (String.length arg + String.length rest <= bound)%nat ->
  @extractArgs_loop E src fn rest n skip quote arg args = inr (res, nextIdx) ->
  List.Forall (fun a => (String.length a <= bound)%nat) res.
Proof.
  revert n skip quote arg args.
  induction rest as [|ch rest IH]; intros n skip quote arg args Hargs Hlen H.
  - cbn in H. destruct quote; discriminate.
  - cbn [extractArgs_loop] in H. cbn [String.length] in Hlen.
    assert (Hadd : forall a, (String.length a <= bound)%nat ->
              List.Forall (fun a => (String.length a <= bound)%nat) (args ++ [a])).
    { intros a Ha. apply List.Forall_app. split; [exact Hargs |].
      constructor; [exact Ha | constructor]. }
    assert (Hsnoc : String.length (arg +:+ String ch EmptyString)
                    = S (String.length arg)).
    { rewrite length_app_str. cbn [String.length]. lia. }
    destruct skip as [|skip]; [| eapply IH; [| | exact H]; [assumption | lia]].
    destruct quote as [q|].
    + destruct (Ascii.eqb ch q).
      * eapply IH; [| | exact H]; [apply Hadd; lia | cbn; lia].
      * eapply IH; [| | exact H]; [assumption | lia].
    + destruct (is_quote_byte ch);
        [eapply IH; [| | exact H]; [assumption | lia] |].
      destruct (Ascii.eqb ch Ch.dollar && is_empty arg).
      { destruct (extractNestedFuncExpr src n) as [e | nestedEnd];
          [discriminate |].
        eapply IH; [| | exact H]; [| lia].
        apply Hadd.
        pose proof (take_bytes_length (nestedEnd + 1 - n) (String ch rest)) as Ht.
        cbn [String.length] in Ht. lia. }
      destruct (Ascii.eqb ch Ch.rparen).
      * injection H as <- _.
        destruct (negb (is_empty arg)); [apply Hadd; lia | exact Hargs].
      * destruct (Ascii.eqb ch Cv.comma).
        -- destruct (negb (is_empty arg)).
           ++ eapply IH; [| | exact H]; [apply Hadd; lia | cbn; lia].
           ++ eapply IH; [| | exact H]; [assumption | lia].
        -- destruct (is_arg_space ch).
           ++ eapply IH; [| | exact H]; [assumption | lia].
           ++ eapply IH; [| | exact H]; [assumption | lia].
Qed.

Lemma extractArgs_shorter {E} (src : string) (i : nat) (funcName : string)
    (args : list string) (nextIdx : nat) :
  @extractArgs E src i funcName = inr (args, nextIdx) ->
  List.Forall (fun a => (String.length a < String.length src)%nat) args.
Proof.
  unfold extractArgs.
  destruct (IndexByte (Go.drop_bytes i src) Ch.lparen) as [p|] eqn:Hp;
    [| discriminate].
  cbv zeta. intros H.
  apply IndexByte_get in Hp. rewrite get_drop in Hp.
  assert (Hlt : (p + i < String.length src)%nat).
  { clear H. revert Hp. generalize (p + i)%nat as k. intros k. revert src.
    induction k as [|k IH]; intros [|c s] Hk; try discriminate; cbn.
    - lia.
    - cbn in Hk. specialize (IH _ Hk). lia. }
  eapply List.Forall_impl;
    [| eapply (extractArgs_loop_bound (String.length src - 1));
       [constructor | | exact H]].
  - cbn beta. intros a Ha. lia.
  - rewrite drop_bytes_length. cbn [String.length]. lia.
Qed.

Section ExpandVarsFacts.

Context {W Req E : Type}.
Variable dynamicVarSubsMap : gmap string (@dynamicVarGetter W Req E).
Variable staticReqVarSubsMap : gmap string (Req -> string).
Variable staticRespVarSubsMap : gmap string (W -> string).
Variable w : W.
Variable req : Req.

Abbreviation loop_with :=
  (ExpandVars_loop dynamicVarSubsMap staticReqVarSubsMap staticRespVarSubsMap).
Abbreviation expand_fuel :=
  (ExpandVars_fuel dynamicVarSubsMap staticReqVarSubsMap staticRespVarSubsMap).
Abbreviation expand :=
  (ExpandVars dynamicVarSubsMap staticReqVarSubsMap staticRespVarSubsMap w req).

(** *** The depth of the nested calls *)

Lemma expandArgs_ext (e1 e2 : W -> Req -> string -> option (@Expanded E))
    (args : list string) (phase : PhaseFlag) :
  List.Forall (fun a => e1 w req a = e2 w req a) args ->
  expandArgs e1 args w req phase = expandArgs e2 args w req phase.
Proof.
  intros Hall. revert phase.
  induction Hall as [|a args Ha _ IH]; intros phase; [reflexivity |].
  cbn [expandArgs]. rewrite Ha.
  destruct (starts_with_dollar a).
  - destruct (e2 w req a) as [[[p buf] [err|]]|]; try reflexivity.
    now rewrite IH.
  - now rewrite IH.
Qed.

Lemma expandArgs_total (e : W -> Req -> string -> option (@Expanded E))
    (args : list string) (phase : PhaseFlag) :
  List.Forall (fun a => e w req a <> None) args ->
  expandArgs e args w req phase <> None.
Proof.
  intros Hall. revert phase.
  induction Hall as [|a args Ha _ IH]; intros phase; [discriminate |].
  cbn [expandArgs].
  destruct (starts_with_dollar a).
  - destruct (e w req a) as [[[p buf] [err|]]|]; try discriminate; [| contradiction].
    specialize (IH (Z.lor phase p)).
    destruct (expandArgs e args w req (Z.lor phase p)) as [[err | [l ph]]|];
      [discriminate | discriminate | contradiction].
  - specialize (IH phase).
    destruct (expandArgs e args w req phase) as [[err | [l ph]]|];
      [discriminate | discriminate | contradiction].
Qed.

(** The loop asks [expand] about texts shorter than [src] only. *)
Lemma ExpandVars_loop_ext (e1 e2 : W -> Req -> string -> option (@Expanded E))
    (src : string) :
  (forall a, (String.length a < String.length src)%nat ->
             e1 w req a = e2 w req a) ->
  forall rest i skip phase dst,
    loop_with e1 w req src rest i skip phase dst
    = loop_with e2 w req src rest i skip phase dst.
Proof.
  intros Hext rest.
  induction rest as [|ch rest IH]; intros i skip phase dst; [reflexivity |].
  cbn [ExpandVars_loop].
  destruct skip as [|skip]; [| apply IH].
  destruct (negb (Ascii.eqb ch Ch.dollar)); [apply IH |].
  destruct rest as [|cj afterj]; [reflexivity |].
  destruct (Ascii.eqb cj Ch.dollar); [apply IH |].
  destruct (Ascii.eqb cj Ch.lbrace); [apply IH |].
  destruct (validVarNameCharset cj); [| reflexivity].
  cbv zeta.
  destruct (dynamicVarSubsMap !! _) as [getter|].
  - destruct (extractArgs src (S i) _) as [err | [args nextIdx]] eqn:Hargs;
      [reflexivity |].
    apply extractArgs_shorter in Hargs.
    rewrite (expandArgs_ext e1 e2).
    2:{ eapply List.Forall_impl; [| exact Hargs]. exact Hext. }
    destruct (expandArgs e2 args w req PhaseNone) as [[err | [args' argPhase]]|];
      try reflexivity.
    destruct (dv_get getter args' w req); [reflexivity | apply IH].
  - destruct (staticReqVarSubsMap !! _); [apply IH |].
    destruct (staticRespVarSubsMap !! _); [apply IH | reflexivity].
Qed.

Lemma ExpandVars_loop_total (e : W -> Req -> string -> option (@Expanded E))
    (src : string) :
  (forall a, (String.length a < String.length src)%nat -> e w req a <> None) ->
  forall rest i skip phase dst,
    loop_with e w req src rest i skip phase dst <> None.
Proof.
  intros Htot rest.
  induction rest as [|ch rest IH]; intros i skip phase dst; [discriminate |].
  cbn [ExpandVars_loop].
  destruct skip as [|skip]; [| apply IH].
  destruct (negb (Ascii.eqb ch Ch.dollar)); [apply IH |].
  destruct rest as [|cj afterj]; [discriminate |].
  destruct (Ascii.eqb cj Ch.dollar); [apply IH |].
  destruct (Ascii.eqb cj Ch.lbrace); [apply IH |].
  destruct (validVarNameCharset cj); [| discriminate].
  cbv zeta.
  destruct (dynamicVarSubsMap !! _) as [getter|].
  - destruct (extractArgs src (S i) _) as [err | [args nextIdx]] eqn:Hargs;
      [discriminate |].
    apply extractArgs_shorter in Hargs.
    pose proof (expandArgs_total e args PhaseNone) as Hex.
    destruct (expandArgs e args w req PhaseNone) as [[err | [args' argPhase]]|].
    + discriminate.
    + destruct (dv_get getter args' w req); [discriminate | apply IH].
    + exfalso. apply Hex; [| reflexivity].
      eapply List.Forall_impl; [| exact Hargs]. exact Htot.
  - destruct (staticReqVarSubsMap !! _); [apply IH |].
    destruct (staticRespVarSubsMap !! _); [apply IH | discriminate].
Qed.

Lemma ExpandVars_fuel_stable (n : nat) :
  forall src fuel1 fuel2,
    (String.length src <= n)%nat ->
    (String.length src < fuel1)%nat -> (String.length src < fuel2)%nat ->
    expand_fuel fuel1 w req src = expand_fuel fuel2 w req src
    /\ expand_fuel fuel1 w req src <> None.
Proof.
  induction n as [|n IH]; intros src [|fuel1] [|fuel2] Hn H1 H2; try lia;
    cbn [ExpandVars_fuel]; split.
  - apply ExpandVars_loop_ext. intros a Ha. lia.
  - apply ExpandVars_loop_total. intros a Ha. lia.
  - apply ExpandVars_loop_ext. intros a Ha. apply IH; lia.
  - apply ExpandVars_loop_total. intros a Ha.
    apply (IH a fuel1 fuel1); lia.
Qed.

(** The fuel [ExpandVars] gives is enough, and more changes nothing. *)
Lemma ExpandVars_fuel_enough (fuel : nat) (src : string) :
  (String.length src < fuel)%nat ->
  expand_fuel fuel w req src = Some (expand src).
Proof.
  intros Hfuel. unfold ExpandVars.
  destruct (ExpandVars_fuel_stable (String.length src) src fuel
              (S (String.length src))) as [Heq Hsome]; try lia.
  rewrite <- Heq.
  destruct (expand_fuel fuel w req src); [reflexivity | contradiction].
Qed.

(** [ExpandVars] is its loop, which calls [ExpandVars] on the arguments
    that start with a dollar. *)
Abbreviation xloop :=
  (loop_with (fun w' req' arg => Some
     (ExpandVars dynamicVarSubsMap staticReqVarSubsMap staticRespVarSubsMap
        w' req' arg)) w req).

Lemma ExpandVars_unfold (src : string) :
  xloop src src O O PhaseNone EmptyString = Some (expand src).
Proof.
  rewrite <- (ExpandVars_fuel_enough (S (String.length src))) by lia.
  cbn [ExpandVars_fuel]. symmetry. apply ExpandVars_loop_ext.
  intros a Ha. now apply ExpandVars_fuel_enough.
Qed.

(** *** The pieces of a template *)

(** Text without dollars, the escape [$$], the opening [${] of an
    environment variable, a static variable of the request or of the
    response, a function-like variable with its arguments. *)
Inductive Piece :=
| PText (text : string)
| PDollar
| PEnvOpen
| PReqVar (name : string)
| PRespVar (name : string)
| PFunc (name : string) (args : list Arg).

Definition piece_text (p : Piece) : string :=
  match p with
  | PText text => text
  | PDollar => String Ch.dollar (String Ch.dollar EmptyString)
  | PEnvOpen => String Ch.dollar (String Ch.lbrace EmptyString)
  | PReqVar name | PRespVar name => String Ch.dollar name
  | PFunc name args => call_text name (args_text args)
  end.

Definition tmpl_text (ps : list Piece) : string :=
  fold_right (fun p acc => piece_text p +:+ acc) EmptyString ps.

(** The values of the arguments in order, with the phases they ask for
    joined to [phase]; [None] where an argument has no value. *)
Fixpoint collect (phase : PhaseFlag) (l : list (option (PhaseFlag * string)))
  : option (list string * PhaseFlag) :=
  match l with
  | [] => Some ([], phase)
  | None :: _ => None
  | Some (p, v) :: l' =>
    match collect (Z.lor phase p) l' with
    | Some (vs, phase') => Some (v :: vs, phase')
    | None => None
    end
  end.

(** What a call of a function-like variable expands to, from the values
    of its arguments: what its getter returns for them, in the phase of
    the getter joined with those of the arguments. *)
Definition call_value (name : string) (l : list (option (PhaseFlag * string)))
  : option (PhaseFlag * string) :=
  match dynamicVarSubsMap !! name with
  | Some getter =>
    match collect PhaseNone l with
    | Some (vals, argPhase) =>
      match dv_get getter vals w req with
      | inr actual => Some (Z.lor (dv_phase getter) argPhase, actual)
      | inl _ => None
      end
    | None => None
    end
  | None => None
  end.

(** The value of an argument and the phase it asks for: a bare or
    quoted argument is its own text, a nested call is expanded.  A
    quoted argument whose text starts with a dollar is a template of
    its own and is given no value here. *)
Fixpoint arg_value (a : Arg) : option (PhaseFlag * string) :=
  match a with
  | ArgBare s => Some (PhaseNone, s)
  | ArgQuoted _ s => if starts_with_dollar s then None else Some (PhaseNone, s)
  | ArgCall name args => call_value name (map arg_value args)
  end.

Definition is_some {A} (o : option A) : bool :=
  match o with Some _ => true | None => false end.

(** What a piece needs to be read as such; [next] is the text behind
    it, where a name must end. *)
Definition piece_ok (p : Piece) (next : string) : bool :=
  match p with
  | PText text => all_bytes no_dollar text
  | PDollar | PEnvOpen => true
  | PReqVar name =>
    is_name name && negb (starts_name next)
    && negb (has_key dynamicVarSubsMap name)
    && has_key staticReqVarSubsMap name
  | PRespVar name =>
    is_name name && negb (starts_name next)
    && negb (has_key dynamicVarSubsMap name)
    && negb (has_key staticReqVarSubsMap name)
    && has_key staticRespVarSubsMap name
  | PFunc name args =>
    arg_ok (ArgCall name args) && is_some (arg_value (ArgCall name args))
  end.

Fixpoint tmpl_ok (ps : list Piece) (tail : string) : bool :=
  match ps with
  | [] => true
  | p :: ps' => piece_ok p (tmpl_text ps' +:+ tail) && tmpl_ok ps' tail
  end.

(** What a piece expands to. *)
Definition piece_value (p : Piece) : string :=
  match p with
  | PText text => text
  | PDollar => String Ch.dollar EmptyString
  | PEnvOpen => String Ch.dollar (String Ch.lbrace EmptyString)
  | PReqVar name =>
    match staticReqVarSubsMap !! name with
    | Some getter => getter req
    | None => EmptyString
    end
  | PRespVar name =>
    match staticRespVarSubsMap !! name with
    | Some getter => getter w
    | None => EmptyString
    end
  | PFunc name args =>
    match arg_value (ArgCall name args) with
    | Some (_, actual) => actual
    | None => EmptyString
    end
  end.

(** The phase a piece asks for. *)
Definition piece_phase (p : Piece) : PhaseFlag :=
  match p with
  | PRespVar _ => PhasePost
  | PFunc name args =>
    match arg_value (ArgCall name args) with
    | Some (phase, _) => phase
    | None => PhaseNone
    end
  | _ => PhaseNone
  end.

Definition tmpl_value (ps : list Piece) : string :=
  fold_right (fun p acc => piece_value p +:+ acc) EmptyString ps.

Definition tmpl_phase (ps : list Piece) : PhaseFlag :=
  fold_right (fun p acc => Z.lor (piece_phase p) acc) PhaseNone ps.

Lemma text_run (src t next : string) (i : nat) (phase : PhaseFlag) (dst : string) :
  all_bytes no_dollar t = true ->
  xloop src (t +:+ next) i O phase dst
  = xloop src next (i + String.length t) O phase (dst +:+ t).
Proof.
  revert i dst. induction t as [|c t IH]; intros i dst Ht.
  - now rewrite append_nil_l, append_nil_r, Nat.add_0_r.
  - cbn [all_bytes] in Ht. apply andb_true_iff in Ht as [Hc Ht].
    rewrite append_cons. cbn [ExpandVars_loop]. unfold no_dollar in Hc.
    rewrite Hc, (IH _ _ Ht), append_assoc. cbn [String.length].
    now replace (S i + String.length t)%nat with (i + S (String.length t))%nat by lia.
Qed.

Lemma skip_run (src a next : string) (i : nat) (phase : PhaseFlag) (dst : string) :
  xloop src (a +:+ next) i (String.length a) phase dst
  = xloop src next (i + String.length a) O phase dst.
Proof.
  revert i. induction a as [|c a IH]; intros i.
  - now rewrite append_nil_l, Nat.add_0_r.
  - rewrite append_cons. cbn [String.length ExpandVars_loop]. rewrite IH.
    now replace (S i + String.length a)%nat with (i + S (String.length a))%nat by lia.
Qed.

(** The step at the dollar of a variable. *)
Lemma var_head (src name next : string) (i : nat) (phase : PhaseFlag) (dst : string) :
  is_name name = true ->
  starts_name next = false ->
  xloop src (String Ch.dollar (name +:+ next)) i O phase dst
  = match dynamicVarSubsMap !! name with
    | Some getter =>
      let phase := Z.lor phase (dv_phase getter) in
      match extractArgs src (S i) name with
      | inl err => Some (phase, dst, Some err)
      | inr (args, nextIdx) =>
        match expandArgs (fun w' req' arg => Some
                (ExpandVars dynamicVarSubsMap staticReqVarSubsMap
                   staticRespVarSubsMap w' req' arg)) args w req PhaseNone with
        | None => None
        | Some (inl err) => Some (phase, dst, Some err)
        | Some (inr (args, argPhase)) =>
          let phase := Z.lor phase argPhase in
          match dv_get getter args w req with
          | inl err => Some (phase, dst, Some (ErrGetter err))
          | inr actual =>
            xloop src (name +:+ next) (S i) (nextIdx - i) phase (dst +:+ actual)
          end
        end
      end
    | None =>
      match staticReqVarSubsMap !! name with
      | Some getter =>
        xloop src (name +:+ next) (S i) (String.length name) phase
          (dst +:+ getter req)
      | None =>
        match staticRespVarSubsMap !! name with
        | Some getter =>
          xloop src (name +:+ next) (S i) (String.length name)
            (Z.lor phase PhasePost) (dst +:+ getter w)
        | None => Some (phase, dst, Some (ErrUnexpectedVar name))
        end
      end
    end.
Proof.
  unfold is_name. intros Hn Hs. apply andb_true_iff in Hn as [Hne Hn].
  destruct name as [|c name']; [discriminate |].
  pose proof Hn as Hc. cbn [all_bytes] in Hc. apply andb_true_iff in Hc as [Hc _].
  destruct (name_byte_facts c Hc) as (H1 & H2 & _).
  rewrite append_cons.
  cbn [ExpandVars_loop]. rewrite Ascii.eqb_refl. cbn [negb].
  rewrite H1, H2, Hc. cbv zeta.
  change (String c (name' +:+ next)) with (String c name' +:+ next).
  rewrite (name_end_app _ _ _ Hn Hs).
  replace (S i + String.length (String c name') - S i)%nat
    with (String.length (String c name')) by lia.
  rewrite take_bytes_append. reflexivity.
Qed.

(** *** Nested calls *)

(** What [expandArgs] makes of an argument that has a value. *)
Definition arg_expands (a : Arg) (phase : PhaseFlag) (value : string) : Prop :=
  if starts_with_dollar (arg_raw a)
  then expand (arg_raw a) = (phase, value, None)
  else phase = PhaseNone /\ value = arg_raw a.

Definition args_expand (args : list Arg) : Prop :=
  List.Forall
    (fun a => forall phase value,
                arg_value a = Some (phase, value) -> arg_expands a phase value)
    args.

Lemma expandArgs_collect (args : list Arg) (phase phase' : PhaseFlag)
    (vals : list string) :
  args_expand args ->
  collect phase (map arg_value args) = Some (vals, phase') ->
  expandArgs (fun w' req' arg => Some
       (ExpandVars dynamicVarSubsMap staticReqVarSubsMap staticRespVarSubsMap
          w' req' arg)) (map arg_raw args) w req phase
  = Some (inr (vals, phase')).
Proof.
  intros Hall. revert phase vals.
  induction Hall as [|a args Ha _ IH]; intros phase vals Hc.
  - cbn in Hc. injection Hc as <- <-. reflexivity.
  - cbn [map collect] in Hc.
    destruct (arg_value a) as [[p v]|] eqn:Hv; [| discriminate].
    destruct (collect (Z.lor phase p) (map arg_value args)) as [[vs ph]|] eqn:Hrest;
      [| discriminate].
    injection Hc as <- <-.
    specialize (Ha _ _ eq_refl). unfold arg_expands in Ha.
    cbn [map expandArgs].
    destruct (starts_with_dollar (arg_raw a)).
    + rewrite Ha, (IH _ _ Hrest). reflexivity.
    + destruct Ha as [-> ->]. unfold PhaseNone in Hrest.
      rewrite Z.lor_0_r in Hrest. rewrite (IH _ _ Hrest). reflexivity.
Qed.

(** A call, whose arguments expand to their values: the loop writes
    what the getter returns and goes on behind the closing
    parenthesis. *)
Lemma call_run (name : string) (args : list Arg) (p : PhaseFlag) (v : string)
    (pre next : string) (phase : PhaseFlag) (dst : string) :
  arg_ok (ArgCall name args) = true ->
  args_expand args ->
  call_value name (map arg_value args) = Some (p, v) ->
  let src := pre +:+ call_text name (args_text args) +:+ next in
  xloop src (call_text name (args_text args) +:+ next) (String.length pre) O
    phase dst
  = xloop src next
      (String.length pre + String.length (call_text name (args_text args))) O
      (Z.lor phase p) (dst +:+ v).
Proof.
  intros Hok Hexp Hval src. cbn [arg_ok] in Hok.
  apply andb_true_iff in Hok as [Hname Hargs].
  unfold call_value in Hval.
  destruct (dynamicVarSubsMap !! name) as [g|] eqn:Hg; [| discriminate].
  destruct (collect PhaseNone (map arg_value args)) as [[vals argPhase]|] eqn:Hcol;
    [| discriminate].
  destruct (dv_get g vals w req) as [e|actual] eqn:Hact; [discriminate |].
  injection Hval as <- <-.
  assert (Hsrc : src = (pre +:+ String Ch.dollar EmptyString) +:+ name
                       +:+ String Ch.lparen (args_text args +:+ String Ch.rparen next)).
  { unfold src. rewrite call_text_app.
    now rewrite !append_assoc, !append_cons, append_nil_l. }
  rewrite call_text_app.
  rewrite (var_head src name
             (String Ch.lparen (args_text args +:+ String Ch.rparen next))
             _ _ _ Hname eq_refl), Hg.
  cbv zeta.
  assert (Hname' := Hname). unfold is_name in Hname'.
  apply andb_true_iff in Hname' as [_ Hbytes].
  pose proof (extractArgs_call (E := E) (pre +:+ String Ch.dollar EmptyString)
                name next args (is_name_no_paren _ Hbytes) Hargs) as Hex.
  rewrite <- Hsrc in Hex.
  rewrite length_app_str in Hex. cbn [String.length] in Hex.
  replace (String.length pre + 1)%nat with (S (String.length pre)) in Hex by lia.
  rewrite Hex, (expandArgs_collect _ _ _ _ Hexp Hcol), Hact.
  set (body := args_text args +:+ String Ch.rparen EmptyString).
  replace (S (String.length pre) + String.length name + 1
           + String.length (args_text args) - String.length pre)%nat
    with (String.length (name +:+ String Ch.lparen body)).
  2:{ unfold body. rewrite !length_app_str. cbn [String.length].
      rewrite length_app_str. cbn [String.length]. lia. }
  replace (name +:+ String Ch.lparen (args_text args +:+ String Ch.rparen next))
    with ((name +:+ String Ch.lparen body) +:+ next).
  2:{ unfold body. now rewrite !append_assoc, !append_cons, !append_assoc,
        append_cons, append_nil_l. }
  rewrite skip_run, Z.lor_assoc.
  f_equal. rewrite call_text_length. unfold body.
  rewrite !length_app_str. cbn [String.length].
  rewrite length_app_str. cbn [String.length]. lia.
Qed.

(** Every argument that has a value is expanded to it. *)
Lemma arg_value_expands (a : Arg) :
  arg_ok a = true ->
  forall phase value, arg_value a = Some (phase, value) -> arg_expands a phase value.
Proof.
  induction a as [s | q s | name args IH] using Arg_nested_ind;
    intros Hok phase value Hv; unfold arg_expands; cbn [arg_raw arg_value] in *.
  - cbn [arg_ok] in Hok. apply andb_true_iff in Hok as [_ Hd].
    apply negb_true_iff in Hd. rewrite Hd. injection Hv as <- <-. now split.
  - destruct (starts_with_dollar s); [discriminate |].
    injection Hv as <- <-. now split.
  - change (expand (call_text name (args_text args)) = (phase, value, None)).
    assert (Hexp : args_expand args).
    { pose proof Hok as Hok'. cbn [arg_ok] in Hok'.
      apply andb_true_iff in Hok' as [_ Hargs].
      rewrite forallb_forall in Hargs.
      rewrite List.Forall_forall in IH. apply List.Forall_forall.
      intros x Hx. apply IH; [exact Hx | now apply Hargs]. }
    pose proof (call_run name args phase value EmptyString EmptyString
                  PhaseNone EmptyString Hok Hexp Hv) as Hrun.
    cbv zeta in Hrun. rewrite !append_nil_l, !append_nil_r in Hrun.
    cbn [String.length Nat.add] in Hrun.
    rewrite ExpandVars_unfold in Hrun. cbn [ExpandVars_loop] in Hrun.
    injection Hrun as ->. unfold PhaseNone. now rewrite Z.lor_0_l.
Qed.

(** One piece: the loop writes its value and goes on behind it. *)
Lemma piece_run (p : Piece) (pre next : string) (phase : PhaseFlag) (dst : string) :
  piece_ok p next = true ->
  let src := pre +:+ piece_text p +:+ next in
  xloop src (piece_text p +:+ next) (String.length pre) O phase dst
  = xloop src next (String.length pre + String.length (piece_text p)) O
      (Z.lor phase (piece_phase p)) (dst +:+ piece_value p).
Proof.
  intros Hok src.
  destruct p as [text | | | name | name | name args];
    cbn [piece_ok piece_text piece_phase piece_value] in *;
    unfold PhaseNone; rewrite ?Z.lor_0_r.
  - now apply text_run.
  - rewrite !append_cons, append_nil_l. cbn [ExpandVars_loop].
    rewrite Ascii.eqb_refl. cbn [negb String.length].
    now replace (String.length pre + 2)%nat with (S (S (String.length pre))) by lia.
  - rewrite !append_cons, append_nil_l. cbn [ExpandVars_loop]. cbn.
    now replace (String.length pre + 2)%nat with (S (S (String.length pre))) by lia.
  - apply andb_true_iff in Hok as [Hok Hreq].
    apply andb_true_iff in Hok as [Hok Hdyn].
    apply andb_true_iff in Hok as [Hname Hnext].
    apply negb_true_iff in Hdyn, Hnext.
    destruct (has_key_true _ _ Hreq) as [g Hg].
    rewrite append_cons, (var_head _ _ _ _ _ _ Hname Hnext).
    rewrite (has_key_false _ _ Hdyn), Hg, skip_run. cbn [String.length].
    now replace (S (String.length pre) + String.length name)%nat
      with (String.length pre + S (String.length name))%nat by lia.
  - apply andb_true_iff in Hok as [Hok Hresp].
    apply andb_true_iff in Hok as [Hok Hreq].
    apply andb_true_iff in Hok as [Hok Hdyn].
    apply andb_true_iff in Hok as [Hname Hnext].
    apply negb_true_iff in Hdyn, Hnext, Hreq.
    destruct (has_key_true _ _ Hresp) as [g Hg].
    rewrite append_cons, (var_head _ _ _ _ _ _ Hname Hnext).
    rewrite (has_key_false _ _ Hdyn), (has_key_false _ _ Hreq), Hg, skip_run.
    cbn [String.length].
    now replace (S (String.length pre) + String.length name)%nat
      with (String.length pre + S (String.length name))%nat by lia.
  - apply andb_true_iff in Hok as [Hok Hval].
    destruct (arg_value (ArgCall name args)) as [[p v]|] eqn:Hv; [| discriminate].
    apply call_run; [exact Hok | | exact Hv].
    pose proof Hok as Hok'. cbn [arg_ok] in Hok'.
    apply andb_true_iff in Hok' as [_ Hargs]. rewrite forallb_forall in Hargs.
    apply List.Forall_forall. intros x Hx.
    apply arg_value_expands. now apply Hargs.
Qed.

Lemma tmpl_text_cons (p : Piece) (ps : list Piece) :
  tmpl_text (p :: ps) = piece_text p +:+ tmpl_text ps.
Proof. reflexivity. Qed.

(** The pieces one after the other. *)
Lemma pieces_run (ps : list Piece) (pre tail : string) (phase : PhaseFlag)
    (dst : string) :
  tmpl_ok ps tail = true ->
  let src := pre +:+ tmpl_text ps +:+ tail in
  xloop src (tmpl_text ps +:+ tail) (String.length pre) O phase dst
  = xloop src tail (String.length pre + String.length (tmpl_text ps)) O
      (Z.lor phase (tmpl_phase ps)) (dst +:+ tmpl_value ps).
Proof.
  revert pre phase dst. induction ps as [|p ps IH]; intros pre phase dst Hok src.
  - cbn. unfold PhaseNone. now rewrite Z.lor_0_r, append_nil_r, Nat.add_0_r.
  - cbn [tmpl_ok] in Hok. apply andb_true_iff in Hok as [Hp Hps].
    unfold src. rewrite tmpl_text_cons, !append_assoc.
    pose proof (piece_run p pre _ phase dst Hp) as Hrun. cbv zeta in Hrun.
    rewrite Hrun.
    pose proof (IH (pre +:+ piece_text p) (Z.lor phase (piece_phase p))
                  (dst +:+ piece_value p) Hps) as Hrest.
    cbv zeta in Hrest. rewrite length_app_str, !append_assoc in Hrest.
    rewrite Hrest. cbn [tmpl_phase tmpl_value fold_right].
    fold (tmpl_phase ps) (tmpl_value ps).
    rewrite Z.lor_assoc, length_app_str, Nat.add_assoc. reflexivity.
Qed.

(** X26.  A template that reads as a list of pieces expands to the
    values of its pieces in order: text as it is, [$$] to one dollar,
    [${] to itself, a static variable to what its getter returns, a
    function-like variable to what its getter returns for the values of
    its arguments, where a bare or quoted argument that does not start
    with a dollar is its own value and a nested call is expanded in the
    same way first.  The phase is the union of the phases of the
    variables, those of the nested calls included. *)
Theorem ExpandVars_pieces (ps : list Piece) :
  tmpl_ok ps EmptyString = true ->
  expand (tmpl_text ps) = (tmpl_phase ps, tmpl_value ps, None).
Proof.
  intros Hok.
  pose proof (pieces_run ps EmptyString EmptyString PhaseNone EmptyString Hok) as H.
  cbv zeta in H. rewrite !append_nil_l, !append_nil_r in H.
  cbn [String.length] in H. rewrite ExpandVars_unfold in H.
  cbn [ExpandVars_loop] in H. injection H as ->.
  unfold PhaseNone. now rewrite Z.lor_0_l.
Qed.

(** *** Errors *)

(** What [ExpandVars] stops at: a dollar at the end, a dollar before a
    byte that starts nothing, a name that no map knows. *)
Inductive BadTail :=
| BadEnd
| BadByte (c : ascii) (rest : string)
| BadName (name rest : string).

Definition bad_text (b : BadTail) : string :=
  match b with
  | BadEnd => String Ch.dollar EmptyString
  | BadByte c rest => String Ch.dollar (String c rest)
  | BadName name rest => String Ch.dollar (name +:+ rest)
  end.

Definition bad_ok (b : BadTail) : bool :=
  match b with
  | BadEnd => true
  | BadByte c _ =>
    negb (Ascii.eqb c Ch.dollar) && negb (Ascii.eqb c Ch.lbrace)
    && negb (validVarNameCharset c)
  | BadName name rest =>
    is_name name && negb (starts_name rest)
    && negb (has_key dynamicVarSubsMap name)
    && negb (has_key staticReqVarSubsMap name)
    && negb (has_key staticRespVarSubsMap name)
  end.

(** The error; [j] is the index behind the dollar. *)
Definition bad_error (b : BadTail) (j : nat) : VarsError E :=
  match b with
  | BadEnd => ErrUnterminatedEnvVarAt None
  | BadByte _ _ => ErrUnterminatedEnvVarAt (Some j)
  | BadName name _ => ErrUnexpectedVar name
  end.

(** X27.  Behind a text that reads as pieces, a dollar at the end of
    the template, a dollar before a byte other than a dollar, an opening
    brace, a letter or an underscore, and a variable name that none of
    the three maps knows make [ExpandVars] return an error; what the
    pieces expand to has been written by then. *)
Theorem ExpandVars_errors (ps : list Piece) (b : BadTail) :
  tmpl_ok ps (bad_text b) = true ->
  bad_ok b = true ->
  expand (tmpl_text ps +:+ bad_text b)
  = (tmpl_phase ps, tmpl_value ps,
     Some (bad_error b (S (String.length (tmpl_text ps))))).
Proof.
  intros Hok Hbad.
  pose proof (pieces_run ps EmptyString (bad_text b) PhaseNone EmptyString Hok) as H.
  cbv zeta in H. rewrite !append_nil_l in H.
  cbn [String.length Nat.add] in H. rewrite ExpandVars_unfold in H.
  unfold PhaseNone in H. rewrite Z.lor_0_l in H.
  assert (Hstop : xloop (tmpl_text ps +:+ bad_text b) (bad_text b)
                    (String.length (tmpl_text ps)) O (tmpl_phase ps) (tmpl_value ps)
                  = Some (tmpl_phase ps, tmpl_value ps,
                          Some (bad_error b (S (String.length (tmpl_text ps)))))).
  { destruct b as [| c rest | name rest]; cbn [bad_text bad_ok bad_error] in *.
    - cbn [ExpandVars_loop]. rewrite Ascii.eqb_refl. reflexivity.
    - apply andb_true_iff in Hbad as [Hbad Hc3].
      apply andb_true_iff in Hbad as [Hc1 Hc2].
      apply negb_true_iff in Hc1, Hc2, Hc3.
      cbn [ExpandVars_loop]. rewrite Ascii.eqb_refl. cbn [negb].
      rewrite Hc1, Hc2, Hc3. reflexivity.
    - apply andb_true_iff in Hbad as [Hbad Hresp].
      apply andb_true_iff in Hbad as [Hbad Hreq].
      apply andb_true_iff in Hbad as [Hbad Hdyn].
      apply andb_true_iff in Hbad as [Hname Hnext].
      apply negb_true_iff in Hdyn, Hnext, Hreq, Hresp.
      rewrite (var_head _ _ _ _ _ _ Hname Hnext).
      now rewrite (has_key_false _ _ Hdyn), (has_key_false _ _ Hreq),
        (has_key_false _ _ Hresp). }
  rewrite Hstop in H. now injection H.
Qed.

End ExpandVarsFacts.

(** A request of which the method is all that matters, and maps with
    variables of each kind. *)
Definition vars_dyn : gmap string (@dynamicVarGetter Z string string) :=
  {[ "header" := {| dv_phase := PhaseNone;
                    dv_get := fun args _ _ =>
                      match args with
                      | [] => inl "no key"
                      | key :: _ => inr ("<" +:+ key +:+ ">")
                      end |};
     "resp_header" := {| dv_phase := PhasePost;
                         dv_get := fun args _ _ =>
                           match args with
                           | [] => inl "no key"
                           | key :: _ => inr ("[" +:+ key +:+ "]")
                           end |} ]}.
Definition vars_req : gmap string (string -> string) :=
  {[ "req_method" := fun method => method ]}.
Definition vars_resp : gmap string (Z -> string) :=
  {[ "status_code" := fun code => if code =? 200 then "200" else "other" ]}.

Definition tmpl_pieces : list Piece :=
  [PText "m="; PReqVar "req_method"; PText " "; PDollar; PEnvOpen; PText "X} ";
   PFunc "header" [ArgBare "Accept"; ArgQuoted Ch.squote "a b"];
   PText "/"; PRespVar "status_code"].

(** A call in a call: the phase of the inner variable is that of the
    template. *)
Definition tmpl_nested : list Piece :=
  [PText "v=";
   PFunc "header"
     [ArgCall "resp_header" [ArgCall "header" [ArgBare "a$b"]; ArgBare "c"];
      ArgQuoted Ch.squote "q"];
   PText "."].

Lemma ExpandVars_pieces_witness :
  ExpandVars vars_dyn vars_req vars_resp 200 "GET"
    "m=$req_method $$${X} $header(Accept, 'a b')/$status_code"
  = (PhasePost, "m=GET $${X} <Accept>/200", None)
  /\ ExpandVars vars_dyn vars_req vars_resp 200 "GET"
       "v=$header($resp_header($header(a$b), c), 'q')."
     = (PhasePost, "v=<[<a$b>]>.", None).
Proof.
  split.
  - apply (ExpandVars_pieces vars_dyn vars_req vars_resp 200 "GET" tmpl_pieces).
    vm_compute. reflexivity.
  - apply (ExpandVars_pieces vars_dyn vars_req vars_resp 200 "GET" tmpl_nested).
    vm_compute. reflexivity.
Defined.

Lemma ExpandVars_errors_witness :
  ExpandVars vars_dyn vars_req vars_resp 200 "GET"
    "m=$req_method $header($resp_header(k)) $foo bar"
  = (PhasePost, "m=GET <[k]> ", Some (ErrUnexpectedVar "foo")).
Proof.
  apply (ExpandVars_errors vars_dyn vars_req vars_resp 200 "GET"
           [PText "m="; PReqVar "req_method"; PText " ";
            PFunc "header" [ArgCall "resp_header" [ArgBare "k"]]; PText " "]
           (BadName "foo" " bar"));
    vm_compute; reflexivity.
Defined.

(** Other errors: of the getter, of [extractArgs], and of a nested call,
    which stops the call around it; an argument that starts with a
    dollar must be a call, and a quoted one is expanded as a template of
    its own. *)
Example ExpandVars_more_errors :
  ExpandVars vars_dyn vars_req vars_resp 200 "GET" "cost $"
  = (PhaseNone, "cost ", Some (ErrUnterminatedEnvVarAt None))
  /\ ExpandVars vars_dyn vars_req vars_resp 200 "GET" "cost $5"
     = (PhaseNone, "cost ", Some (ErrUnterminatedEnvVarAt (Some 6%nat)))
  /\ ExpandVars vars_dyn vars_req vars_resp 200 "GET" "$header()"
     = (PhaseNone, EmptyString, Some (ErrGetter "no key"))
  /\ ExpandVars vars_dyn vars_req vars_resp 200 "GET" "$header(a"
     = (PhaseNone, EmptyString, Some (ErrUnterminatedParenthesis "header" None))
  /\ ExpandVars vars_dyn vars_req vars_resp 200 "GET" "$header($foo(a))"
     = (PhaseNone, EmptyString, Some (ErrUnexpectedVar "foo"))
  /\ ExpandVars vars_dyn vars_req vars_resp 200 "GET" "$header($resp_header())"
     = (PhaseNone, EmptyString, Some (ErrGetter "no key"))
  /\ ExpandVars vars_dyn vars_req vars_resp 200 "GET" "$header($req_method)"
     = (PhaseNone, EmptyString, Some (ErrUnterminatedParenthesisNested 8))
  /\ ExpandVars vars_dyn vars_req vars_resp 200 "GET" "$header('$req_method')"
     = (PhaseNone, "<GET>", None)
  /\ ExpandVars vars_dyn vars_req vars_resp 200 "GET" "$header('$status_code')"
     = (PhasePost, "<200>", None).
Proof. repeat split; vm_compute; reflexivity. Qed.

(** *** Validated templates *)

Section ValidatedTemplates.

Context {W Req E : Type}.
Variable dynamicVarSubsMap : gmap string (@dynamicVarGetter W Req E).
Variable staticReqVarSubsMap : gmap string (Req -> string).
Variable staticRespVarSubsMap : gmap string (W -> string).

Abbreviation vexpand :=
  (ExpandVars dynamicVarSubsMap staticReqVarSubsMap staticRespVarSubsMap).
Abbreviation vloop :=
  (ExpandVars_loop dynamicVarSubsMap staticReqVarSubsMap staticRespVarSubsMap
     (fun w req arg => Some (vexpand w req arg))).
Abbreviation vargs :=
  (expandArgs (fun w req arg => Some (vexpand w req arg))).





Section TwoRequests.

Variables (w1 w2 : W) (r1 r2 : Req).




End TwoRequests.

Variable voidResponseModifier : W.
Variable dummyRequest : Req.

Abbreviation validate :=
  (validateTemplate dynamicVarSubsMap staticReqVarSubsMap staticRespVarSubsMap
     voidResponseModifier dummyRequest).
Abbreviation toString :=
  (ExpandVarsToString dynamicVarSubsMap staticReqVarSubsMap staticRespVarSubsMap).


End ValidatedTemplates.


(** A text in which no dollar is followed by a letter, a digit or an
    underscore is kept as a plain string: its [$$] is not turned into
    one dollar. *)
Example plain_template_keeps_dollars :
  validateTemplate vars_dyn vars_req vars_resp 0 EmptyString "cost: $$ 5" false
  = (PhaseNone, {| ts_string := "cost: $$ 5"; isTemplate := false |}, None)
  /\ validateTemplate vars_dyn vars_req vars_resp 0 EmptyString "cost: $$5" false
     = (PhaseNone, {| ts_string := "cost: $$5"; isTemplate := true |}, None)
  /\ ExpandVarsToString vars_dyn vars_req vars_resp
       {| ts_string := "cost: $$5"; isTemplate := true |} 200 "GET"
     = ("cost: $5", PhaseNone, None).
Proof. repeat split; vm_compute; reflexivity. Qed.

(** ** The [header] field and the [header] matcher *)

Section FieldHeaderFacts.

Context {W E : Type}.
Variable dynamicVarSubsMap : gmap string (@dynamicVarGetter W Request E).
Variable staticReqVarSubsMap : gmap string (Request -> string).
Variable staticRespVarSubsMap : gmap string (W -> string).
Variable stripFragment : string -> string.

Abbreviation header_field :=
  (FieldHeader_builder dynamicVarSubsMap staticReqVarSubsMap staticRespVarSubsMap).
Abbreviation expandToString :=
  (ExpandVarsToString dynamicVarSubsMap staticReqVarSubsMap staticRespVarSubsMap).

Lemma OnHeader_other (k k' : string) (mm : option Matcher) (r : Request)
    (h : Values) :
  h !! k' = Header r !! k' ->
  OnHeader k' mm (with_Header r h) = OnHeader k' mm r.
Proof.
  intros H. unfold OnHeader, index_map. cbn [Header with_Header]. now rewrite H.
Qed.

(** X29.  With a template that expands to [v]: after [set] of the
    header [k] the [header] matcher and the [$header] variable see the
    one value [v] under [k]; after [add] the matcher holds if it held
    before or [v] matches; after [remove] no matcher holds for [k] and
    the variable is empty.  None of the three changes what the matcher
    sees under another key. *)
Theorem header_field_round_trip (k : string) (tmpl : templateString) (w : W)
    (r : Request) (v : string) (ph : PhaseFlag) :
  expandToString tmpl w r = (v, ph, None) ->
  let fh := header_field k tmpl in
  let r_set := fst (fh_set fh w r) in
  let r_add := fst (fh_add fh w r) in
  let r_rem := fst (fh_remove fh w r) in
  ((forall m, OnHeader k (Some m) r_set = m v)
   /\ OnHeader k None r_set = true
   /\ VarHeader_get stripFragment [k] r_set = Ret (stripFragment v, None))
  /\ ((forall m, OnHeader k (Some m) r_add = OnHeader k (Some m) r || m v)
      /\ OnHeader k None r_add = true)
  /\ ((forall mm, OnHeader k mm r_rem = false)
      /\ VarHeader_get stripFragment [k] r_rem = Ret (EmptyString, None))
  /\ (forall k' mm, k' <> k ->
        OnHeader k' mm r_set = OnHeader k' mm r
        /\ OnHeader k' mm r_add = OnHeader k' mm r
        /\ OnHeader k' mm r_rem = OnHeader k' mm r).
Proof.
  intros Hv fh r_set r_add r_rem.
  unfold r_set, r_add, r_rem, fh. cbn [FieldHeader_builder fh_set fh_add fh_remove].
  rewrite Hv. cbn [fst].
  repeat split.
  - intros m. unfold OnHeader, index_map. cbn [Header with_Header].
    rewrite lookup_insert_eq. cbn. now rewrite orb_false_r.
  - unfold OnHeader, index_map. cbn [Header with_Header].
    now rewrite lookup_insert_eq.
  - unfold VarHeader_get, getKeyAndIndex, getValueByKeyAtIndex.
    cbn [Header with_Header]. rewrite lookup_insert_eq. reflexivity.
  - intros m. unfold OnHeader. unfold index_map at 1. cbn [Header with_Header].
    rewrite lookup_insert_eq, existsb_app. cbn. now rewrite orb_false_r.
  - unfold OnHeader. unfold index_map at 1. cbn [Header with_Header].
    rewrite lookup_insert_eq, length_app. cbn [length].
    apply Nat.ltb_lt. lia.
  - intros [m|]; unfold OnHeader, index_map; cbn [Header with_Header];
      now rewrite lookup_delete_eq.
  - unfold VarHeader_get, getKeyAndIndex, getValueByKeyAtIndex.
    cbn [Header with_Header]. now rewrite lookup_delete_eq.
  - apply OnHeader_other, lookup_insert_ne; congruence.
  - apply OnHeader_other, lookup_insert_ne; congruence.
  - apply OnHeader_other, lookup_delete_ne; congruence.
Qed.

End FieldHeaderFacts.

Definition req_plain : Request :=
  {| Method := "GET";
     url := {| Scheme := "http"; Path := "/"; RawPath := EmptyString;
               RawQuery := EmptyString; Fragment := EmptyString |};
     Header := {[ "X-Tag" := ["a"] ]};
     Host := "example.com"; RequestURI := "/" |}.

Definition tmpl_method : templateString :=
  {| ts_string := "m-$req_method"; isTemplate := true |}.

Definition vars_req_method : gmap string (Request -> string) :=
  {[ "req_method" := Method ]}.

Lemma header_field_round_trip_witness :
  let fh := @FieldHeader_builder unit unit ∅ vars_req_method ∅ "X-Tag" tmpl_method in
  let r_set := fst (fh_set fh tt req_plain) in
  let r_add := fst (fh_add fh tt req_plain) in
  let r_rem := fst (fh_remove fh tt req_plain) in
  ((forall m, OnHeader "X-Tag" (Some m) r_set = m "m-GET")
   /\ OnHeader "X-Tag" None r_set = true
   /\ VarHeader_get id ["X-Tag"] r_set = Ret (id "m-GET", None))
  /\ ((forall m, OnHeader "X-Tag" (Some m) r_add
                 = OnHeader "X-Tag" (Some m) req_plain || m "m-GET")
      /\ OnHeader "X-Tag" None r_add = true)
  /\ ((forall mm, OnHeader "X-Tag" mm r_rem = false)
      /\ VarHeader_get id ["X-Tag"] r_rem = Ret (EmptyString, None))
  /\ (forall k' mm, k' <> "X-Tag" ->
        OnHeader k' mm r_set = OnHeader k' mm req_plain
        /\ OnHeader k' mm r_add = OnHeader k' mm req_plain
        /\ OnHeader k' mm r_rem = OnHeader k' mm req_plain).
Proof.
  apply (header_field_round_trip (W := unit) (E := unit) ∅ vars_req_method ∅ id
           "X-Tag" tmpl_method tt req_plain "m-GET" PhaseNone).
  vm_compute. reflexivity.
Defined.

(** ** [matcherSignature]: the order of the parts does not matter *)

(** *** The order of Go strings *)

Lemma byteZ_eq (x y : ascii) : Go.byteZ x = Go.byteZ y -> x = y.
Proof.
  intros H. rewrite <- (byte_of_byteZ x), <- (byte_of_byteZ y). now rewrite H.
Qed.

Lemma str_ltb_irrefl (a : string) : Go.str_ltb a a = false.
Proof.
  induction a as [|x a IH]; [reflexivity |].
  cbn [Go.str_ltb]. now rewrite Z.ltb_irrefl.
Qed.

Lemma str_ltb_trans (a b c : string) :
  Go.str_ltb a b = true -> Go.str_ltb b c = true -> Go.str_ltb a c = true.
Proof.
  revert b c. induction a as [|x a IH]; intros [|y b] [|z c];
    cbn [Go.str_ltb]; try discriminate; try reflexivity.
  destruct (Z.ltb_spec (Go.byteZ x) (Go.byteZ y)),
           (Z.ltb_spec (Go.byteZ y) (Go.byteZ x)),
           (Z.ltb_spec (Go.byteZ y) (Go.byteZ z)),
           (Z.ltb_spec (Go.byteZ z) (Go.byteZ y)),
           (Z.ltb_spec (Go.byteZ x) (Go.byteZ z)),
           (Z.ltb_spec (Go.byteZ z) (Go.byteZ x));
    try lia; try discriminate; try reflexivity.
  apply IH.
Qed.

Lemma str_ltb_total (a b : string) :
  Go.str_ltb a b = false -> Go.str_ltb b a = false -> a = b.
Proof.
  revert b. induction a as [|x a IH]; intros [|y b];
    cbn [Go.str_ltb]; try discriminate; try reflexivity.
  destruct (Z.ltb_spec (Go.byteZ x) (Go.byteZ y)),
           (Z.ltb_spec (Go.byteZ y) (Go.byteZ x));
    try lia; try discriminate.
  intros H1 H2. f_equal; [apply byteZ_eq; lia | now apply IH].
Qed.

Definition str_lt (a b : string) : Prop := Go.str_ltb a b = true.
Definition str_le (a b : string) : Prop := Go.str_ltb b a = false.

Lemma str_lt_le (a b : string) : str_lt a b -> str_le a b.
Proof.
  unfold str_lt, str_le. intros H.
  destruct (Go.str_ltb b a) eqn:Hba; [| reflexivity].
  pose proof (str_ltb_trans _ _ _ H Hba) as Haa.
  now rewrite str_ltb_irrefl in Haa.
Qed.

Lemma str_le_trans (a b c : string) : str_le a b -> str_le b c -> str_le a c.
Proof.
  unfold str_le. intros Hab Hbc.
  destruct (Go.str_ltb c a) eqn:Hca; [| reflexivity].
  destruct (Go.str_ltb a b) eqn:Hlt.
  - now rewrite (str_ltb_trans _ _ _ Hca Hlt) in Hbc.
  - rewrite (str_ltb_total _ _ Hlt Hab) in Hca. now rewrite Hca in Hbc.
Qed.

Lemma str_lt_of_le_ne (a b : string) : str_le a b -> a <> b -> str_lt a b.
Proof.
  unfold str_le, str_lt. intros Hle Hne.
  destruct (Go.str_ltb a b) eqn:Hlt; [reflexivity |].
  now destruct Hne; apply str_ltb_total.
Qed.

Lemma str_lt_le_trans (a b c : string) : str_lt a b -> str_le b c -> str_lt a c.
Proof.
  intros Hab Hbc. apply str_lt_of_le_ne.
  - eapply str_le_trans; [apply str_lt_le |]; eassumption.
  - intros ->. unfold str_lt, str_le in *. now rewrite Hab in Hbc.
Qed.

(** *** [slices.Sort] and [slices.Compact] *)

(** Every element is related to all the later ones. *)
Fixpoint sorted_by (R : string -> string -> Prop) (l : list string) : Prop :=
  match l with
  | [] => True
  | x :: l' => sorted_by R l' /\ Forall (R x) l'
  end.

Lemma insert_sorted_In (x z : string) (l : list string) :
  In z (Go.insert_sorted x l) <-> z = x \/ In z l.
Proof.
  induction l as [|y l IH]; cbn [Go.insert_sorted In]; [intuition |].
  destruct (Go.str_ltb y x); cbn [In]; [rewrite IH |]; intuition.
Qed.

Lemma insert_sorted_sorted (x : string) (l : list string) :
  sorted_by str_le l -> sorted_by str_le (Go.insert_sorted x l).
Proof.
  induction l as [|y l IH]; intros Hs; cbn [Go.insert_sorted].
  - cbn. split; [exact I | constructor].
  - destruct Hs as [Hl Hy].
    destruct (Go.str_ltb y x) eqn:Hyx.
    + split; [now apply IH |].
      apply List.Forall_forall. intros z Hz. apply insert_sorted_In in Hz as [-> | Hz].
      * now apply str_lt_le.
      * rewrite List.Forall_forall in Hy. now apply Hy.
    + split; [now split |].
      constructor; [exact Hyx |].
      apply List.Forall_forall. intros z Hz. rewrite List.Forall_forall in Hy.
      apply str_le_trans with y; [exact Hyx | now apply Hy].
Qed.

Lemma Sort_In (z : string) (l : list string) : In z (Go.Sort l) <-> In z l.
Proof.
  induction l as [|x l IH]; [reflexivity |].
  unfold Go.Sort in *. cbn [fold_right In]. rewrite insert_sorted_In, IH.
  intuition.
Qed.

Lemma Sort_sorted (l : list string) : sorted_by str_le (Go.Sort l).
Proof.
  induction l as [|x l IH]; [exact I |].
  unfold Go.Sort in *. cbn [fold_right]. now apply insert_sorted_sorted.
Qed.

Lemma Compact_cons (x y : string) (l : list string) :
  Go.Compact (x :: y :: l)
  = if String.eqb x y then Go.Compact (y :: l) else x :: Go.Compact (y :: l).
Proof. reflexivity. Qed.

Lemma Compact_In (z : string) (l : list string) : In z (Go.Compact l) <-> In z l.
Proof.
  induction l as [|x l IH]; [reflexivity |].
  destruct l as [|y l]; [reflexivity |].
  rewrite Compact_cons. destruct (String.eqb_spec x y) as [-> | Hne].
  - rewrite IH. cbn [In]. intuition.
  - cbn [In] in *. rewrite IH. intuition.
Qed.

Lemma Compact_sorted (l : list string) :
  sorted_by str_le l -> sorted_by str_lt (Go.Compact l).
Proof.
  induction l as [|x l IH]; intros Hs; [exact I |].
  destruct Hs as [Hl Hx].
  destruct l as [|y l]; [cbn; split; [exact I | constructor] |].
  rewrite Compact_cons. destruct (String.eqb_spec x y) as [-> | Hne].
  - now apply IH.
  - split; [now apply IH |].
    apply List.Forall_forall. intros z Hz. rewrite Compact_In in Hz.
    pose proof Hx as Hx'. rewrite List.Forall_forall in Hx'.
    assert (Hxy : str_lt x y).
    { apply str_lt_of_le_ne; [apply Hx'; now left | exact Hne]. }
    destruct Hz as [<- | Hz]; [exact Hxy |].
    destruct Hl as [_ Hy]. rewrite List.Forall_forall in Hy.
    apply str_lt_le_trans with y; [exact Hxy | now apply Hy].
Qed.

Lemma strictly_sorted_unique (l1 l2 : list string) :
  sorted_by str_lt l1 -> sorted_by str_lt l2 ->
  (forall z, In z l1 <-> In z l2) -> l1 = l2.
Proof.
  revert l2. induction l1 as [|x l1 IH]; intros [|y l2] H1 H2 Hin.
  - reflexivity.
  - destruct (proj2 (Hin y)). now left.
  - destruct (proj1 (Hin x)). now left.
  - destruct H1 as [H1 Hx], H2 as [H2 Hy].
    rewrite List.Forall_forall in Hx, Hy.
    assert (Hirr : forall a, ~ str_lt a a).
    { intros a Ha. unfold str_lt in Ha. now rewrite str_ltb_irrefl in Ha. }
    assert (Hasym : forall a b, str_lt a b -> ~ str_lt b a).
    { intros a b Hab Hba. apply (Hirr a). unfold str_lt in *.
      eapply str_ltb_trans; eassumption. }
    assert (Hxy : x = y).
    { destruct (proj1 (Hin x)) as [Heq | Hx2]; [now left | now symmetry |].
      destruct (proj2 (Hin y)) as [Heq | Hy1]; [now left | exact Heq |].
      destruct (Hasym _ _ (Hx _ Hy1) (Hy _ Hx2)). }
    subst y. f_equal. apply IH; trivial.
    intros z. split; intros Hz.
    + destruct (proj1 (Hin z)) as [<- | Hz2]; [now right | | exact Hz2].
      destruct (Hirr _ (Hx _ Hz)).
    + destruct (proj2 (Hin z)) as [<- | Hz1]; [now right | | exact Hz1].
      destruct (Hirr _ (Hy _ Hz)).
Qed.

(** Sorting and compacting depends on the set of the elements only. *)
Lemma Compact_Sort_set (l1 l2 : list string) :
  (forall z, In z l1 <-> In z l2) ->
  Go.Compact (Go.Sort l1) = Go.Compact (Go.Sort l2).
Proof.
  intros Hin. apply strictly_sorted_unique.
  - apply Compact_sorted, Sort_sorted.
  - apply Compact_sorted, Sort_sorted.
  - intros z. now rewrite !Compact_In, !Sort_In.
Qed.

(** *** The loop over the AND parts *)

Definition same_parts (l1 l2 : list string) : bool :=
  forallb (fun p => existsb (String.eqb p) l2) l1
  && forallb (fun p => existsb (String.eqb p) l1) l2.

Lemma same_parts_In (l1 l2 : list string) :
  same_parts l1 l2 = true -> forall p, In p l1 <-> In p l2.
Proof.
  unfold same_parts. rewrite andb_true_iff, !forallb_forall.
  intros [H12 H21] p. split; intros Hp.
  - apply H12, existsb_exists in Hp as (q & Hq & Heq).
    now apply String.eqb_eq in Heq as ->.
  - apply H21, existsb_exists in Hp as (q & Hq & Heq).
    now apply String.eqb_eq in Heq as ->.
Qed.

Section SignatureFacts.

Variable LookupEnv : string -> option string.

(** What one AND part adds to [canonAnd]: nothing when it has no OR
    part, else its canonical form; [None] is the early return. *)
Definition part_canon (andPart : string) : outcome (option (list string)) :=
  match splitPipe andPart with
  | [] => Ret (Some [])
  | orParts =>
    r ← canonOr_loop LookupEnv orParts [];
    match r with
    | None => Ret None
    | Some canonOr =>
      Ret (Some ["(" +:+ Go.Join (Go.Compact (Go.Sort canonOr)) "|" +:+ ")"])
    end
  end.

Lemma canonAnd_loop_cons (p : string) (ps acc : list string) :
  canonAnd_loop LookupEnv (p :: ps) acc
  = (r ← part_canon p;
     match r with
     | None => Ret None
     | Some c => canonAnd_loop LookupEnv ps (acc ++ c)
     end).
Proof.
  cbn [canonAnd_loop]. unfold part_canon.
  destruct (splitPipe p) as [|o os].
  - cbn. now rewrite app_nil_r.
  - unfold mbind, outcome_bind.
    destruct (canonOr_loop LookupEnv (o :: os) []) as [[c|]|]; reflexivity.
Qed.

Lemma canonAnd_loop_success (ps acc c : list string) :
  canonAnd_loop LookupEnv ps acc = Ret (Some c) ->
  (forall p, In p ps -> exists s, part_canon p = Ret (Some s))
  /\ (forall z, In z c <->
        In z acc \/ exists p s, In p ps /\ part_canon p = Ret (Some s) /\ In z s).
Proof.
  revert acc. induction ps as [|p ps IH]; intros acc H.
  - cbn in H. injection H as <-. split; [intros p [] |].
    intros z. split; [now left | intros [Hz | (p & s & [] & _)]; exact Hz].
  - rewrite canonAnd_loop_cons in H. unfold mbind, outcome_bind in H.
    destruct (part_canon p) as [[s|]|] eqn:Hp; try discriminate.
    destruct (IH _ H) as [Hall Hin]. split.
    + intros q [<- | Hq]; [eauto | now apply Hall].
    + intros z. rewrite Hin, in_app_iff. split.
      * intros [[Hz | Hz] | (q & t & Hq & Ht & Hz)].
        -- now left.
        -- right. exists p, s. repeat split; trivial. now left.
        -- right. exists q, t. repeat split; trivial. now right.
      * intros [Hz | (q & t & [<- | Hq] & Ht & Hz)].
        -- left. now left.
        -- rewrite Hp in Ht. injection Ht as <-. left. now right.
        -- right. exists q, t. now repeat split.
Qed.

Lemma canonAnd_loop_complete (ps acc : list string) :
  (forall p, In p ps -> exists s, part_canon p = Ret (Some s)) ->
  exists c, canonAnd_loop LookupEnv ps acc = Ret (Some c).
Proof.
  revert acc. induction ps as [|p ps IH]; intros acc Hall.
  - eexists. reflexivity.
  - rewrite canonAnd_loop_cons. destruct (Hall p) as [s Hs]; [now left |].
    rewrite Hs. cbn. apply IH. intros q Hq. apply Hall. now right.
Qed.

Lemma canonAnd_loop_set (ps1 ps2 c1 : list string) :
  (forall p, In p ps1 <-> In p ps2) ->
  canonAnd_loop LookupEnv ps1 [] = Ret (Some c1) ->
  exists c2, canonAnd_loop LookupEnv ps2 [] = Ret (Some c2)
             /\ Go.Compact (Go.Sort c1) = Go.Compact (Go.Sort c2).
Proof.
  intros Hsame H1. destruct (canonAnd_loop_success _ _ _ H1) as [Hall1 Hin1].
  destruct (canonAnd_loop_complete ps2 []) as [c2 H2].
  { intros p Hp. apply Hall1. now apply Hsame. }
  exists c2. split; [exact H2 |].
  destruct (canonAnd_loop_success _ _ _ H2) as [_ Hin2].
  apply Compact_Sort_set. intros z. rewrite Hin1, Hin2.
  split; intros [[] | (p & s & Hp & Hs & Hz)]; right; exists p, s;
    (repeat split; trivial); now apply Hsame.
Qed.

(** X30.  For two expressions that are both blank or both not blank,
    the signature of a matcher depends on the set of its AND parts
    only: if [splitAnd] gives the same parts for the two expressions, in
    any order and with any repetition, and one of them has a signature,
    the other one has the same signature.  (A blank expression has the
    signature [(any)], which an expression without parts that is not
    blank does not have: see [matcherSignature_blank].) *)
Theorem matcherSignature_set_of_parts (raw1 raw2 sig : string) :
  is_empty (Go.TrimSpace raw1) = is_empty (Go.TrimSpace raw2) ->
  same_parts (splitAnd (Go.TrimSpace raw1)) (splitAnd (Go.TrimSpace raw2)) = true ->
  matcherSignature LookupEnv raw1 = Ret (sig, true) ->
  matcherSignature LookupEnv raw2 = Ret (sig, true).
Proof.
  unfold matcherSignature. intros Hblank Hsame H1.
  pose proof (same_parts_In _ _ Hsame) as Hin. clear Hsame. rename Hin into Hsame.
  rewrite <- Hblank. destruct (is_empty (Go.TrimSpace raw1)); [exact H1 |].
  destruct (splitAnd (Go.TrimSpace raw1)) as [|p1 ps1] eqn:Hs1; [discriminate |].
  unfold mbind, outcome_bind in H1 |- *.
  destruct (canonAnd_loop LookupEnv (p1 :: ps1) []) as [[c1|]|] eqn:Hc1;
    try discriminate.
  destruct (canonAnd_loop_set _ _ _ Hsame Hc1) as (c2 & Hc2 & Heq).
  destruct (splitAnd (Go.TrimSpace raw2)) as [|p2 ps2] eqn:Hs2.
  - destruct (proj1 (Hsame p1)). now left.
  - rewrite Hc2, <- Heq. exact H1.
Qed.

End SignatureFacts.

Definition raw_host_get : string := "header Host example.com & method GET".
Definition raw_get_host_get : string :=
  String.concat (String Ch.lf EmptyString)
    ["method GET"; "header Host example.com"; "  method GET"].

Lemma matcherSignature_set_of_parts_witness :
  matcherSignature (fun _ => None) raw_get_host_get
  = Ret ("(header Host" +:+ String Ascii.zero "example.com)&(method GET)", true).
Proof.
  apply (matcherSignature_set_of_parts (fun _ => None) raw_host_get raw_get_host_get);
    vm_compute; reflexivity.
Defined.

(** The blank expression and a lone [&] have the same parts, none, and
    not the same signature. *)
Example matcherSignature_blank :
  same_parts (splitAnd (Go.TrimSpace EmptyString)) (splitAnd (Go.TrimSpace "&")) = true
  /\ matcherSignature (fun _ => None) EmptyString = Ret ("(any)", true)
  /\ matcherSignature (fun _ => None) "&" = Ret (EmptyString, false).
Proof. repeat split; vm_compute; reflexivity. Qed.
